(* ===== verification/_CoqProject ===== *)
-Q . S2P
Prelude.v
RustIo.v
Protocol.v
ProtocolSpec.v
Utf8.v
Async.v
Quic.v
ServerAuth.v
Streams.v
ServerUdp.v
ServerConn.v
ServerTask.v
ServerScenario.v
ServerSafety.v
ServerHandlers.v
ServerWaiting.v
ClientConn.v
ClientTask.v
ClientHandlers.v
ClientLinear.v
ClientManage.v
EndToEnd.v
Socks5.v
UdpPath.v
ConfigLib.v
ServerConfig.v
ServerMain.v
ClientConfig.v
ClientConnect.v
ClientMain.v
