(* ===== verification/Prelude.v ===== *)
(** * TUIC: a verified model of the protocol, the server and the client

    TUIC relays TCP and UDP over one QUIC connection. A client program offers a
    socks5 server to local applications and forwards their traffic to a TUIC server,
    which talks to the Internet. The repository has three crates: the wire protocol
    (protocol/), the server (server/) and the client (client/).

    ** How the program works

    The client opens a QUIC connection on demand and sends [Authenticate] with the
    hash of a token. A TCP connection is a bidirectional stream that starts with
    [Connect]; the server answers [Response] and both ends copy bytes. A UDP
    association has a random number; its packets travel as [Packet] commands, each
    in a datagram (mode native) or on a stream of its own (mode quic), and
    [Dissociate] ends it. [Heartbeat] keeps the connection alive. On both sides every
    stream, datagram and request is handled by a task of its own; the tasks share the
    state of the connection through atomics, mutexes and channels. The order in which
    they touch it is up to the runtime, and most of what can go wrong is there.

    ** The files

    Foundations
    - [Prelude] (this file): results, panics, machine integers, big-endian encoding,
      the tactics and hint databases of the development.
    - [RustIo]: what the program uses of the Rust library: I/O errors,
      [String::from_utf8] with the positions it reports, IP and socket addresses,
      readers (the class [AsyncRead], with slices and QUIC streams as
      instances) and the writers.
    - [Async]: tasks as trees of operations ([prog]), systems of tasks over a shared
      state with one operation per step, a rely-guarantee logic for them, and programs
      run against an arbitrary environment ([perform]). A task alone runs with [run];
      [polls] = 8 bounds the accesses of one operation before it finishes or blocks.
      That is enough from any state: an operation that [run] gives up on is blocked
      ([polls_enough] of [ServerHandlers]; every operation of the client takes one
      access).
    - [Quic]: what the program asked of quinn: streams written and finished,
      datagrams sent, the first close.

    The protocol (protocol/src/lib.rs)
    - [Protocol]: [Command] and [Address] with [read_from], [write_to_buf],
      [write_to], [serialized_len]; the class [Codec], which is what both ends rely on.
    - [ProtocolSpec]: round trip over any reader, canonical form, lengths, truncated
      and malformed input, names that are too long.
    - [Utf8]: RFC 3629 as a reference definition; a domain name is accepted exactly
      when it is the encoding of a text.

    The server (server/src/connection/)
    - [ServerAuth]: [IsClosed] (mod.rs) and [IsAuthenticated] (authenticate.rs), whose
      [poll] is also given access by access.
    - [ServerUdp]: [UdpPacketFrom], [UdpSessionMap], [UdpSession] (udp.rs): sessions
      own sockets, channels have a capacity, the owners of sending ends are tracked.
    - [ServerConn]: [ConnState], what the clones of [Connection] share (mod.rs), with
      the operations tasks perform on it; the answers of the network are inputs, and
      what it was asked to resolve and to dial is recorded.
    - [ServerTask]: the handlers of task.rs and dispatch.rs, [handle] and the
      listeners of mod.rs.
    - [ServerScenario]: concrete runs.
    - [ServerSafety]: in all interleavings, relaying happens only after an
      authentication with a configured token, the UDP mode never changes, no task
      panics.
    - [ServerHandlers]: what each command does, errors included.
    - [ServerWaiting]: two ways in which a task waits for ever.
    - [ServerMain]: [Server] (server.rs) and main.rs, down to what a connection does.

    The client (client/src/relay/, client/src/socks5/)
    - [ClientConn]: the shared state of [Connection] (connection.rs), streams and
      their register (stream.rs), addresses (address.rs).
    - [ClientTask], [ClientHandlers]: the handlers of task.rs, incoming.rs and
      request.rs, authentication and heartbeat, and what they do.
    - [ClientLinear]: a usage discipline for the tasks: the register of live streams
      counts exactly the streams that are owned or were handed out.
    - [ClientManage]: [manage_connection], [listen_requests], [process_request] and
      [listen_incoming] as one transition system: one connection at a time, no failed
      [unwrap], every waiting request a few steps from a connection, and two wake-ups
      that can be lost, one of them for good.
    - [ClientConnect]: [Connection::connect], [connect_addr] and [new] against any
      resolver and transport: all they look up, bind and dial.
    - [Socks5]: the handlers of socks5/ against any environment, the loops of an
      association as a transition system over events (what they carried is read off
      the events, not recorded by the loops), the size of its buffer.
    - [ClientMain]: [relay::init] (relay/mod.rs), the listener and the accept loop of
      socks5/mod.rs, and main.rs.

    Both ends
    - [Streams]: the stream types of client and server (stream.rs, [BiStream] of
      task.rs) over any halves. They only delegate, and nothing is claimed of them.
    - [EndToEnd]: the bytes one side sends are the input of the other side's
      handlers: TCP connects and UDP packets in both directions and both modes.
    - [UdpPath]: an application's packets through its association, the tasks of the
      relay in any interleaving and the server's handlers to the socket of the
      server's session. (The way back is [EndToEnd] and [Socks5].)

    Configuration (server/src/config.rs, client/src/config.rs, certificate.rs)
    - [ConfigLib]: [parse] of integers and IP addresses, getopts as the class
      [Getopts] with its documented laws.
    - [ServerConfig], [ClientConfig]: [RawConfig::parse] and [Config::parse].

    ** How the code is represented

    Integers are [Z] at their width, with the truncations of [as] written out; bytes
    are [list Z] with [bytes_ok]; a Rust string is its bytes, except for
    configuration texts, which are [string]. [Result] is [result], a panic ([unwrap],
    a slice out of range, [unreachable!]) is [Panic] or a task that [Panics]. An
    [async fn] is a [prog]; each node is one access to shared state, so the
    interleavings of a system are those of the accesses. A Rust [Arc] whose count
    matters is a counter. What a peer sends on a stream is the content of the
    stream with its end. Random numbers are arguments.

    ** Parameters

    The network's answers (lookups, connects, opened streams, sent datagrams, accepted
    packets) are lists in the states or events of the transition systems, and
    theorems quantify over them; the programs of [ClientConnect], [Socks5],
    [ServerMain] and [ClientMain] are run against any [environment]. getopts, tokio's
    [interval] and the header of socks5 UDP packets are
    classes with laws; serde_json, rustls, rustls_pemfile, blake3, the log levels and
    the file system are functions the configuration takes as arguments.

    A [prog] is a finite tree: the handlers have no unbounded loop, so nothing is
    claimed about their termination. The loops that only end with the connection or
    the program (listeners, accept loops, the heartbeat) take what they are given, a
    list or a number of iterations, as an argument, or are steps of a transition
    system (sessions, associations, the manager).

    ** What counts as one step

    A write or a [finish] on a stream is one operation, which is done when its task is
    scheduled; the delays of flow control are schedules in which the task is not.
    [IsClosed::set_closed] of the server stores its flag and takes its wakers in one
    operation (no task polls it), and so does a poll of the client's
    [IncomingUniStreams], which holds a register only while it runs. Receiving a packet
    on a session's socket and passing it on is one step of the session; taking a
    packet from its channel and sending it are two.

    ** What is not modelled

    The bytes a tunnel copies after [Connect] ([copy_bidirectional] of tokio); QUIC and
    TLS themselves, including the handshake, and that quinn finishes a sending stream
    that is dropped (the streams of [Quic] are finished only by [finish]; the theorems
    let the peer see the end of such a stream as a reset or as an end of file); the
    wire format of socks5 and its handshake (the socks5 crates); logging, except that
    a log line evaluates its arguments; [Display] texts other than those sent to a peer; time, beyond the
    fact that a timeout may happen at any moment.

    ** Open work

    The requests of [ClientManage] composed with the handlers of
    [ClientTask] that they start; the number of wakers that [IsClosed] of the client
    collects. *)

From stdpp Require Export base tactics decidable numbers option list strings pretty gmap.
From Stdlib Require Export ZArith Lia.

Local Open Scope Z_scope.

(** ** Results: [Result<A, E>] with the [?] operator as [mbind]. *)

Inductive result (E A : Type) : Type :=
| Ok (a : A)
| Err (e : E).
Arguments Ok {E A} a.
Arguments Err {E A} e.

#[export] Instance result_ret {E} : MRet (result E) := fun A a => Ok a.

#[export] Instance result_bind {E} : MBind (result E) := fun A B f m =>
  match m with
  | Ok a => f a
  | Err e => Err e
  end.

#[export] Instance result_fmap {E} : FMap (result E) := fun A B f m =>
  match m with
  | Ok a => Ok (f a)
  | Err e => Err e
  end.

#[export] Instance result_eq_dec {E A} `{EqDecision E, EqDecision A} : EqDecision (result E A).
Proof. solve_decision. Defined.

(** [Option::ok_or]. *)
Definition ok_or {E A} (o : option A) (e : E) : result E A :=
  match o with
  | Some a => Ok a
  | None => Err e
  end.

(** [Result::map_err]. *)
Definition map_err {E F A} (f : E -> F) (r : result E A) : result F A :=
  match r with
  | Ok a => Ok a
  | Err e => Err (f e)
  end.

Definition is_ok {E A} (r : result E A) : bool :=
  match r with
  | Ok _ => true
  | Err _ => false
  end.

(** A computation of safe Rust either finishes or panics (a slice out of
    range, [unwrap] on [None], an arithmetic overflow check). *)
Inductive outcome (A : Type) : Type :=
| Done (a : A)
| Panic.
Arguments Done {A} a.
Arguments Panic {A}.

#[export] Instance outcome_ret : MRet outcome := fun A a => Done a.

#[export] Instance outcome_bind : MBind outcome := fun A B f m =>
  match m with
  | Done a => f a
  | Panic => Panic
  end.

#[export] Instance outcome_eq_dec {A} `{EqDecision A} : EqDecision (outcome A).
Proof. solve_decision. Defined.

(** [Option::unwrap]. *)
Definition unwrap {A} (o : option A) : outcome A :=
  match o with
  | Some a => Done a
  | None => Panic
  end.

(** ** Machine integers, as [Z] with their width written out. *)

Definition is_uint (w z : Z) : Prop := 0 <= z < 2 ^ w.

#[export] Instance is_uint_dec w z : Decision (is_uint w z).
Proof. unfold is_uint. apply _. Defined.

(** The [as u8] / [as u16] conversions truncate. *)
Definition as_uint (w z : Z) : Z := z mod 2 ^ w.

Abbreviation is_u8 := (is_uint 8).
Abbreviation is_u16 := (is_uint 16).
Abbreviation is_u32 := (is_uint 32).
Abbreviation is_u64 := (is_uint 64).
Abbreviation as_u8 := (as_uint 8).
Abbreviation as_u16 := (as_uint 16).

(** The buffers of the program are byte sequences. *)
Abbreviation bytes := (list Z).

Definition bytes_ok (bs : bytes) : Prop := Forall is_u8 bs.

#[export] Instance bytes_ok_dec bs : Decision (bytes_ok bs).
Proof. unfold bytes_ok. apply _. Defined.

(** [len as usize] of a buffer. *)
Definition blen (bs : bytes) : Z := Z.of_nat (length bs).

(** ** Big-endian encoding, most significant byte first. *)

Fixpoint to_be (n : nat) (z : Z) : bytes :=
  match n with
  | O => []
  | S n => Z.land (Z.shiftr z (8 * Z.of_nat n)) 255 :: to_be n z
  end.

Definition of_be (bs : bytes) : Z := fold_left (fun acc b => acc * 256 + b) bs 0.

(** ** Proof automation *)

Create HintDb tuic.
Create Rewrite HintDb tuic.

(** Case analysis on the scrutinee of the matches of the goal and of the
    hypotheses, followed by the obvious equations. *)
Ltac break :=
  repeat (case_match; simplify_eq/=).

(** Boolean comparisons to propositions. *)
Ltac bool_to_prop :=
  repeat match goal with
  | H : (_ && _) = true |- _ => apply andb_true_iff in H as [? ?]
  | H : (_ || _) = false |- _ => apply orb_false_iff in H as [? ?]
  | H : (_ =? _) = true |- _ => apply Z.eqb_eq in H
  | H : (_ =? _) = false |- _ => apply Z.eqb_neq in H
  | H : (_ <=? _) = true |- _ => apply Z.leb_le in H
  | H : (_ <=? _) = false |- _ => apply Z.leb_gt in H
  | H : (_ <? _) = true |- _ => apply Z.ltb_lt in H
  | H : (_ <? _) = false |- _ => apply Z.ltb_ge in H
  | H : negb _ = true |- _ => apply negb_true_iff in H
  | H : negb _ = false |- _ => apply negb_false_iff in H
  end.

(** Decide the ground conditions of the goal and take their branch. *)
Ltac eval_if :=
  cbv beta zeta;
  repeat match goal with
  | |- context [if ?c then _ else _] =>
      let v := eval vm_compute in c in
      first [ constr_eq v true | constr_eq v false ];
      change c with v; cbv iota beta zeta
  end.

(** [Forall] over an explicit list. *)
Ltac forall_split := unfold bytes_ok; repeat first [ apply Forall_nil_2 | apply Forall_cons_2 ].

(** Ground side conditions. *)
Ltac ground := first [ reflexivity | vm_compute; reflexivity | vm_compute; intuition congruence
                     | apply (bool_decide_unpack _); vm_compute; exact I ].

(** ** Lemmas on machine integers *)

Lemma is_uint_as w z : 0 <= w -> is_uint w (as_uint w z).
Proof. intros. unfold is_uint, as_uint. apply Z.mod_pos_bound. lia. Qed.

Lemma as_uint_id w z : is_uint w z -> as_uint w z = z.
Proof. intros. apply Z.mod_small. done. Qed.

Lemma blen_nonneg bs : 0 <= blen bs.
Proof. unfold blen. lia. Qed.

Lemma blen_app b1 b2 : blen (b1 ++ b2) = blen b1 + blen b2.
Proof. unfold blen. rewrite length_app. lia. Qed.

Lemma blen_cons b bs : blen (b :: bs) = 1 + blen bs.
Proof. unfold blen. cbn [length]. lia. Qed.

Lemma blen_nil : blen [] = 0.
Proof. reflexivity. Qed.

Lemma bytes_ok_app b1 b2 : bytes_ok (b1 ++ b2) <-> bytes_ok b1 /\ bytes_ok b2.
Proof. apply Forall_app. Qed.

Lemma bytes_ok_cons b bs : bytes_ok (b :: bs) <-> is_u8 b /\ bytes_ok bs.
Proof. apply Forall_cons. Qed.

Lemma bytes_ok_take n bs : bytes_ok bs -> bytes_ok (take n bs).
Proof. apply Forall_take. Qed.

Lemma bytes_ok_drop n bs : bytes_ok bs -> bytes_ok (drop n bs).
Proof. apply Forall_drop. Qed.

Lemma bytes_ok_nil : bytes_ok [].
Proof. constructor. Qed.

(** ** Lemmas on the big-endian encoding *)

Lemma land_255 z : Z.land z 255 = z mod 256.
Proof. change 255 with (Z.ones 8). rewrite Z.land_ones by lia. reflexivity. Qed.

Lemma length_to_be n z : length (to_be n z) = n.
Proof. induction n; simpl; congruence. Qed.

Lemma blen_to_be n z : blen (to_be n z) = Z.of_nat n.
Proof. unfold blen. by rewrite length_to_be. Qed.

Lemma to_be_ok n z : bytes_ok (to_be n z).
Proof.
  induction n; cbn [to_be]; constructor; [|done].
  rewrite land_255. unfold is_uint. apply Z.mod_pos_bound. lia.
Qed.

Lemma of_be_app bs1 bs2 :
  of_be (bs1 ++ bs2) = of_be bs1 * 256 ^ blen bs2 + of_be bs2.
Proof.
  unfold of_be. rewrite fold_left_app. generalize (fold_left (fun acc b => acc * 256 + b) bs1 0).
  induction bs2 as [|b bs2 IH] using rev_ind; intros a; simpl.
  - rewrite Z.mul_1_r. lia.
  - rewrite !fold_left_app. simpl. rewrite IH, blen_app.
    change (blen [b]) with 1. rewrite Z.pow_add_r, Z.pow_1_r by (apply blen_nonneg || lia). lia.
Qed.

Lemma of_be_cons b bs : of_be (b :: bs) = b * 256 ^ blen bs + of_be bs.
Proof. change (b :: bs) with ([b] ++ bs). rewrite of_be_app. reflexivity. Qed.

Lemma of_be_bound bs : bytes_ok bs -> 0 <= of_be bs < 256 ^ blen bs.
Proof.
  induction 1 as [|b bs Hb _ IH]; [by vm_compute|].
  rewrite of_be_cons, blen_cons, Z.pow_add_r, Z.pow_1_r by (apply blen_nonneg || lia).
  unfold is_uint in Hb. nia.
Qed.

Lemma of_be_to_be n z : of_be (to_be n z) = z mod 256 ^ Z.of_nat n.
Proof.
  induction n as [|n IH]; [by rewrite Z.mod_1_r|].
  cbn [to_be]. rewrite of_be_cons, blen_to_be, IH, land_255, Z.shiftr_div_pow2 by lia.
  replace (2 ^ (8 * Z.of_nat n)) with (256 ^ Z.of_nat n) by (rewrite Z.pow_mul_r by lia; reflexivity).
  rewrite Nat2Z.inj_succ, <- Z.add_1_r, Z.pow_add_r, Z.pow_1_r by lia.
  rewrite Z.rem_mul_r by lia. lia.
Qed.

Lemma of_be_to_be_small n z : is_uint (8 * Z.of_nat n) z -> of_be (to_be n z) = z.
Proof.
  intros H. rewrite of_be_to_be. apply Z.mod_small. unfold is_uint in H.
  rewrite Z.pow_mul_r in H by lia. exact H.
Qed.

Lemma to_be_of_be bs : bytes_ok bs -> to_be (length bs) (of_be bs) = bs.
Proof.
  induction 1 as [|b bs Hb Hbs IH]; [done|].
  pose proof (of_be_bound bs Hbs) as Hr.
  assert (to_be (length bs) (of_be (b :: bs)) = to_be (length bs) (of_be bs)) as E.
  { rewrite of_be_cons. unfold blen in *. clear IH. revert Hr.
    generalize (of_be bs). generalize (length bs) as n. clear Hbs. intros n z Hr.
    assert (forall m, (m <= n)%nat -> to_be m (b * 256 ^ Z.of_nat n + z) = to_be m z) as G.
    { induction m as [|m IHm]; intros Hm; [done|]. cbn [to_be].
      rewrite IHm by lia. f_equal. rewrite !land_255, !Z.shiftr_div_pow2 by lia.
      replace (2 ^ (8 * Z.of_nat m)) with (256 ^ Z.of_nat m) by (rewrite Z.pow_mul_r by lia; reflexivity).
      replace (Z.of_nat n) with (Z.of_nat m + (1 + (Z.of_nat n - 1 - Z.of_nat m))) by lia.
      rewrite !Z.pow_add_r, Z.pow_1_r by lia.
      replace (b * _ + z) with (z + (b * 256 ^ (Z.of_nat n - 1 - Z.of_nat m) * 256) * 256 ^ Z.of_nat m) by lia.
      rewrite Z.div_add by lia. apply Z.mod_add. lia. }
    apply G. lia. }
  cbn [length to_be]. rewrite E, IH. f_equal.
  rewrite of_be_cons, land_255, Z.shiftr_div_pow2 by lia. unfold blen in *.
  replace (2 ^ (8 * Z.of_nat (length bs))) with (256 ^ Z.of_nat (length bs))
    by (rewrite Z.pow_mul_r by lia; reflexivity).
  rewrite Z.div_add_l, (Z.div_small (of_be bs)) by lia. unfold is_uint in Hb.
  rewrite Z.add_0_r. apply Z.mod_small. lia.
Qed.

Lemma of_be_uint bs : bytes_ok bs -> is_uint (8 * blen bs) (of_be bs).
Proof.
  intros H%of_be_bound. unfold is_uint. rewrite Z.pow_mul_r by (lia || apply blen_nonneg). exact H.
Qed.

#[export] Hint Rewrite blen_app blen_cons blen_nil blen_to_be length_to_be length_app : tuic.
#[export] Hint Resolve to_be_ok bytes_ok_nil bytes_ok_take bytes_ok_drop blen_nonneg : tuic.

(** ** Lemmas on lists *)

Lemma take_drop_split {A} n (l : list A) : l = take n l ++ drop n l.
Proof. symmetry. apply take_drop. Qed.

Lemma list_length_cons_inv {A} (l : list A) n :
  length l = S n -> exists x l', l = x :: l' /\ length l' = n.
Proof. destruct l; naive_solver. Qed.
