(* ===== verification/RustIo.v ===== *)
(** * What the program uses of the Rust standard library and of its streams

    - [std::io::Error] and its kinds;
    - [String::from_utf8], as the validation loop of [core::str], with the
      position and length reported by [Utf8Error];
    - [Ipv4Addr], [Ipv6Addr] and [SocketAddr];
    - [AsyncRead] as a type class, with the in-memory slice and the QUIC receive
      stream as instances;
    - [BufMut] on a growable buffer, and the QUIC send stream. *)

From S2P Require Import Prelude.

Local Open Scope Z_scope.

(** ** [std::io::Error] *)

(** The kinds the program names, and one for whatever the operating system or
    the QUIC library reports. *)
Inductive ErrorKind :=
| Unsupported
| InvalidInput
| InvalidData
| UnexpectedEof
| Other
| External (code : Z).

#[export] Instance ErrorKind_eq_dec : EqDecision ErrorKind.
Proof. solve_decision. Defined.

Record io_error := IoError { kind : ErrorKind; message : string }.

#[export] Instance io_error_eq_dec : EqDecision io_error.
Proof. solve_decision. Defined.

(** ** UTF-8 *)

(** The width of the sequence a lead byte of at least 128 announces; 0 for a
    byte that starts no sequence. *)
Definition utf8_char_width (b : Z) : Z :=
  if (0xC2 <=? b) && (b <=? 0xDF) then 2
  else if (0xE0 <=? b) && (b <=? 0xEF) then 3
  else if (0xF0 <=? b) && (b <=? 0xF4) then 4
  else 0.

Definition is_cont (b : Z) : bool := (0x80 <=? b) && (b <=? 0xBF).

(** The second byte of a three-byte sequence. *)
Definition second_of_3 (first b : Z) : bool :=
  ((first =? 0xE0) && (0xA0 <=? b) && (b <=? 0xBF))
  || ((0xE1 <=? first) && (first <=? 0xEC) && is_cont b)
  || ((first =? 0xED) && (0x80 <=? b) && (b <=? 0x9F))
  || ((0xEE <=? first) && (first <=? 0xEF) && is_cont b).

(** The second byte of a four-byte sequence. *)
Definition second_of_4 (first b : Z) : bool :=
  ((first =? 0xF0) && (0x90 <=? b) && (b <=? 0xBF))
  || ((0xF1 <=? first) && (first <=? 0xF3) && is_cont b)
  || ((first =? 0xF4) && (0x80 <=? b) && (b <=? 0x8F)).

(** [Utf8Error]: the end of the valid prefix, and the length of the invalid
    sequence unless the input ended inside it. *)
Record Utf8Error := MkUtf8Error { valid_up_to : Z; error_len : option Z }.

(** [run_utf8_validation], from index [i] on. *)
Fixpoint utf8_validate (i : Z) (v : bytes) : option Utf8Error :=
  match v with
  | [] => None
  | first :: v1 =>
      if first <? 128 then utf8_validate (i + 1) v1
      else if utf8_char_width first =? 2 then
        match v1 with
        | [] => Some (MkUtf8Error i None)
        | b1 :: v2 =>
            if is_cont b1 then utf8_validate (i + 2) v2 else Some (MkUtf8Error i (Some 1))
        end
      else if utf8_char_width first =? 3 then
        match v1 with
        | [] => Some (MkUtf8Error i None)
        | b1 :: v2 =>
            if second_of_3 first b1 then
              match v2 with
              | [] => Some (MkUtf8Error i None)
              | b2 :: v3 =>
                  if is_cont b2 then utf8_validate (i + 3) v3 else Some (MkUtf8Error i (Some 2))
              end
            else Some (MkUtf8Error i (Some 1))
        end
      else if utf8_char_width first =? 4 then
        match v1 with
        | [] => Some (MkUtf8Error i None)
        | b1 :: v2 =>
            if second_of_4 first b1 then
              match v2 with
              | [] => Some (MkUtf8Error i None)
              | b2 :: v3 =>
                  if is_cont b2 then
                    match v3 with
                    | [] => Some (MkUtf8Error i None)
                    | b3 :: v4 =>
                        if is_cont b3 then utf8_validate (i + 4) v4
                        else Some (MkUtf8Error i (Some 3))
                    end
                  else Some (MkUtf8Error i (Some 2))
              end
            else Some (MkUtf8Error i (Some 1))
        end
      else Some (MkUtf8Error i (Some 1))
  end.

(** [Display] of [Utf8Error]. *)
Definition Utf8Error_display (e : Utf8Error) : string :=
  match error_len e with
  | Some n =>
      ("invalid utf-8 sequence of " +:+ pretty n +:+ " bytes from index "
         +:+ pretty (valid_up_to e))%string
  | None => ("incomplete utf-8 byte sequence from index " +:+ pretty (valid_up_to e))%string
  end.

(** [String::from_utf8]; a [String] is its UTF-8 bytes. *)
Definition from_utf8 (v : bytes) : result Utf8Error bytes :=
  match utf8_validate 0 v with
  | None => Ok v
  | Some e => Err e
  end.

(** The invariant of the type [String]. *)
Definition utf8_ok (s : bytes) : Prop := utf8_validate 0 s = None.

#[export] Instance utf8_ok_dec s : Decision (utf8_ok s).
Proof.
  unfold utf8_ok. destruct (utf8_validate 0 s); [right; discriminate | left; reflexivity].
Defined.

(** A Rust string literal of ASCII characters. *)
Definition lit (s : string) : bytes := (fun a => Z.of_N (Ascii.N_of_ascii a)) <$> String.list_ascii_of_string s.

(** ** Addresses of [std::net] *)

Record Ipv4Addr := MkIpv4 { v4_a : Z; v4_b : Z; v4_c : Z; v4_d : Z }.

Record Ipv6Addr := MkIpv6 {
  v6_0 : Z; v6_1 : Z; v6_2 : Z; v6_3 : Z; v6_4 : Z; v6_5 : Z; v6_6 : Z; v6_7 : Z }.

Inductive IpAddr :=
| IpV4 (ip : Ipv4Addr)
| IpV6 (ip : Ipv6Addr).

Record SocketAddrV4 := MkSocketAddrV4 { v4_ip : Ipv4Addr; v4_port : Z }.

Record SocketAddrV6 := MkSocketAddrV6 {
  v6_ip : Ipv6Addr; v6_port : Z; v6_flowinfo : Z; v6_scope_id : Z }.

Inductive SocketAddr :=
| V4 (addr : SocketAddrV4)
| V6 (addr : SocketAddrV6).

#[export] Instance Ipv4Addr_eq_dec : EqDecision Ipv4Addr.
Proof. solve_decision. Defined.
#[export] Instance Ipv6Addr_eq_dec : EqDecision Ipv6Addr.
Proof. solve_decision. Defined.
#[export] Instance IpAddr_eq_dec : EqDecision IpAddr.
Proof. solve_decision. Defined.
#[export] Instance SocketAddrV4_eq_dec : EqDecision SocketAddrV4.
Proof. solve_decision. Defined.
#[export] Instance SocketAddrV6_eq_dec : EqDecision SocketAddrV6.
Proof. solve_decision. Defined.
#[export] Instance SocketAddr_eq_dec : EqDecision SocketAddr.
Proof. solve_decision. Defined.

Definition Ipv4_UNSPECIFIED : Ipv4Addr := MkIpv4 0 0 0 0.
Definition Ipv4_LOCALHOST : Ipv4Addr := MkIpv4 127 0 0 1.
Definition Ipv6_UNSPECIFIED : Ipv6Addr := MkIpv6 0 0 0 0 0 0 0 0.

(** [octets] and [segments]. *)
Definition octets (ip : Ipv4Addr) : list Z := [v4_a ip; v4_b ip; v4_c ip; v4_d ip].
Definition segments (ip : Ipv6Addr) : list Z :=
  [v6_0 ip; v6_1 ip; v6_2 ip; v6_3 ip; v6_4 ip; v6_5 ip; v6_6 ip; v6_7 ip].

(** [SocketAddr::from((ip, port))]: the flow label and the scope are zero. *)
Definition SocketAddr_from (ip : IpAddr) (port : Z) : SocketAddr :=
  match ip with
  | IpV4 ip => V4 (MkSocketAddrV4 ip port)
  | IpV6 ip => V6 (MkSocketAddrV6 ip port 0 0)
  end.

Definition Ipv4_ok (ip : Ipv4Addr) : Prop := Forall is_u8 (octets ip).
Definition Ipv6_ok (ip : Ipv6Addr) : Prop := Forall is_u16 (segments ip).

Definition SocketAddr_ok (a : SocketAddr) : Prop :=
  match a with
  | V4 a => Ipv4_ok (v4_ip a) /\ is_u16 (v4_port a)
  | V6 a => Ipv6_ok (v6_ip a) /\ is_u16 (v6_port a) /\ is_u32 (v6_flowinfo a) /\ is_u32 (v6_scope_id a)
  end.

#[export] Instance SocketAddr_ok_dec a : Decision (SocketAddr_ok a).
Proof. destruct a; unfold SocketAddr_ok, Ipv4_ok, Ipv6_ok; apply _. Defined.

(** ** Reading: [tokio::io::AsyncRead] with [AsyncReadExt]

    A reader delivers a sequence of bytes and then ends, with an end of file or
    with an error of its own ([ended]). [read_exact] fills a buffer of [n] bytes or
    fails with the error the reader ends with; the laws are what the readers of the
    program (slices and QUIC streams) guarantee to the parser. At an end of file
    tokio's [read_exact] and its [read_u8] and the like report the same kind of error
    with different texts. *)

Definition eof_error : io_error := IoError UnexpectedEof "early eof".
Definition uint_eof_error : io_error := IoError UnexpectedEof "unexpected end of file".

Class AsyncRead (R : Type) := {
  unread : R -> bytes;
  ended : R -> option io_error;
  read_exact : nat -> R -> result io_error bytes * R;
  read_exact_ok n r : (n <= length (unread r))%nat ->
    exists r', read_exact n r = (Ok (take n (unread r)), r')
               /\ unread r' = drop n (unread r) /\ ended r' = ended r;
  read_exact_short n r : (length (unread r) < n)%nat ->
    exists r', read_exact n r = (Err (default eof_error (ended r)), r')
}.

(** The error of a read that finds less than it wants, of an integer or of a buffer. *)
Definition end_error {R} `{AsyncRead R} (uint : bool) (r : R) : io_error :=
  default (if uint then uint_eof_error else eof_error) (ended r).

(** Parsers over a reader. *)
Definition reader (R A : Type) : Type := R -> result io_error A * R.

#[export] Instance reader_ret {R} : MRet (reader R) := fun A a r => (Ok a, r).

#[export] Instance reader_bind {R} : MBind (reader R) := fun A B f m r =>
  match m r with
  | (Ok a, r') => f a r'
  | (Err e, r') => (Err e, r')
  end.

Definition fail {R A} (e : io_error) : reader R A := fun r => (Err e, r).

(** [read_u8], [read_u16], [read_u32]: big-endian. *)
Definition read_uint {R} `{AsyncRead R} (n : nat) : reader R Z := fun r =>
  match read_exact n r with
  | (Ok bs, r') => (Ok (of_be bs), r')
  | (Err _, r') => (Err (end_error true r), r')
  end.

Abbreviation read_u8 := (read_uint 1).
Abbreviation read_u16 := (read_uint 2).
Abbreviation read_u32 := (read_uint 4).

(** [&[u8]] as a reader. *)
Definition slice_read_exact (n : nat) (r : bytes) : result io_error bytes * bytes :=
  if decide (n <= length r)%nat then (Ok (take n r), drop n r) else (Err eof_error, []).

(** A QUIC receive stream: the bytes the peer sends, and how the stream ends
    ([None] when the peer finishes it, otherwise the error of the transport). *)
Record RecvStream := MkRecvStream { rs_data : bytes; rs_end : option io_error }.

Definition rs_end_error (r : RecvStream) : io_error := default eof_error (rs_end r).

Definition rs_read_exact (n : nat) (r : RecvStream) : result io_error bytes * RecvStream :=
  if decide (n <= length (rs_data r))%nat
  then (Ok (take n (rs_data r)), MkRecvStream (drop n (rs_data r)) (rs_end r))
  else (Err (rs_end_error r), MkRecvStream [] (rs_end r)).

(** ** Writing: [bytes::BufMut] on a growable buffer *)

Definition put_u8 (v : Z) (buf : bytes) : bytes := buf ++ [as_u8 v].
Definition put_u16 (v : Z) (buf : bytes) : bytes := buf ++ to_be 2 v.
Definition put_u32 (v : Z) (buf : bytes) : bytes := buf ++ to_be 4 v.
Definition put_slice (v : bytes) (buf : bytes) : bytes := buf ++ v.

(** A QUIC send stream: what was written, whether it was finished, and after how
    many bytes (if ever) the transport refuses to take more. *)
Record SendStream := MkSendStream {
  ss_sent : bytes;
  ss_finished : bool;
  ss_fault : option (Z * io_error) }.

Definition SendStream_new (fault : option (Z * io_error)) : SendStream := MkSendStream [] false fault.

Definition write_all (bs : bytes) (s : SendStream) : result io_error unit * SendStream :=
  match ss_fault s with
  | Some (limit, e) =>
      if blen (ss_sent s ++ bs) <=? limit
      then (Ok tt, MkSendStream (ss_sent s ++ bs) (ss_finished s) (ss_fault s))
      else (Err e, MkSendStream (take (Z.to_nat limit) (ss_sent s ++ bs)) (ss_finished s) (ss_fault s))
  | None => (Ok tt, MkSendStream (ss_sent s ++ bs) (ss_finished s) (ss_fault s))
  end.

Definition finish (s : SendStream) : result io_error unit * SendStream :=
  match ss_fault s with
  | Some (limit, e) =>
      if blen (ss_sent s) <? limit
      then (Ok tt, MkSendStream (ss_sent s) true (ss_fault s))
      else (Err e, s)
  | None => (Ok tt, MkSendStream (ss_sent s) true (ss_fault s))
  end.

(** [Bytes::slice(from..)] and [Bytes::slice(from..to)] panic out of range. *)
Definition slice_from (from : Z) (b : bytes) : outcome bytes :=
  if from <=? blen b then Done (drop (Z.to_nat from) b) else Panic.

Definition slice_range (from to : Z) (b : bytes) : outcome bytes :=
  if (from <=? to) && (to <=? blen b)
  then Done (take (Z.to_nat (to - from)) (drop (Z.to_nat from) b))
  else Panic.

(** ** The instances and the lemmas of the readers *)

#[export] Instance slice_AsyncRead : AsyncRead bytes.
Proof.
  refine {| unread r := r; ended _ := None; read_exact := slice_read_exact |};
    intros n r H; unfold slice_read_exact; case_decide; try lia; eauto.
Defined.

#[export] Instance RecvStream_AsyncRead : AsyncRead RecvStream.
Proof.
  refine {| unread := rs_data; ended := rs_end; read_exact := rs_read_exact |};
    intros n r H; unfold rs_read_exact; case_decide; try lia; eauto.
Defined.

Section reader_laws.
Context {R : Type} `{AsyncRead R}.

(** A parser [m] accepts [enc] as [a]: whatever follows, it returns [a] and
    leaves what follows. *)
Definition accepts {A} (m : reader R A) (enc : bytes) (a : A) : Prop :=
  forall r rest, unread r = enc ++ rest ->
    exists r', m r = (Ok a, r') /\ unread r' = rest /\ ended r' = ended r.

Lemma accepts_ret {A} (a : A) : accepts (mret a) [] a.
Proof. intros r rest Hr. exists r. done. Qed.

Lemma accepts_bind {A B} (m : reader R A) (f : A -> reader R B) e1 e2 a b :
  accepts m e1 a -> accepts (f a) e2 b -> accepts (m ≫= f) (e1 ++ e2) b.
Proof.
  intros Hm Hf r rest Hr. rewrite <- app_assoc in Hr.
  destruct (Hm r _ Hr) as (r1 & E1 & U1 & N1).
  destruct (Hf r1 rest U1) as (r2 & E2 & U2 & N2).
  exists r2. split_and!; [|done|congruence].
  unfold mbind, reader_bind. by rewrite E1.
Qed.

(** The last parser of a sequence. *)
Lemma accepts_last {A B} (m : reader R A) (f : A -> reader R B) e a b :
  accepts m e a -> accepts (f a) [] b -> accepts (m ≫= f) e b.
Proof. intros Hm Hf. rewrite <- (app_nil_r e). by eapply accepts_bind. Qed.

(** A parser [m] rejects [enc] with the error [e], whatever follows. *)
Definition rejects {A} (m : reader R A) (enc : bytes) (e : io_error) : Prop :=
  forall r rest, unread r = enc ++ rest -> exists r', m r = (Err e, r') /\ unread r' = rest.

Lemma rejects_fail {A} e : rejects (fail e : reader R A) [] e.
Proof. intros r rest Hr. by exists r. Qed.

Lemma rejects_bind {A B} (m : reader R A) (f : A -> reader R B) e1 e2 a e :
  accepts m e1 a -> rejects (f a) e2 e -> rejects (m ≫= f) (e1 ++ e2) e.
Proof.
  intros Hm Hf r rest Hr. rewrite <- app_assoc in Hr.
  destruct (Hm r _ Hr) as (r1 & E1 & U1 & N1). destruct (Hf r1 rest U1) as (r2 & E2 & U2).
  exists r2. split; [|done]. unfold mbind, reader_bind. by rewrite E1.
Qed.

Lemma rejects_last {A B} (m : reader R A) (f : A -> reader R B) enc a e :
  accepts m enc a -> rejects (f a) [] e -> rejects (m ≫= f) enc e.
Proof. intros Hm Hf. rewrite <- (app_nil_r enc). by eapply rejects_bind. Qed.

Lemma rejects_head {A B} (m : reader R A) (f : A -> reader R B) enc e :
  rejects m enc e -> rejects (m ≫= f) enc e.
Proof.
  intros Hm r rest Hr. destruct (Hm r rest Hr) as (r' & E & U). exists r'. split; [|done].
  unfold mbind, reader_bind. by rewrite E.
Qed.

Lemma accepts_read_exact bs : accepts (read_exact (length bs)) bs bs.
Proof.
  intros r rest Hr. destruct (read_exact_ok (length bs) r) as (r' & E & U & N).
  - rewrite Hr, length_app. lia.
  - exists r'. rewrite E, U, Hr, take_app_length, drop_app_length. done.
Qed.

Lemma accepts_read_exact_len n bs : length bs = n -> accepts (read_exact n) bs bs.
Proof. intros <-. apply accepts_read_exact. Qed.

Lemma accepts_read_uint n z :
  is_uint (8 * Z.of_nat n) z -> accepts (read_uint n) (to_be n z) z.
Proof.
  intros Hz r rest Hr. destruct (accepts_read_exact_len n (to_be n z) (length_to_be n z) r rest Hr) as (r' & E & U & N).
  exists r'. unfold read_uint. rewrite E. by rewrite of_be_to_be_small.
Qed.

Lemma accepts_read_u8 z : is_u8 z -> accepts read_u8 [z] z.
Proof.
  intros Hz. replace [z] with (to_be 1 z); [by apply accepts_read_uint|].
  cbn. rewrite land_255. unfold is_uint in Hz. rewrite Z.shiftr_0_r, Z.mod_small by lia. done.
Qed.

(** What a successful step of a parser tells about the input. *)
Definition consumes {A} (m : reader R A) (P : bytes -> A -> Prop) : Prop :=
  forall r a r', m r = (Ok a, r') -> bytes_ok (unread r) ->
    exists enc, unread r = enc ++ unread r' /\ P enc a /\ ended r' = ended r.

Lemma consumes_ret {A} (a : A) : consumes (mret a) (fun enc b => enc = [] /\ b = a).
Proof. intros r b r' Hm _. inversion Hm; subst. by exists []. Qed.

Lemma consumes_fail {A} e (P : bytes -> A -> Prop) : consumes (fail e) P.
Proof. intros r b r' Hm. inversion Hm. Qed.

Lemma consumes_bind {A B} (m : reader R A) (f : A -> reader R B) P Q :
  consumes m P -> (forall a, consumes (f a) (Q a)) ->
  consumes (m ≫= f) (fun enc b => exists a e1 e2, enc = e1 ++ e2 /\ P e1 a /\ Q a e2 b).
Proof.
  intros Hm Hf r b r' E Hok. unfold mbind, reader_bind in E.
  destruct (m r) as [[a|e] r1] eqn:E1; [|done].
  destruct (Hm r a r1 E1 Hok) as (e1 & U1 & HP & N1).
  rewrite U1 in Hok. apply bytes_ok_app in Hok as [_ Hok].
  destruct (Hf a r1 b r' E Hok) as (e2 & U2 & HQ & N2).
  exists (e1 ++ e2). split_and!; [by rewrite U1, U2, app_assoc | eauto 10 | congruence].
Qed.

Lemma consumes_weaken {A} (m : reader R A) (P Q : bytes -> A -> Prop) :
  consumes m P -> (forall enc a, P enc a -> Q enc a) -> consumes m Q.
Proof. intros Hm HPQ r a r' E Hok. destruct (Hm r a r' E Hok) as (enc & ? & ? & ?). eauto. Qed.

Lemma consumes_read_exact n :
  consumes (read_exact n) (fun enc bs => enc = bs /\ length bs = n /\ bytes_ok bs).
Proof.
  intros r bs r' E Hok. destruct (decide (n <= length (unread r))%nat) as [Hn|Hn].
  - destruct (read_exact_ok n r Hn) as (r1 & E1 & U1 & N1).
    rewrite E1 in E. injection E as <- <-.
    exists (take n (unread r)). rewrite U1, take_drop.
    split_and!; [done|done|rewrite length_take; lia|by apply bytes_ok_take|done].
  - destruct (read_exact_short n r) as (r1 & E1); [lia|]. congruence.
Qed.

Lemma consumes_read_uint n :
  consumes (read_uint n) (fun enc z => enc = to_be n z /\ is_uint (8 * Z.of_nat n) z).
Proof.
  intros r z r' E Hok. unfold read_uint in E. destruct (read_exact n r) as [[bs|e] r1] eqn:E1; [|done].
  injection E as <- <-. destruct (consumes_read_exact n r bs r1 E1 Hok) as (enc & U & (-> & <- & Hb) & N).
  exists bs. split_and!; [done|by rewrite to_be_of_be|by apply of_be_uint|done].
Qed.

Lemma bind_ok_inv {A B} (m : reader R A) (f : A -> reader R B) r b r' :
  (m ≫= f) r = (Ok b, r') -> exists a r1, m r = (Ok a, r1) /\ f a r1 = (Ok b, r').
Proof. unfold mbind, reader_bind. destruct (m r) as [[a|e] r1]; naive_solver. Qed.

(** The same facts as one-step inversions of an accepted input. *)
Lemma read_exact_inv n r bs r' :
  read_exact n r = (Ok bs, r') -> bytes_ok (unread r) ->
  unread r = bs ++ unread r' /\ length bs = n /\ bytes_ok bs /\ bytes_ok (unread r')
  /\ ended r' = ended r.
Proof.
  intros E Hok. destruct (consumes_read_exact n r bs r' E Hok) as (enc & U & (-> & Hl & Hb) & N).
  rewrite U in Hok. apply bytes_ok_app in Hok as [_ ?]. done.
Qed.

Lemma read_uint_inv n r z r' :
  read_uint n r = (Ok z, r') -> bytes_ok (unread r) ->
  unread r = to_be n z ++ unread r' /\ is_uint (8 * Z.of_nat n) z /\ bytes_ok (unread r')
  /\ ended r' = ended r.
Proof.
  intros E Hok. destruct (consumes_read_uint n r z r' E Hok) as (enc & U & (-> & Hz) & N).
  rewrite U in Hok. apply bytes_ok_app in Hok as [_ ?]. done.
Qed.

(** A reader that ends too early fails with its own end, whatever the parser would
    have done next; [uints] tells which bytes of [enc] belong to integers. *)
Definition starves {A} (m : reader R A) (enc : bytes) (uints : list bool) : Prop :=
  length uints = length enc /\
  forall r n, (n < length enc)%nat -> unread r = take n enc ->
    fst (m r) = Err (end_error (default false (uints !! n)) r).

Lemma starves_bind {A B} (m : reader R A) (f : A -> reader R B) e1 e2 u1 u2 a :
  starves m e1 u1 -> accepts m e1 a -> starves (f a) e2 u2 -> starves (m ≫= f) (e1 ++ e2) (u1 ++ u2).
Proof.
  intros [Hl1 Hs] Ha [Hl2 Hf]. split; [rewrite !length_app; lia|]. intros r n Hn Hr.
  unfold mbind, reader_bind. rewrite length_app in Hn.
  destruct (decide (n < length e1)%nat) as [Hlt|Hge].
  - rewrite take_app_le in Hr by lia. specialize (Hs r n Hlt Hr). rewrite lookup_app_l by lia.
    destruct (m r) as [[?|?] ?]; simpl in Hs; [discriminate | by inversion Hs].
  - rewrite take_app_ge in Hr by lia. rewrite lookup_app_r by lia.
    destruct (Ha r _ Hr) as (r1 & E1 & U1 & N1). rewrite E1, Hl1. unfold end_error. rewrite <- N1.
    apply (Hf r1 (n - length e1)%nat); [lia | done].
Qed.

Lemma starves_nil {A} (m : reader R A) : starves m [] [].
Proof. split; [done|]. intros r n Hn. simpl in Hn. lia. Qed.

Lemma starves_last {A B} (m : reader R A) (f : A -> reader R B) e u a :
  starves m e u -> accepts m e a -> starves (m ≫= f) e u.
Proof.
  intros Hs Ha. rewrite <- (app_nil_r e), <- (app_nil_r u). eapply starves_bind; eauto using starves_nil.
Qed.

Lemma starves_read_exact_len k bs : length bs = k -> starves (read_exact k) bs (replicate k false).
Proof.
  intros <-. split; [apply length_replicate|]. intros r n Hn Hr. destruct (read_exact_short (length bs) r) as (r' & E).
  - rewrite Hr, length_take. lia.
  - rewrite E, lookup_replicate_2 by lia. done.
Qed.

Lemma starves_read_uint n z : starves (read_uint n) (to_be n z) (replicate n true).
Proof.
  split; [by rewrite length_replicate, length_to_be|]. intros r k Hk Hr.
  destruct (starves_read_exact_len n (to_be n z) (length_to_be n z)) as [_ Hs]. specialize (Hs r k Hk Hr).
  rewrite length_to_be in Hk. rewrite lookup_replicate_2 by lia. unfold read_uint.
  by destruct (read_exact n r) as [[?|?] ?].
Qed.

Lemma starves_read_u8 z : starves read_u8 [z] [true].
Proof.
  split; [done|]. intros r n Hn Hr. apply (starves_read_uint 1 z); [done|]. by destruct n; [|simpl in Hn; lia].
Qed.

End reader_laws.

#[export] Hint Resolve accepts_ret accepts_read_exact accepts_read_exact_len accepts_read_uint accepts_read_u8
  starves_read_exact_len starves_read_uint starves_read_u8 starves_nil : tuic.

(** Follow an accepted input through the steps of a parser. *)
Ltac reader_inv :=
  repeat match goal with
  | E : (_ ≫= _) ?r = (Ok _, _) |- _ => apply bind_ok_inv in E as (? & ? & ? & E); cbv beta zeta in E
  | E : read_uint _ ?r = (Ok _, _), Hok : bytes_ok (unread ?r) |- _ =>
      apply read_uint_inv in E as (? & ? & ? & ?); [|exact Hok]
  | E : read_exact _ ?r = (Ok _, _), Hok : bytes_ok (unread ?r) |- _ =>
      apply read_exact_inv in E as (? & ? & ? & ? & ?); [|exact Hok]
  | E : mret _ _ = (Ok _, _) |- _ => injection E as ? ?; subst
  | E : fail _ _ = (Ok _, _) |- _ => discriminate E
  | E : (if ?c then _ else _) _ = (Ok _, _) |- _ => destruct c eqn:?
  end.
