(* ===== verification/Protocol.v ===== *)
(** * The TUIC wire protocol (protocol/src/lib.rs)

    [Address] and [Command] with their parsers ([read_from], over any
    [AsyncRead]), their serializers ([write_to_buf], [write_to]) and their
    length functions. The class [Codec] is what the wire format promises to the
    server and to the client; the instances [Address_Codec] and [Command_Codec]
    discharge it. *)

From S2P Require Import Prelude RustIo.

Local Open Scope Z_scope.

Definition TUIC_PROTOCOL_VERSION : Z := 0x04.

(** ** Data *)

Inductive Address :=
| DomainAddress (addr : bytes) (port : Z)
| SocketAddress (addr : SocketAddr).

Inductive Command :=
| Response (is_succeeded : bool)
| Authenticate (digest : bytes)
| Connect (addr : Address)
| Packet (assoc_id len : Z) (addr : Address)
| Dissociate (assoc_id : Z)
| Heartbeat.

#[export] Instance Address_eq_dec : EqDecision Address.
Proof. solve_decision. Defined.
#[export] Instance Command_eq_dec : EqDecision Command.
Proof. solve_decision. Defined.

(** The bytes [buf[off .. off + n]] as a big-endian integer: one read of a
    [Cursor] over a buffer of known size, whose [unwrap] cannot fail. *)
Definition cursor_uint (off n : nat) (buf : bytes) : Z := of_be (take n (drop off buf)).

Module Address.

Definition TYPE_DOMAIN : Z := 0x00.
Definition TYPE_IPV4 : Z := 0x01.
Definition TYPE_IPV6 : Z := 0x02.

Definition read_from {R} `{AsyncRead R} : reader R Address :=
  addr_type ← read_u8;
  if addr_type =? TYPE_DOMAIN then
    len ← read_u8;
    buf ← (read_exact (Z.to_nat len + 2) : reader R bytes);
    let port := cursor_uint (Z.to_nat len) 2 buf in
    let buf := take (Z.to_nat len) buf in
    match from_utf8 buf with
    | Ok addr => mret (DomainAddress addr port)
    | Err err =>
        fail (IoError InvalidData ("Invalid address encoding: " +:+ Utf8Error_display err)%string)
    end
  else if addr_type =? TYPE_IPV4 then
    buf ← (read_exact 6 : reader R bytes);
    let addr := MkIpv4 (cursor_uint 0 1 buf) (cursor_uint 1 1 buf)
                       (cursor_uint 2 1 buf) (cursor_uint 3 1 buf) in
    let port := cursor_uint 4 2 buf in
    mret (SocketAddress (SocketAddr_from (IpV4 addr) port))
  else if addr_type =? TYPE_IPV6 then
    buf ← (read_exact 18 : reader R bytes);
    let addr := MkIpv6 (cursor_uint 0 2 buf) (cursor_uint 2 2 buf)
                       (cursor_uint 4 2 buf) (cursor_uint 6 2 buf)
                       (cursor_uint 8 2 buf) (cursor_uint 10 2 buf)
                       (cursor_uint 12 2 buf) (cursor_uint 14 2 buf) in
    let port := cursor_uint 16 2 buf in
    mret (SocketAddress (SocketAddr_from (IpV6 addr) port))
  else fail (IoError InvalidInput ("Unsupported address type: " +:+ pretty addr_type)%string).

Definition write_to_buf (a : Address) (buf : bytes) : bytes :=
  match a with
  | DomainAddress addr port =>
      let buf := put_u8 TYPE_DOMAIN buf in
      let buf := put_u8 (as_u8 (blen addr)) buf in
      let buf := put_slice addr buf in
      put_u16 port buf
  | SocketAddress (V4 addr) =>
      let buf := put_u8 TYPE_IPV4 buf in
      let buf := put_slice (octets (v4_ip addr)) buf in
      put_u16 (v4_port addr) buf
  | SocketAddress (V6 addr) =>
      let buf := put_u8 TYPE_IPV6 buf in
      let buf := fold_left (fun buf seg => put_u16 seg buf) (segments (v6_ip addr)) buf in
      put_u16 (v6_port addr) buf
  end.

Definition serialized_len (a : Address) : Z :=
  1 + match a with
      | DomainAddress addr _ => 1 + blen addr + 2
      | SocketAddress (V4 _) => 6
      | SocketAddress (V6 _) => 18
      end.

Definition max_serialized_len : Z := 1 + 1 + 255 + 2.

Definition write_to (a : Address) (w : SendStream) : result io_error unit * SendStream :=
  write_all (write_to_buf a []) w.

(** The invariants of the Rust types: a [String] is UTF-8, the integers have
    their width. *)
Definition ok (a : Address) : Prop :=
  match a with
  | DomainAddress addr port => utf8_ok addr /\ bytes_ok addr /\ is_u16 port
  | SocketAddress addr => SocketAddr_ok addr
  end.

(** What the wire format can carry: a domain name whose length fits its one-byte
    field, an IPv6 address without flow label and scope. *)
Definition wire (a : Address) : Prop :=
  match a with
  | DomainAddress addr _ => blen addr <= 255
  | SocketAddress (V4 _) => True
  | SocketAddress (V6 addr) => v6_flowinfo addr = 0 /\ v6_scope_id addr = 0
  end.

(** The bytes that [read_from] reads as integers, the others as buffers. *)
Definition uint_bytes (a : Address) : list bool :=
  match a with
  | DomainAddress addr _ => [true] ++ [true] ++ replicate (length addr + 2) false
  | SocketAddress (V4 _) => [true] ++ replicate 6 false
  | SocketAddress (V6 _) => [true] ++ replicate 18 false
  end.

End Address.

Module Command.

Definition TYPE_RESPONSE : Z := 0xff.
Definition TYPE_AUTHENTICATE : Z := 0x00.
Definition TYPE_CONNECT : Z := 0x01.
Definition TYPE_PACKET : Z := 0x02.
Definition TYPE_DISSOCIATE : Z := 0x03.
Definition TYPE_HEARTBEAT : Z := 0x04.
Definition RESPONSE_SUCCEEDED : Z := 0x00.
Definition RESPONSE_FAILED : Z := 0xff.

Definition new_response (is_succeeded : bool) : Command := Response is_succeeded.
Definition new_authenticate (digest : bytes) : Command := Authenticate digest.
Definition new_connect (addr : Address) : Command := Connect addr.
Definition new_packet (assoc_id len : Z) (addr : Address) : Command := Packet assoc_id len addr.
Definition new_dissociate (assoc_id : Z) : Command := Dissociate assoc_id.
Definition new_heartbeat : Command := Heartbeat.

Definition read_from {R} `{AsyncRead R} : reader R Command :=
  ver ← read_u8;
  if negb (ver =? TUIC_PROTOCOL_VERSION) then
    fail (IoError Unsupported ("Unsupported TUIC version: " +:+ pretty ver)%string)
  else
  cmd ← read_u8;
  if cmd =? TYPE_RESPONSE then
    resp ← read_u8;
    if resp =? RESPONSE_SUCCEEDED then mret (new_response true)
    else if resp =? RESPONSE_FAILED then mret (new_response false)
    else fail (IoError InvalidInput ("Invalid response code: " +:+ pretty resp)%string)
  else if cmd =? TYPE_AUTHENTICATE then
    digest ← (read_exact 32 : reader R bytes);
    mret (new_authenticate digest)
  else if cmd =? TYPE_CONNECT then
    addr ← Address.read_from;
    mret (new_connect addr)
  else if cmd =? TYPE_PACKET then
    buf ← (read_exact 6 : reader R bytes);
    let assoc_id := cursor_uint 0 4 buf in
    let len := cursor_uint 4 2 buf in
    addr ← Address.read_from;
    mret (new_packet assoc_id len addr)
  else if cmd =? TYPE_DISSOCIATE then
    assoc_id ← read_u32;
    mret (new_dissociate assoc_id)
  else if cmd =? TYPE_HEARTBEAT then mret new_heartbeat
  else fail (IoError InvalidInput ("Invalid command: " +:+ pretty cmd)%string).

Definition write_to_buf (c : Command) (buf : bytes) : bytes :=
  let buf := put_u8 TUIC_PROTOCOL_VERSION buf in
  match c with
  | Response is_succeeded =>
      let buf := put_u8 TYPE_RESPONSE buf in
      if is_succeeded then put_u8 RESPONSE_SUCCEEDED buf else put_u8 RESPONSE_FAILED buf
  | Authenticate digest =>
      let buf := put_u8 TYPE_AUTHENTICATE buf in
      put_slice digest buf
  | Connect addr =>
      let buf := put_u8 TYPE_CONNECT buf in
      Address.write_to_buf addr buf
  | Packet assoc_id len addr =>
      let buf := put_u8 TYPE_PACKET buf in
      let buf := put_u32 assoc_id buf in
      let buf := put_u16 len buf in
      Address.write_to_buf addr buf
  | Dissociate assoc_id =>
      let buf := put_u8 TYPE_DISSOCIATE buf in
      put_u32 assoc_id buf
  | Heartbeat => put_u8 TYPE_HEARTBEAT buf
  end.

Definition serialized_len (c : Command) : Z :=
  2 + match c with
      | Response _ => 1
      | Authenticate _ => 32
      | Connect addr => Address.serialized_len addr
      | Packet _ _ addr => 6 + Address.serialized_len addr
      | Dissociate _ => 4
      | Heartbeat => 0
      end.

Definition max_serialized_len : Z := 2 + 6 + Address.max_serialized_len.

Definition write_to (c : Command) (w : SendStream) : result io_error unit * SendStream :=
  write_all (write_to_buf c []) w.

Definition ok (c : Command) : Prop :=
  match c with
  | Response _ => True
  | Authenticate digest => length digest = 32%nat /\ bytes_ok digest
  | Connect addr => Address.ok addr
  | Packet assoc_id len addr => is_u32 assoc_id /\ is_u16 len /\ Address.ok addr
  | Dissociate assoc_id => is_u32 assoc_id
  | Heartbeat => True
  end.

Definition wire (c : Command) : Prop :=
  match c with
  | Connect addr | Packet _ _ addr => Address.wire addr
  | _ => True
  end.

Definition uint_bytes (c : Command) : list bool :=
  [true] ++
  match c with
  | Response _ => [true] ++ [true]
  | Authenticate _ => [true] ++ replicate 32 false
  | Connect addr => [true] ++ Address.uint_bytes addr
  | Packet _ _ addr => [true] ++ replicate 6 false ++ Address.uint_bytes addr
  | Dissociate _ => [true] ++ replicate 4 true
  | Heartbeat => [true]
  end.

End Command.

#[export] Instance Address_ok_dec a : Decision (Address.ok a).
Proof. destruct a; unfold Address.ok; apply _. Defined.
#[export] Instance Address_wire_dec a : Decision (Address.wire a).
Proof. destruct a as [|[]]; unfold Address.wire; apply _. Defined.
#[export] Instance Command_ok_dec c : Decision (Command.ok c).
Proof. destruct c; unfold Command.ok; apply _. Defined.
#[export] Instance Command_wire_dec c : Decision (Command.wire c).
Proof. destruct c; unfold Command.wire; apply _. Defined.

(** ** The interface: what a wire format promises *)

Class Codec (A : Type) := {
  codec_ok : A -> Prop;
  encode : A -> bytes;
  encoded_len : A -> Z;
  (** which bytes of the encoding are read as integers *)
  uint_bytes : A -> list bool;
  decode : forall {R} `{AsyncRead R}, reader R A;
  decode_encode : forall {R} `{AsyncRead R} a, codec_ok a -> accepts (R := R) decode (encode a) a;
  decode_sound : forall {R} `{AsyncRead R},
    consumes (R := R) decode (fun enc a => codec_ok a /\ enc = encode a);
  decode_starves : forall {R} `{AsyncRead R} a, codec_ok a -> starves (R := R) decode (encode a) (uint_bytes a);
  encode_length : forall a, codec_ok a -> blen (encode a) = encoded_len a;
  encode_bytes : forall a, codec_ok a -> bytes_ok (encode a)
}.

(** Consequences for any codec. *)
Section codec.
Context {A : Type} `{Codec A}.

Lemma decode_encode_rest (a : A) rest :
  codec_ok a -> decode (R := bytes) (encode a ++ rest) = (Ok a, rest).
Proof.
  intros Ha. destruct (decode_encode (R := bytes) a Ha (encode a ++ rest) rest) as (r' & E & U & _).
  - done.
  - rewrite E. simpl in U. by rewrite U.
Qed.

Lemma decode_slice_inv (bs rest : bytes) (a : A) :
  bytes_ok bs -> decode (R := bytes) bs = (Ok a, rest) -> codec_ok a /\ bs = encode a ++ rest.
Proof.
  intros Hok E. destruct (decode_sound (R := bytes) bs a rest E Hok) as (enc & U & [Ha ->] & _).
  done.
Qed.

(** The encoding is injective, and no encoding is a proper prefix of another. *)
Lemma encode_prefix_free (a b : A) r1 r2 :
  codec_ok a -> codec_ok b -> encode a ++ r1 = encode b ++ r2 -> a = b /\ r1 = r2.
Proof.
  intros Ha Hb E. pose proof (decode_encode_rest a r1 Ha) as D1.
  pose proof (decode_encode_rest b r2 Hb) as D2. rewrite E, D2 in D1. by inversion D1.
Qed.

End codec.

(** ** Serialization appends *)

Ltac put_unfold :=
  unfold put_u8, put_u16, put_u32, put_slice in *.

Lemma Address_write_to_buf_app a buf :
  Address.write_to_buf a buf = buf ++ Address.write_to_buf a [].
Proof. destruct a as [|[]]; simpl; put_unfold; by rewrite <- ?app_assoc. Qed.

Lemma Command_write_to_buf_app c buf :
  Command.write_to_buf c buf = buf ++ Command.write_to_buf c [].
Proof.
  destruct c as [[]| | | | |]; simpl; put_unfold; rewrite <- ?app_assoc; try done;
    rewrite Address_write_to_buf_app, <- ?app_assoc; symmetry;
    rewrite Address_write_to_buf_app, <- ?app_assoc; done.
Qed.

(** ** The codec of addresses *)

Lemma cursor_uint_mid pre mid post n off :
  off = length pre -> n = length mid -> cursor_uint off n (pre ++ mid ++ post) = of_be mid.
Proof. intros -> ->. unfold cursor_uint. by rewrite drop_app_length, take_app_length. Qed.

Lemma Address_write_domain s port :
  Address.write_to_buf (DomainAddress s port) [] = [0] ++ [as_u8 (blen s)] ++ s ++ to_be 2 port.
Proof.
  simpl. put_unfold. simpl. unfold as_uint. rewrite Z.mod_0_l, Z.mod_mod by lia. done.
Qed.

Lemma Address_write_v4 a :
  Address.write_to_buf (SocketAddress (V4 a)) [] = [1] ++ octets (v4_ip a) ++ to_be 2 (v4_port a).
Proof. reflexivity. Qed.

Lemma Address_write_v6 a :
  Address.write_to_buf (SocketAddress (V6 a)) [] =
  [2] ++ concat (to_be 2 <$> segments (v6_ip a)) ++ to_be 2 (v6_port a).
Proof. reflexivity. Qed.

Lemma Address_write_length a :
  blen (Address.write_to_buf a []) = Address.serialized_len a.
Proof.
  destruct a as [s p|[a|a]].
  - rewrite Address_write_domain. unfold Address.serialized_len.
    autorewrite with tuic. lia.
  - reflexivity.
  - reflexivity.
Qed.

Lemma Address_write_ok a : Address.ok a -> bytes_ok (Address.write_to_buf a []).
Proof.
  destruct a as [s p|[a|a]]; intros Ha.
  - rewrite Address_write_domain. destruct Ha as (_ & Hs & _).
    repeat (apply bytes_ok_app; split); auto with tuic.
    all: repeat constructor; first [ground | apply Z.mod_pos_bound; lia].
  - rewrite Address_write_v4. destruct Ha as [Ha _].
    repeat (apply bytes_ok_app; split); auto with tuic.
    repeat constructor; ground.
  - rewrite Address_write_v6. repeat (apply bytes_ok_app; split); auto with tuic.
    repeat constructor; ground.
Qed.

(** The buffer the domain branch reads, and what its two fields are. *)
Lemma domain_fields (s : bytes) port :
  is_u16 port ->
  cursor_uint (length s) 2 (s ++ to_be 2 port) = port /\ take (length s) (s ++ to_be 2 port) = s.
Proof.
  intros Hp. rewrite <- (app_nil_r (to_be 2 port)), take_app_length.
  rewrite cursor_uint_mid by done. by rewrite of_be_to_be_small.
Qed.

Section address_codec.
Context {R : Type} `{AsyncRead R}.

Lemma Address_read_domain_body (s : bytes) port :
  utf8_ok s -> is_u16 port ->
  accepts (R := R)
    (buf ← (read_exact (length s + 2) : reader R bytes);
     let port := cursor_uint (length s) 2 buf in
     let buf := take (length s) buf in
     match from_utf8 buf with
     | Ok addr => mret (DomainAddress addr port)
     | Err err =>
         fail (IoError InvalidData ("Invalid address encoding: " +:+ Utf8Error_display err)%string)
     end) (s ++ to_be 2 port) (DomainAddress s port).
Proof.
  intros Hs Hp. eapply accepts_last.
  - apply accepts_read_exact_len. by rewrite length_app, length_to_be.
  - cbv beta zeta. destruct (domain_fields s port Hp) as [-> ->].
    unfold from_utf8. rewrite Hs. apply accepts_ret.
Qed.

Lemma Address_accepts a :
  Address.ok a -> Address.wire a -> accepts (R := R) Address.read_from (Address.write_to_buf a []) a.
Proof.
  intros Ha Hw. unfold Address.read_from. destruct a as [s p|[a|a]].
  - destruct Ha as (Hs & _ & Hp). simpl in Hw. pose proof (blen_nonneg s).
    rewrite Address_write_domain.
    eapply accepts_bind; [apply accepts_read_u8; ground|]. eval_if.
    rewrite (as_uint_id 8) by (unfold is_uint; lia).
    eapply accepts_bind; [apply accepts_read_u8; unfold is_uint; lia|].
    unfold blen in *. rewrite Nat2Z.id. by apply Address_read_domain_body.
  - destruct a as [[a b c d] p]. destruct Ha as [Ha Hp]. simpl in Ha, Hp.
    rewrite Address_write_v4. eapply accepts_bind; [apply accepts_read_u8; ground|]. eval_if.
    eapply accepts_last; [by apply accepts_read_exact_len|].
    match goal with |- context [cursor_uint 4 2 ?b] =>
      change (cursor_uint 4 2 b) with (of_be (to_be 2 p)) end.
    rewrite of_be_to_be_small by done. apply accepts_ret.
  - destruct a as [[s0 s1 s2 s3 s4 s5 s6 s7] p f sc]. destruct Ha as (Ha & Hp & _).
    destruct Hw as [Hf Hsc]. simpl in Ha, Hp, Hf, Hsc. subst f sc.
    rewrite Address_write_v6. eapply accepts_bind; [apply accepts_read_u8; ground|]. eval_if.
    unfold Ipv6_ok in Ha. simpl in Ha. repeat (apply Forall_cons in Ha as [? Ha]).
    eapply accepts_last; [by apply accepts_read_exact_len|].
    assert (forall z, is_u16 z -> of_be (to_be 2 z) = z) as E by (intros; by apply of_be_to_be_small).
    match goal with |- context [MkIpv6 ?a0 ?a1 ?a2 ?a3 ?a4 ?a5 ?a6 ?a7] =>
      change a0 with (of_be (to_be 2 s0)); change a1 with (of_be (to_be 2 s1));
      change a2 with (of_be (to_be 2 s2)); change a3 with (of_be (to_be 2 s3));
      change a4 with (of_be (to_be 2 s4)); change a5 with (of_be (to_be 2 s5));
      change a6 with (of_be (to_be 2 s6)); change a7 with (of_be (to_be 2 s7)) end.
    match goal with |- context [cursor_uint 16 2 ?b] =>
      change (cursor_uint 16 2 b) with (of_be (to_be 2 p)) end.
    rewrite !E by done. apply accepts_ret.
Qed.

Lemma to_be_1 z : is_u8 z -> to_be 1 z = [z].
Proof. intros Hz. pose proof (to_be_of_be [z]) as E. cbn in E |- *. apply E. by forall_split. Qed.

Lemma to_be_2 x y : is_u8 x -> is_u8 y -> to_be 2 (of_be [x; y]) = [x; y].
Proof. intros. apply (to_be_of_be [_; _]). by forall_split. Qed.

Lemma u16_of_be x y : is_u8 x -> is_u8 y -> is_u16 (of_be [x; y]).
Proof. intros. apply (of_be_uint [_; _]). by forall_split. Qed.

Lemma Address_decode_domain (buf : bytes) len :
  is_u8 len -> length buf = (Z.to_nat len + 2)%nat -> bytes_ok buf ->
  utf8_ok (take (Z.to_nat len) buf) ->
  let a := DomainAddress (take (Z.to_nat len) buf) (cursor_uint (Z.to_nat len) 2 buf) in
  (Address.ok a /\ Address.wire a)
  /\ to_be 1 Address.TYPE_DOMAIN ++ to_be 1 len ++ buf = Address.write_to_buf a [].
Proof.
  intros Hlen Hl Hb Hu a. unfold is_uint in Hlen.
  assert (length (take (Z.to_nat len) buf) = Z.to_nat len) as E by (rewrite length_take; lia).
  assert (length (drop (Z.to_nat len) buf) = 2%nat) as E2 by (rewrite length_drop; lia).
  assert (cursor_uint (Z.to_nat len) 2 buf = of_be (drop (Z.to_nat len) buf)) as Ec.
  { unfold cursor_uint. by rewrite take_ge by lia. }
  assert (blen (take (Z.to_nat len) buf) = len) as Eb by (unfold blen; lia).
  subst a. rewrite Address_write_domain, Eb, Ec, (as_uint_id 8), !to_be_1 by (unfold is_uint, Address.TYPE_DOMAIN; lia).
  assert (to_be 2 (of_be (drop (Z.to_nat len) buf)) = drop (Z.to_nat len) buf) as ->.
  { pose proof (to_be_of_be (drop (Z.to_nat len) buf)) as E3. rewrite E2 in E3. auto with tuic. }
  rewrite take_drop.
  split_and!; simpl; auto with tuic; [|lia].
  pose proof (of_be_uint (drop (Z.to_nat len) buf)) as Hu2. unfold blen in Hu2. rewrite E2 in Hu2.
  auto with tuic.
Qed.

Lemma Address_decode_v4 (buf : bytes) :
  length buf = 6%nat -> bytes_ok buf ->
  let a := SocketAddress (SocketAddr_from
    (IpV4 (MkIpv4 (cursor_uint 0 1 buf) (cursor_uint 1 1 buf) (cursor_uint 2 1 buf) (cursor_uint 3 1 buf)))
    (cursor_uint 4 2 buf)) in
  (Address.ok a /\ Address.wire a) /\ to_be 1 Address.TYPE_IPV4 ++ buf = Address.write_to_buf a [].
Proof.
  intros Hl Hb. do 6 (destruct buf as [|? buf]; [done|]). destruct buf; [|done].
  repeat (apply bytes_ok_cons in Hb as [? Hb]).
  intros a. subst a. unfold cursor_uint. cbn [take drop]. split; [split; [|done]|].
  - simpl. split; [unfold Ipv4_ok, octets; cbn [v4_a v4_b v4_c v4_d]; by forall_split|].
    by apply u16_of_be.
  - cbn [SocketAddr_from]. rewrite Address_write_v4. cbn [v4_ip v4_port].
    by rewrite to_be_2, to_be_1 by (done || ground).
Qed.

Lemma Address_decode_v6 (buf : bytes) :
  length buf = 18%nat -> bytes_ok buf ->
  let a := SocketAddress (SocketAddr_from
    (IpV6 (MkIpv6 (cursor_uint 0 2 buf) (cursor_uint 2 2 buf) (cursor_uint 4 2 buf) (cursor_uint 6 2 buf)
                  (cursor_uint 8 2 buf) (cursor_uint 10 2 buf) (cursor_uint 12 2 buf) (cursor_uint 14 2 buf)))
    (cursor_uint 16 2 buf)) in
  (Address.ok a /\ Address.wire a) /\ to_be 1 Address.TYPE_IPV6 ++ buf = Address.write_to_buf a [].
Proof.
  intros Hl Hb. do 18 (destruct buf as [|? buf]; [done|]). destruct buf; [|done].
  repeat (apply bytes_ok_cons in Hb as [? Hb]).
  intros a. subst a. unfold cursor_uint. cbn [take drop].
  split; [split; [|done]|].
  - simpl. unfold Ipv6_ok, segments. cbn [v6_0 v6_1 v6_2 v6_3 v6_4 v6_5 v6_6 v6_7].
    split_and!; [forall_split; by apply u16_of_be | by apply u16_of_be | ground | ground].
  - cbn [SocketAddr_from]. rewrite Address_write_v6. cbn [v6_ip v6_port segments fmap list_fmap concat
      v6_0 v6_1 v6_2 v6_3 v6_4 v6_5 v6_6 v6_7]. by rewrite !to_be_2.
Qed.

Lemma Address_consumes :
  consumes (R := R) Address.read_from
    (fun enc a => (Address.ok a /\ Address.wire a) /\ enc = Address.write_to_buf a []).
Proof.
  intros r a r' E Hok. unfold Address.read_from in E. reader_inv; bool_to_prop; subst.
  - destruct (from_utf8 _) as [s|] eqn:Eu in E; reader_inv.
    unfold from_utf8 in Eu. destruct (utf8_validate _ _) eqn:Ev; [done|]. simplify_eq.
    match goal with H : length ?b = (Z.to_nat ?l + 2)%nat |- _ =>
      destruct (Address_decode_domain b l) as [? Ee]; [done..|] end.
    eexists. split; [|split; [split; [done|exact Ee]|congruence]]. rewrite <- !app_assoc. congruence.
  - match goal with H : length ?b = 6%nat |- _ => destruct (Address_decode_v4 b) as [? Ee]; [done..|] end.
    eexists. split; [|split; [split; [done|exact Ee]|congruence]]. rewrite <- app_assoc. congruence.
  - match goal with H : length ?b = 18%nat |- _ => destruct (Address_decode_v6 b) as [? Ee]; [done..|] end.
    eexists. split; [|split; [split; [done|exact Ee]|congruence]]. rewrite <- app_assoc. congruence.
Qed.

Lemma Address_starves a :
  Address.ok a -> Address.wire a -> starves (R := R) Address.read_from (Address.write_to_buf a []) (Address.uint_bytes a).
Proof.
  intros Ha Hw. unfold Address.read_from. destruct a as [s p|[a|a]].
  - destruct Ha as (Hs & _ & Hp). simpl in Hw. pose proof (blen_nonneg s).
    rewrite Address_write_domain.
    eapply starves_bind; [apply starves_read_u8|apply accepts_read_u8; ground|]. eval_if.
    rewrite (as_uint_id 8) by (unfold is_uint; lia).
    eapply starves_bind; [apply starves_read_u8|apply accepts_read_u8; unfold is_uint; lia|].
    unfold blen. rewrite Nat2Z.id.
    eapply starves_last; [apply starves_read_exact_len|apply accepts_read_exact_len];
      by rewrite length_app, length_to_be.
  - rewrite Address_write_v4.
    eapply starves_bind; [apply starves_read_u8|apply accepts_read_u8; ground|]. eval_if.
    eapply starves_last; [by apply starves_read_exact_len|by apply accepts_read_exact_len].
  - rewrite Address_write_v6.
    eapply starves_bind; [apply starves_read_u8|apply accepts_read_u8; ground|]. eval_if.
    eapply starves_last; [by apply starves_read_exact_len|by apply accepts_read_exact_len].
Qed.

End address_codec.

#[export] Instance Address_Codec : Codec Address.
Proof.
  refine {| codec_ok a := Address.ok a /\ Address.wire a;
            encode a := Address.write_to_buf a [];
            encoded_len := Address.serialized_len;
            uint_bytes := Address.uint_bytes;
            decode := @Address.read_from |}.
  - intros R HR a [? ?]. by apply Address_accepts.
  - intros R HR. apply Address_consumes.
  - intros R HR a [? ?]. by apply Address_starves.
  - intros a _. apply Address_write_length.
  - intros a [? _]. by apply Address_write_ok.
Defined.

(** ** The codec of commands *)

Lemma Command_write_shape c :
  Command.write_to_buf c [] =
  [TUIC_PROTOCOL_VERSION] ++
  match c with
  | Response b =>
      [Command.TYPE_RESPONSE] ++ [if b then Command.RESPONSE_SUCCEEDED else Command.RESPONSE_FAILED]
  | Authenticate digest => [Command.TYPE_AUTHENTICATE] ++ digest
  | Connect addr => [Command.TYPE_CONNECT] ++ Address.write_to_buf addr []
  | Packet assoc_id len addr =>
      [Command.TYPE_PACKET] ++ (to_be 4 assoc_id ++ to_be 2 len) ++ Address.write_to_buf addr []
  | Dissociate assoc_id => [Command.TYPE_DISSOCIATE] ++ to_be 4 assoc_id
  | Heartbeat => [Command.TYPE_HEARTBEAT]
  end.
Proof.
  destruct c as [[]| | | | |]; try reflexivity;
    cbn [Command.write_to_buf]; rewrite Address_write_to_buf_app; put_unfold;
    by rewrite <- ?app_assoc.
Qed.

Lemma Command_write_length c : Command.ok c -> blen (Command.write_to_buf c []) = Command.serialized_len c.
Proof.
  intros Hc. rewrite Command_write_shape. unfold Command.serialized_len.
  destruct c as [[]|digest| | | |]; autorewrite with tuic; rewrite ?Address_write_length; try lia.
  destruct Hc as [Hl _]. unfold blen. rewrite Hl. reflexivity.
Qed.

Lemma Command_write_ok c : Command.ok c -> bytes_ok (Command.write_to_buf c []).
Proof.
  intros Hc. rewrite Command_write_shape. apply bytes_ok_app. split; [forall_split; ground|].
  destruct c as [[]|digest|a|id len a|id|]; simpl in Hc; destruct_and?;
    repeat (apply bytes_ok_app; split); auto using Address_write_ok with tuic;
    forall_split; ground.
Qed.

Section command_codec.
Context {R : Type} `{AsyncRead R}.

Lemma packet_header_fields assoc_id len :
  is_u32 assoc_id -> is_u16 len ->
  let buf := to_be 4 assoc_id ++ to_be 2 len in
  cursor_uint 0 4 buf = assoc_id /\ cursor_uint 4 2 buf = len.
Proof.
  intros Hi Hl buf. split.
  - change (cursor_uint 0 4 buf) with (of_be (to_be 4 assoc_id)). by apply of_be_to_be_small.
  - change (cursor_uint 4 2 buf) with (of_be (to_be 2 len)). by apply of_be_to_be_small.
Qed.

Lemma packet_header_inv (buf : bytes) :
  length buf = 6%nat -> bytes_ok buf ->
  buf = to_be 4 (cursor_uint 0 4 buf) ++ to_be 2 (cursor_uint 4 2 buf)
  /\ is_u32 (cursor_uint 0 4 buf) /\ is_u16 (cursor_uint 4 2 buf).
Proof.
  intros Hl Hb. do 6 (destruct buf as [|? buf]; [done|]). destruct buf; [|done].
  unfold cursor_uint. cbn [take drop].
  repeat (apply bytes_ok_cons in Hb as [? Hb]).
  match goal with |- [?a; ?b; ?c; ?d; ?e; ?f] = _ /\ _ =>
    assert (bytes_ok [a; b; c; d]) as Hx by (by forall_split);
    assert (bytes_ok [e; f]) as Hy by (by forall_split) end.
  pose proof (of_be_uint _ Hx). pose proof (of_be_uint _ Hy). apply to_be_of_be in Hx, Hy.
  cbn [length] in Hx, Hy. rewrite Hx, Hy. done.
Qed.

Lemma Command_accepts c :
  Command.ok c -> Command.wire c -> accepts (R := R) Command.read_from (Command.write_to_buf c []) c.
Proof.
  intros Hc Hw. rewrite Command_write_shape. unfold Command.read_from.
  eapply accepts_bind; [apply accepts_read_u8; ground|]. eval_if.
  destruct c as [[]|digest|a|id len a|id|]; simpl in Hc, Hw; destruct_and?.
  - eapply accepts_bind; [apply accepts_read_u8; ground|]. eval_if.
    eapply accepts_last; [apply accepts_read_u8; ground|]. apply accepts_ret.
  - eapply accepts_bind; [apply accepts_read_u8; ground|]. eval_if.
    eapply accepts_last; [apply accepts_read_u8; ground|]. apply accepts_ret.
  - eapply accepts_bind; [apply accepts_read_u8; ground|]. eval_if.
    eapply accepts_last; [by apply accepts_read_exact_len|]. apply accepts_ret.
  - eapply accepts_bind; [apply accepts_read_u8; ground|]. eval_if.
    eapply accepts_last; [by apply Address_accepts|]. apply accepts_ret.
  - eapply accepts_bind; [apply accepts_read_u8; ground|]. eval_if.
    eapply accepts_bind; [by apply accepts_read_exact_len|]. cbv beta.
    destruct (packet_header_fields id len) as [-> ->]; [done..|].
    eapply accepts_last; [by apply Address_accepts|]. apply accepts_ret.
  - eapply accepts_bind; [apply accepts_read_u8; ground|]. eval_if.
    eapply accepts_last; [by apply accepts_read_uint|]. apply accepts_ret.
  - eapply accepts_last; [apply accepts_read_u8; ground|]. eval_if. apply accepts_ret.
Qed.

Lemma Command_starves c :
  Command.ok c -> Command.wire c -> starves (R := R) Command.read_from (Command.write_to_buf c []) (Command.uint_bytes c).
Proof.
  intros Hc Hw. rewrite Command_write_shape. unfold Command.read_from.
  eapply starves_bind; [apply starves_read_u8|apply accepts_read_u8; ground|]. eval_if.
  destruct c as [b|digest|a|id len a|id|]; simpl in Hc, Hw; destruct_and?;
    try (eapply starves_bind; [apply starves_read_u8|apply accepts_read_u8; ground|]; eval_if).
  - eapply starves_last; [apply starves_read_u8|apply accepts_read_u8; destruct b; ground].
  - eapply starves_last; [by apply starves_read_exact_len|by apply accepts_read_exact_len].
  - eapply starves_last; [by apply Address_starves|by apply Address_accepts].
  - eapply starves_bind; [by apply starves_read_exact_len|by apply accepts_read_exact_len|].
    cbv beta. eapply starves_last; [by apply Address_starves|by apply Address_accepts].
  - eapply starves_last; [by apply starves_read_uint|by apply accepts_read_uint].
  - eapply starves_last; [apply starves_read_u8|apply accepts_read_u8; ground].
Qed.

Lemma Address_read_inv r a r' :
  Address.read_from (R := R) r = (Ok a, r') -> bytes_ok (unread r) ->
  unread r = Address.write_to_buf a [] ++ unread r' /\ Address.ok a /\ Address.wire a
  /\ bytes_ok (unread r') /\ ended r' = ended r.
Proof.
  intros E Hok. destruct (Address_consumes r a r' E Hok) as (enc & U & ([? ?] & ->) & N).
  rewrite U in Hok. apply bytes_ok_app in Hok as [_ ?]. done.
Qed.

Ltac address_inv :=
  repeat match goal with
  | E : Address.read_from ?r = (Ok _, _), Hok : bytes_ok (unread ?r) |- _ =>
      apply Address_read_inv in E as (? & ? & ? & ? & ?); [|exact Hok]
  end.

Lemma Command_consumes :
  consumes (R := R) Command.read_from
    (fun enc c => (Command.ok c /\ Command.wire c) /\ enc = Command.write_to_buf c []).
Proof.
  intros r c r' E Hok. unfold Command.read_from in E.
  reader_inv; address_inv; reader_inv; bool_to_prop; subst;
    repeat match goal with
    | H : _ = to_be 1 _ ++ _ |- _ => rewrite to_be_1 in H by ground
    end.
  all: eexists; split; [|split; [split; [|symmetry; apply Command_write_shape]|congruence]].
  all: unfold Command.new_response, Command.new_authenticate, Command.new_connect,
    Command.new_packet, Command.new_dissociate, Command.new_heartbeat; cbv iota.
  all: rewrite <- ?app_assoc; try congruence; try by split.
  - match goal with H : length ?b = 6%nat |- _ => destruct (packet_header_inv b) as (Eb & ? & ?); [done..|] end.
    rewrite (app_assoc (to_be 4 _)), <- Eb. congruence.
  - match goal with H : length ?b = 6%nat |- _ => destruct (packet_header_inv b) as (Eb & ? & ?); [done..|] end.
    done.
Qed.

End command_codec.

#[export] Instance Command_Codec : Codec Command.
Proof.
  refine {| codec_ok c := Command.ok c /\ Command.wire c;
            encode c := Command.write_to_buf c [];
            encoded_len := Command.serialized_len;
            uint_bytes := Command.uint_bytes;
            decode := @Command.read_from |}.
  - intros R HR c [? ?]. by apply Command_accepts.
  - intros R HR. apply Command_consumes.
  - intros R HR c [? ?]. by apply Command_starves.
  - intros c [? _]. by apply Command_write_length.
  - intros c [? _]. by apply Command_write_ok.
Defined.

(** The bytes after a command in a datagram. *)
Lemma slice_after_command c rest :
  Command.ok c -> slice_from (Command.serialized_len c) (Command.write_to_buf c [] ++ rest) = Done rest.
Proof.
  intros Hc. unfold slice_from. rewrite <- (Command_write_length c Hc). autorewrite with tuic.
  rewrite (proj2 (Z.leb_le _ _)) by (unfold blen; lia).
  by rewrite drop_app_length' by (unfold blen; lia).
Qed.
