(* ===== verification/ProtocolSpec.v ===== *)
(** * Properties of the wire protocol

    What the parsers and serializers of protocol/src/lib.rs guarantee to both
    ends of a connection: every command that the wire format can carry survives
    the trip over any reader, the encoding is canonical, lengths are the ones
    announced, truncated and malformed inputs fail with the documented error. *)

From S2P Require Import Prelude RustIo Protocol.

Local Open Scope Z_scope.

(** ** Rejected inputs *)

Section rejects.
Context {R : Type} `{AsyncRead R}.

Lemma Address_rejects_type t :
  is_u8 t -> t <> Address.TYPE_DOMAIN -> t <> Address.TYPE_IPV4 -> t <> Address.TYPE_IPV6 ->
  rejects (R := R) Address.read_from [t]
    (IoError InvalidInput ("Unsupported address type: " +:+ pretty t)%string).
Proof.
  intros Ht H0 H1 H2. eapply rejects_last; [by apply accepts_read_u8|].
  rewrite !(proj2 (Z.eqb_neq _ _)) by done. apply rejects_fail.
Qed.

Lemma Address_rejects_domain (s port : bytes) err :
  blen s <= 255 -> length port = 2%nat -> from_utf8 s = Err err ->
  rejects (R := R) Address.read_from ([Address.TYPE_DOMAIN] ++ [blen s] ++ s ++ port)
    (IoError InvalidData ("Invalid address encoding: " +:+ Utf8Error_display err)%string).
Proof.
  intros Hs Hp He. assert (is_u8 (blen s)) as Hu by (unfold is_uint, blen in *; lia).
  eapply rejects_bind; [apply accepts_read_u8; ground|]. eval_if.
  eapply rejects_bind; [by apply accepts_read_u8|].
  eapply rejects_last; [apply accepts_read_exact_len; unfold blen; rewrite length_app; lia|].
  cbv beta zeta. rewrite take_app_length' by (unfold blen; lia). rewrite He. apply rejects_fail.
Qed.

(** The header of a command, once the version and the type have been read. *)
Lemma Command_rejects_version v :
  is_u8 v -> v <> TUIC_PROTOCOL_VERSION ->
  rejects (R := R) Command.read_from [v]
    (IoError Unsupported ("Unsupported TUIC version: " +:+ pretty v)%string).
Proof.
  intros Hv Hne. eapply rejects_last; [by apply accepts_read_u8|].
  rewrite (proj2 (Z.eqb_neq _ _)) by done. apply rejects_fail.
Qed.

Lemma Command_rejects_type t :
  is_u8 t -> Command.TYPE_HEARTBEAT < t < Command.TYPE_RESPONSE ->
  rejects (R := R) Command.read_from ([TUIC_PROTOCOL_VERSION] ++ [t])
    (IoError InvalidInput ("Invalid command: " +:+ pretty t)%string).
Proof.
  unfold Command.TYPE_HEARTBEAT, Command.TYPE_RESPONSE. intros Ht Hr.
  eapply rejects_bind; [apply accepts_read_u8; ground|]. eval_if.
  eapply rejects_last; [by apply accepts_read_u8|].
  unfold Command.TYPE_HEARTBEAT, Command.TYPE_RESPONSE, Command.TYPE_AUTHENTICATE, Command.TYPE_CONNECT,
    Command.TYPE_PACKET, Command.TYPE_DISSOCIATE.
  rewrite !(proj2 (Z.eqb_neq _ _)) by lia. apply rejects_fail.
Qed.

Lemma Command_rejects_response code :
  is_u8 code -> Command.RESPONSE_SUCCEEDED < code < Command.RESPONSE_FAILED ->
  rejects (R := R) Command.read_from ([TUIC_PROTOCOL_VERSION] ++ [Command.TYPE_RESPONSE] ++ [code])
    (IoError InvalidInput ("Invalid response code: " +:+ pretty code)%string).
Proof.
  unfold Command.RESPONSE_SUCCEEDED, Command.RESPONSE_FAILED. intros Hc Hr.
  do 2 (eapply rejects_bind; [apply accepts_read_u8; ground|]; eval_if).
  eapply rejects_last; [by apply accepts_read_u8|].
  unfold Command.RESPONSE_SUCCEEDED, Command.RESPONSE_FAILED.
  rewrite !(proj2 (Z.eqb_neq _ _)) by lia. apply rejects_fail.
Qed.

(** The errors of the address of a [Connect] or of a [Packet] are its errors. *)
Lemma Command_rejects_connect enc e :
  rejects (R := R) Address.read_from enc e ->
  rejects (R := R) Command.read_from ([TUIC_PROTOCOL_VERSION] ++ [Command.TYPE_CONNECT] ++ enc) e.
Proof.
  intros Ha. do 2 (eapply rejects_bind; [apply accepts_read_u8; ground|]; eval_if).
  by apply rejects_head.
Qed.

Lemma Command_rejects_packet hdr enc e :
  length hdr = 6%nat -> rejects (R := R) Address.read_from enc e ->
  rejects (R := R) Command.read_from ([TUIC_PROTOCOL_VERSION] ++ [Command.TYPE_PACKET] ++ hdr ++ enc) e.
Proof.
  intros Hl Ha. do 2 (eapply rejects_bind; [apply accepts_read_u8; ground|]; eval_if).
  eapply rejects_bind; [by apply accepts_read_exact_len|]. by apply rejects_head.
Qed.

End rejects.

Lemma Address_serialized_bounds a :
  Address.wire a -> 0 < Address.serialized_len a <= Address.max_serialized_len.
Proof.
  unfold Address.serialized_len, Address.max_serialized_len.
  destruct a as [s p|[]]; simpl; unfold blen; lia.
Qed.

Lemma Command_serialized_bounds c :
  Command.wire c -> 0 < Command.serialized_len c <= Command.max_serialized_len.
Proof.
  unfold Command.serialized_len, Command.max_serialized_len. unfold Address.max_serialized_len in *.
  destruct c as [| |a|id len a| |]; simpl; intros Hw; try lia;
    pose proof (Address_serialized_bounds a Hw) as Hb; unfold Address.max_serialized_len in Hb; lia.
Qed.

(** ** Properties *)

(** C6: A command that respects its types and that the wire format can carry,
    serialized by [write_to_buf] and followed by anything, is read back by
    [read_from] from any reader (a QUIC stream, a datagram's bytes), and exactly
    its bytes are consumed. *)
Theorem command_roundtrip {R} `{AsyncRead R} (r : R) c rest :
  Command.ok c -> Command.wire c -> unread r = Command.write_to_buf c [] ++ rest ->
  exists r', Command.read_from r = (Ok c, r') /\ unread r' = rest /\ ended r' = ended r.
Proof. intros Hc Hw Hr. by apply (Command_accepts c Hc Hw). Qed.

Definition sample_stream : RecvStream :=
  MkRecvStream [0x04; 0x02; 0; 0; 1; 0; 0; 3; 0x00; 2; 0x68; 0x69; 0; 53; 7; 8; 9] None.

Lemma command_roundtrip_witness :
  exists r', Command.read_from sample_stream = (Ok (Packet 256 3 (DomainAddress [0x68; 0x69] 53)), r')
    /\ unread r' = [7; 8; 9] /\ ended r' = ended sample_stream.
Proof.
  apply (command_roundtrip sample_stream (Packet 256 3 (DomainAddress [0x68; 0x69] 53)) [7; 8; 9]);
    try (by apply (bool_decide_unpack _)); reflexivity.
Defined.

(** C7: The encoding is canonical: whatever bytes [read_from] parses as a command
    are the serialization of that command, followed by the bytes it leaves, and
    the command is well formed. So exactly [serialized_len] bytes are consumed,
    and no two inputs that differ in these bytes give the same command. *)
Theorem command_canonical bs c rest :
  bytes_ok bs -> Command.read_from bs = (Ok c, rest) ->
  Command.ok c /\ Command.wire c /\ bs = Command.write_to_buf c [] ++ rest
  /\ blen bs = Command.serialized_len c + blen rest.
Proof.
  intros Hb E. destruct (@decode_slice_inv Command Command_Codec _ _ _ Hb E) as [[Hc Hw] ->].
  split_and!; auto. cbn. autorewrite with tuic. by rewrite Command_write_length.
Qed.

Lemma command_canonical_witness :
  Command.ok (Dissociate 258) /\ Command.wire (Dissociate 258)
  /\ [0x04; 0x03; 0; 0; 1; 2; 99] = Command.write_to_buf (Dissociate 258) [] ++ [99]
  /\ blen [0x04; 0x03; 0; 0; 1; 2; 99] = Command.serialized_len (Dissociate 258) + blen [99].
Proof. apply command_canonical; [by apply (bool_decide_unpack _)|reflexivity]. Defined.

(** C27: Malformed input is classified by its first wrong field: a version other
    than 4 is [Unsupported], an unknown command type, response code or address
    type is [InvalidInput], a domain name that is not UTF-8 is [InvalidData],
    each with the message naming the value; and the bytes after that field stay
    unread. A command cut short at any point is not mistaken for another one:
    reading a proper prefix of its encoding fails with what reset the stream, or at
    the end of the stream with [UnexpectedEof], under the message of the read that
    hit it: ``unexpected end of file'' inside an integer field (the version, the
    types, the response code, the length of a domain name, the associate ID of
    [Dissociate]), ``early eof'' inside a buffer. *)
Theorem command_errors {R} `{AsyncRead R} :
  (forall (r : R) c n, Command.ok c -> Command.wire c -> (n < Z.to_nat (Command.serialized_len c))%nat ->
     unread r = take n (Command.write_to_buf c []) ->
     fst (Command.read_from r) =
     Err (match ended r with
          | Some e => e
          | None =>
              IoError UnexpectedEof
                (if default false (Command.uint_bytes c !! n) then "unexpected end of file" else "early eof")
          end))
  /\ (forall v, is_u8 v -> v <> TUIC_PROTOCOL_VERSION ->
     rejects (R := R) Command.read_from [v]
       (IoError Unsupported ("Unsupported TUIC version: " +:+ pretty v)%string))
  /\ (forall t, is_u8 t -> Command.TYPE_HEARTBEAT < t < Command.TYPE_RESPONSE ->
     rejects (R := R) Command.read_from [TUIC_PROTOCOL_VERSION; t]
       (IoError InvalidInput ("Invalid command: " +:+ pretty t)%string))
  /\ (forall code, is_u8 code -> Command.RESPONSE_SUCCEEDED < code < Command.RESPONSE_FAILED ->
     rejects (R := R) Command.read_from [TUIC_PROTOCOL_VERSION; Command.TYPE_RESPONSE; code]
       (IoError InvalidInput ("Invalid response code: " +:+ pretty code)%string))
  /\ (forall hdr prefix, prefix = [TUIC_PROTOCOL_VERSION; Command.TYPE_CONNECT] \/
       (length hdr = 6%nat /\ prefix = [TUIC_PROTOCOL_VERSION; Command.TYPE_PACKET] ++ hdr) ->
     (forall t, is_u8 t -> Address.TYPE_IPV6 < t ->
        rejects (R := R) Command.read_from (prefix ++ [t])
          (IoError InvalidInput ("Unsupported address type: " +:+ pretty t)%string))
     /\ (forall s port err, blen s <= 255 -> length port = 2%nat -> from_utf8 s = Err err ->
        rejects (R := R) Command.read_from (prefix ++ [Address.TYPE_DOMAIN; blen s] ++ s ++ port)
          (IoError InvalidData ("Invalid address encoding: " +:+ Utf8Error_display err)%string))).
Proof.
  split.
  { intros r c n Hc Hw Hn Hr. destruct (Command_starves (R := R) c Hc Hw) as [_ Hs]. rewrite (Hs r n); [|..|done].
    - unfold end_error. destruct (ended r); [done|]. by destruct (default false _).
    - rewrite <- (Command_write_length c Hc) in Hn. unfold blen in Hn. lia. }
  split_and!; [exact Command_rejects_version|exact Command_rejects_type|exact Command_rejects_response|].
  intros hdr prefix Hp.
  assert (forall enc e, rejects (R := R) Address.read_from enc e ->
    rejects (R := R) Command.read_from (prefix ++ enc) e) as Hlift.
  { intros enc e He. destruct Hp as [->|[Hl ->]]; [by apply Command_rejects_connect|].
    rewrite <- !app_assoc. by apply Command_rejects_packet. }
  split.
  - intros t Ht Hr. unfold Address.TYPE_IPV6 in Hr.
    apply Hlift, Address_rejects_type; unfold Address.TYPE_DOMAIN, Address.TYPE_IPV4, Address.TYPE_IPV6; auto; lia.
  - intros s port err Hs Hp2 He. by apply Hlift, Address_rejects_domain.
Qed.

Lemma command_errors_witness :
  fst (Command.read_from [0x04; 0x03; 0; 0; 1]) = Err (IoError UnexpectedEof "unexpected end of file")
  /\ rejects (R := bytes) Command.read_from [5]
    (IoError Unsupported ("Unsupported TUIC version: " +:+ pretty 5)%string).
Proof.
  split.
  - refine (proj1 (command_errors (R := bytes)) [0x04; 0x03; 0; 0; 1] (Dissociate 258) 5%nat _ _ _ _); try done; vm_compute; lia.
  - apply (proj1 (proj2 (command_errors (R := bytes))) 5); unfold is_uint, TUIC_PROTOCOL_VERSION; lia.
Defined.

(** C29: The serialized length is the announced one and never exceeds
    [max_serialized_len], which is 267 bytes; serializing appends to the buffer. The
    length of a domain name is one byte on the wire: a name of more than
    255 bytes is written with its length modulo 256, and what the peer reads,
    if anything, is another address. *)
Theorem command_length :
  (forall c buf, Command.ok c -> Command.wire c ->
     blen (Command.write_to_buf c buf) = blen buf + Command.serialized_len c
     /\ 0 < Command.serialized_len c <= Command.max_serialized_len
     /\ Command.max_serialized_len = 267 /\ bytes_ok (Command.write_to_buf c []))
  /\ (forall s port rest, utf8_ok s -> bytes_ok s -> is_u16 port -> bytes_ok rest -> 255 < blen s ->
     let c := Connect (DomainAddress s port) in
     Command.write_to_buf c [] =
       [TUIC_PROTOCOL_VERSION; Command.TYPE_CONNECT; Address.TYPE_DOMAIN; blen s mod 256] ++ s ++ to_be 2 port
     /\ fst (Command.read_from (Command.write_to_buf c [] ++ rest)) <> Ok c).
Proof.
  split.
  - intros c buf Hc Hw. split_and!; try apply Command_serialized_bounds; auto using Command_write_ok.
    rewrite Command_write_to_buf_app. autorewrite with tuic. by rewrite Command_write_length.
  - intros s port rest Hs Hb Hp Hr Hl c. split; [unfold c; by rewrite Command_write_shape, Address_write_domain|].
    destruct (Command.read_from (Command.write_to_buf c [] ++ rest)) as [[c'|e] rest'] eqn:E; [|done].
    apply (@decode_slice_inv Command Command_Codec) in E as [[_ Hw] _].
    + simpl. intros [= ->]. simpl in Hw. lia.
    + apply bytes_ok_app. split; [|done]. by apply Command_write_ok.
Qed.

Lemma command_length_witness :
  blen (Command.write_to_buf (Response true) [5]) = blen [5] + 3
  /\ fst (Command.read_from (Command.write_to_buf (Connect (DomainAddress (replicate 256 97) 80)) [] ++ []))
     <> Ok (Connect (DomainAddress (replicate 256 97) 80)).
Proof.
  split; [by apply (proj1 command_length (Response true) [5])|].
  apply (proj2 command_length (replicate 256 97) 80 []); try (by apply (bool_decide_unpack _)); vm_compute; auto.
Defined.
