(* ===== verification/Utf8.v ===== *)
(** * Domain names as text

    A reference definition of UTF-8 (RFC 3629): the scalar values of Unicode and the
    encoding of each. The validation loop that [String::from_utf8] runs
    ([RustIo.utf8_validate]) accepts exactly the encodings of texts, so that
    [Address::read_from] does. *)

From S2P Require Import Prelude RustIo Protocol ProtocolSpec.

Local Open Scope Z_scope.

Definition scalar (c : Z) : Prop := 0 <= c < 0xD800 \/ 0xE000 <= c < 0x110000.

Definition encode_char (c : Z) : bytes :=
  if c <? 0x80 then [c]
  else if c <? 0x800 then [0xC0 + c / 64; 0x80 + c mod 64]
  else if c <? 0x10000 then [0xE0 + c / 4096; 0x80 + c / 64 mod 64; 0x80 + c mod 64]
  else [0xF0 + c / 262144; 0x80 + c / 4096 mod 64; 0x80 + c / 64 mod 64; 0x80 + c mod 64].

Definition encode (text : list Z) : bytes := text ≫= encode_char.

(** ** The lead byte decides the width *)

(** Arithmetic with division by the powers of 64. *)
Ltac div_lia := Z.to_euclidean_division_equations; lia.

Lemma width_2 b : 0xC2 <= b <= 0xDF -> utf8_char_width b = 2.
Proof. intros Hb. unfold utf8_char_width. destruct (Z.leb_spec 0xC2 b), (Z.leb_spec b 0xDF); simpl; lia. Qed.
Lemma width_3 b : 0xE0 <= b <= 0xEF -> utf8_char_width b = 3.
Proof.
  intros Hb. unfold utf8_char_width.
  destruct (Z.leb_spec 0xC2 b), (Z.leb_spec b 0xDF), (Z.leb_spec 0xE0 b), (Z.leb_spec b 0xEF); simpl; lia.
Qed.
Lemma width_4 b : 0xF0 <= b <= 0xF4 -> utf8_char_width b = 4.
Proof.
  intros Hb. unfold utf8_char_width.
  destruct (Z.leb_spec 0xC2 b), (Z.leb_spec b 0xDF), (Z.leb_spec 0xE0 b), (Z.leb_spec b 0xEF), (Z.leb_spec 0xF0 b),
    (Z.leb_spec b 0xF4); simpl; lia.
Qed.

Lemma width_inv b :
  (utf8_char_width b = 2 -> 0xC2 <= b <= 0xDF) /\ (utf8_char_width b = 3 -> 0xE0 <= b <= 0xEF)
  /\ (utf8_char_width b = 4 -> 0xF0 <= b <= 0xF4).
Proof. unfold utf8_char_width. repeat case_match; bool_to_prop; lia. Qed.

Lemma is_cont_spec b : is_cont b = true <-> 0x80 <= b <= 0xBF.
Proof. unfold is_cont. rewrite andb_true_iff, !Z.leb_le. lia. Qed.

Lemma second_of_3_spec first b :
  second_of_3 first b = true <->
  0xE0 <= first <= 0xEF /\ 0x80 <= b <= 0xBF /\ (first = 0xE0 -> 0xA0 <= b) /\ (first = 0xED -> b <= 0x9F).
Proof.
  unfold second_of_3. rewrite !orb_true_iff, !andb_true_iff, !is_cont_spec, !Z.leb_le, !Z.eqb_eq. lia.
Qed.

Lemma second_of_4_spec first b :
  second_of_4 first b = true <->
  0xF0 <= first <= 0xF4 /\ 0x80 <= b <= 0xBF /\ (first = 0xF0 -> 0x90 <= b) /\ (first = 0xF4 -> b <= 0x8F).
Proof.
  unfold second_of_4. rewrite !orb_true_iff, !andb_true_iff, !is_cont_spec, !Z.leb_le, !Z.eqb_eq. lia.
Qed.

(** ** A character and what follows *)

Lemma validate_char i c v : scalar c -> utf8_validate i (encode_char c ++ v) = utf8_validate (i + blen (encode_char c)) v.
Proof.
  unfold scalar, encode_char. intros Hc.
  destruct (Z.ltb_spec c 0x80); [|destruct (Z.ltb_spec c 0x800); [|destruct (Z.ltb_spec c 0x10000)]]; cbn [app utf8_validate].
  - by rewrite (proj2 (Z.ltb_lt _ _)).
  - rewrite (proj2 (Z.ltb_ge _ _)) by div_lia. rewrite width_2 by div_lia. cbn [Z.eqb Pos.eqb].
    by rewrite (proj2 (is_cont_spec _)) by div_lia.
  - rewrite (proj2 (Z.ltb_ge _ _)) by div_lia. rewrite width_3 by div_lia. cbn [Z.eqb Pos.eqb].
    rewrite (proj2 (second_of_3_spec _ _)) by div_lia. by rewrite (proj2 (is_cont_spec _)) by div_lia.
  - rewrite (proj2 (Z.ltb_ge _ _)) by div_lia. rewrite width_4 by div_lia. cbn [Z.eqb Pos.eqb].
    rewrite (proj2 (second_of_4_spec _ _)) by div_lia. by rewrite !(proj2 (is_cont_spec _)) by div_lia.
Qed.

(** The validated bytes are of text. *)
Lemma encode_valid i text : Forall scalar text -> utf8_validate i (encode text) = None.
Proof.
  intros Ht. revert i. induction Ht as [|c text Hc _ IH]; intros i; [done|].
  cbn [encode mbind list_bind]. rewrite validate_char by done. apply IH.
Qed.

(** Sequences of two, three and four bytes are characters. *)
Lemma encode_2 a b : 0xC2 <= a <= 0xDF -> 0x80 <= b <= 0xBF ->
  exists c, scalar c /\ [a; b] = encode_char c.
Proof.
  intros Ha Hb. exists ((a - 0xC0) * 64 + (b - 0x80)). split; [unfold scalar; lia|]. unfold encode_char.
  rewrite (proj2 (Z.ltb_ge _ _)), (proj2 (Z.ltb_lt _ 0x800)) by lia. f_equal; [div_lia|]. f_equal. div_lia.
Qed.

Lemma encode_3 a b c : second_of_3 a b = true -> 0x80 <= c <= 0xBF ->
  exists x, scalar x /\ [a; b; c] = encode_char x.
Proof.
  intros (Ha & Hb & H1 & H2)%second_of_3_spec Hc. exists ((a - 0xE0) * 4096 + (b - 0x80) * 64 + (c - 0x80)).
  split; [unfold scalar; lia|]. unfold encode_char.
  rewrite !(proj2 (Z.ltb_ge _ _)), (proj2 (Z.ltb_lt _ 0x10000)) by lia.
  f_equal; [div_lia|]. f_equal; [div_lia|]. f_equal. div_lia.
Qed.

Lemma encode_4 a b c d : second_of_4 a b = true -> 0x80 <= c <= 0xBF -> 0x80 <= d <= 0xBF ->
  exists x, scalar x /\ [a; b; c; d] = encode_char x.
Proof.
  intros (Ha & Hb & H1 & H2)%second_of_4_spec Hc Hd.
  exists ((a - 0xF0) * 262144 + (b - 0x80) * 4096 + (c - 0x80) * 64 + (d - 0x80)).
  split; [unfold scalar; lia|]. unfold encode_char. rewrite !(proj2 (Z.ltb_ge _ _)) by lia.
  f_equal; [div_lia|]. f_equal; [div_lia|]. f_equal; [div_lia|]. f_equal. div_lia.
Qed.

Definition is_text (v : bytes) : Prop := exists text, Forall scalar text /\ v = encode text.

Lemma is_text_cons chunk v : (exists c, scalar c /\ chunk = encode_char c) -> is_text v -> is_text (chunk ++ v).
Proof. intros (c & Hc & ->) (text & Ht & ->). exists (c :: text). split; [by constructor|done]. Qed.

Lemma valid_text i v : bytes_ok v -> utf8_validate i v = None -> is_text v.
Proof.
  remember (length v) as n eqn:En. revert i v En. induction (lt_wf n) as [n _ IH]. intros i v -> Hb E.
  destruct v as [|a v1]; [by exists []|]. cbn [utf8_validate] in E. apply Forall_cons in Hb as [Ha Hb].
  assert (forall j w, (length w < length (a :: v1))%nat -> bytes_ok w -> utf8_validate j w = None -> is_text w) as IH'
    by (intros; by eapply IH). clear IH.
  destruct (Z.ltb_spec a 128) as [Hlt|Hge].
  { apply (is_text_cons [a]); [|by eapply IH'; [simpl; lia|..]]. exists a. split; [unfold is_uint, scalar in *; lia|].
    unfold encode_char. by rewrite (proj2 (Z.ltb_lt _ _)). }
  destruct (width_inv a) as (W2 & W3 & W4).
  destruct (Z.eqb_spec (utf8_char_width a) 2) as [Hw|_].
  { destruct v1 as [|b v2]; [done|]. destruct (is_cont b) eqn:Eb; [|done]. apply is_cont_spec in Eb.
    apply Forall_cons in Hb as [_ Hb]. apply (is_text_cons [a; b]); [by apply encode_2; auto|].
    by eapply IH'; [simpl; lia|..]. }
  destruct (Z.eqb_spec (utf8_char_width a) 3) as [Hw|_].
  { destruct v1 as [|b v2]; [done|]. destruct (second_of_3 a b) eqn:Eb; [|done]. destruct v2 as [|c v3]; [done|].
    destruct (is_cont c) eqn:Ec; [|done]. apply is_cont_spec in Ec. apply Forall_cons in Hb as [_ [_ Hb]%Forall_cons].
    apply (is_text_cons [a; b; c]); [by apply encode_3|]. by eapply IH'; [simpl; lia|..]. }
  destruct (Z.eqb_spec (utf8_char_width a) 4) as [Hw|_]; [|done].
  destruct v1 as [|b v2]; [done|]. destruct (second_of_4 a b) eqn:Eb; [|done]. destruct v2 as [|c v3]; [done|].
  destruct (is_cont c) eqn:Ec; [|done]. destruct v3 as [|d v4]; [done|]. destruct (is_cont d) eqn:Ed; [|done].
  apply is_cont_spec in Ec, Ed. apply Forall_cons in Hb as [_ [_ [_ Hb]%Forall_cons]%Forall_cons].
  apply (is_text_cons [a; b; c; d]); [by apply encode_4|]. by eapply IH'; [simpl; lia|..].
Qed.

Lemma utf8_ok_text v : bytes_ok v -> utf8_ok v <-> is_text v.
Proof. intros Hb. split; [by apply valid_text|]. intros (text & Ht & ->). by apply encode_valid. Qed.

(** The first character of an encoding is determined. *)
Lemma encode_char_inj c c' v v' :
  scalar c -> scalar c' -> encode_char c ++ v = encode_char c' ++ v' -> c = c' /\ v = v'.
Proof.
  unfold scalar, encode_char. intros Hc Hc' E.
  destruct (Z.ltb_spec c 0x80); [|destruct (Z.ltb_spec c 0x800); [|destruct (Z.ltb_spec c 0x10000)]];
  (destruct (Z.ltb_spec c' 0x80); [|destruct (Z.ltb_spec c' 0x800); [|destruct (Z.ltb_spec c' 0x10000)]]);
  cbn [app] in E; simplify_list_eq; try (exfalso; div_lia); (split; [div_lia|done]).
Qed.

Lemma encode_inj text text' : Forall scalar text -> Forall scalar text' -> encode text = encode text' -> text = text'.
Proof.
  intros Ht. revert text'. induction Ht as [|c text Hc _ IH]; intros [|c' text'] Ht' E; try done.
  - apply Forall_cons in Ht' as [Hc' _]. cbn in E. unfold encode_char in E. by repeat case_match.
  - cbn in E. unfold encode_char in E. by repeat case_match.
  - apply Forall_cons in Ht' as [Hc' Ht']. cbn [encode mbind list_bind] in E.
    destruct (encode_char_inj c c' _ _ Hc Hc' E) as [-> Ev]. f_equal. by apply IH.
Qed.

(** ** Properties *)

(** C16: On every transport, [Address::read_from] accepts a domain name exactly when its
    bytes are the UTF-8 encoding, as RFC 3629 defines it, of a list of Unicode scalar
    values (no surrogates, no overlong forms, nothing above U+10FFFF); that list is
    then determined, and the address read has exactly those bytes. Any other name is
    refused as invalid data. *)
Theorem domain_is_text {R} `{AsyncRead R} s port :
  bytes_ok s -> blen s <= 255 -> is_u16 port ->
  let wire := [Address.TYPE_DOMAIN] ++ [blen s] ++ s ++ to_be 2 port in
  (forall text, Forall scalar text -> s = encode text ->
     accepts (R := R) Address.read_from wire (DomainAddress s port)
     /\ forall text', Forall scalar text' -> s = encode text' -> text' = text)
  /\ ((forall text, Forall scalar text -> s <> encode text) ->
     exists e, kind e = InvalidData /\ rejects (R := R) Address.read_from wire e).
Proof.
  intros Hb Hl Hp wire. split.
  - intros text Ht Hs. split; [|intros text' Ht' Hs'; apply encode_inj; congruence].
    assert (utf8_ok s) as Hu by (apply utf8_ok_text; [done|by exists text]).
    replace wire with (Address.write_to_buf (DomainAddress s port) []); [by apply Address_accepts|].
    rewrite Address_write_domain. unfold wire, as_uint. rewrite Z.mod_small; [done|]. unfold blen in *. lia.
  - intros Hno. unfold wire. destruct (from_utf8 s) as [s'|err] eqn:E.
    + unfold from_utf8 in E. destruct (utf8_validate 0 s) eqn:Ev; [done|].
      destruct (valid_text 0 s Hb Ev) as (text & Ht & Hs). by destruct (Hno text Ht).
    + eexists. split; [|apply Address_rejects_domain; [done|apply length_to_be|done]]. done.
Qed.

(** A name of one, two, three and four bytes, and an encoded surrogate. *)
Lemma domain_is_text_witness :
  accepts (R := bytes) Address.read_from ([0] ++ [10] ++ encode [0x61; 0xE9; 0x4E2D; 0x1F600] ++ [0; 80])
    (DomainAddress [0x61; 0xC3; 0xA9; 0xE4; 0xB8; 0xAD; 0xF0; 0x9F; 0x98; 0x80] 80)
  /\ exists e, rejects (R := bytes) Address.read_from ([0] ++ [3] ++ [0xED; 0xA0; 0x80] ++ [0; 80]) e.
Proof.
  split.
  - destruct (domain_is_text (R := bytes) (encode [0x61; 0xE9; 0x4E2D; 0x1F600]) 80) as [H _];
      [by apply (bool_decide_unpack _)|done..|].
    apply (H [0x61; 0xE9; 0x4E2D; 0x1F600]); [|reflexivity]. repeat constructor; unfold scalar; lia.
  - destruct (domain_is_text (R := bytes) [0xED; 0xA0; 0x80] 80) as [_ H]; [by apply (bool_decide_unpack _)|done..|].
    destruct H as (e & _ & He); [|by exists e]. intros text Ht E.
    assert (utf8_validate 0 [0xED; 0xA0; 0x80] = None) as Ev by (rewrite E; by apply encode_valid).
    by vm_compute in Ev.
Defined.
