(* ===== verification/Async.v ===== *)
(** * Asynchronous tasks over shared state

    A handler of the program is an [async fn] that performs operations on the
    state its connection shares and awaits their results. It is a [prog]: a
    finite tree whose nodes are operations. A [system] is the shared state and
    the tasks spawned on it; one step of the system is one operation of one
    task, so that every interleaving the runtime allows is a sequence of steps.

    The section [Logic] is a rely-guarantee logic for such systems: an invariant
    of the shared state, a precondition for each operation, and the facts an
    operation establishes, which every other step preserves. *)

From S2P Require Import Prelude.

(** ** Programs *)

Inductive prog {op : Type} (resp : op -> Type) (A : Type) : Type :=
| Ret (a : A)
| Panics
| Vis (o : op) (k : resp o -> prog resp A).
Arguments Ret {op resp A} a.
Arguments Panics {op resp A}.
Arguments Vis {op resp A} o k.

#[export] Instance prog_ret {op} {resp : op -> Type} : MRet (prog resp) := fun A a => Ret a.

#[export] Instance prog_bind {op} {resp : op -> Type} : MBind (prog resp) :=
  fun A B f => fix bind (m : prog resp A) : prog resp B :=
  match m with
  | Ret a => f a
  | Panics => Panics
  | Vis o k => Vis o (fun r => bind (k r))
  end.

(** One operation as a program. *)
Definition call {op} {resp : op -> Type} (o : op) : prog resp (resp o) := Vis o Ret.

(** A computation that may panic, inside a task. *)
Definition or_panic {op} {resp : op -> Type} {A} (x : outcome A) : prog resp A :=
  match x with
  | Done a => Ret a
  | Panic => Panics
  end.

(** The [?] operator inside a task, and the conversion of its error. *)
Definition try_bind {op} {resp : op -> Type} {E A B} (m : prog resp (result E A))
    (k : A -> prog resp (result E B)) : prog resp (result E B) :=
  r ← m;
  match r with
  | Ok a => k a
  | Err e => mret (Err e)
  end.

Definition err_into {op} {resp : op -> Type} {E F A} (f : E -> F) (m : prog resp (result E A)) :
    prog resp (result F A) :=
  r ← m; mret (map_err f r).

Declare Scope task_scope.
Delimit Scope task_scope with task.
Notation "x '<-?' m ';;' k" := (try_bind m (fun x => k))
  (at level 100, m at next level, right associativity) : task_scope.

(** ** Machines: what an operation of a task does to the shared state *)

(** [Again]: the task made progress inside the operation (a future was polled up
    to its next shared access) and has not finished it. [Blocked]: nothing can
    happen until another step changes the state. *)
Inductive exec_res (S A : Type) : Type :=
| Finished (a : A) (s : S)
| Again (s : S)
| Blocked.
Arguments Finished {S A} a s.
Arguments Again {S A} s.
Arguments Blocked {S A}.

Class Machine {op : Type} (resp : op -> Type) (S : Type) :=
  exec : nat -> forall o : op, S -> exec_res S (resp o).

(** The next shared access of a finished, blocked or progressing operation. *)
Definition res_map {S T A} (f : S -> T) (r : exec_res S A) : exec_res T A :=
  match r with
  | Finished a s => Finished a (f s)
  | Again s => Again (f s)
  | Blocked => Blocked
  end.

(** ** Systems *)

Record system {op : Type} (resp : op -> Type) (S : Type) := MkSystem {
  shared : S;
  tasks : gmap nat (prog resp unit) }.
Arguments MkSystem {op resp S} shared tasks.
Arguments shared {op resp S} s.
Arguments tasks {op resp S} s.

Section system.
Context {op : Type} {resp : op -> Type} {S : Type} `{Machine op resp S}.

(** One operation of the task [tid]. *)
Definition step_task (tid : nat) (σ : system resp S) : option (system resp S) :=
  match tasks σ !! tid with
  | Some (Vis o k) =>
      match exec tid o (shared σ) with
      | Finished r s => Some (MkSystem s (<[tid := k r]> (tasks σ)))
      | Again s => Some (MkSystem s (tasks σ))
      | Blocked => None
      end
  | _ => None
  end.

Lemma step_task_finished tid σ o k r s :
  tasks σ !! tid = Some (Vis o k) -> exec tid o (shared σ) = Finished r s ->
  step_task tid σ = Some (MkSystem s (<[tid := k r]> (tasks σ))).
Proof. intros Ht E. unfold step_task. by rewrite Ht, E. Qed.

(** The environment changes the shared state on its own ([env]) and makes the
    program spawn tasks ([spawn]). *)
Context (env : S -> S -> Prop) (spawn : S -> prog resp unit -> S -> Prop).

Inductive step : system resp S -> system resp S -> Prop :=
| step_run tid σ σ' : step_task tid σ = Some σ' -> step σ σ'
| step_env σ s' : env (shared σ) s' -> step σ (MkSystem s' (tasks σ))
| step_spawn tid p σ s' :
    tasks σ !! tid = None -> spawn (shared σ) p s' ->
    step σ (MkSystem s' (<[tid := p]> (tasks σ))).

Inductive steps : system resp S -> system resp S -> Prop :=
| steps_refl σ : steps σ σ
| steps_step σ1 σ2 σ3 : steps σ1 σ2 -> step σ2 σ3 -> steps σ1 σ3.

Lemma steps_trans σ1 σ2 σ3 : steps σ1 σ2 -> steps σ2 σ3 -> steps σ1 σ3.
Proof. intros H1 H2. induction H2; eauto using steps. Qed.

Lemma steps_one σ1 σ2 : step σ1 σ2 -> steps σ1 σ2.
Proof. eauto using steps. Qed.

Lemma steps_finished tid σ o k r s σ' :
  tasks σ !! tid = Some (Vis o k) -> exec tid o (shared σ) = Finished r s ->
  steps (MkSystem s (<[tid := k r]> (tasks σ))) σ' -> steps σ σ'.
Proof.
  intros Ht E Hs. eapply steps_trans; [|done]. eapply steps_one, (step_run tid). by eapply step_task_finished.
Qed.

(** A schedule: which task moves next. *)
Fixpoint run_schedule (sch : list nat) (σ : system resp S) : option (system resp S) :=
  match sch with
  | [] => Some σ
  | tid :: sch => σ ← step_task tid σ; run_schedule sch σ
  end.

Lemma run_schedule_steps sch σ σ' : run_schedule sch σ = Some σ' -> steps σ σ'.
Proof.
  revert σ. induction sch as [|tid sch IH]; intros σ E; simpl in E.
  - simplify_eq. constructor.
  - destruct (step_task tid σ) as [σ1|] eqn:E1; [|done]. simpl in E.
    eapply steps_trans; [|by apply IH]. eapply steps_one. by eapply step_run.
Qed.

(** A state in which no task can move. *)
Definition stuck_task (tid : nat) (σ : system resp S) : Prop :=
  exists o k, tasks σ !! tid = Some (Vis o k) /\ exec tid o (shared σ) = Blocked.

End system.

(** ** A program against any environment *)

Section perform.
Context {op : Type} {resp : op -> Type}.

(** A call and its answer; an environment answers knowing all that happened before. *)
Record event := Event { ev_op : op; ev_resp : resp ev_op }.
Definition environment : Type := list event -> forall o : op, resp o.

(** The result of a program and the calls it made, after those of [past]. *)
Fixpoint perform {A} (env : environment) (past : list event) (p : prog resp A) : outcome A * list event :=
  match p with
  | Ret a => (Done a, past)
  | Panics => (Panic, past)
  | Vis o k => let r := env past o in perform env (past ++ [Event o r]) (k r)
  end.

Lemma perform_bind {A B} env past (m : prog resp A) (f : A -> prog resp B) :
  perform env past (m ≫= f) =
  match perform env past m with
  | (Done a, past) => perform env past (f a)
  | (Panic, past) => (Panic, past)
  end.
Proof. revert past. induction m as [a| |o k IH]; intros past; [done|done|]. cbn. apply IH. Qed.

(** A program only adds to what happened. *)
Lemma perform_past {A} env past (p : prog resp A) : exists tr, (perform env past p).2 = past ++ tr.
Proof.
  revert past. induction p as [a| |o k IH]; intros past; simpl; [exists []; by rewrite app_nil_r..|].
  destruct (IH (env past o) (past ++ [Event o (env past o)])) as [tr E]. rewrite E, <- app_assoc. eauto.
Qed.

(** The result of a call that returns nothing. *)
Lemma done_tt (u : unit) : Done u = Done tt.
Proof. by destruct u. Qed.

End perform.
Arguments event {op} resp.
Arguments environment {op} resp.

(** ** A task alone: its operations one after the other *)

Section run.
Context {op : Type} {resp : op -> Type} {S : Type} `{Machine op resp S}.

(** At most [n] accesses of one operation; the state reached when it blocks. *)
Fixpoint exec_n (n : nat) (tid : nat) (o : op) (s : S) : option (resp o) * S :=
  match n with
  | O => (None, s)
  | Datatypes.S n =>
      match exec tid o s with
      | Finished r s => (Some r, s)
      | Again s => exec_n n tid o s
      | Blocked => (None, s)
      end
  end.

Inductive run_res (A : Type) : Type :=
| RunDone (a : A) (s : S)
| RunPanic (s : S)
| RunBlocked (o : op) (s : S).
Arguments RunDone {A} a s.
Arguments RunPanic {A} s.
Arguments RunBlocked {A} o s.

(** [polls] bounds the accesses one operation needs before it finishes or
    blocks. *)
Definition polls : nat := 8.

Fixpoint run {A} (tid : nat) (p : prog resp A) (s : S) : run_res A :=
  match p with
  | Ret a => RunDone a s
  | Panics => RunPanic s
  | Vis o k =>
      match exec_n polls tid o s with
      | (Some r, s) => run tid (k r) s
      | (None, s) => RunBlocked o s
      end
  end.

Lemma run_bind {A B} tid (m : prog resp A) (f : A -> prog resp B) s :
  run tid (m ≫= f) s =
  match run tid m s with
  | RunDone a s => run tid (f a) s
  | RunPanic s => RunPanic s
  | RunBlocked o s => RunBlocked o s
  end.
Proof.
  revert s. induction m as [a| |o k IH]; intros s; [done|done|].
  cbn [run mbind prog_bind]. destruct (exec_n polls tid o s) as [[r|] s']; [|done].
  apply IH.
Qed.

Context (env : S -> S -> Prop) (spawn : S -> prog resp unit -> S -> Prop).

Lemma exec_n_steps n tid o k s r s' (ts : gmap nat (prog resp unit)) :
  exec_n n tid o s = (Some r, s') -> ts !! tid = Some (Vis o k) ->
  steps env spawn (MkSystem s ts) (MkSystem s' (<[tid := k r]> ts)).
Proof.
  revert s. induction n as [|n IH]; intros s E Ht; simpl in E; [done|].
  destruct (exec tid o s) as [r1 s1|s1|] eqn:Ex; simplify_eq.
  - apply steps_one. apply (step_run _ _ tid). unfold step_task. simpl. by rewrite Ht, Ex.
  - eapply steps_trans; [|by apply IH]. apply steps_one. apply (step_run _ _ tid).
    unfold step_task. simpl. by rewrite Ht, Ex.
Qed.

(** Running a task alone is one of the behaviours of the system. *)
Lemma run_steps tid (p : prog resp unit) s s' (ts : gmap nat (prog resp unit)) :
  ts !! tid = Some p -> run tid p s = RunDone tt s' ->
  steps env spawn (MkSystem s ts) (MkSystem s' (<[tid := Ret tt]> ts)).
Proof.
  revert s ts. induction p as [[]| |o k IH]; intros s ts Ht E; cbn [run] in E.
  - simplify_eq. rewrite insert_id by done. constructor.
  - done.
  - destruct (exec_n polls tid o s) as [[r|] s1] eqn:Ex; [|done].
    eapply steps_trans; [by eapply exec_n_steps|].
    specialize (IH r s1 (<[tid := k r]> ts)). rewrite insert_insert_eq in IH.
    apply IH; [by rewrite lookup_insert_eq | done].
Qed.

End run.
Arguments RunDone {op S A} a s.
Arguments RunPanic {op S A} s.
Arguments RunBlocked {op S A} o s.

(** ** Rely-guarantee *)

Abbreviation anyway := (fun _ _ => True).

Section logic.
Context {op : Type} {resp : op -> Type} {S : Type} `{Machine op resp S}.
Context (env : S -> S -> Prop) (spawn : S -> prog resp unit -> S -> Prop).

(** What a group of proofs about one system fixes: the invariant, what an
    operation of a task requires, the lasting facts it establishes, and the
    facts it establishes for its own task until that task's next operation. *)
Context (I : S -> Prop) (pre : nat -> op -> S -> Prop)
  (post : forall o : op, resp o -> S -> Prop)
  (lpost : nat -> forall o : op, resp o -> S -> Prop).

Definition res_holds {A} (P : S -> Prop) (Q : A -> S -> Prop) (r : exec_res S A) : Prop :=
  match r with
  | Finished a s => P s /\ Q a s
  | Again s => P s
  | Blocked => True
  end.

(** A fact no step of the system destroys. *)
Record stable (P : S -> Prop) : Prop := MkStable {
  stable_exec tid o s : I s -> pre tid o s -> P s -> res_holds P anyway (exec tid o s);
  stable_env s s' : I s -> P s -> env s s' -> P s';
  stable_spawn s p s' : I s -> P s -> spawn s p s' -> P s' }.

(** A fact only the task [tid] itself, finishing an operation, can destroy. *)
Record lstable (tid : nat) (L : S -> Prop) : Prop := MkLstable {
  lstable_exec tid' o s :
    tid' <> tid -> I s -> pre tid' o s -> L s -> res_holds L anyway (exec tid' o s);
  lstable_again o s : I s -> L s -> forall s', exec tid o s = Again s' -> L s';
  lstable_env s s' : I s -> L s -> env s s' -> L s';
  lstable_spawn s p s' : I s -> L s -> spawn s p s' -> L s' }.

Lemma stable_True : stable (fun _ => True).
Proof. split; [|done|done]. intros tid o s _ _ _. destruct (exec tid o s); simpl; auto. Qed.

Lemma lstable_True tid : lstable tid (fun _ => True).
Proof. split; try done. intros tid' o s _ _ _ _. destruct (exec tid' o s); simpl; auto. Qed.

Lemma stable_and P Q : stable P -> stable Q -> stable (fun s => P s /\ Q s).
Proof.
  intros HP HQ. split.
  - intros tid o s Hi Hp [H1 H2]. apply (stable_exec _ HP tid o s Hi Hp) in H1.
    apply (stable_exec _ HQ tid o s Hi Hp) in H2. by destruct (exec tid o s); simpl in *; destruct_and?.
  - intros s s' Hi [H1 H2] He. split; [by eapply (stable_env P)|by eapply (stable_env Q)].
  - intros s p s' Hi [H1 H2] He. split; [by eapply (stable_spawn P)|by eapply (stable_spawn Q)].
Qed.

Lemma lstable_weak tid (L L' : S -> Prop) :
  lstable tid L -> (forall s, L s <-> L' s) -> lstable tid L'.
Proof.
  intros HL Heq. split.
  - intros tid' o s Hne Hi Hp Hs. apply Heq in Hs. pose proof (lstable_exec _ _ HL tid' o s Hne Hi Hp Hs) as Hx.
    destruct (exec tid' o s); simpl in *; rewrite <- ?Heq; auto.
  - intros o s Hi Hs s' E. apply Heq. apply Heq in Hs. exact (lstable_again _ _ HL o s Hi Hs s' E).
  - intros s s' Hi Hs He. apply Heq. apply Heq in Hs. exact (lstable_env _ _ HL s s' Hi Hs He).
  - intros s p s' Hi Hs He. apply Heq. apply Heq in Hs. exact (lstable_spawn _ _ HL s p s' Hi Hs He).
Qed.

(** [triple tid P L p Q]: started when the lasting facts [P] and the facts [L] of
    the task hold, every operation of [p] finds its precondition, no branch
    panics, and a result [a] comes with [Q a]. *)
Fixpoint triple {A} (tid : nat) (P L : S -> Prop) (p : prog resp A) (Q : A -> S -> Prop) : Prop :=
  match p with
  | Ret a => forall s, I s -> P s -> Q a s
  | Panics => forall s, I s -> P s -> L s -> False
  | Vis o k =>
      (forall s, I s -> P s -> L s -> pre tid o s) /\
      forall r, triple tid (fun s => P s /\ post o r s) (lpost tid o r) (k r) Q
  end.

Lemma triple_mono {A} tid (P P' L L' : S -> Prop) (p : prog resp A) (Q Q' : A -> S -> Prop) :
  (forall s, I s -> P' s -> P s) -> (forall s, I s -> L' s -> L s) ->
  (forall a s, I s -> Q a s -> Q' a s) -> triple tid P L p Q -> triple tid P' L' p Q'.
Proof.
  intros HP HL HQ. revert P P' HP L L' HL. induction p as [a| |o k IH]; intros P P' HP L L' HL; simpl.
  - eauto.
  - eauto.
  - intros [H1 H2]. split; [by eauto|]. intros r. eapply IH; [|done|apply H2].
    intros s Hi [? ?]. eauto.
Qed.

#[export] Instance triple_proper {A} tid :
  Proper (pointwise_relation S iff ==> pointwise_relation S iff ==> eq ==> eq ==> iff) (@triple A tid).
Proof.
  intros P P' HP L L' HL p _ <- Q _ <-.
  split; apply triple_mono; try done; intros s _ Hs; first [by apply HP | by apply HL].
Qed.

(** Sequencing; the second program starts without facts of the task's own. *)
Lemma triple_bind {A B} tid (P L : S -> Prop) (m : prog resp A) (f : A -> prog resp B) Q Q' :
  triple tid P L m Q -> (forall a L, triple tid (Q a) L (f a) Q') -> triple tid P L (m ≫= f) Q'.
Proof.
  revert P L. induction m as [a| |o k IH]; intros P L Hm Hf; simpl in *.
  - eapply triple_mono; [apply Hm|done|done|apply Hf].
  - done.
  - destruct Hm as [H1 H2]. split; [done|]. intros r. by apply IH.
Qed.

Lemma triple_call tid (o : op) (P L : S -> Prop) :
  (forall s, I s -> P s -> L s -> pre tid o s) ->
  triple tid P L (call o) (fun r s => P s /\ post o r s).
Proof. intros Ho. split; [done|]. intros r. simpl. naive_solver. Qed.

(** The obligations of a system. *)
Hypothesis exec_ok : forall tid o s, I s -> pre tid o s ->
  res_holds I (fun r s => post o r s /\ lpost tid o r s) (exec tid o s).
Hypothesis post_stable : forall o r, stable (post o r).
Hypothesis lpost_stable : forall tid o r, lstable tid (lpost tid o r).
Hypothesis env_ok : forall s s', I s -> env s s' -> I s'.
Hypothesis spawn_ok : forall s p s', I s -> spawn s p s' ->
  I s' /\ exists P, stable P /\ P s' /\ forall tid, triple tid P (fun _ => True) p anyway.

Definition task_ok (s : S) (tid : nat) (p : prog resp unit) : Prop :=
  exists P L, stable P /\ lstable tid L /\ P s /\ L s /\ triple tid P L p anyway.

Definition sys_ok (σ : system resp S) : Prop :=
  I (shared σ) /\ forall tid p, tasks σ !! tid = Some p -> task_ok (shared σ) tid p.

(** A task is not disturbed by the step of another one. *)
Lemma task_ok_frame tid tid' o s p :
  tid' <> tid -> I s -> pre tid' o s -> task_ok s tid p ->
  res_holds (fun s' => task_ok s' tid p) anyway (exec tid' o s).
Proof.
  intros Hne HI Hpre (P & L & HP & HL & HPs & HLs & Htr).
  pose proof (stable_exec _ HP tid' o s HI Hpre HPs) as H1.
  pose proof (lstable_exec _ _ HL tid' o s Hne HI Hpre HLs) as H2.
  destruct (exec tid' o s); simpl in *; destruct_and?; [split; [|done]| |done]; exists P, L; auto.
Qed.

(** Its own step leads it to its next operation. *)
Lemma task_ok_own tid o k s :
  I s -> task_ok s tid (Vis o k) ->
  match exec tid o s with
  | Finished r s' => I s' /\ task_ok s' tid (k r)
  | Again s' => I s' /\ task_ok s' tid (Vis o k)
  | Blocked => True
  end.
Proof.
  intros HI (P & L & HP & HL & HPs & HLs & Hpre & Htr). pose proof (Hpre s HI HPs HLs) as Hp.
  pose proof (exec_ok tid o s HI Hp) as Hex. pose proof (stable_exec _ HP tid o s HI Hp HPs) as HP'.
  pose proof (lstable_again _ _ HL o s HI HLs) as HL'.
  destruct (exec tid o s) as [r s'|s'|]; simpl in *; destruct_and?; [split; [done|]|split; [done|]|done].
  - exists (fun s => P s /\ post o r s), (lpost tid o r). auto using stable_and.
  - exists P, L. split_and!; auto. by split.
Qed.

Lemma step_ok σ σ' : sys_ok σ -> step env spawn σ σ' -> sys_ok σ'.
Proof.
  intros [HI HT] Hstep. destruct Hstep as [tid σ σ' E|σ s' E|tid p σ s' Hfresh E].
  - unfold step_task in E. destruct (tasks σ !! tid) as [[| |o k]|] eqn:Et; try done.
    pose proof (task_ok_own tid o k (shared σ) HI (HT _ _ Et)) as Hown.
    destruct (HT _ _ Et) as (P & L & _ & _ & HPs & HLs & Hpre & _). specialize (Hpre _ HI HPs HLs).
    assert (forall tid' p, tid <> tid' -> tasks σ !! tid' = Some p ->
      res_holds (fun s' => task_ok s' tid' p) anyway (exec tid o (shared σ))) as Hframe.
    { intros tid' p Hne Hp. apply task_ok_frame; auto. }
    destruct (exec tid o (shared σ)) as [r s1|s1|]; simplify_eq; destruct Hown as [HI' Hown].
    + split; [done|]. intros tid' p Hp. simpl in Hp. destruct (decide (tid = tid')) as [<-|Hne].
      * rewrite lookup_insert_eq in Hp. by simplify_eq.
      * rewrite lookup_insert_ne in Hp by done. by apply (Hframe tid' p Hne Hp).
    + split; [done|]. intros tid' p Hp. simpl in Hp. destruct (decide (tid = tid')) as [<-|Hne].
      * rewrite Et in Hp. by simplify_eq.
      * by apply (Hframe tid' p Hne Hp).
  - split; [by eapply env_ok|]. intros tid' p Hp. destruct (HT _ _ Hp) as (P & L & HP & HL & HPs & HLs & Htr).
    exists P, L. split_and!; auto; [exact (stable_env _ HP _ _ HI HPs E)|exact (lstable_env _ _ HL _ _ HI HLs E)].
  - destruct (spawn_ok _ _ _ HI E) as (HI' & P & HP & HPs & Htr). split; [done|].
    intros tid' p' Hp. simpl in Hp. destruct (decide (tid = tid')) as [<-|Hne].
    + rewrite lookup_insert_eq in Hp. simplify_eq. exists P, (fun _ => True). auto using lstable_True.
    + rewrite lookup_insert_ne in Hp by done. destruct (HT _ _ Hp) as (P' & L' & HP' & HL' & HPs' & HLs' & Htr').
      exists P', L'.
      split_and!; auto; [exact (stable_spawn _ HP' _ _ _ HI HPs' E)|exact (lstable_spawn _ _ HL' _ _ _ HI HLs' E)].
Qed.

Lemma steps_ok σ σ' : sys_ok σ -> steps env spawn σ σ' -> sys_ok σ'.
Proof. intros H0 Hs. induction Hs; eauto using step_ok. Qed.

Lemma sys_ok_no_panic σ tid : sys_ok σ -> tasks σ !! tid <> Some Panics.
Proof. intros [HI HT] E. destruct (HT _ _ E) as (P & L & _ & _ & HP & HL & Htr). simpl in Htr. eauto. Qed.

(** A system that starts without tasks. *)
Lemma sys_ok_start s : I s -> sys_ok (MkSystem s ∅).
Proof. intros HI. split; [done|]. intros tid p Hp. simpl in Hp. by rewrite lookup_empty in Hp. Qed.

End logic.

(** ** Programs of a component inside a larger one *)

Class Embeds {op1 op2 : Type} (resp1 : op1 -> Type) (resp2 : op2 -> Type) := {
  emb : op1 -> op2;
  emb_resp : forall o, resp2 (emb o) -> resp1 o }.

Fixpoint lift {op1 op2} {resp1 : op1 -> Type} {resp2 : op2 -> Type} `{Embeds op1 op2 resp1 resp2} {A}
    (p : prog resp1 A) : prog resp2 A :=
  match p with
  | Ret a => Ret a
  | Panics => Panics
  | Vis o k => Vis (emb o) (fun r => lift (k (emb_resp o r)))
  end.
