(* ===== verification/Quic.v ===== *)
(** * A QUIC connection as the program uses it (quinn)

    Both ends hold a handle to a connection: they open streams, send datagrams
    and close it. What quinn does with them is not part of the program; the model
    records what the program asked for. *)

From S2P Require Import Prelude RustIo.

Local Open Scope Z_scope.

(** quinn's [ConnectionError]: the variants the program names, and the others. *)
Inductive ConnectionError :=
| TimedOut
| LocallyClosed
| OtherConnectionError (code : Z).

(** The application close that reached the peer, the datagrams sent and the send
    streams. *)
Record Controller := MkController {
  close_reason : option (Z * string);
  datagrams_sent : list bytes;
  streams : gmap nat SendStream }.

Definition Controller_new : Controller := MkController None [] ∅.

(** [Connection::close]: only the first one has an effect. *)
Definition close (code : Z) (reason : string) (c : Controller) : Controller :=
  MkController (Some (default (code, reason) (close_reason c))) (datagrams_sent c) (streams c).

Definition update_stream (id : nat) (s : SendStream) (c : Controller) : Controller :=
  MkController (close_reason c) (datagrams_sent c) (<[id := s]> (streams c)).

Definition push_datagram (data : bytes) (c : Controller) : Controller :=
  MkController (close_reason c) (datagrams_sent c ++ [data]) (streams c).

(** The number of the next stream. *)
Definition next_stream (c : Controller) : nat := fresh (dom (streams c)).

Lemma next_stream_fresh c : streams c !! next_stream c = None.
Proof. apply not_elem_of_dom, (is_fresh (dom (streams c))). Qed.
