(* ===== verification/ServerAuth.v ===== *)
(** * The authentication state of a server connection
      (server/src/connection/authenticate.rs, [IsClosed] of server/src/connection/mod.rs)

    [IsClosed] and [IsAuthenticated] are flags shared by the tasks of a
    connection, with the wakers of the tasks that wait for them. A waker is the
    number of its task; waking a task puts it into the set of the tasks the
    runtime polls again. [IsAuthenticated.poll] is given twice: as the code reads
    ([poll]), and access by access ([poll_access]), which is how other tasks
    see it. *)

From S2P Require Import Prelude Async.

(** ** Polls *)

Inductive Poll (A : Type) : Type :=
| Ready (a : A)
| Pending.
Arguments Ready {A} a.
Arguments Pending {A}.

(** The tasks the runtime was told to poll again. *)
Abbreviation wakeups := (gset nat).

(** ** [IsClosed] *)

Record IsClosedInner := MkIsClosed {
  is_closed : bool;
  closed_waker : option nat }.

Module IsClosed.

Definition new : IsClosedInner := MkIsClosed false None.

(** The flag is stored, then the waker is taken and woken. *)
Definition set_closed (c : IsClosedInner) (w : wakeups) : IsClosedInner * wakeups :=
  match closed_waker c with
  | Some waker => (MkIsClosed true None, {[waker]} ∪ w)
  | None => (MkIsClosed true None, w)
  end.

Definition check (c : IsClosedInner) : bool := is_closed c.

(** [Future::poll] by the task [tid]. *)
Definition poll (tid : nat) (c : IsClosedInner) : Poll unit * IsClosedInner :=
  if is_closed c then (Ready tt, c)
  else (Pending, MkIsClosed (is_closed c) (Some tid)).

End IsClosed.

(** ** [IsAuthenticated] *)

(** Where a task is inside [IsAuthenticated::poll]: before the first access (no
    entry), after reading [is_closed] as false, after reading
    [is_authenticated] as false, or suspended with its waker registered. *)
Inductive poll_point :=
| AtLoad
| AtPush
| AtPending.

#[export] Instance poll_point_eq_dec : EqDecision poll_point.
Proof. solve_decision. Defined.

Record IsAuthenticatedState := MkAuth {
  is_connection_closed : IsClosedInner;
  is_authenticated : bool;
  broadcast : list nat;
  (** the runtime's side: who is to be polled again, who is inside a poll *)
  woken : wakeups;
  polling : gmap nat poll_point }.

Module IsAuthenticated.

Definition new (closed : IsClosedInner) : IsAuthenticatedState :=
  MkAuth closed false [] ∅ ∅.

Definition set_authenticated (a : IsAuthenticatedState) : IsAuthenticatedState :=
  MkAuth (is_connection_closed a) true (broadcast a) (woken a) (polling a).

(** [broadcast.lock().drain(..)], each waker woken. *)
Definition wake (a : IsAuthenticatedState) : IsAuthenticatedState :=
  MkAuth (is_connection_closed a) (is_authenticated a) []
    (list_to_set (broadcast a) ∪ woken a) (polling a).

(** [Future::poll] by the task [tid], as the code reads. *)
Definition poll (tid : nat) (a : IsAuthenticatedState) : Poll bool * IsAuthenticatedState :=
  if IsClosed.check (is_connection_closed a) then (Ready false, a)
  else if is_authenticated a then (Ready true, a)
  else (Pending, MkAuth (is_connection_closed a) (is_authenticated a) (broadcast a ++ [tid])
                   (woken a) (polling a)).

Definition set_point (tid : nat) (p : option poll_point) (a : IsAuthenticatedState) :
    IsAuthenticatedState :=
  MkAuth (is_connection_closed a) (is_authenticated a) (broadcast a) (woken a)
    (partial_alter (fun _ => p) tid (polling a)).

(** One shared access of the same poll. A suspended task goes on only when it
    was woken, and then polls from the start. *)
Definition poll_access (tid : nat) (a : IsAuthenticatedState) :
    exec_res IsAuthenticatedState bool :=
  match polling a !! tid with
  | None =>
      if IsClosed.check (is_connection_closed a) then Finished false a
      else Again (set_point tid (Some AtLoad) a)
  | Some AtLoad =>
      if is_authenticated a then Finished true (set_point tid None a)
      else Again (set_point tid (Some AtPush) a)
  | Some AtPush =>
      Again (set_point tid (Some AtPending)
        (MkAuth (is_connection_closed a) (is_authenticated a) (broadcast a ++ [tid])
           (woken a) (polling a)))
  | Some AtPending =>
      if decide (tid ∈ woken a)
      then Again (set_point tid None
        (MkAuth (is_connection_closed a) (is_authenticated a) (broadcast a)
           (woken a ∖ {[tid]}) (polling a)))
      else Blocked
  end.

Definition set_closed (a : IsAuthenticatedState) : IsAuthenticatedState :=
  let '(c, w) := IsClosed.set_closed (is_connection_closed a) (woken a) in
  MkAuth c (is_authenticated a) (broadcast a) w (polling a).

End IsAuthenticated.

(** ** The flags only go up *)

Definition auth_le (a b : IsAuthenticatedState) : Prop :=
  (is_authenticated a = true -> is_authenticated b = true) /\
  (is_closed (is_connection_closed a) = true -> is_closed (is_connection_closed b) = true).

#[export] Instance auth_le_preorder : PreOrder auth_le.
Proof. split; unfold auth_le; [intros ?; auto | intros ?????; intuition auto]. Qed.

Lemma set_authenticated_le a : auth_le a (IsAuthenticated.set_authenticated a).
Proof. done. Qed.

Lemma wake_le a : auth_le a (IsAuthenticated.wake a).
Proof. done. Qed.

Lemma set_closed_le a : auth_le a (IsAuthenticated.set_closed a).
Proof.
  unfold IsAuthenticated.set_closed, IsClosed.set_closed. by destruct (closed_waker _).
Qed.

Lemma set_closed_closed a : is_closed (is_connection_closed (IsAuthenticated.set_closed a)) = true.
Proof.
  unfold IsAuthenticated.set_closed, IsClosed.set_closed. by destruct (closed_waker _).
Qed.

(** A poll changes neither flag; its answer is one of them. *)
Lemma poll_access_flags tid a :
  match IsAuthenticated.poll_access tid a with
  | Finished b a' =>
      is_authenticated a' = is_authenticated a
      /\ is_connection_closed a' = is_connection_closed a
      /\ if b then is_authenticated a = true else is_closed (is_connection_closed a) = true
  | Again a' =>
      is_authenticated a' = is_authenticated a /\ is_connection_closed a' = is_connection_closed a
  | Blocked => True
  end.
Proof.
  unfold IsAuthenticated.poll_access, IsClosed.check.
  destruct (polling a !! tid) as [[]|]; repeat case_match; simplify_eq/=; auto.
Qed.

Lemma set_point_twice {A} (m : gmap nat A) i x y :
  partial_alter (fun _ => x) i (partial_alter (fun _ => y) i m) = partial_alter (fun _ => x) i m.
Proof. apply map_eq. intros j. rewrite !lookup_partial_alter. by case_decide. Qed.

Lemma set_point_same {A} (m : gmap nat A) i x : m !! i = x -> partial_alter (fun _ => x) i m = m.
Proof. intros <-. apply map_eq. intros j. rewrite lookup_partial_alter. case_decide; by subst. Qed.

(** Without interference, the accesses of a poll amount to [poll]. *)
Lemma poll_access_poll tid a :
  polling a !! tid = None ->
  match IsAuthenticated.poll tid a with
  | (Ready b, a') =>
      exists n, Nat.iter n (fun r => match r with Again a => IsAuthenticated.poll_access tid a | r => r end)
        (IsAuthenticated.poll_access tid a) = Finished b a'
  | (Pending, a') =>
      exists n, Nat.iter n (fun r => match r with Again a => IsAuthenticated.poll_access tid a | r => r end)
        (IsAuthenticated.poll_access tid a) = Again (IsAuthenticated.set_point tid (Some AtPending) a')
  end.
Proof.
  intros Hp. unfold IsAuthenticated.poll. destruct (IsClosed.check _) eqn:Ec.
  - exists 0%nat. simpl. unfold IsAuthenticated.poll_access. by rewrite Hp, Ec.
  - assert (IsAuthenticated.poll_access tid a = Again (IsAuthenticated.set_point tid (Some AtLoad) a)) as E1.
    { unfold IsAuthenticated.poll_access. by rewrite Hp, Ec. }
    destruct (is_authenticated a) eqn:Ea.
    + exists 1%nat. cbn [Nat.iter nat_rect]. rewrite E1.
      unfold IsAuthenticated.poll_access, IsAuthenticated.set_point. cbn.
      rewrite lookup_partial_alter_eq, Ea, set_point_twice. destruct a; simpl in *.
      rewrite set_point_same by done. by subst.
    + exists 2%nat. cbn [Nat.iter nat_rect]. rewrite E1.
      unfold IsAuthenticated.poll_access, IsAuthenticated.set_point. cbn.
      rewrite lookup_partial_alter_eq, Ea. cbn. rewrite lookup_partial_alter_eq.
      by rewrite !set_point_twice, ?Ea.
Qed.
