(* ===== verification/Streams.v ===== *)
(** * The stream wrappers (client/src/relay/stream.rs, [BiStream] of
      server/src/connection/task.rs)

    tokio copies a tunnel through the traits [AsyncRead] and [AsyncWrite]; both ends
    implement them for a pair of a sending and a receiving stream, by delegation.
    quinn's streams are any implementation of the traits. Nothing is proved of the
    wrappers alone: what the program does with a tunnel is in [ServerTask.connect]
    and [ClientTask.handle_connect], and how registers are counted in [ClientLinear]. *)

From S2P Require Import Prelude RustIo ServerAuth.

Local Open Scope Z_scope.

(** ** The traits *)

(** [poll_read] with room for [n] bytes returns those it read. *)
Class PollRead (R : Type) := {
  poll_read : nat -> R -> Poll (result io_error bytes) * R }.

Class PollWrite (W : Type) := {
  poll_write : bytes -> W -> Poll (result io_error Z) * W;
  poll_write_vectored : list bytes -> W -> Poll (result io_error Z) * W;
  is_write_vectored : W -> bool;
  poll_flush : W -> Poll (result io_error unit) * W;
  poll_shutdown : W -> Poll (result io_error unit) * W }.

(** A method on a field of a structure. *)
Definition on_field {S T A} (get : S -> T) (set : T -> S -> S) (f : T -> A * T) (s : S) : A * S :=
  let '(a, t) := f (get s) in (a, set t s).

Section streams.
Context {QuinnSend QuinnRecv Register : Type} `{PollWrite QuinnSend, PollRead QuinnRecv}.
(** quinn's [SendStream::finish], with its error as an I/O error. *)
Context (quinn_finish : QuinnSend -> result io_error unit * QuinnSend).

(** ** client/src/relay/stream.rs *)

Record ClientSend := ClientSend_new { cs_send : QuinnSend; cs_reg : Register }.
Record ClientRecv := ClientRecv_new { cr_recv : QuinnRecv; cr_reg : Register }.
Record ClientBi := ClientBi_new { cb_send : ClientSend; cb_recv : ClientRecv }.

Definition set_cs_send (x : QuinnSend) (s : ClientSend) := ClientSend_new x (cs_reg s).
Definition set_cr_recv (x : QuinnRecv) (s : ClientRecv) := ClientRecv_new x (cr_reg s).
Definition set_cb_send (x : ClientSend) (s : ClientBi) := ClientBi_new x (cb_recv s).
Definition set_cb_recv (x : ClientRecv) (s : ClientBi) := ClientBi_new (cb_send s) x.

Definition ClientSend_finish (s : ClientSend) : result io_error unit * ClientSend :=
  on_field cs_send set_cs_send quinn_finish s.

#[export] Instance ClientSend_write : PollWrite ClientSend := {
  poll_write buf := on_field cs_send set_cs_send (poll_write buf);
  poll_write_vectored bufs := on_field cs_send set_cs_send (poll_write_vectored bufs);
  is_write_vectored s := is_write_vectored (cs_send s);
  poll_flush := on_field cs_send set_cs_send poll_flush;
  poll_shutdown := on_field cs_send set_cs_send poll_shutdown }.

#[export] Instance ClientRecv_read : PollRead ClientRecv := {
  poll_read n := on_field cr_recv set_cr_recv (poll_read n) }.

Definition ClientBi_finish (s : ClientBi) : result io_error unit * ClientBi :=
  on_field cb_send set_cb_send ClientSend_finish s.

#[export] Instance ClientBi_read : PollRead ClientBi := {
  poll_read n := on_field cb_recv set_cb_recv (poll_read n) }.

#[export] Instance ClientBi_write : PollWrite ClientBi := {
  poll_write buf := on_field cb_send set_cb_send (poll_write buf);
  poll_write_vectored bufs := on_field cb_send set_cb_send (poll_write_vectored bufs);
  is_write_vectored s := is_write_vectored (cb_send s);
  poll_flush := on_field cb_send set_cb_send poll_flush;
  poll_shutdown := on_field cb_send set_cb_send poll_shutdown }.

(** ** [BiStream] of server/src/connection/task.rs *)

Record ServerBi := MkServerBi { sb_0 : QuinnSend; sb_1 : QuinnRecv }.

Definition set_sb_0 (x : QuinnSend) (s : ServerBi) := MkServerBi x (sb_1 s).
Definition set_sb_1 (x : QuinnRecv) (s : ServerBi) := MkServerBi (sb_0 s) x.

#[export] Instance ServerBi_read : PollRead ServerBi := {
  poll_read n := on_field sb_1 set_sb_1 (poll_read n) }.

#[export] Instance ServerBi_write : PollWrite ServerBi := {
  poll_write buf := on_field sb_0 set_sb_0 (poll_write buf);
  poll_write_vectored bufs := on_field sb_0 set_sb_0 (poll_write_vectored bufs);
  is_write_vectored s := is_write_vectored (sb_0 s);
  poll_flush := on_field sb_0 set_sb_0 poll_flush;
  poll_shutdown := on_field sb_0 set_sb_0 poll_shutdown }.

End streams.
