(* ===== verification/ServerUdp.v ===== *)
(** * UDP relaying on the server (server/src/connection/udp.rs)

    [UdpPacketFrom] records the way the client sends its UDP packets. The
    session map holds, for every associate ID, the sending end of the channel of
    a session; a session is a spawned task that owns a UDP socket. The sending
    ends are owned by the map or by a task that is inside [UdpSessionMap::send]
    ([handles]): the session's channel closes when no owner is left. *)

From S2P Require Import Prelude RustIo Protocol Async.

Local Open Scope Z_scope.

(** ** [UdpPacketFrom] *)

Inductive UdpPacketSource :=
| UniStream
| Datagram.

#[export] Instance UdpPacketSource_eq_dec : EqDecision UdpPacketSource.
Proof. solve_decision. Defined.

Module UdpPacketFrom.

(** [AtomicCell::compare_exchange]: the previous value, and the new content. *)
Definition compare_exchange (current new cell : option UdpPacketSource) :
    result (option UdpPacketSource) (option UdpPacketSource) * option UdpPacketSource :=
  if decide (cell = current) then (Ok cell, new) else (Err cell, cell).

Definition new : option UdpPacketSource := None.

Definition check (cell : option UdpPacketSource) : option UdpPacketSource := cell.

(** [uni_stream] and [datagram]: the first caller fixes the source, the others
    are told whether theirs is the same. *)
Definition claim (src : UdpPacketSource) (cell : option UdpPacketSource) :
    bool * option UdpPacketSource :=
  match compare_exchange None (Some src) cell with
  | (Err from, cell') => (bool_decide (from = Some src), cell')
  | (Ok _, cell') => (true, cell')
  end.

Definition uni_stream := claim UniStream.
Definition datagram := claim Datagram.

End UdpPacketFrom.

Lemma claim_spec src cell :
  UdpPacketFrom.claim src cell =
  match cell with
  | None => (true, Some src)
  | Some src' => (bool_decide (src' = src), Some src')
  end.
Proof.
  unfold UdpPacketFrom.claim, UdpPacketFrom.compare_exchange. destruct cell as [src'|]; [|done].
  rewrite decide_False by done. f_equal. apply bool_decide_ext. naive_solver.
Qed.

(** ** Sessions *)

(** The task of a session: its channel (of capacity one), the packet taken from it
    that [socket.send_to] has not finished with, whether the task still runs, and
    what left through its socket. *)
Record UdpSession := MkUdpSession {
  us_assoc_id : Z;
  us_queue : list (bytes * Address);
  us_sending : option (bytes * Address);
  us_running : bool;
  us_sent : list (bytes * Address) }.

Definition channel_capacity : nat := 1.

Record UdpSessionMapState := MkUdpMap {
  map : gmap Z nat;
  recv_pkt : list (Z * bytes * Address);
  max_pkt_size : Z;
  sessions : gmap nat UdpSession;
  (** the sending end owned by a task inside [send] *)
  handles : gmap nat nat;
  (** what the operating system answers to the next [UdpSocket::bind] calls *)
  binds : list (result io_error unit) }.

Definition set_map (m : gmap Z nat) (u : UdpSessionMapState) :=
  MkUdpMap m (recv_pkt u) (max_pkt_size u) (sessions u) (handles u) (binds u).
Definition set_recv_pkt (q : list (Z * bytes * Address)) (u : UdpSessionMapState) :=
  MkUdpMap (map u) q (max_pkt_size u) (sessions u) (handles u) (binds u).
Definition set_sessions (ss : gmap nat UdpSession) (u : UdpSessionMapState) :=
  MkUdpMap (map u) (recv_pkt u) (max_pkt_size u) ss (handles u) (binds u).
Definition set_handles (h : gmap nat nat) (u : UdpSessionMapState) :=
  MkUdpMap (map u) (recv_pkt u) (max_pkt_size u) (sessions u) h (binds u).
Definition set_binds (b : list (result io_error unit)) (u : UdpSessionMapState) :=
  MkUdpMap (map u) (recv_pkt u) (max_pkt_size u) (sessions u) (handles u) b.

(** Is a sending end of the channel of [sock] alive? *)
Definition has_sender (sock : nat) (u : UdpSessionMapState) : bool :=
  bool_decide (Exists (fun p => p.2 = sock) (map_to_list (map u)))
  || bool_decide (Exists (fun p => p.2 = sock) (map_to_list (handles u))).

(** ** Operations: the critical sections and the awaits of [UdpSessionMap::send] *)

Inductive udp_op :=
| SessionGet (assoc_id : Z)
| SessionBind (assoc_id : Z)
| SessionInsert (assoc_id : Z)
| ChannelSend (pkt : bytes) (addr : Address)
| SessionRemove (assoc_id : Z).

Definition udp_resp (o : udp_op) : Type :=
  match o with
  | SessionGet _ => bool
  | SessionBind _ => result io_error unit
  | SessionInsert _ => unit
  | ChannelSend _ _ => unit
  | SessionRemove _ => unit
  end.

(** [map.get(&assoc_id)] under the lock; a hit clones the sending end. *)
Definition session_get (tid : nat) (assoc_id : Z) (u : UdpSessionMapState) : bool * UdpSessionMapState :=
  match map u !! assoc_id with
  | Some sock => (true, set_handles (<[tid := sock]> (handles u)) u)
  | None => (false, u)
  end.

(** [UdpSession::new]: bind a socket, make the channel and spawn the session. *)
Definition session_new (tid : nat) (assoc_id : Z) (u : UdpSessionMapState) :
    option (result io_error unit * UdpSessionMapState) :=
  match binds u with
  | [] => None
  | Err e :: bs => Some (Err e, set_binds bs u)
  | Ok _ :: bs =>
      let sock := fresh (dom (sessions u)) in
      Some (Ok tt,
        set_binds bs
          (set_handles (<[tid := sock]> (handles u))
             (set_sessions (<[sock := MkUdpSession assoc_id [] None true []]> (sessions u)) u)))
  end.

(** [map.insert(assoc_id, assoc)] under the lock; the task keeps a clone. A
    session that was there loses its sending end. *)
Definition session_insert (tid : nat) (assoc_id : Z) (u : UdpSessionMapState) : option UdpSessionMapState :=
  sock ← handles u !! tid;
  Some (set_map (<[assoc_id := sock]> (map u)) u).

(** [send_pkt_tx.send((pkt, addr)).await], after which the task drops its sending
    end. The result is ignored by the caller: a session that has ended loses the
    packet. *)
Definition channel_send (tid : nat) (pkt : bytes) (addr : Address) (u : UdpSessionMapState) :
    option UdpSessionMapState :=
  sock ← handles u !! tid;
  ses ← sessions u !! sock;
  let u' := set_handles (delete tid (handles u)) u in
  if us_running ses then
    if decide (length (us_queue ses) < channel_capacity)%nat
    then Some (set_sessions
      (<[sock := MkUdpSession (us_assoc_id ses) (us_queue ses ++ [(pkt, addr)]) (us_sending ses) true (us_sent ses)]>
         (sessions u)) u')
    else None
  else Some u'.

(** [map.lock().remove(&assoc_id)] *)
Definition session_remove (assoc_id : Z) (u : UdpSessionMapState) : UdpSessionMapState :=
  set_map (delete assoc_id (map u)) u.

#[export] Instance udp_machine : Machine udp_resp UdpSessionMapState := fun tid o u =>
  match o return exec_res UdpSessionMapState (udp_resp o) with
  | SessionGet id => let '(r, u) := session_get tid id u in Finished r u
  | SessionBind id =>
      match session_new tid id u with
      | Some (r, u) => Finished r u
      | None => Blocked
      end
  | SessionInsert id =>
      match session_insert tid id u with
      | Some u => Finished tt u
      | None => Blocked
      end
  | ChannelSend pkt addr =>
      match channel_send tid pkt addr u with
      | Some u => Finished tt u
      | None => Blocked
      end
  | SessionRemove id => Finished tt (session_remove id u)
  end.

Module UdpSessionMap.

Definition new (max_pkt_size : Z) (binds : list (result io_error unit)) : UdpSessionMapState :=
  MkUdpMap ∅ [] max_pkt_size ∅ ∅ binds.

Definition send (assoc_id : Z) (pkt : bytes) (addr : Address) : prog udp_resp (result io_error unit) :=
  found ← call (SessionGet assoc_id);
  if (found : bool) then
    _ ← call (ChannelSend pkt addr);
    mret (Ok tt)
  else
    r ← call (SessionBind assoc_id);
    match r : result io_error unit with
    | Err e => mret (Err e)
    | Ok _ =>
        _ ← call (SessionInsert assoc_id);
        _ ← call (ChannelSend pkt addr);
        mret (Ok tt)
    end.

Definition dissociate (assoc_id : Z) : prog udp_resp unit := call (SessionRemove assoc_id).

End UdpSessionMap.

(** ** The task of a session: the two loops of [UdpSession::new], iteration by
    iteration. Either loop ending ends the task. *)

Definition end_session (sock : nat) (u : UdpSessionMapState) : UdpSessionMapState :=
  set_sessions (alter (fun ses => MkUdpSession (us_assoc_id ses) [] None false (us_sent ses)) sock (sessions u)) u.

(** [listen_send_packet], up to its first await: [send_pkt_rx.recv()] takes the next
    packet of the channel, or ends the loop when the channel is empty and closed. *)
Definition listen_send_recv (sock : nat) (u : UdpSessionMapState) : option UdpSessionMapState :=
  ses ← sessions u !! sock;
  match us_running ses, us_sending ses with
  | true, None =>
      match us_queue ses with
      | p :: q =>
          Some (set_sessions
            (<[sock := MkUdpSession (us_assoc_id ses) q (Some p) true (us_sent ses)]> (sessions u)) u)
      | [] => if has_sender sock u then None else Some (end_session sock u)
      end
  | _, _ => None
  end.

(** [listen_send_packet], its second await: [socket.send_to], whose answer is [res],
    of the packet taken; an error ends the loop. *)
Definition listen_send_to (sock : nat) (res : result io_error unit) (u : UdpSessionMapState) :
    option UdpSessionMapState :=
  ses ← sessions u !! sock;
  match us_running ses, us_sending ses with
  | true, Some p =>
      match res with
      | Ok _ =>
          Some (set_sessions
            (<[sock := MkUdpSession (us_assoc_id ses) (us_queue ses) None true (us_sent ses ++ [p])]>
               (sessions u)) u)
      | Err _ => Some (end_session sock u)
      end
  | _, _ => None
  end.

(** [listen_receive_packet]: [recv_from] into a buffer of [max_pkt_size] bytes,
    and the packet passed on to the connection, whose receiving end is alive or not
    ([open]): the result of that send is ignored, a closed channel loses the packet. *)
Definition listen_receive_packet (open : bool) (sock : nat) (res : result io_error (bytes * SocketAddr))
    (u : UdpSessionMapState) : option UdpSessionMapState :=
  ses ← sessions u !! sock;
  if us_running ses then
    match res with
    | Ok (data, addr) =>
        if open then
          if decide (length (recv_pkt u) < channel_capacity)%nat
          then
            let pkt := take (Z.to_nat (max_pkt_size u)) data in
            Some (set_recv_pkt (recv_pkt u ++ [(us_assoc_id ses, pkt, SocketAddress addr)]) u)
          else None
        else Some u
    | Err _ => Some (end_session sock u)
    end
  else None.

(** What the tasks of the sessions may do while the connection still receives
    ([open]) or not. *)
Inductive session_step (open : bool) : UdpSessionMapState -> UdpSessionMapState -> Prop :=
| session_recv sock u u' : listen_send_recv sock u = Some u' -> session_step open u u'
| session_send sock res u u' : listen_send_to sock res u = Some u' -> session_step open u u'
| session_receive sock res u u' : listen_receive_packet open sock res u = Some u' -> session_step open u u'.

(** The sessions on their own, whose connection may listen or have ended. *)
Definition any_session_step (u u' : UdpSessionMapState) : Prop := exists open, session_step open u u'.

(** ** The sessions of a connection as a system of their own

    Tasks run [send] or [dissociate] concurrently, sessions run beside them. *)

Inductive udp_spawn : UdpSessionMapState -> prog udp_resp unit -> UdpSessionMapState -> Prop :=
| spawn_send u id pkt addr : udp_spawn u (_ ← UdpSessionMap.send id pkt addr; mret tt) u
| spawn_dissociate u id : udp_spawn u (UdpSessionMap.dissociate id) u.

Abbreviation udp_steps := (steps any_session_step udp_spawn).

(** The task [tid] owns a sending end of a session of [id]. *)
Definition owns (tid : nat) (id : Z) (u : UdpSessionMapState) : Prop :=
  exists sock ses, handles u !! tid = Some sock /\ sessions u !! sock = Some ses /\ us_assoc_id ses = id.

Definition session_ok (ses : UdpSession) : Prop :=
  (length (us_queue ses) <= channel_capacity)%nat /\ (us_running ses = false -> us_queue ses = [] /\ us_sending ses = None).

(** Every entry of the map is a session of that associate ID, every sending end
    has a session, channels respect their capacity, received packets fit the
    receive buffer. *)
Record udp_inv (u : UdpSessionMapState) : Prop := MkUdpInv {
  inv_map id sock : map u !! id = Some sock ->
    exists ses, sessions u !! sock = Some ses /\ us_assoc_id ses = id;
  inv_handles tid sock : handles u !! tid = Some sock -> is_Some (sessions u !! sock);
  inv_sessions sock ses : sessions u !! sock = Some ses -> session_ok ses;
  inv_recv : (length (recv_pkt u) <= channel_capacity)%nat
    /\ Forall (fun p => blen p.1.2 <= Z.max 0 (max_pkt_size u)) (recv_pkt u) }.

Definition udp_pre (tid : nat) (o : udp_op) (u : UdpSessionMapState) : Prop :=
  match o with
  | SessionInsert id => owns tid id u
  | ChannelSend _ _ => exists id, owns tid id u
  | _ => True
  end.

Definition udp_post (o : udp_op) (_ : udp_resp o) (_ : UdpSessionMapState) : Prop := True.

Definition udp_lpost (tid : nat) (o : udp_op) : udp_resp o -> UdpSessionMapState -> Prop :=
  match o with
  | SessionGet id => fun r u => r = true -> owns tid id u
  | SessionBind id => fun r u => is_ok r = true -> owns tid id u
  | SessionInsert id => fun _ u => owns tid id u
  | _ => fun _ _ => True
  end.

(** Sessions are never forgotten and keep their associate ID. *)
Definition sessions_le (u u' : UdpSessionMapState) : Prop :=
  forall sock ses, sessions u !! sock = Some ses ->
    exists ses', sessions u' !! sock = Some ses' /\ us_assoc_id ses' = us_assoc_id ses.

Lemma sessions_le_insert_fresh u ses :
  sessions_le u (set_sessions (<[fresh (dom (sessions u)) := ses]> (sessions u)) u).
Proof.
  intros sock ses0 Hs. exists ses0. split; [|done]. simpl. rewrite lookup_insert_ne; [done|].
  intros <-. apply (is_fresh (dom (sessions u))). by apply elem_of_dom_2 in Hs.
Qed.

Lemma sessions_le_update u sock ses ses' :
  sessions u !! sock = Some ses -> us_assoc_id ses' = us_assoc_id ses ->
  sessions_le u (set_sessions (<[sock := ses']> (sessions u)) u).
Proof.
  intros Hs He sock0 ses0 Hs0. simpl. rewrite lookup_insert. case_decide; subst.
  - simplify_eq. eauto.
  - eauto.
Qed.

Lemma sessions_le_end u sock : sessions_le u (end_session sock u).
Proof.
  intros sock0 ses0 Hs0. simpl. rewrite lookup_alter. case_decide; subst; rewrite Hs0; simpl; eauto.
Qed.

Lemma owns_le tid id u u' :
  sessions_le u u' -> handles u' !! tid = handles u !! tid -> owns tid id u -> owns tid id u'.
Proof.
  intros Hle Hh (sock & ses & H1 & H2 & H3). destruct (Hle _ _ H2) as (ses' & ? & ?).
  exists sock, ses'. split_and!; congruence.
Qed.

Lemma session_step_frame open u u' :
  session_step open u u' ->
  sessions_le u u' /\ handles u' = handles u /\ map u' = map u /\ max_pkt_size u' = max_pkt_size u.
Proof.
  intros [sock v v' E|sock res v v' E|sock res v v' E];
    unfold listen_send_recv, listen_send_to, listen_receive_packet in E;
    destruct (sessions v !! sock) as [ses|] eqn:Es; simpl in E; try done;
    repeat case_match; simplify_eq; simpl; split_and!; try done;
    first [ by eapply sessions_le_update | apply sessions_le_end | (intros ???; eauto) ].
Qed.

(** What the operations of a task do to the sending ends and the sessions. *)
Lemma udp_exec_frame tid o u :
  res_holds (fun u' => sessions_le u u' /\ (forall t, t <> tid -> handles u' !! t = handles u !! t))
    anyway (exec tid o u).
Proof.
  assert (sessions_le u u) as Hrefl by (intros ???; eauto).
  assert (forall t sock, t <> tid -> <[tid := sock]> (handles u) !! t = handles u !! t) as Hi
    by (intros; by apply lookup_insert_ne).
  assert (forall t, t <> tid -> delete tid (handles u) !! t = handles u !! t) as Hd
    by (intros; by apply lookup_delete_ne).
  destruct o as [id|id|id|pkt addr|id]; cbn.
  - unfold session_get. destruct (map u !! id); simpl; auto.
  - unfold session_new. destruct (binds u) as [|[[]|] bs]; simpl; auto.
    split; [|done]. split; [apply sessions_le_insert_fresh|auto].
  - unfold session_insert. destruct (handles u !! tid); simpl; auto.
  - unfold channel_send. destruct (handles u !! tid) as [sock|]; simpl; [|done].
    destruct (sessions u !! sock) as [ses|] eqn:Es; simpl; [|done].
    destruct (us_running ses); [case_decide|]; simpl; auto.
    split; [|done]. split; [by eapply (sessions_le_update u)|auto].
  - auto.
Qed.

Lemma udp_lstable tid id : lstable any_session_step udp_spawn udp_inv udp_pre tid (owns tid id).
Proof.
  split.
  - intros tid' o u Hne _ _ Ho. pose proof (udp_exec_frame tid' o u) as Hf.
    destruct (exec tid' o u); simpl in *; destruct_and?; [split; [|done]| |done];
      eapply owns_le; eauto.
  - intros o u _ _ u' E. destruct o; cbn in E; repeat case_match; done.
  - intros u u' _ Ho [open Hs]. apply session_step_frame in Hs as (? & Hh & _). eapply owns_le; eauto. by rewrite Hh.
  - intros u p u' _ Ho Hs. by inversion Hs; subst.
Qed.

Lemma session_ok_push ses p :
  session_ok ses -> (length (us_queue ses) < channel_capacity)%nat -> us_running ses = true ->
  session_ok (MkUdpSession (us_assoc_id ses) (us_queue ses ++ [p]) (us_sending ses) true (us_sent ses)).
Proof. intros [Hq _] Hl Hr. split; simpl; [rewrite length_app; simpl; lia|done]. Qed.

(** The invariant, when only sessions are added or changed. *)
Lemma udp_inv_sessions u ss :
  udp_inv u -> sessions_le u (set_sessions ss u) ->
  (forall sock ses, ss !! sock = Some ses -> session_ok ses) -> udp_inv (set_sessions ss u).
Proof.
  intros [Hm Hh Hs Hr] Hle Hok. split; simpl; auto.
  - intros id sock Hid. destruct (Hm _ _ Hid) as (ses & H1 & H2). destruct (Hle _ _ H1) as (ses' & ? & ?).
    exists ses'. split; [done|congruence].
  - intros tid sock Ht. destruct (Hh _ _ Ht) as [ses H1]. destruct (Hle _ _ H1) as (ses' & ? & _).
    by exists ses'.
Qed.

(** The invariant, when one session changes. *)
Lemma udp_inv_update u sock ses ses' :
  udp_inv u -> sessions u !! sock = Some ses -> us_assoc_id ses' = us_assoc_id ses -> session_ok ses' ->
  udp_inv (set_sessions (<[sock := ses']> (sessions u)) u).
Proof.
  intros Hu Hs He Hok. apply udp_inv_sessions; [done|by eapply sessions_le_update|].
  intros sock' ses0 Hs'. rewrite lookup_insert in Hs'. case_decide; simplify_eq; [done|by eapply inv_sessions].
Qed.

Lemma udp_inv_handles u h :
  udp_inv u -> (forall tid sock, h !! tid = Some sock -> is_Some (sessions u !! sock)) ->
  udp_inv (set_handles h u).
Proof. intros [Hm Hh Hs Hr] Hh'. by split. Qed.

Lemma udp_inv_insert_handle u tid sock :
  udp_inv u -> is_Some (sessions u !! sock) -> udp_inv (set_handles (<[tid := sock]> (handles u)) u).
Proof.
  intros Hu Hs. apply udp_inv_handles; [done|]. intros t s' Ht. rewrite lookup_insert in Ht.
  case_decide; simplify_eq; [done|]. by eapply inv_handles.
Qed.

Lemma udp_inv_delete_handle u tid : udp_inv u -> udp_inv (set_handles (delete tid (handles u)) u).
Proof.
  intros Hu. apply udp_inv_handles; [done|]. intros t s' Ht.
  apply lookup_delete_Some in Ht as [_ Ht]. by eapply inv_handles.
Qed.

Lemma udp_inv_binds u b : udp_inv u -> udp_inv (set_binds b u).
Proof. intros [Hm Hh Hs Hr]. by split. Qed.

Lemma udp_exec_ok tid o u :
  udp_inv u -> udp_pre tid o u ->
  res_holds udp_inv (fun r u => udp_post o r u /\ udp_lpost tid o r u) (exec tid o u).
Proof.
  intros Hu Hpre. destruct o as [id|id|id|pkt addr|id]; cbn -[udp_lpost]; simpl in Hpre.
  - unfold session_get. destruct (map u !! id) as [sock|] eqn:E; simpl.
    + destruct (inv_map u Hu id sock E) as (ses & H1 & H2).
      split; [apply udp_inv_insert_handle; eauto|]. split; [done|]. intros _.
      exists sock, ses. simpl. by rewrite lookup_insert_eq.
    + split; [done|]. by split.
  - unfold session_new. destruct (binds u) as [|[[]|e] bs]; simpl; [done| |].
    + split.
      * apply udp_inv_binds. apply (udp_inv_insert_handle (set_sessions _ u)); simpl; [|by rewrite lookup_insert_eq].
        apply udp_inv_sessions; [done|apply sessions_le_insert_fresh|].
        intros sock ses Hs. rewrite lookup_insert in Hs. case_decide; simplify_eq; [|by eapply inv_sessions].
        split; simpl; [lia|done].
      * split; [done|]. intros _. eexists _, _. simpl. by rewrite !lookup_insert_eq.
    + split; [by apply udp_inv_binds|]. by split.
  - destruct Hpre as (sock & ses & H1 & H2 & H3). unfold session_insert. rewrite H1. simpl. split.
    + destruct Hu as [Hm Hh Hs Hr]. split; simpl; auto. intros id' sock' Hid.
      rewrite lookup_insert in Hid. case_decide; simplify_eq; eauto.
    + split; [done|]. by exists sock, ses.
  - destruct Hpre as (id & sock & ses & H1 & H2 & H3). unfold channel_send. rewrite H1. simpl. rewrite H2. simpl.
    destruct (us_running ses) eqn:Er; [case_decide as Hd; simpl; [|done]|simpl].
    + split; [|done]. match goal with |- udp_inv (set_sessions ?ss _) =>
        apply (udp_inv_delete_handle (set_sessions ss u)) end.
      eapply udp_inv_update; try done. apply session_ok_push; [by eapply inv_sessions|done|done].
    + split; [by apply udp_inv_delete_handle|done].
  - split; [|done]. destruct Hu as [Hm Hh Hs Hr]. split; simpl; auto.
    intros id' sock' Hid. apply lookup_delete_Some in Hid as [_ Hid]. eauto.
Qed.

Lemma end_session_inv sock u : udp_inv u -> udp_inv (end_session sock u).
Proof.
  intros Hu. apply udp_inv_sessions; [done|apply sessions_le_end|].
  intros sock' ses' Hs. rewrite lookup_alter in Hs. case_decide; [|by eapply inv_sessions].
  subst. destruct (sessions u !! sock') eqn:E; simplify_eq/=. split; simpl; [lia|done].
Qed.

Lemma udp_env_ok open u u' : udp_inv u -> session_step open u u' -> udp_inv u'.
Proof.
  intros Hu Hs. destruct Hs as [sock v v' E|sock res v v' E|sock res v v' E];
    unfold listen_send_recv, listen_send_to, listen_receive_packet in E;
    (destruct (sessions v !! sock) as [ses|] eqn:Es; simpl in E; [|done]);
    pose proof (inv_sessions v Hu _ _ Es) as [Hq _];
    (destruct (us_running ses); [|done]).
  - destruct (us_sending ses); [done|]. destruct (us_queue ses) as [|p q] eqn:Eq.
    + destruct (has_sender sock v); simplify_eq. by apply end_session_inv.
    + simplify_eq. eapply udp_inv_update; try done. split; simpl in *; [lia|done].
  - destruct (us_sending ses); [|done]. destruct res as [[]|]; simplify_eq; [|by apply end_session_inv].
    eapply udp_inv_update; try done.
  - destruct res as [[data a]|]; simplify_eq; [|by apply end_session_inv]. destruct open; [|by simplify_eq].
    case_decide as Hd; simplify_eq. destruct Hu as [Hm Hh Hs [Hl Hf]]. split; simpl; auto.
    unfold channel_capacity in *. rewrite length_app. simpl. split; [lia|].
    apply Forall_app. split; [done|]. apply Forall_singleton. simpl. unfold blen. rewrite length_take. lia.
Qed.

Lemma any_session_ok u u' : udp_inv u -> any_session_step u u' -> udp_inv u'.
Proof. intros Hu [open Hs]. by eapply udp_env_ok. Qed.

Lemma udp_post_stable o r : stable any_session_step udp_spawn udp_inv udp_pre (udp_post o r).
Proof. apply stable_True. Qed.

Lemma udp_lpost_stable tid o r : lstable any_session_step udp_spawn udp_inv udp_pre tid (udp_lpost tid o r).
Proof.
  destruct o; simpl; try apply lstable_True; try apply udp_lstable.
  - destruct r; [|eapply lstable_weak; [apply lstable_True|done]].
    eapply lstable_weak; [apply udp_lstable|]. naive_solver.
  - destruct (is_ok r); [|eapply lstable_weak; [apply lstable_True|done]].
    eapply lstable_weak; [apply udp_lstable|]. naive_solver.
Qed.

Lemma send_triple tid id pkt addr P L :
  triple udp_inv udp_pre udp_post udp_lpost tid P L (UdpSessionMap.send id pkt addr) (fun _ _ => True).
Proof.
  cbn. split; [done|]. intros [].
  - cbn. split; [|done]. intros u _ _ Ho. exists id. by apply Ho.
  - cbn. split; [done|]. intros [u|e]; cbn; [|done].
    split; [intros v _ _ Ho; by apply Ho|]. intros r. split; [|done].
    intros v _ _ Ho. by exists id.
Qed.

Lemma udp_spawn_ok u p u' :
  udp_inv u -> udp_spawn u p u' ->
  udp_inv u' /\ exists P, stable any_session_step udp_spawn udp_inv udp_pre P /\ P u' /\
    forall tid, triple udp_inv udp_pre udp_post udp_lpost tid P (fun _ => True) p anyway.
Proof.
  intros Hu Hs. destruct Hs; (split; [done|]); exists (fun _ => True);
    (split; [apply stable_True|]); (split; [done|]); intros tid.
  - eapply triple_bind; [apply send_triple|done].
  - done.
Qed.

Lemma udp_new_inv size bs : udp_inv (UdpSessionMap.new size bs).
Proof.
  split; simpl; try (intros ??; rewrite lookup_empty; done).
  unfold channel_capacity. split; [lia|done].
Qed.

Lemma udp_reachable_ok size bs σ :
  udp_steps (MkSystem (UdpSessionMap.new size bs) ∅) σ ->
  sys_ok any_session_step udp_spawn udp_inv udp_pre udp_post udp_lpost σ.
Proof.
  apply steps_ok; eauto using udp_exec_ok, udp_post_stable, udp_lpost_stable, any_session_ok, udp_spawn_ok.
  apply sys_ok_start, udp_new_inv.
Qed.

(** ** A send alone *)

Lemma handles_roundtrip (h : gmap nat nat) tid sock :
  h !! tid = None -> delete tid (<[tid := sock]> h) = h.
Proof. apply delete_insert_id. Qed.

Lemma set_handles_id u : set_handles (handles u) u = u.
Proof. by destruct u. Qed.

Lemma send_known_run tid id pkt addr u sock ses :
  handles u !! tid = None -> map u !! id = Some sock -> sessions u !! sock = Some ses ->
  run tid (UdpSessionMap.send id pkt addr) u =
  if us_running ses then
    if decide (length (us_queue ses) < channel_capacity)%nat
    then RunDone (Ok tt) (set_sessions
      (<[sock := MkUdpSession (us_assoc_id ses) (us_queue ses ++ [(pkt, addr)]) (us_sending ses) true (us_sent ses)]>
         (sessions u)) u)
    else RunBlocked (ChannelSend pkt addr) (set_handles (<[tid := sock]> (handles u)) u)
  else RunDone (Ok tt) u.
Proof.
  intros Hh Hm Hs. unfold UdpSessionMap.send. rewrite run_bind. cbn. unfold session_get.
  rewrite Hm. cbn. unfold channel_send. cbn. rewrite lookup_insert_eq. cbn. rewrite Hs. cbn.
  destruct (us_running ses).
  - case_decide; [|done]. cbn. by rewrite handles_roundtrip.
  - cbn. rewrite handles_roundtrip by done. by destruct u.
Qed.

Lemma send_new_run tid id pkt addr u bs :
  handles u !! tid = None -> map u !! id = None -> binds u = Ok tt :: bs ->
  let sock := fresh (dom (sessions u)) in
  run tid (UdpSessionMap.send id pkt addr) u =
  RunDone (Ok tt)
    (MkUdpMap (<[id := sock]> (map u)) (recv_pkt u) (max_pkt_size u)
       (<[sock := MkUdpSession id [(pkt, addr)] None true []]> (sessions u)) (handles u) bs).
Proof.
  intros Hh Hm Hb sock. unfold UdpSessionMap.send. rewrite run_bind. cbn. unfold session_get.
  rewrite Hm. cbn. unfold session_new. rewrite Hb. cbn. unfold session_insert. cbn.
  rewrite lookup_insert_eq. cbn. unfold channel_send. cbn. rewrite lookup_insert_eq. cbn.
  rewrite lookup_insert_eq. cbn. unfold channel_capacity. rewrite decide_True by (simpl; lia). cbn.
  by rewrite handles_roundtrip, insert_insert_eq.
Qed.

Lemma send_bind_error_run tid id pkt addr u e bs :
  map u !! id = None -> binds u = Err e :: bs ->
  run tid (UdpSessionMap.send id pkt addr) u = RunDone (Err e) (set_binds bs u).
Proof.
  intros Hm Hb. unfold UdpSessionMap.send. rewrite run_bind. cbn. unfold session_get.
  rewrite Hm. cbn. unfold session_new. by rewrite Hb.
Qed.

(** ** Sessions nobody can send to any more *)

Definition orphan (sock : nat) (u : UdpSessionMapState) : Prop :=
  is_Some (sessions u !! sock) /\ (forall id, map u !! id <> Some sock)
  /\ (forall tid, handles u !! tid <> Some sock).

Lemma orphan_exec sock tid o u :
  orphan sock u -> res_holds (orphan sock) anyway (exec tid o u).
Proof.
  intros (Hs & Hm & Hh). destruct o as [id|id|id|pkt addr|id]; cbn.
  - unfold session_get. destruct (map u !! id) as [s|] eqn:E; simpl; [|by split].
    split; [|done]. split_and!; simpl; auto. intros t. rewrite lookup_insert. case_decide; [|done].
    intros ?. simplify_eq. by apply (Hm id).
  - unfold session_new. destruct (binds u) as [|[[]|] bs]; simpl; [done| |by split].
    assert (fresh (dom (sessions u)) <> sock) as Hne.
    { intros <-. apply (is_fresh (dom (sessions u))). by apply elem_of_dom. }
    split; [|done]. split_and!; simpl; auto.
    + by rewrite lookup_insert_ne.
    + intros t. rewrite lookup_insert. case_decide; [congruence|done].
  - unfold session_insert. destruct (handles u !! tid) as [s|] eqn:E; simpl; [|done].
    split; [|done]. split_and!; simpl; auto. intros id'. rewrite lookup_insert.
    case_decide; [|done]. intros ?. simplify_eq. by apply (Hh tid).
  - unfold channel_send. destruct (handles u !! tid) as [s|] eqn:E; simpl; [|done].
    destruct (sessions u !! s) as [ses|] eqn:Es; simpl; [|done].
    assert (forall t, delete tid (handles u) !! t <> Some sock) as Hd.
    { intros t Ht. apply lookup_delete_Some in Ht as [_ Ht]. by apply (Hh t). }
    destruct (us_running ses); [case_decide|]; simpl; try done; (split; [|done]); split_and!; simpl; auto.
    rewrite lookup_insert. by case_decide.
  - split; [|done]. split_and!; simpl; auto. intros id' Hid. apply lookup_delete_Some in Hid as [_ Hid].
    by apply (Hm id').
Qed.

Lemma orphan_step sock open u u' : orphan sock u -> session_step open u u' -> orphan sock u'.
Proof.
  intros (Hs & Hm & Hh) Hst. apply session_step_frame in Hst as (Hle & H1 & H2 & _).
  unfold orphan. rewrite H1, H2. split_and!; auto.
  destruct Hs as [ses Hs]. destruct (Hle _ _ Hs) as (ses' & ? & _). by exists ses'.
Qed.

Lemma orphan_steps sock σ σ' : orphan sock (shared σ) -> udp_steps σ σ' -> orphan sock (shared σ').
Proof.
  intros Ho Hs. induction Hs as [|σ1 σ2 σ3 _ IH Hstep]; [done|]. specialize (IH Ho).
  destruct Hstep as [tid σ σ' E|σ s' E|tid p σ s' Hf E].
  - unfold step_task in E. destruct (tasks σ !! tid) as [[| |o k]|]; try done.
    pose proof (orphan_exec sock tid o _ IH) as Hx.
    destruct (exec tid o (shared σ)); simplify_eq; simpl in *; destruct_and?; done.
  - destruct E as [open E]. by eapply orphan_step.
  - by destruct E.
Qed.

Lemma orphan_no_sender sock u : orphan sock u -> has_sender sock u = false.
Proof.
  intros (_ & Hm & Hh). unfold has_sender. apply orb_false_iff. split; apply bool_decide_eq_false_2;
    rewrite Exists_exists; intros ([k v] & Hin & Hv); simpl in Hv; subst;
    apply elem_of_map_to_list in Hin; [by apply (Hm k)|by apply (Hh k)].
Qed.

(** One step of a schedule, on a state whose maps are explicit. *)
Ltac udp_sched tid :=
  eapply (steps_finished _ _ tid); [reflexivity | |];
  [ cbn [shared]; unfold exec, udp_machine, session_get, session_new, session_insert, channel_send;
    cbn [map sessions handles binds recv_pkt max_pkt_size set_map set_handles set_sessions set_binds
         UdpSessionMap.new];
    rewrite ?lookup_empty; reflexivity
  | cbn [tasks] ].

(** ** An example: one packet sent for the associate ID 7 *)

Definition example_addr : Address := SocketAddress (V4 (MkSocketAddrV4 (MkIpv4 127 0 0 1) 53)).
Definition example_start : UdpSessionMapState := UdpSessionMap.new 1500 [Ok tt; Err eof_error].
Definition example_udp : UdpSessionMapState :=
  MkUdpMap {[7 := 0%nat]} [] 1500 {[0%nat := MkUdpSession 7 [([1; 2], example_addr)] None true []]} ∅ [Err eof_error].
Definition example_system : system udp_resp UdpSessionMapState :=
  MkSystem example_udp (<[1%nat := Ret tt]> (<[1%nat := (_ ← UdpSessionMap.send 7 [1; 2] example_addr; mret tt)]> ∅)).

Lemma example_steps : udp_steps (MkSystem example_start ∅) example_system.
Proof.
  eapply steps_trans; [apply steps_one, (step_spawn _ _ 1%nat); [done|apply spawn_send]|].
  eapply run_steps; [reflexivity|]. vm_compute. reflexivity.
Qed.

(** ** Properties *)

(** C23: In every state the sessions of a connection can reach, however sends,
    dissociations and the sessions' own loops interleave, an entry of the map is
    a session of that associate ID, no channel holds more than its capacity, a
    packet received from a socket fits the configured maximum, and no task
    panicked. *)
Theorem udp_sessions_consistent size bs σ :
  udp_steps (MkSystem (UdpSessionMap.new size bs) ∅) σ ->
  let u := shared σ in
  (forall id sock, map u !! id = Some sock ->
     exists ses, sessions u !! sock = Some ses /\ us_assoc_id ses = id)
  /\ (forall sock ses, sessions u !! sock = Some ses -> (length (us_queue ses) <= 1)%nat)
  /\ Forall (fun p => blen p.1.2 <= Z.max 0 (max_pkt_size u)) (recv_pkt u)
  /\ (forall tid, tasks σ !! tid <> Some Panics).
Proof.
  intros Hs. apply udp_reachable_ok in Hs as Hok. intros u. split_and!.
  - apply (inv_map _ (proj1 Hok)).
  - intros sock ses E. apply (inv_sessions _ (proj1 Hok)) in E as [? _]. done.
  - apply (inv_recv _ (proj1 Hok)).
  - intros tid. by eapply sys_ok_no_panic.
Qed.

Lemma udp_sessions_consistent_witness :
  exists ses, sessions example_udp !! 0%nat = Some ses /\ us_assoc_id ses = 7.
Proof. exact (proj1 (udp_sessions_consistent _ _ _ example_steps) 7 0%nat eq_refl). Defined.

(** C30: [UdpSessionMap::send] for an associate ID that has a live session puts the
    packet at the end of that session's channel and changes nothing else; it
    waits, owning a sending end, when the channel is full. For an associate ID
    without session: when the bind succeeds, a session with a socket of its own is
    created, entered into the map, and gets the packet; when it fails, the error
    is returned and neither the map nor the sessions change. *)
Theorem send_outcome tid id pkt addr u :
  handles u !! tid = None ->
  (forall sock ses, map u !! id = Some sock -> sessions u !! sock = Some ses -> us_running ses = true ->
     run tid (UdpSessionMap.send id pkt addr) u =
     if decide (length (us_queue ses) < channel_capacity)%nat
     then RunDone (Ok tt) (set_sessions
       (<[sock := MkUdpSession (us_assoc_id ses) (us_queue ses ++ [(pkt, addr)]) (us_sending ses) true (us_sent ses)]>
          (sessions u)) u)
     else RunBlocked (ChannelSend pkt addr) (set_handles (<[tid := sock]> (handles u)) u))
  /\ (forall r bs, map u !! id = None -> binds u = r :: bs ->
     run tid (UdpSessionMap.send id pkt addr) u =
     match r with
     | Ok _ =>
         let sock := fresh (dom (sessions u)) in
         RunDone (Ok tt)
           (MkUdpMap (<[id := sock]> (map u)) (recv_pkt u) (max_pkt_size u)
              (<[sock := MkUdpSession id [(pkt, addr)] None true []]> (sessions u)) (handles u) bs)
     | Err e => RunDone (Err e) (set_binds bs u)
     end).
Proof.
  intros Hh. split.
  - intros sock ses Hm Hs Hr. rewrite (send_known_run _ _ _ _ _ _ _ Hh Hm Hs). by rewrite Hr.
  - intros r bs Hm Hb. destruct r as [[]|e]; [by apply send_new_run|by apply send_bind_error_run].
Qed.

Lemma send_outcome_witness :
  run 2%nat (UdpSessionMap.send 7 [3] example_addr) example_udp =
    RunBlocked (ChannelSend [3] example_addr) (set_handles {[2%nat := 0%nat]} example_udp)
  /\ run 1%nat (UdpSessionMap.send 7 [1; 2] example_addr) example_start = RunDone (Ok tt) example_udp
  /\ run 1%nat (UdpSessionMap.send 8 [] example_addr) example_udp = RunDone (Err eof_error) (set_binds [] example_udp).
Proof.
  split_and!.
  - by apply (proj1 (send_outcome 2%nat 7 [3] example_addr example_udp eq_refl) 0%nat
      (MkUdpSession 7 [([1; 2], example_addr)] None true [])).
  - by apply (proj2 (send_outcome 1%nat 7 [1; 2] example_addr example_start eq_refl) (Ok tt) [Err eof_error]).
  - by apply (proj2 (send_outcome 1%nat 8 [] example_addr example_udp eq_refl) (Err eof_error) []).
Defined.

(** C32: When [send_to] of a session fails, the session ends but stays in the map:
    from then on [UdpSessionMap::send] for its associate ID reports success,
    changes nothing, and the packet is lost. *)
Theorem failed_session_swallows_packets tid id pkt addr u u' sock ses p e :
  handles u !! tid = None -> map u !! id = Some sock -> sessions u !! sock = Some ses ->
  us_running ses = true -> us_sending ses = Some p ->
  listen_send_to sock (Err e) u = Some u' ->
  map u' !! id = Some sock /\ run tid (UdpSessionMap.send id pkt addr) u' = RunDone (Ok tt) u'.
Proof.
  intros Hh Hm Hs Hr Hq E. unfold listen_send_to in E. rewrite Hs in E. simpl in E.
  rewrite Hr, Hq in E. simplify_eq. split; [done|].
  rewrite (send_known_run _ _ _ _ _ sock (MkUdpSession (us_assoc_id ses) [] None false (us_sent ses)));
    simpl; auto. by rewrite lookup_alter_eq, Hs.
Qed.

(** The session of the example, inside [send_to]. *)
Definition example_sending : UdpSessionMapState :=
  default example_udp (listen_send_recv 0%nat example_udp).

Lemma failed_session_swallows_packets_witness :
  map (end_session 0%nat example_sending) !! 7 = Some 0%nat
  /\ run 2%nat (UdpSessionMap.send 7 [3] example_addr) (end_session 0%nat example_sending)
     = RunDone (Ok tt) (end_session 0%nat example_sending).
Proof.
  by apply (failed_session_swallows_packets 2%nat 7 [3] example_addr example_sending (end_session 0%nat example_sending)
    0%nat (MkUdpSession 7 [] (Some ([1; 2], example_addr)) true []) ([1; 2], example_addr) eof_error).
Defined.

(** C31: After [dissociate], a session whose sending ends are all gone never gets
    another packet, whatever the other tasks do, and its loop ends (closing the
    socket) as soon as its channel is empty and the last packet taken is sent. *)
Theorem dissociate_releases_socket tid id u sock ses σ :
  udp_inv u -> map u !! id = Some sock -> sessions u !! sock = Some ses ->
  (forall t, handles u !! t <> Some sock) ->
  exists u', run tid (UdpSessionMap.dissociate id) u = RunDone tt u' /\
  map u' !! id = None /\
  (shared σ = u' -> forall σ', udp_steps σ σ' ->
    has_sender sock (shared σ') = false /\
    forall ses', sessions (shared σ') !! sock = Some ses' -> us_running ses' = true ->
      us_sending ses' = None -> us_queue ses' = [] ->
      listen_send_recv sock (shared σ') = Some (end_session sock (shared σ'))).
Proof.
  intros Hu Hm Hs Hh. exists (session_remove id u). split; [done|]. split; [by apply lookup_delete_eq|].
  intros Hσ σ' Hst. assert (orphan sock (shared σ')) as Ho.
  { eapply orphan_steps; [|done]. rewrite Hσ. split_and!; simpl; [by exists ses| |done].
    intros id' Hid. apply lookup_delete_Some in Hid as [Hne Hid].
    destruct (inv_map _ Hu _ _ Hm) as (s1 & E1 & <-). destruct (inv_map _ Hu _ _ Hid) as (s2 & E2 & <-).
    congruence. }
  apply orphan_no_sender in Ho. split; [done|]. intros ses' Hs' Hr Hn Hq.
  unfold listen_send_recv. rewrite Hs'. simpl. by rewrite Hr, Hn, Hq, Ho.
Qed.

Lemma dissociate_releases_socket_witness :
  exists u', run 2%nat (UdpSessionMap.dissociate 7) example_udp = RunDone tt u' /\ map u' !! 7 = None.
Proof.
  destruct (dissociate_releases_socket 2%nat 7 example_udp 0%nat (MkUdpSession 7 [([1; 2], example_addr)] None true [])
    (MkSystem (session_remove 7 example_udp) ∅)) as (u' & H1 & H2 & _); try done.
  - exact (proj1 (udp_reachable_ok _ _ _ example_steps)).
  - by exists u'.
Defined.

(** C33: Two tasks that send the first packets of one associate ID at the same
    time may both find the map empty: each binds a socket, the packets leave
    through different sockets, and the socket of the first is not the one in the
    map any more, so it is closed once its packet has been sent. *)
Theorem concurrent_first_sends_split (id size : Z) p1 p2 a1 a2 :
  exists σ s1 s2,
    udp_steps (MkSystem (UdpSessionMap.new size [Ok tt; Ok tt])
      {[1%nat := (_ ← UdpSessionMap.send id p1 a1; mret tt);
        2%nat := (_ ← UdpSessionMap.send id p2 a2; mret tt)]}) σ
    /\ tasks σ !! 1%nat = Some (Ret tt) /\ tasks σ !! 2%nat = Some (Ret tt)
    /\ s1 <> s2
    /\ sessions (shared σ) !! s1 = Some (MkUdpSession id [(p1, a1)] None true [])
    /\ sessions (shared σ) !! s2 = Some (MkUdpSession id [(p2, a2)] None true [])
    /\ map (shared σ) !! id = Some s2
    /\ has_sender s1 (shared σ) = false.
Proof.
  eexists _, 0%nat, 1%nat. split.
  { do 2 (udp_sched 1%nat; udp_sched 2%nat). do 2 (udp_sched 1%nat; udp_sched 2%nat). apply steps_refl. }
  split_and!; [reflexivity|reflexivity|lia|reflexivity|reflexivity|..].
  - simpl. by rewrite lookup_insert_eq.
  - apply orphan_no_sender. split_and!; [by eexists| |].
    + intros id'. simpl. rewrite insert_insert_eq, lookup_insert. by case_decide.
    + intros t. simpl. rewrite lookup_delete_Some. intros [? Ht].
      apply lookup_delete_Some in Ht as [? Ht]. rewrite !lookup_insert in Ht. by repeat case_decide.
Qed.
