(* ===== verification/ServerConn.v ===== *)
(** * The shared state of a server connection and its operations
      (server/src/connection/mod.rs, the types of dispatch.rs and task.rs)

    [ConnState] is what the clones of one [Connection] share, with the sides of
    the QUIC connection and of the network the program acts on. Results the
    network decides (name lookups, TCP connects, opened streams, sent datagrams,
    tunnels) are lists of answers to come, so that a theorem quantifies over all
    of them. *)

From S2P Require Import Prelude RustIo Protocol Async Quic ServerAuth ServerUdp.

Local Open Scope Z_scope.

(** ** Errors *)

Inductive TaskError :=
| TaskIo (e : io_error)
| TaskConnection (e : ConnectionError)
| TaskReadStream (e : io_error)
| TaskWriteStream (e : io_error)
| TaskSendDatagram (code : Z).

Inductive DispatchError :=
| DispatchIo (e : io_error)
| AuthenticationFailed
| AuthenticationTimeout
| BadCommand.

Module DispatchError.

Definition CODE_PROTOCOL : Z := 0xfffffff0.
Definition CODE_AUTHENTICATION_FAILED : Z := 0xfffffff1.
Definition CODE_AUTHENTICATION_TIMEOUT : Z := 0xfffffff2.
Definition CODE_BAD_COMMAND : Z := 0xfffffff3.

Definition as_error_code (e : DispatchError) : Z :=
  match e with
  | DispatchIo _ => CODE_PROTOCOL
  | AuthenticationFailed => CODE_AUTHENTICATION_FAILED
  | AuthenticationTimeout => CODE_AUTHENTICATION_TIMEOUT
  | BadCommand => CODE_BAD_COMMAND
  end.

(** [Display]: transparent for I/O errors. *)
Definition to_string (e : DispatchError) : string :=
  match e with
  | DispatchIo e => message e
  | AuthenticationFailed => "authentication failed"
  | AuthenticationTimeout => "authentication timeout"
  | BadCommand => "bad command"
  end.

End DispatchError.

(** ** State *)

(** What the program asked the network to resolve and to connect to. *)
Inductive net_query :=
| AskedLookup (domain : bytes) (port : Z)
| AskedConnect (addr : SocketAddr).

(** The answers of the network to come, and the questions answered so far. *)
Record Net := MkNet {
  lookups : list (result io_error (list SocketAddr));
  connects : list bool;
  opens : list (result ConnectionError (option (Z * io_error)));
  datagram_sends : list (result Z unit);
  tunnels : list (result io_error unit);
  asked : list net_query }.

(** The branch of the [select!] of [Connection::handle] that finishes first. *)
Inductive branch :=
| BranchListen (res : result ConnectionError unit)
| BranchAuthTimeout.

Record ConnState := MkConn {
  controller : Controller;
  udp_packet_from : option UdpPacketSource;
  udp_sessions : UdpSessionMapState;
  token : gset bytes;
  auth : IsAuthenticatedState;
  net : Net;
  (** [handle] is still inside its [select!] *)
  listening : bool;
  (** the branch waiting for the authentication is still enabled *)
  timer_on : bool;
  selected : option branch;
  (** the unidirectional streams accepted so far *)
  uni_accepted : list RecvStream }.

Definition with_controller (x : Controller) (s : ConnState) :=
  MkConn x (udp_packet_from s) (udp_sessions s) (token s) (auth s) (net s) (listening s) (timer_on s)
    (selected s) (uni_accepted s).
Definition with_packet_from (x : option UdpPacketSource) (s : ConnState) :=
  MkConn (controller s) x (udp_sessions s) (token s) (auth s) (net s) (listening s) (timer_on s)
    (selected s) (uni_accepted s).
Definition with_udp (x : UdpSessionMapState) (s : ConnState) :=
  MkConn (controller s) (udp_packet_from s) x (token s) (auth s) (net s) (listening s) (timer_on s)
    (selected s) (uni_accepted s).
Definition with_auth (x : IsAuthenticatedState) (s : ConnState) :=
  MkConn (controller s) (udp_packet_from s) (udp_sessions s) (token s) x (net s) (listening s)
    (timer_on s) (selected s) (uni_accepted s).
Definition with_net (x : Net) (s : ConnState) :=
  MkConn (controller s) (udp_packet_from s) (udp_sessions s) (token s) (auth s) x (listening s)
    (timer_on s) (selected s) (uni_accepted s).
Definition with_listening (x : bool) (s : ConnState) :=
  MkConn (controller s) (udp_packet_from s) (udp_sessions s) (token s) (auth s) (net s) x
    (timer_on s) (selected s) (uni_accepted s).
Definition with_timer (x : bool) (s : ConnState) :=
  MkConn (controller s) (udp_packet_from s) (udp_sessions s) (token s) (auth s) (net s) (listening s)
    x (selected s) (uni_accepted s).
Definition with_selected (x : option branch) (s : ConnState) :=
  MkConn (controller s) (udp_packet_from s) (udp_sessions s) (token s) (auth s) (net s) (listening s)
    (timer_on s) x (uni_accepted s).
Definition with_accepted (x : list RecvStream) (s : ConnState) :=
  MkConn (controller s) (udp_packet_from s) (udp_sessions s) (token s) (auth s) (net s) (listening s)
    (timer_on s) (selected s) x.

(** ** Operations *)

Inductive conn_op :=
| TokenContains (digest : bytes)
| SetAuthenticated
| Wake
| AwaitAuthenticated
| Close (code : Z) (reason : string)
| PacketFrom (src : UdpPacketSource)
| CheckPacketFrom
| Udp (o : udp_op)
| LookupHost (domain : bytes) (port : Z)
| TcpConnect (addr : SocketAddr)
| CopyBidirectional (target : SocketAddr) (send : nat) (recv : RecvStream)
| OpenUni
| WriteAll (stream : nat) (data : bytes)
| Finish (stream : nat)
| SendDatagram (data : bytes)
| Select
| SetClosed.

Definition conn_resp (o : conn_op) : Type :=
  match o with
  | TokenContains _ => bool
  | SetAuthenticated | Wake | Close _ _ | SetClosed => unit
  | AwaitAuthenticated => bool
  | PacketFrom _ => bool
  | CheckPacketFrom => option UdpPacketSource
  | Udp o => udp_resp o
  | LookupHost _ _ => result io_error (list SocketAddr)
  | TcpConnect _ => bool
  | CopyBidirectional _ _ _ => result io_error unit
  | OpenUni => result ConnectionError nat
  | WriteAll _ _ => result io_error unit
  | Finish _ => result io_error unit
  | SendDatagram _ => result Z unit
  | Select => branch
  end.

#[export] Instance udp_Embeds : Embeds udp_resp conn_resp := {
  emb := Udp;
  emb_resp o r := r }.

(** A write or a finish on an open stream. *)
Definition on_stream (id : nat) (f : SendStream -> result io_error unit * SendStream) (s : ConnState) :
    exec_res ConnState (result io_error unit) :=
  match streams (controller s) !! id with
  | Some st =>
      let '(r, st) := f st in
      Finished r (with_controller (update_stream id st (controller s)) s)
  | None => Blocked
  end.

Definition set_lookups x (n : Net) :=
  MkNet x (connects n) (opens n) (datagram_sends n) (tunnels n) (asked n).
Definition set_connects x (n : Net) :=
  MkNet (lookups n) x (opens n) (datagram_sends n) (tunnels n) (asked n).
Definition set_opens x (n : Net) :=
  MkNet (lookups n) (connects n) x (datagram_sends n) (tunnels n) (asked n).
Definition set_datagram_sends x (n : Net) :=
  MkNet (lookups n) (connects n) (opens n) x (tunnels n) (asked n).
Definition set_tunnels x (n : Net) :=
  MkNet (lookups n) (connects n) (opens n) (datagram_sends n) x (asked n).
Definition add_asked qs (n : Net) :=
  MkNet (lookups n) (connects n) (opens n) (datagram_sends n) (tunnels n) (asked n ++ qs).

(** Take the next answer of the network. *)
Definition answer {A} (l : list A) (set : list A -> Net -> Net) (s : ConnState) : exec_res ConnState A :=
  match l with
  | [] => Blocked
  | a :: l => Finished a (with_net (set l (net s)) s)
  end.

#[export] Instance conn_machine : Machine conn_resp ConnState := fun tid o s =>
  match o return exec_res ConnState (conn_resp o) with
  | TokenContains digest => Finished (bool_decide (digest ∈ token s)) s
  | SetAuthenticated => Finished tt (with_auth (IsAuthenticated.set_authenticated (auth s)) s)
  | Wake => Finished tt (with_auth (IsAuthenticated.wake (auth s)) s)
  | AwaitAuthenticated =>
      res_map (fun a => with_auth a s) (IsAuthenticated.poll_access tid (auth s))
  | Close code reason => Finished tt (with_controller (close code reason (controller s)) s)
  | PacketFrom src =>
      let '(r, cell) := UdpPacketFrom.claim src (udp_packet_from s) in
      Finished r (with_packet_from cell s)
  | CheckPacketFrom => Finished (UdpPacketFrom.check (udp_packet_from s)) s
  | Udp o => res_map (fun u => with_udp u s) (exec tid o (udp_sessions s))
  | LookupHost domain port =>
      answer (lookups (net s)) (fun l n => add_asked [AskedLookup domain port] (set_lookups l n)) s
  | TcpConnect addr =>
      answer (connects (net s)) (fun l n => add_asked [AskedConnect addr] (set_connects l n)) s
  | CopyBidirectional _ _ _ => answer (tunnels (net s)) set_tunnels s
  | OpenUni =>
      match opens (net s) with
      | [] => Blocked
      | Err e :: l => Finished (Err e) (with_net (set_opens l (net s)) s)
      | Ok fault :: l =>
          let id := next_stream (controller s) in
          Finished (Ok id)
            (with_net (set_opens l (net s))
               (with_controller (update_stream id (SendStream_new fault) (controller s)) s))
      end
  | WriteAll id data => on_stream id (write_all data) s
  | Finish id => on_stream id finish s
  | SendDatagram data =>
      match datagram_sends (net s) with
      | [] => Blocked
      | Err e :: l => Finished (Err e) (with_net (set_datagram_sends l (net s)) s)
      | Ok _ :: l =>
          Finished (Ok tt)
            (with_net (set_datagram_sends l (net s))
               (with_controller (push_datagram data (controller s)) s))
      end
  | Select =>
      match selected s with
      | Some b => Finished b (with_listening false s)
      | None => Blocked
      end
  | SetClosed => Finished tt (with_auth (IsAuthenticated.set_closed (auth s)) s)
  end.
