(* ===== verification/ServerTask.v ===== *)
(** * The relay tasks of the server (server/src/connection/task.rs) and its command
      dispatch (server/src/connection/dispatch.rs, the listeners and [handle] of
      server/src/connection/mod.rs)

    Each [async fn] is a program over the operations of [ServerConn]. Reading a
    command from a stream involves only that stream: it is a function of the
    bytes the peer sends on it. *)

From S2P Require Import Prelude RustIo Protocol Async Quic ServerAuth ServerUdp ServerConn.

Local Open Scope Z_scope.
Local Open Scope task_scope.

Abbreviation task A := (prog conn_resp A).

(** ** task.rs *)

(** [for addr in addrs { if let Ok(stream) = TcpStream::connect(addr).await { ... break } }] *)
Fixpoint connect_first (addrs : list SocketAddr) : task (option SocketAddr) :=
  match addrs with
  | [] => mret None
  | addr :: addrs =>
      ok ← call (TcpConnect addr);
      if (ok : bool) then mret (Some addr) else connect_first addrs
  end.

(** [Command::write_to] on a QUIC stream. *)
Definition write_command (cmd : Command) (stream : nat) : task (result io_error unit) :=
  call (WriteAll stream (Command.write_to_buf cmd [])).

Definition connect (send : nat) (recv : RecvStream) (addr : Address) : task (result TaskError unit) :=
  addrs <-? err_into TaskIo
    match addr with
    | SocketAddress addr => mret (Ok [addr])
    | DomainAddress domain port => call (LookupHost domain port)
    end;;
  target ← connect_first addrs;
  match target with
  | Some target =>
      _ <-? err_into TaskIo (write_command (Command.new_response true) send);;
      _ <-? err_into TaskIo (call (CopyBidirectional target send recv));;
      mret (Ok tt)
  | None =>
      _ <-? err_into TaskIo (write_command (Command.new_response false) send);;
      _ <-? err_into TaskWriteStream (call (Finish send));;
      mret (Ok tt)
  end.

Definition packet_from_uni_stream (stream : RecvStream) (assoc_id len : Z) (addr : Address) :
    task (result TaskError unit) :=
  match rs_read_exact (Z.to_nat len) stream with
  | (Err e, _) => mret (Err (TaskReadStream e))
  | (Ok buf, _) => err_into TaskIo (lift (UdpSessionMap.send assoc_id buf addr))
  end.

Definition packet_from_datagram (pkt : bytes) (assoc_id : Z) (addr : Address) :
    task (result TaskError unit) :=
  err_into TaskIo (lift (UdpSessionMap.send assoc_id pkt addr)).

Definition packet_to_uni_stream (assoc_id : Z) (pkt : bytes) (addr : Address) :
    task (result TaskError unit) :=
  stream <-? err_into TaskConnection (call OpenUni);;
  let cmd := Command.new_packet assoc_id (as_u16 (blen pkt)) addr in
  _ <-? err_into TaskIo (write_command cmd stream);;
  _ <-? err_into TaskWriteStream (call (WriteAll stream pkt));;
  _ <-? err_into TaskWriteStream (call (Finish stream));;
  mret (Ok tt).

Definition packet_to_datagram (assoc_id : Z) (pkt : bytes) (addr : Address) :
    task (result TaskError unit) :=
  let cmd := Command.new_packet assoc_id (as_u16 (blen pkt)) addr in
  let buf := Command.write_to_buf cmd [] in
  let buf := buf ++ pkt in
  _ <-? err_into TaskSendDatagram (call (SendDatagram buf));;
  mret (Ok tt).

Definition dissociate (assoc_id : Z) : task (result TaskError unit) :=
  _ ← lift (UdpSessionMap.dissociate assoc_id);
  mret (Ok tt).

(** ** dispatch.rs *)

(** The part of [process_uni_stream] after the authentication. *)
Definition dispatch_uni (cmd : Command) (stream : RecvStream) : task (result DispatchError unit) :=
  match cmd with
  | Authenticate _ => Panics
  | Packet assoc_id len addr =>
      ok ← call (PacketFrom UniStream);
      if (ok : bool) then
        _ ← packet_from_uni_stream stream assoc_id len addr;
        mret (Ok tt)
      else mret (Err BadCommand)
  | Dissociate assoc_id =>
      _ ← dissociate assoc_id;
      mret (Ok tt)
  | Heartbeat => mret (Ok tt)
  | _ => mret (Err BadCommand)
  end.

Definition process_uni_stream (stream : RecvStream) : task (result DispatchError unit) :=
  match Command.read_from stream with
  | (Err e, _) => mret (Err (DispatchIo e))
  | (Ok (Authenticate digest), _) =>
      known ← call (TokenContains digest);
      if (known : bool) then
        _ ← call SetAuthenticated;
        _ ← call Wake;
        mret (Ok tt)
      else
        let err := AuthenticationFailed in
        _ ← call (Close (DispatchError.as_error_code err) (DispatchError.to_string err));
        _ ← call Wake;
        mret (Err err)
  | (Ok cmd, stream) =>
      authed ← call AwaitAuthenticated;
      if (authed : bool) then dispatch_uni cmd stream else mret (Err AuthenticationTimeout)
  end.

Definition process_bi_stream (send : nat) (recv : RecvStream) : task (result DispatchError unit) :=
  match Command.read_from recv with
  | (Err e, _) => mret (Err (DispatchIo e))
  | (Ok cmd, recv) =>
      authed ← call AwaitAuthenticated;
      if (authed : bool) then
        match cmd with
        | Connect addr =>
            _ ← connect send recv addr;
            mret (Ok tt)
        | _ => mret (Err BadCommand)
        end
      else mret (Err AuthenticationTimeout)
  end.

Definition process_datagram (datagram : bytes) : task (result DispatchError unit) :=
  match Command.read_from datagram with
  | (Err e, _) => mret (Err (DispatchIo e))
  | (Ok cmd, _) =>
      let cmd_len := Command.serialized_len cmd in
      authed ← call AwaitAuthenticated;
      if (authed : bool) then
        match cmd with
        | Packet assoc_id _ addr =>
            ok ← call (PacketFrom Datagram);
            if (ok : bool) then
              pkt ← or_panic (slice_from cmd_len datagram);
              _ ← packet_from_datagram pkt assoc_id addr;
              mret (Ok tt)
            else mret (Err BadCommand)
        | _ => mret (Err BadCommand)
        end
      else mret (Err AuthenticationTimeout)
  end.

Definition process_received_udp_packet (assoc_id : Z) (pkt : bytes) (addr : Address) :
    task (result DispatchError unit) :=
  from ← call CheckPacketFrom;
  src ← or_panic (unwrap from);
  match src with
  | UniStream =>
      _ ← packet_to_uni_stream assoc_id pkt addr;
      mret (Ok tt)
  | Datagram =>
      _ ← packet_to_datagram assoc_id pkt addr;
      mret (Ok tt)
  end.

(** ** mod.rs *)

(** What the four listeners spawn: the handler, and on an error the close of the
    connection with the error's code. *)
Definition report (handler : task (result DispatchError unit)) : task unit :=
  res ← handler;
  match res with
  | Ok _ => mret tt
  | Err err => call (Close (DispatchError.as_error_code err) (DispatchError.to_string err))
  end.

(** [handle_authentication_timeout], once the timer has won. *)
Definition authentication_timeout : task ConnectionError :=
  let err := AuthenticationTimeout in
  _ ← call (Close (DispatchError.as_error_code err) (DispatchError.to_string err));
  _ ← call Wake;
  mret LocallyClosed.

(** [Connection::handle] after the handshake: the [select!], then
    [is_closed.set_closed()]. *)
Definition handle : task unit :=
  b ← call Select;
  res ← match b : branch with
        | BranchListen res => mret res
        | BranchAuthTimeout => err ← authentication_timeout; mret (Err err)
        end;
  match res : result ConnectionError unit with
  | Ok _ => Panics
  | Err _ => call SetClosed
  end.

(** The result of [listen_uni_streams], [listen_bi_streams], [listen_datagrams] or
    [listen_received_udp_packet] when its loop is left: by the [?] on an error among
    the incoming items, or after the last item. *)
Definition listener_ended (error : option ConnectionError) : result ConnectionError unit :=
  match error with
  | Some e => Err e
  | None => Err LocallyClosed
  end.

(** A connection just established. *)
Definition conn_new (tokens : gset bytes) (max_pkt_size : Z) (binds : list (result io_error unit))
    (n : Net) : ConnState :=
  MkConn Controller_new UdpPacketFrom.new (UdpSessionMap.new max_pkt_size binds) tokens
    (IsAuthenticated.new IsClosed.new) n true true None [].

(** The task number of [handle] itself. *)
Definition main_tid : nat := 0.

(** What the runtime and the network do beside the tasks: the sessions' loops, a
    poll of the authentication branch of the [select!] (which registers the
    waker of [handle] while it is pending), the timer, the end of a listener. *)
Inductive conn_env : ConnState -> ConnState -> Prop :=
| env_session s u : session_step (listening s) (udp_sessions s) u -> conn_env s (with_udp u s)
| env_poll s p a :
    timer_on s = true -> selected s = None -> IsAuthenticated.poll main_tid (auth s) = (p, a) ->
    conn_env s (with_timer (match p with Ready _ => false | Pending => true end) (with_auth a s))
| env_timer s :
    timer_on s = true -> selected s = None -> conn_env s (with_selected (Some BranchAuthTimeout) s)
| env_lost s error :
    selected s = None -> conn_env s (with_selected (Some (BranchListen (listener_ended error))) s).

(** What the listeners spawn: [listen_uni_streams], [listen_bi_streams],
    [listen_datagrams] and [listen_received_udp_packet], one iteration each, and
    the connection's own task. *)
Inductive conn_spawn : ConnState -> task unit -> ConnState -> Prop :=
| spawn_handle s : listening s = true -> conn_spawn s handle s
| spawn_uni s stream :
    listening s = true -> bytes_ok (rs_data stream) ->
    conn_spawn s (report (process_uni_stream stream)) (with_accepted (stream :: uni_accepted s) s)
| spawn_bi s recv fault :
    listening s = true -> bytes_ok (rs_data recv) ->
    let send := next_stream (controller s) in
    conn_spawn s (report (process_bi_stream send recv))
      (with_controller (update_stream send (SendStream_new fault) (controller s)) s)
| spawn_datagram s datagram :
    listening s = true -> bytes_ok datagram ->
    conn_spawn s (report (process_datagram datagram)) s
| spawn_received s assoc_id pkt addr q :
    listening s = true -> recv_pkt (udp_sessions s) = (assoc_id, pkt, addr) :: q ->
    conn_spawn s (report (process_received_udp_packet assoc_id pkt addr))
      (with_udp (set_recv_pkt q (udp_sessions s)) s).

Abbreviation conn_steps := (steps conn_env conn_spawn).

(** The states of a connection. *)
Definition reachable (tokens : gset bytes) (σ : system conn_resp ConnState) : Prop :=
  exists size bs n, conn_steps (MkSystem (conn_new tokens size bs n) ∅) σ.
