(* ===== verification/ServerScenario.v ===== *)
(** * Runs of a connection

    Schedules of the tasks of a server connection, and a few concrete connections
    on which the theorems about all of them are exercised. *)

From S2P Require Import Prelude RustIo Protocol Async Quic ServerAuth ServerUdp ServerConn ServerTask.

Local Open Scope Z_scope.

Lemma spawn_step tid p s s' ts :
  ts !! tid = None -> conn_spawn s p s' ->
  step conn_env conn_spawn (MkSystem s ts) (MkSystem s' (<[tid := p]> ts)).
Proof. intros Ht Hs. by apply (step_spawn _ _ tid p (MkSystem s ts)). Qed.

(** The state after a schedule that can be followed. *)
Definition after (sch : list nat) (σ : system conn_resp ConnState) : system conn_resp ConnState :=
  default σ (run_schedule sch σ).

Lemma after_steps sch σ :
  match run_schedule sch σ with Some _ => true | None => false end = true -> conn_steps σ (after sch σ).
Proof.
  unfold after. destruct (run_schedule sch σ) eqn:E; [|done]. intros _. by eapply run_schedule_steps.
Qed.

Lemma run_schedule_dom sch (σ σ' : system conn_resp ConnState) :
  run_schedule sch σ = Some σ' -> dom (tasks σ') = dom (tasks σ).
Proof.
  revert σ. induction sch as [|tid sch IH]; intros σ E; simpl in E; [by simplify_eq|].
  destruct (step_task tid σ) as [σ1|] eqn:E1; [|done]. rewrite (IH σ1 E). unfold step_task in E1.
  destruct (tasks σ !! tid) as [[| |o k]|] eqn:Et; try done.
  destruct (exec tid o (shared σ)); simplify_eq; simpl; [|done]. apply dom_insert_lookup_L. by eexists.
Qed.

Lemma after_dom sch σ : dom (tasks (after sch σ)) = dom (tasks σ).
Proof. unfold after. destruct (run_schedule sch σ) eqn:E; [|done]. by eapply run_schedule_dom. Qed.

Lemma reachable_after tokens sch σ :
  match run_schedule sch σ with Some _ => true | None => false end = true ->
  reachable tokens σ -> reachable tokens (after sch σ).
Proof.
  intros Hr (size & bs & n & Hs). exists size, bs, n. eapply steps_trans; [done|]. by apply after_steps.
Qed.

(** ** A connection with two streams *)

Definition sample_digest : bytes := replicate 32 7.
Definition auth_stream : RecvStream := MkRecvStream (Command.write_to_buf (Authenticate sample_digest) []) None.
Definition heartbeat_stream : RecvStream := MkRecvStream (Command.write_to_buf Heartbeat []) None.

Definition sample_addr : Address := SocketAddress (V4 (MkSocketAddrV4 (MkIpv4 127 0 0 1) 53)).
Definition packet_stream : RecvStream := MkRecvStream (Command.write_to_buf (Packet 7 2 sample_addr) [] ++ [1; 2]) None.

Definition quiet_net : Net := MkNet [] [] [] [] [] [].
Definition sample_conn : ConnState := conn_new {[sample_digest]} 1500 [Ok tt] quiet_net.

(** The connection ([handle] is task 0) after its client opened an authentication
    stream (task 1) and another stream (task 2). *)
Definition two_streams (stream : RecvStream) : system conn_resp ConnState :=
  MkSystem (with_accepted [stream; auth_stream] sample_conn)
    (<[2%nat := report (process_uni_stream stream)]>
       (<[1%nat := report (process_uni_stream auth_stream)]> (<[0%nat := handle]> ∅))).

Lemma two_streams_reachable stream :
  bytes_ok (rs_data stream) -> reachable {[sample_digest]} (two_streams stream).
Proof.
  intros Hb.  exists 1500, [Ok tt], quiet_net. unfold two_streams.
  eapply steps_step; [|apply spawn_step; [done|]].
  - eapply steps_step; [|apply spawn_step; [done|]].
    + eapply steps_one, spawn_step; [done|]. by apply spawn_handle.
    + refine (spawn_uni sample_conn auth_stream _ _); [done|]. by apply (bool_decide_unpack _).
  - by refine (spawn_uni (with_accepted [auth_stream] sample_conn) stream _ _).
Qed.

(** Two tasks in the middle of things: the client has authenticated, the packet of
    the second stream is about to be relayed, respectively has been. *)
Definition packet_pending : system conn_resp ConnState :=
  after [1; 1; 1; 2; 2]%nat (two_streams packet_stream).
Definition packet_relayed : system conn_resp ConnState := after [2; 2; 2; 2; 2]%nat packet_pending.

Lemma packet_pending_reachable : reachable {[sample_digest]} packet_pending.
Proof.
  apply reachable_after; [by vm_compute|]. apply two_streams_reachable. by apply (bool_decide_unpack _).
Qed.
