(* ===== verification/ServerSafety.v ===== *)
(** * Safety of a server connection

    The rely-guarantee proof of the connection: whatever the clients send and
    however the tasks interleave, relay work happens only after an
    authentication with a configured token, the way of UDP relaying never
    changes once chosen, and no task panics. *)

From S2P Require Import Prelude RustIo Protocol Async Quic ServerAuth ServerUdp ServerConn ServerTask ServerScenario.

Local Open Scope Z_scope.

(** ** The invariant and the contracts of the operations *)

Definition authed (s : ConnState) : Prop := is_authenticated (auth s) = true.

(** A stream accepted by the connection carries an [Authenticate] command whose
    digest is one of the server's tokens. *)
Definition authorized (s : ConnState) : Prop :=
  exists stream digest rest,
    stream ∈ uni_accepted s /\ Command.read_from stream = (Ok (Authenticate digest), rest)
    /\ digest ∈ token s.

(** A stream the connection has opened or accepted. *)
Definition has_stream (id : nat) (s : ConnState) : Prop := id ∈ dom (streams (controller s)).

Definition mode_known (s : ConnState) : Prop := exists m, udp_packet_from s = Some m.

(** The [select!] of [handle] was not left with [Ok(())]. *)
Definition left_by_error (s : ConnState) : Prop := selected s <> Some (BranchListen (Ok tt)).

Record conn_inv (s : ConnState) : Prop := MkConnInv {
  inv_udp : udp_inv (udp_sessions s);
  inv_mode : ~ mode_known s -> sessions (udp_sessions s) = ∅ /\ recv_pkt (udp_sessions s) = [];
  inv_auth : authed s -> authorized s;
  inv_selected : left_by_error s }.

(** Operations that act on behalf of the client. *)
Definition relay_op (o : conn_op) : bool :=
  match o with
  | PacketFrom _ | Udp _ | LookupHost _ _ | TcpConnect _ | CopyBidirectional _ _ _ => true
  | _ => false
  end.

Definition conn_pre (tid : nat) (o : conn_op) (s : ConnState) : Prop :=
  (relay_op o = true -> authed s) /\
  match o with
  | SetAuthenticated => authorized s
  | Udp (SessionRemove _) => True
  | Udp o => udp_pre tid o (udp_sessions s) /\ mode_known s
  | CheckPacketFrom => mode_known s
  | WriteAll id _ | Finish id => has_stream id s
  | _ => True
  end.

Definition conn_post (o : conn_op) : conn_resp o -> ConnState -> Prop :=
  match o with
  | TokenContains digest => fun r s => r = true -> digest ∈ token s
  | AwaitAuthenticated => fun r s => r = true -> authed s
  | PacketFrom src => fun r s => mode_known s /\ (r = true -> udp_packet_from s = Some src)
  | CheckPacketFrom => fun r s => r <> None /\ udp_packet_from s = r
  | OpenUni => fun r s => forall id, r = Ok id -> has_stream id s
  | Select => fun r _ => r <> BranchListen (Ok tt)
  | _ => fun _ _ => True
  end.

Definition conn_lpost (tid : nat) (o : conn_op) : conn_resp o -> ConnState -> Prop :=
  match o with
  | Udp o => fun r s => udp_lpost tid o r (udp_sessions s)
  | _ => fun _ _ => True
  end.

(** ** What no step undoes *)

Record conn_le (s s' : ConnState) : Prop := MkConnLe {
  le_token : token s' = token s;
  le_authed : authed s -> authed s';
  le_mode m : udp_packet_from s = Some m -> udp_packet_from s' = Some m;
  le_accepted : uni_accepted s ⊆ uni_accepted s';
  le_streams id : has_stream id s -> has_stream id s';
  le_selected : left_by_error s -> left_by_error s' }.

#[export] Instance conn_le_preorder : PreOrder conn_le.
Proof.
  split.
  - intros s. by split.
  - intros s1 s2 s3 [? ? H1 ? H3 ?] [? ? H2 ? H4 ?]. split; try congruence; eauto. by etrans.
Qed.

Lemma mode_known_le s s' : conn_le s s' -> mode_known s -> mode_known s'.
Proof. intros Hle [m Hm]. exists m. by apply (le_mode _ _ Hle). Qed.

Lemma authorized_le s s' : conn_le s s' -> authorized s -> authorized s'.
Proof.
  intros Hle (st & d & r & H1 & H2 & H3). exists st, d, r. rewrite (le_token _ _ Hle).
  split_and!; auto. by apply (le_accepted _ _ Hle).
Qed.

(** Changes that concern none of this. *)
Lemma conn_le_same s s' :
  token s' = token s -> is_authenticated (auth s') = is_authenticated (auth s) ->
  udp_packet_from s' = udp_packet_from s -> uni_accepted s' = uni_accepted s ->
  dom (streams (controller s)) ⊆ dom (streams (controller s')) -> (left_by_error s -> left_by_error s') ->
  conn_le s s'.
Proof. intros H1 H2 H3 H4 H5 H6. split; unfold authed, has_stream; try rewrite H2; try rewrite H3; try rewrite H4; auto. Qed.

Lemma update_stream_dom id st c : dom (streams c) ⊆ dom (streams (update_stream id st c)).
Proof. simpl. set_solver. Qed.

Lemma answer_holds {A} (l : list A) set s (P : ConnState -> Prop) :
  (forall n, P (with_net n s)) -> res_holds P anyway (answer l set s).
Proof. intros HP. unfold answer. destruct l; simpl; auto. Qed.

Lemma on_stream_holds id f s (P : ConnState -> Prop) :
  (forall st, P (with_controller (update_stream id st (controller s)) s)) -> res_holds P anyway (on_stream id f s).
Proof. intros HP. unfold on_stream. destruct (streams _ !! id) as [st|]; [|done]. destruct (f st). simpl. auto. Qed.

Lemma await_holds tid s (P : ConnState -> Prop) :
  (forall a, is_authenticated a = is_authenticated (auth s) -> P (with_auth a s)) ->
  res_holds P (fun r _ => r = true -> authed s) (exec tid AwaitAuthenticated s).
Proof.
  intros HP. cbn. pose proof (poll_access_flags tid (auth s)) as Hf.
  destruct (IsAuthenticated.poll_access tid (auth s)) as [b a|a|]; simpl; destruct_and?; auto.
  split; [auto|]. intros ->. done.
Qed.

Lemma res_holds_mono {S A} (P P' : S -> Prop) (Q Q' : A -> S -> Prop) r :
  (forall s, P s -> P' s) -> (forall a s, P s -> Q a s -> Q' a s) ->
  res_holds P Q r -> res_holds P' Q' r.
Proof. intros HP HQ. destruct r; simpl; [intros []|..]; auto. Qed.

Lemma conn_exec_le tid o s : res_holds (conn_le s) anyway (exec tid o s).
Proof.
  destruct o; try (cbn; split; [by apply conn_le_same|done]).
  - cbn. split; [by split|done].
  - eapply res_holds_mono; [..|apply (await_holds tid s (conn_le s))]; auto.
    intros a Ha. by apply conn_le_same.
  - cbn. rewrite claim_spec. destruct (udp_packet_from s) as [m|] eqn:Em; cbn; (split; [|done]).
    + by apply conn_le_same.
    + split; auto. simpl. congruence.
  - cbn. destruct (exec tid o (udp_sessions s)); cbn; auto; try split; auto; by apply conn_le_same.
  - apply answer_holds. intros n. by apply conn_le_same.
  - apply answer_holds. intros n. by apply conn_le_same.
  - apply answer_holds. intros n. by apply conn_le_same.
  - cbn. destruct (opens (net s)) as [|[] ?]; cbn; auto; (split; [|done]); apply conn_le_same;
      first [done|apply update_stream_dom].
  - apply on_stream_holds. intros n. apply conn_le_same; first [done|apply update_stream_dom].
  - apply on_stream_holds. intros n. apply conn_le_same; first [done|apply update_stream_dom].
  - cbn. destruct (datagram_sends (net s)) as [|[] ?]; cbn; auto; (split; [|done]); by apply conn_le_same.
  - cbn. destruct (selected s); cbn; auto. split; [by apply conn_le_same|done].
  - cbn. split; [|done]. apply conn_le_same; try done. cbn.
    unfold IsAuthenticated.set_closed. by destruct (IsClosed.set_closed _ _).
Qed.

Lemma conn_env_le s s' : conn_env s s' -> conn_le s s'.
Proof.
  intros [s0 u Hu|s0 p a Ht Hsel Hp|s0 Ht Hsel|s0 e Hsel]; try by apply conn_le_same.
  2: { apply conn_le_same; try done. intros _. by destruct e. }
  apply conn_le_same; try done. cbn. unfold IsAuthenticated.poll in Hp.
  repeat case_match; by simplify_eq.
Qed.

Lemma conn_spawn_le s p s' : conn_spawn s p s' -> conn_le s s'.
Proof.
  intros [| |s0 recv fault| |]; try by apply conn_le_same.
  - split; auto. simpl. set_solver.
  - apply conn_le_same; first [done|apply update_stream_dom].
Qed.

(** A fact that only goes up is stable. *)
Lemma le_stable (P : ConnState -> Prop) :
  (forall s s', conn_le s s' -> P s -> P s') -> stable conn_env conn_spawn conn_inv conn_pre P.
Proof.
  intros HP. split.
  - intros tid o s _ _ Hs. eapply res_holds_mono; [..|apply conn_exec_le]; eauto.
  - intros s s' _ Hs He. eapply HP; [by apply conn_env_le|done].
  - intros s p s' _ Hs He. eapply HP; [by eapply conn_spawn_le|done].
Qed.

Lemma conn_post_stable o r : stable conn_env conn_spawn conn_inv conn_pre (conn_post o r).
Proof.
  apply le_stable. intros s s' Hle. destruct o; simpl; try done.
  - intros H1 H2. rewrite (le_token _ _ Hle). auto.
  - intros H1 H2. apply (le_authed _ _ Hle). auto.
  - intros [H1 H2]. split; [by eapply mode_known_le|]. intros Hr. apply (le_mode _ _ Hle). auto.
  - intros [H1 H2]. split; [done|]. destruct r as [m|]; [|done]. by apply (le_mode _ _ Hle).
  - intros H1 id Hid. apply (le_streams _ _ Hle). auto.
Qed.

Lemma udp_lpost_ext tid o r u u' :
  handles u' = handles u -> sessions u' = sessions u -> udp_lpost tid o r u -> udp_lpost tid o r u'.
Proof. intros H1 H2. destruct o; simpl; unfold owns; rewrite ?H1, ?H2; auto. Qed.

Lemma conn_pre_udp tid o s : conn_pre tid (Udp o) s -> udp_pre tid o (udp_sessions s).
Proof. intros [_ Hp]. destruct o; simpl in *; tauto. Qed.

(** Operations other than those on the sessions leave the sessions alone. *)
Lemma conn_exec_udp_same tid o s :
  match o with
  | Udp _ => True
  | _ => res_holds (fun s' => udp_sessions s' = udp_sessions s) anyway (exec tid o s)
  end.
Proof.
  destruct o; try (cbn; done); try (by apply answer_holds); try (by apply on_stream_holds).
  - eapply res_holds_mono; [..|apply (await_holds tid s (fun s' => udp_sessions s' = udp_sessions s))]; auto.
  - cbn. rewrite claim_spec. by destruct (udp_packet_from s).
  - cbn. by destruct (opens (net s)) as [|[] ?].
  - cbn. by destruct (datagram_sends (net s)) as [|[] ?].
  - cbn. by destruct (selected s).
Qed.

Lemma conn_lpost_stable tid o r : lstable conn_env conn_spawn conn_inv conn_pre tid (conn_lpost tid o r).
Proof.
  destruct o; simpl; try apply lstable_True. pose proof (udp_lpost_stable tid o r) as Hst. split.
  - intros tid' o' s Hne Hi Hp Hs. pose proof (conn_exec_udp_same tid' o' s) as Hsame.
    destruct o'; try (eapply res_holds_mono; [..|exact Hsame]; [simpl; congruence|done]).
    cbn. pose proof (lstable_exec _ _ _ _ _ _ Hst tid' o0 _ Hne (inv_udp _ Hi) (conn_pre_udp _ _ _ Hp) Hs) as Hx.
    by destruct (exec tid' o0 (udp_sessions s)).
  - intros o' s Hi Hs s' E. pose proof (conn_exec_udp_same tid o' s) as Hsame.
    destruct o'; try (rewrite E in Hsame; simpl in Hsame; by rewrite Hsame).
    cbn in E. pose proof (lstable_again _ _ _ _ _ _ Hst o0 _ (inv_udp _ Hi) Hs) as Hx.
    destruct (exec tid o0 (udp_sessions s)); simplify_eq/=. by apply Hx.
  - intros s s' Hi Hs He. destruct He; simpl; auto.
    exact (lstable_env _ _ _ _ _ _ Hst _ _ (inv_udp _ Hi) Hs (ex_intro _ _ H)).
  - intros s p s' Hi Hs He. destruct He; simpl; auto.
    by eapply (udp_lpost_ext _ _ _ (udp_sessions s)).
Qed.

(** ** Preservation of the invariant *)

Lemma mode_known_dec s : mode_known s \/ ~ mode_known s.
Proof. unfold mode_known. destruct (udp_packet_from s) as [m|]; [left; eauto|right; by intros []]. Qed.

Lemma conn_inv_frame s s' :
  conn_inv s -> conn_le s s' -> udp_sessions s' = udp_sessions s -> (authed s' -> authed s) -> conn_inv s'.
Proof.
  intros [Hu Hm Ha He] Hle Hs Hau. split; [..|by apply (le_selected _ _ Hle)].
  - by rewrite Hs.
  - rewrite Hs. intros Hn. apply Hm. contradict Hn. by eapply mode_known_le.
  - intros H. eapply authorized_le; [done|]. auto.
Qed.

(** Only [SetAuthenticated] sets the flag. *)
Lemma conn_exec_authed tid o s :
  match o with
  | SetAuthenticated => True
  | _ => res_holds (fun s' => authed s' -> authed s) anyway (exec tid o s)
  end.
Proof.
  destruct o; try (cbn; done); try (by apply answer_holds); try (by apply on_stream_holds).
  - eapply res_holds_mono; [..|apply (await_holds tid s (fun s' => authed s' -> authed s))]; auto.
    intros a Ha. unfold authed. cbn. by rewrite Ha.
  - cbn. rewrite claim_spec. destruct (udp_packet_from s); split; auto.
  - cbn. destruct (exec tid o (udp_sessions s)); cbn; auto.
  - cbn. destruct (opens (net s)) as [|[] ?]; cbn; auto.
  - cbn. destruct (datagram_sends (net s)) as [|[] ?]; cbn; auto.
  - cbn. destruct (selected s); cbn; auto.
  - cbn. split; [|done]. unfold authed. cbn. unfold IsAuthenticated.set_closed.
    by destruct (IsClosed.set_closed _ _).
Qed.

Lemma conn_exec_inv tid o s :
  conn_inv s -> conn_pre tid o s -> res_holds conn_inv anyway (exec tid o s).
Proof.
  intros Hi Hp. pose proof (conn_exec_le tid o s) as H1. pose proof (conn_exec_udp_same tid o s) as H2.
  pose proof (conn_exec_authed tid o s) as H3.
  destruct o; try (destruct (exec tid _ s); simpl in *; destruct_and?; try split; auto;
    by eapply conn_inv_frame).
  - cbn. split; [|done]. destruct Hi as [Hu Hm Ha He], Hp as [_ Hp]. split; simpl; auto.
  - cbn in *. pose proof (conn_pre_udp _ _ _ Hp) as Hup.
    pose proof (udp_exec_ok tid o _ (inv_udp _ Hi) Hup) as Hx.
    assert (mode_known s \/ exists id, o = SessionRemove id) as [Hm|[id ->]].
    { destruct Hp as [_ Hp]. destruct o; try (left; apply Hp). right. by eexists. }
    + assert (forall u, udp_inv u -> conn_inv (with_udp u s)) as Hu.
      { intros u Hu. split; [done|by intros []| |apply Hi]. intros Ha. eapply authorized_le, Hi; auto. by apply conn_le_same. }
      destruct (exec tid o (udp_sessions s)); cbn in *; destruct_and?; auto.
    + cbn in *. destruct Hx as [Hx _]. split; [|done]. destruct Hi as [Hu Hm Ha He]. split; auto.
Qed.

Lemma conn_exec_post tid o s :
  conn_inv s -> conn_pre tid o s ->
  res_holds (fun _ => True) (fun r s => conn_post o r s /\ conn_lpost tid o r s) (exec tid o s).
Proof.
  intros Hi Hp. destruct o; try (destruct (exec tid _ s); cbn; done).
  - cbn. split; [done|]. split; [|done]. apply bool_decide_eq_true_1.
  - pose proof (await_holds tid s (fun s' => authed s' <-> authed s)) as H.
    assert (forall a, is_authenticated a = is_authenticated (auth s) -> authed (with_auth a s) <-> authed s) as H'.
    { intros a Ha. unfold authed. cbn. by rewrite Ha. }
    specialize (H H'). clear H'. destruct (exec tid AwaitAuthenticated s); cbn in *; tauto.
  - cbn. rewrite claim_spec. destruct (udp_packet_from s) as [m|] eqn:Em; cbn; (split; [done|]).
    + split; [|done]. split; [by exists m|]. intros H. apply bool_decide_eq_true in H. by subst.
    + split; [|done]. split; [by exists src|done].
  - destruct Hp as [_ [m Hm]]. cbn. unfold UdpPacketFrom.check. rewrite Hm. auto.
  - cbn. pose proof (conn_pre_udp _ _ _ Hp) as Hup.
    pose proof (udp_exec_ok tid o _ (inv_udp _ Hi) Hup) as Hx.
    destruct (exec tid o (udp_sessions s)); cbn in *; tauto.
  - cbn. destruct (opens (net s)) as [|[fault|e] l]; cbn; [done| |]; (split; [done|]; split; [|done]); [|by intros].
    intros id [= <-]. unfold has_stream. cbn. set_solver.
  - cbn. destruct (selected s) as [b|] eqn:Eb; cbn; [|done]. split; [done|]. split; [|done].
    intros ->. by apply (inv_selected _ Hi).
Qed.

Lemma conn_exec_ok tid o s :
  conn_inv s -> conn_pre tid o s ->
  res_holds conn_inv (fun r s => conn_post o r s /\ conn_lpost tid o r s) (exec tid o s).
Proof.
  intros Hi Hp. pose proof (conn_exec_inv tid o s Hi Hp). pose proof (conn_exec_post tid o s Hi Hp).
  destruct (exec tid o s); cbn in *; tauto.
Qed.

Lemma conn_env_ok s s' : conn_inv s -> conn_env s s' -> conn_inv s'.
Proof.
  intros Hi He. pose proof (conn_env_le _ _ He) as Hle. destruct He as [s u Hu|s p a Ht Hsel Hp|s Ht Hsel|s e Hsel].
  - split.
    + eapply udp_env_ok; [apply Hi|done].
    + intros Hn. exfalso. destruct (inv_mode _ Hi Hn) as [Hs _]. cbn in Hn.
      destruct Hu as [sock u u' E|sock res u u' E|sock res u u' E];
        unfold listen_send_recv, listen_send_to, listen_receive_packet in E;
        by rewrite Hs, lookup_empty in E.
    + intros Ha. eapply authorized_le, Hi; done.
    + apply Hi.
  - eapply conn_inv_frame; try done. unfold authed. cbn. unfold IsAuthenticated.poll in Hp.
    repeat case_match; by simplify_eq.
  - by eapply conn_inv_frame.
  - by eapply conn_inv_frame.
Qed.

(** ** The handlers keep to the contracts *)

Abbreviation conn_triple := (triple conn_inv conn_pre conn_post conn_lpost).

Lemma triple_ret {A} tid P L (a : A) : conn_triple tid P L (mret a) anyway.
Proof. done. Qed.

Lemma triple_then {A B} tid P L (m : task A) (f : A -> task B) :
  conn_triple tid P L m anyway -> (forall a L, conn_triple tid (fun _ => True) L (f a) anyway) ->
  conn_triple tid P L (m ≫= f) anyway.
Proof. apply triple_bind. Qed.

Lemma err_into_triple {E F A} (f : E -> F) tid P L (m : task (result E A)) :
  conn_triple tid P L m anyway -> conn_triple tid P L (err_into f m) anyway.
Proof. intros Hm. by apply triple_then. Qed.

(** Operations that anybody may perform at any time. *)
Definition free_op (o : conn_op) : bool :=
  match o with
  | TokenContains _ | Wake | AwaitAuthenticated | Close _ _ | OpenUni | SendDatagram _
  | Select | SetClosed => true
  | _ => false
  end.

Lemma free_pre tid o s : free_op o = true -> conn_pre tid o s.
Proof. by destruct o. Qed.

Lemma send_conn_triple tid id pkt addr P L :
  (forall s, conn_inv s -> P s -> authed s /\ mode_known s) ->
  conn_triple tid P L (lift (UdpSessionMap.send id pkt addr)) anyway.
Proof.
  intros HP. cbn. split; [intros s Hi Hs _; specialize (HP s Hi Hs); repeat split; tauto|]. intros [].
  - split; [|done]. intros s Hi [Hs _] Ho. specialize (HP s Hi Hs). split; [tauto|]. split; [|tauto].
    exists id. by apply Ho.
  - split; [intros s Hi [Hs _] _; specialize (HP s Hi Hs); repeat split; tauto|].
    intros [u|e]; cbn; [|done].
    split; [intros s Hi [[Hs _] _] Ho; specialize (HP s Hi Hs); split; [tauto|]; split; [by apply Ho|tauto]|].
    intros r. split; [|done]. intros s Hi [[[Hs _] _] _] Ho. specialize (HP s Hi Hs).
    split; [tauto|]. split; [by exists id|tauto].
Qed.

Lemma dissociate_conn_triple tid id P L :
  (forall s, conn_inv s -> P s -> authed s) -> conn_triple tid P L (dissociate id) anyway.
Proof. intros HP. cbn. split; [|done]. intros s Hi Hs _. split; [|done]. auto. Qed.

Lemma connect_first_triple tid send addrs P L :
  (forall s, conn_inv s -> P s -> authed s /\ has_stream send s) ->
  conn_triple tid P L (connect_first addrs) (fun _ s => authed s /\ has_stream send s).
Proof.
  intros HP. revert P L HP. induction addrs as [|a addrs IH]; intros P L HP; cbn; [auto|].
  split; [intros s Hi Hs _; split; [|done]; intros; by apply (HP s)|]. intros [].
  - cbn. intros s Hi [Hs _]. auto.
  - apply IH. intros s Hi [Hs _]. auto.
Qed.

Lemma connect_triple tid send recv addr P L :
  (forall s, conn_inv s -> P s -> authed s /\ has_stream send s) ->
  conn_triple tid P L (connect send recv addr) anyway.
Proof.
  intros HP. unfold connect, try_bind.
  apply (triple_bind _ _ _ _ _ _ _ _ _ (fun _ s => authed s /\ has_stream send s)).
  { destruct addr as [d p|a]; cbn; [|auto]. split; [intros s Hi Hs _; split; [|done]; intros; by apply (HP s)|].
    intros r s Hi [Hs _]. auto. }
  intros [addrs|e] L'; [|done].
  apply (triple_bind _ _ _ _ _ _ _ _ _ (fun _ s => authed s /\ has_stream send s)); [by apply connect_first_triple|].
  intros [target|] L''.
  - cbn. split; [intros s Hi [Ha Hs] _; by split|]. intros [[]|e]; cbn; [|done].
    split; [intros s Hi [[Ha Hs] _] _; split; [|done]; auto|]. by intros [[]|e].
  - cbn. split; [intros s Hi [Ha Hs] _; by split|]. intros [[]|e]; cbn; [|done].
    split; [intros s Hi [[Ha Hs] _] _; by split|]. by intros [[]|e].
Qed.

Lemma dispatch_uni_triple tid cmd stream P L :
  (forall s, conn_inv s -> P s -> authed s) -> (forall d, cmd <> Authenticate d) ->
  conn_triple tid P L (dispatch_uni cmd stream) anyway.
Proof.
  intros HP Hc. destruct cmd as [b|d|a|id len addr|id|]; try done.
  - by destruct (Hc d).
  - cbn. split; [intros s Hi Hs _; split; [|done]; auto|]. intros [|]; [|done].
    unfold packet_from_uni_stream. destruct (rs_read_exact (Z.to_nat len) stream) as [[buf|e] st]; [|done].
    apply triple_then; [|done]. apply err_into_triple, send_conn_triple.
    intros s Hi [Hs [Hm _]]. auto.
  - apply triple_then; [|done]. by apply dissociate_conn_triple.
Qed.

Lemma process_uni_stream_triple tid stream L :
  conn_triple tid (fun s => stream ∈ uni_accepted s) L (process_uni_stream stream) anyway.
Proof.
  unfold process_uni_stream. destruct (Command.read_from stream) as [[cmd|e] rest] eqn:E; [|done].
  assert ((forall d, cmd <> Authenticate d) -> conn_triple tid (fun s => stream ∈ uni_accepted s) L
    (authed ← call AwaitAuthenticated;
     if (authed : bool) then dispatch_uni cmd rest else mret (Err AuthenticationTimeout)) anyway) as Hd.
  { intros Hc. cbn. split; [intros; by apply free_pre|]. intros [|]; [|done].
    apply dispatch_uni_triple; [|done]. intros s Hi [_ Ha]. by apply Ha. }
  destruct cmd as [b|d|a|id len addr|id|]; try (by apply Hd). clear Hd.
  cbn. split; [intros; by apply free_pre|]. intros [|].
  - cbn. split; [|by split; [intros; by apply free_pre|]].
    intros s Hi [Hs Ht] _. split; [done|]. exists stream, d, rest. auto.
  - cbn. split; [intros; by apply free_pre|]. intros []. by split; [intros; by apply free_pre|].
Qed.

Lemma process_bi_stream_triple tid send recv L :
  conn_triple tid (has_stream send) L (process_bi_stream send recv) anyway.
Proof.
  unfold process_bi_stream. destruct (Command.read_from recv) as [[cmd|e] rest] eqn:E; [|done].
  cbn. split; [intros; by apply free_pre|]. intros [|]; [|done]. destruct cmd; try done.
  apply triple_then; [|done]. apply connect_triple. intros s Hi [Hs Ha]. split; [by apply Ha|done].
Qed.

(** The command parsed from a datagram ends inside it. *)
Lemma datagram_slice datagram cmd rest :
  bytes_ok datagram -> Command.read_from datagram = (Ok cmd, rest) ->
  slice_from (Command.serialized_len cmd) datagram = Done rest.
Proof.
  intros Hb E. destruct (@decode_slice_inv Command Command_Codec _ _ _ Hb E) as [[Hc _] ->].
  by apply slice_after_command.
Qed.

Lemma process_datagram_triple tid datagram P L :
  bytes_ok datagram -> conn_triple tid P L (process_datagram datagram) anyway.
Proof.
  intros Hb. unfold process_datagram. destruct (Command.read_from datagram) as [[cmd|e] rest] eqn:E; [|done].
  split; [intros; by apply free_pre|]. intros [|]; [|done]. destruct cmd as [b|d|a|id len addr|id|]; try done.
  rewrite (datagram_slice _ _ _ Hb E).
  split; [intros s Hi [_ Ha] _; split; [|done]; auto|]. intros [|]; [|done].
  cbn [or_panic mbind prog_bind call].
  apply triple_then; [|done]. apply err_into_triple, send_conn_triple.
  intros s Hi [[_ Ha] [Hm _]]. split; [by apply Ha|done].
Qed.

Lemma packet_to_uni_stream_triple tid id pkt addr P L :
  conn_triple tid P L (packet_to_uni_stream id pkt addr) anyway.
Proof.
  cbn. split; [intros; by apply free_pre|]. intros [stream|?]; [cbn|done].
  split; [intros s Hi [_ Hs] _; split; [done|by apply Hs]|]. intros [?|?]; [cbn|done].
  split; [intros s Hi [[_ Hs] _] _; split; [done|by apply Hs]|]. intros [?|?]; [cbn|done].
  split; [intros s Hi [[[_ Hs] _] _] _; split; [done|by apply Hs]|]. by intros [?|?].
Qed.

Lemma packet_to_datagram_triple tid id pkt addr P L :
  conn_triple tid P L (packet_to_datagram id pkt addr) anyway.
Proof. cbn. split; [intros; by apply free_pre|]. by intros [[]|e]. Qed.

Lemma process_received_triple tid id pkt addr L :
  conn_triple tid mode_known L (process_received_udp_packet id pkt addr) anyway.
Proof.
  unfold process_received_udp_packet. cbn [mbind prog_bind call]. split; [intros s Hi Hm _; by split|].
  intros [src|]; [|by intros s _ [_ [Hr _]]]. cbn [unwrap or_panic mbind prog_bind].
  destruct src; (apply triple_then; [|done]).
  - apply packet_to_uni_stream_triple.
  - apply packet_to_datagram_triple.
Qed.

Lemma report_triple tid P L h : conn_triple tid P L h anyway -> conn_triple tid P L (report h) anyway.
Proof.
  intros Hh. apply triple_then; [done|]. intros [u|e] L'; [done|]. split; [|done]. intros. by apply free_pre.
Qed.

Lemma handle_triple tid P L : conn_triple tid P L handle anyway.
Proof.
  split; [intros; by apply free_pre|]. intros [[[]|e]|].
  - intros s _ [_ []]. done.
  - split; [|done]. intros; by apply free_pre.
  - cbn. repeat (split; [intros; by apply free_pre|]; intros []). done.
Qed.

Lemma accepted_stable stream : stable conn_env conn_spawn conn_inv conn_pre (fun s => stream ∈ uni_accepted s).
Proof. apply le_stable. intros s s' Hle. apply (le_accepted _ _ Hle). Qed.

Lemma has_stream_stable id : stable conn_env conn_spawn conn_inv conn_pre (has_stream id).
Proof. apply le_stable. intros s s' Hle. apply (le_streams _ _ Hle). Qed.

Lemma mode_known_stable : stable conn_env conn_spawn conn_inv conn_pre mode_known.
Proof. apply le_stable. apply mode_known_le. Qed.

Lemma udp_inv_popped u p q : udp_inv u -> recv_pkt u = p :: q -> udp_inv (set_recv_pkt q u).
Proof.
  intros [Hm Hh Hs [Hl Hf]] E. rewrite E in Hl, Hf. split; simpl in *; auto.
  split; [lia|]. by apply Forall_cons in Hf as [_ Hf].
Qed.

Lemma conn_spawn_inv s p s' : conn_inv s -> conn_spawn s p s' -> conn_inv s'.
Proof.
  intros Hi Hs. pose proof (conn_spawn_le _ _ _ Hs) as Hle.
  destruct Hs as [s Hl|s st Hl Hb|s recv f Hl Hb send|s d Hl Hb|s id pkt addr q Hl Hq];
    try (by eapply conn_inv_frame).
  destruct Hi as [Hu Hm Ha He]. split; [..|done].
  - by eapply udp_inv_popped.
  - intros Hn. destruct (Hm Hn) as [? Hr]. congruence.
  - done.
Qed.

Lemma conn_spawn_ok s p s' :
  conn_inv s -> conn_spawn s p s' ->
  conn_inv s' /\ exists P, stable conn_env conn_spawn conn_inv conn_pre P /\ P s' /\
    forall tid, conn_triple tid P (fun _ => True) p anyway.
Proof.
  intros Hi Hs. split; [by eapply conn_spawn_inv|].
  destruct Hs as [s Hl|s st Hl Hb|s recv f Hl Hb send|s d Hl Hb|s id pkt addr q Hl Hq].
  - exists (fun _ => True). split; [apply stable_True|]. split; [done|]. intros. apply handle_triple.
  - exists (fun s => st ∈ uni_accepted s). split; [apply accepted_stable|]. split; [simpl; set_solver|].
    intros. apply report_triple, process_uni_stream_triple.
  - exists (has_stream send). split; [apply has_stream_stable|]. split; [unfold has_stream; cbn; set_solver|].
    intros. apply report_triple, process_bi_stream_triple.
  - exists (fun _ => True). split; [apply stable_True|]. split; [done|].
    intros. by apply report_triple, process_datagram_triple.
  - exists mode_known. split; [apply mode_known_stable|]. split.
    + destruct (mode_known_dec s) as [Hm|Hn]; [done|].
      destruct (inv_mode _ Hi Hn) as [_ Hr]. congruence.
    + intros. apply report_triple, process_received_triple.
Qed.

Lemma conn_new_inv tokens size bs n : conn_inv (conn_new tokens size bs n).
Proof. split; [apply udp_new_inv|done| |done]. by intros Ha. Qed.

Lemma reachable_ok tokens σ :
  reachable tokens σ -> sys_ok conn_env conn_spawn conn_inv conn_pre conn_post conn_lpost σ.
Proof.
  intros (size & bs & n & Hs). revert Hs.
  apply steps_ok; eauto using conn_exec_ok, conn_post_stable, conn_lpost_stable, conn_env_ok, conn_spawn_ok.
  apply sys_ok_start, conn_new_inv.
Qed.

Lemma reachable_pre tokens σ tid o k :
  reachable tokens σ -> tasks σ !! tid = Some (Vis o k) -> conn_pre tid o (shared σ).
Proof.
  intros Hr Ht. destruct (reachable_ok _ _ Hr) as [Hi Hok].
  destruct (Hok _ _ Ht) as (P & L & _ & _ & HP & HL & Hpre & _). by apply Hpre.
Qed.

Lemma conn_step_le σ σ' : step conn_env conn_spawn σ σ' -> conn_le (shared σ) (shared σ').
Proof.
  intros [tid σ0 σ1 E|σ0 s' E|tid p σ0 s' _ E].
  - unfold step_task in E. destruct (tasks σ0 !! tid) as [[| |o k]|]; try done.
    pose proof (conn_exec_le tid o (shared σ0)) as Hx.
    destruct (exec tid o (shared σ0)); simplify_eq; simpl in *; destruct_and?; done.
  - by apply conn_env_le.
  - by eapply conn_spawn_le.
Qed.

Lemma conn_steps_le σ σ' : conn_steps σ σ' -> conn_le (shared σ) (shared σ').
Proof. intros H. induction H as [|σ1 σ2 σ3 _ IH Hs]; [done|]. etrans; [done|]. by apply conn_step_le. Qed.

Lemma reachable_token tokens σ : reachable tokens σ -> token (shared σ) = tokens.
Proof. intros (size & bs & n & Hs). apply conn_steps_le in Hs. apply (le_token _ _ Hs). Qed.

(** A task that is about to act for the client does so on an authenticated connection. *)
Lemma relaying_authenticated tokens σ tid o k :
  reachable tokens σ -> tasks σ !! tid = Some (Vis o k) -> relay_op o = true ->
  is_authenticated (auth (shared σ)) = true /\
  exists stream digest rest,
    stream ∈ uni_accepted (shared σ)
    /\ Command.read_from stream = (Ok (Authenticate digest), rest) /\ digest ∈ tokens.
Proof.
  intros Hr Ht Ho. destruct (reachable_pre _ _ _ _ _ Hr Ht) as [Ha _]. specialize (Ha Ho).
  split; [exact Ha|]. destruct (reachable_ok _ _ Hr) as [Hi _]. rewrite <- (reachable_token _ _ Hr).
  by apply (inv_auth _ Hi).
Qed.

(** ** Properties *)

(** C1: However tasks, the network and the client interleave, an operation on
    behalf of the client (a name lookup, a TCP connect, a tunnel, an access to
    the UDP sessions) is performed only when the connection is authenticated,
    and then a unidirectional stream of the client carried an [Authenticate]
    command whose digest is one of the server's tokens. *)
Theorem relay_requires_authentication tokens σ tid o k :
  reachable tokens σ -> tasks σ !! tid = Some (Vis o k) -> relay_op o = true ->
  is_authenticated (auth (shared σ)) = true /\
  exists stream digest rest,
    stream ∈ uni_accepted (shared σ)
    /\ Command.read_from stream = (Ok (Authenticate digest), rest) /\ digest ∈ tokens.
Proof. exact (relaying_authenticated tokens σ tid o k). Qed.

Definition is_relaying (tid : nat) (σ : system conn_resp ConnState) : Prop :=
  exists o k, tasks σ !! tid = Some (Vis o k) /\ relay_op o = true.

Lemma packet_pending_relaying : is_relaying 2%nat packet_pending.
Proof.
  unfold is_relaying. destruct (tasks packet_pending !! 2%nat) as [[| |o k]|] eqn:E; try by vm_compute in E.
  exists o, k. split; [done|]. enough (Some (relay_op o) = Some true) as H by congruence.
  change (match Some (Vis o k) with Some (Vis o _) => Some (relay_op o) | _ => None end = Some true).
  rewrite <- E. by vm_compute.
Qed.

Lemma relay_requires_authentication_witness :
  is_relaying 2%nat packet_pending /\ is_authenticated (auth (shared packet_pending)) = true.
Proof.
  split; [exact packet_pending_relaying|]. destruct packet_pending_relaying as (o & k & Ht & Ho).
  exact (proj1 (relay_requires_authentication _ _ _ _ _ packet_pending_reachable Ht Ho)).
Defined.

(** C11: No task of a connection panics: not the slice of the datagram after its
    header, not the [unwrap] of the way of UDP relaying, not the [unreachable!]
    after the authentication, not the [unreachable!] of [handle] after its
    [select!]. *)
Theorem tasks_never_panic tokens σ tid : reachable tokens σ -> tasks σ !! tid <> Some Panics.
Proof. intros Hr. eapply sys_ok_no_panic. by apply (reachable_ok tokens). Qed.

Lemma tasks_never_panic_witness : tasks packet_pending !! 2%nat <> Some Panics.
Proof. exact (tasks_never_panic _ _ 2%nat packet_pending_reachable). Defined.

(** C15: The way of UDP relaying never changes once a packet has fixed it, and
    sessions and received packets exist only when it is fixed. *)
Theorem udp_mode_is_fixed tokens σ σ' :
  reachable tokens σ -> conn_steps σ σ' ->
  (forall m, udp_packet_from (shared σ) = Some m -> udp_packet_from (shared σ') = Some m)
  /\ (udp_packet_from (shared σ') = None ->
      sessions (udp_sessions (shared σ')) = ∅ /\ recv_pkt (udp_sessions (shared σ')) = []).
Proof.
  intros Hr Hs. split.
  - apply (le_mode _ _ (conn_steps_le _ _ Hs)).
  - intros E. assert (reachable tokens σ') as Hr'.
    { destruct Hr as (size & bs & n & Hr). exists size, bs, n. by eapply steps_trans. }
    destruct (reachable_ok _ _ Hr') as [Hi _]. apply (inv_mode _ Hi). intros [m Hm]. congruence.
Qed.

Lemma udp_mode_is_fixed_witness :
  let claimed := after [2]%nat packet_pending in
  udp_packet_from (shared claimed) = Some UniStream
  /\ udp_packet_from (shared (after [2; 2; 2; 2]%nat claimed)) = Some UniStream.
Proof.
  split; [by vm_compute|].
  apply (udp_mode_is_fixed {[sample_digest]} (after [2]%nat packet_pending)); [| |by vm_compute].
  - apply reachable_after; [by vm_compute|apply packet_pending_reachable].
  - apply after_steps. by vm_compute.
Defined.
