(* ===== verification/ServerHandlers.v ===== *)
(** * What the server does with each command

    The handlers of server/src/connection/dispatch.rs and task.rs run to their
    end: for every kind of input, the state they leave and what the client gets.
    A handler that runs alone is one of the behaviours of the connection
    ([run_steps]). *)

From S2P Require Import Prelude RustIo Protocol Async Quic ServerAuth ServerUdp ServerConn ServerTask ServerScenario.

Local Open Scope Z_scope.

(** ** [polls] is enough *)

(** Only the wait for the authentication takes several accesses. *)
Lemma conn_exec_again tid o s s' : exec tid o s = Again s' -> o = AwaitAuthenticated.
Proof.
  destruct o as [| | | | | | |u| | | | | | | | | ]; try done; cbn; unfold answer, on_stream;
    try destruct u; cbn; unfold session_get, session_new, session_insert, channel_send, session_remove;
    repeat case_match; done.
Qed.

(** The accesses a wait still needs when nobody else moves. *)
Definition await_rank (tid : nat) (a : IsAuthenticatedState) : nat :=
  (match polling a !! tid with
   | None => 3
   | Some AtLoad => 2
   | Some AtPush => 1
   | Some AtPending => 0
   end + if decide (tid ∈ woken a) then 4 else 0)%nat.

Lemma poll_access_rank tid a a' :
  IsAuthenticated.poll_access tid a = Again a' -> (await_rank tid a' < await_rank tid a)%nat.
Proof.
  unfold IsAuthenticated.poll_access, await_rank. intros E.
  destruct (polling a !! tid) as [[| | ]|] eqn:Ep.
  - destruct (is_authenticated a); simplify_eq/=. rewrite lookup_partial_alter_eq. lia.
  - simplify_eq/=. rewrite lookup_partial_alter_eq. lia.
  - destruct (decide (tid ∈ woken a)) as [Hw|Hw]; simplify_eq/=. rewrite lookup_partial_alter_eq.
    rewrite decide_False by set_solver. lia.
  - destruct (IsClosed.check (is_connection_closed a)); simplify_eq/=. rewrite lookup_partial_alter_eq. lia.
Qed.

(** An operation that has not finished within [polls] accesses is blocked. *)
Lemma polls_enough tid o s s' : exec_n polls tid o s = (None, s') -> exec tid o s' = Blocked.
Proof.
  assert (await_rank tid (auth s) < polls)%nat as Hr.
  { unfold await_rank, polls. repeat case_match; lia. }
  revert Hr. generalize polls as n. intros n. revert s. induction n as [|n IH]; intros s Hr E; [lia|].
  cbn [exec_n] in E. destruct (exec tid o s) as [r s1|s1|] eqn:Ex; [done| |by simplify_eq].
  apply (IH s1); [|done]. pose proof (conn_exec_again _ _ _ _ Ex) as ->. cbn in Ex.
  destruct (IsAuthenticated.poll_access tid (auth s)) as [r a|a|] eqn:Ep; simplify_eq/=.
  apply poll_access_rank in Ep. simpl. lia.
Qed.

(** ** Waiting for the authentication *)

Lemma with_auth_id s : with_auth (auth s) s = s.
Proof. by destruct s. Qed.

Lemma with_udp_id s : with_udp (udp_sessions s) s = s.
Proof. by destruct s. Qed.

(** A task that waits: its waker is registered and it is suspended. *)
Definition waiting (tid : nat) (a : IsAuthenticatedState) : IsAuthenticatedState :=
  IsAuthenticated.set_point tid (Some AtPending)
    (MkAuth (is_connection_closed a) (is_authenticated a) (broadcast a ++ [tid]) (woken a) (polling a)).

(** A task that has just started, whom nobody has a reason to wake. *)
Definition started (tid : nat) (s : ConnState) : Prop :=
  polling (auth s) !! tid = None /\ tid ∉ woken (auth s).

Lemma set_point_none tid a :
  polling a !! tid = None ->
  IsAuthenticated.set_point tid None (IsAuthenticated.set_point tid (Some AtLoad) a) = a.
Proof.
  intros Hp. unfold IsAuthenticated.set_point. cbn. rewrite set_point_twice, set_point_same by done.
  by destruct a.
Qed.

Lemma await_run tid s :
  started tid s ->
  exec_n polls tid AwaitAuthenticated s =
  if is_closed (is_connection_closed (auth s)) then (Some false, s)
  else if is_authenticated (auth s) then (Some true, s)
  else (None, with_auth (waiting tid (auth s)) s).
Proof.
  intros [Hp Hw]. unfold polls. cbn [exec_n exec conn_machine].
  unfold IsAuthenticated.poll_access at 1. rewrite Hp. unfold IsClosed.check.
  destruct (is_closed (is_connection_closed (auth s))); cbn; [by rewrite with_auth_id|].
  unfold IsAuthenticated.poll_access at 1. cbn. rewrite lookup_partial_alter_eq.
  destruct (is_authenticated (auth s)) eqn:Ea; cbn.
  - rewrite set_point_none by done. by destruct s.
  - unfold IsAuthenticated.poll_access at 1. cbn. rewrite lookup_partial_alter_eq. cbn.
    unfold IsAuthenticated.poll_access at 1. cbn. rewrite lookup_partial_alter_eq. cbn.
    rewrite decide_False by done. unfold waiting, with_auth, IsAuthenticated.set_point. cbn.
    by rewrite !set_point_twice, Ea.
Qed.

(** A program whose first operation is that wait. *)
Lemma await_then_run {A} tid (k : bool -> task A) s :
  started tid s ->
  run tid (call AwaitAuthenticated ≫= k) s =
  if is_closed (is_connection_closed (auth s)) then run tid (k false) s
  else if is_authenticated (auth s) then run tid (k true) s
  else RunBlocked AwaitAuthenticated (with_auth (waiting tid (auth s)) s).
Proof.
  intros Hs. unfold call. cbn [mbind prog_bind run]. rewrite (await_run tid s Hs).
  by destruct (is_closed _); [|destruct (is_authenticated _)].
Qed.

(** An operation that finishes at its first access. *)
Lemma call_run {A} tid o (k : conn_resp o -> task A) s r s' :
  exec tid o s = Finished r s' -> run tid (call o ≫= k) s = run tid (k r) s'.
Proof. intros E. unfold call. cbn [mbind prog_bind run]. unfold polls. cbn [exec_n]. by rewrite E. Qed.

Lemma report_run tid h s r s' :
  run tid h s = RunDone r s' ->
  run tid (report h) s =
  RunDone tt match r with
  | Ok _ => s'
  | Err e =>
      with_controller (close (DispatchError.as_error_code e) (DispatchError.to_string e) (controller s')) s'
  end.
Proof. intros E. unfold report. rewrite run_bind, E. by destruct r. Qed.

(** ** Programs of the sessions inside a connection *)

Definition lift_res {A} (s : ConnState) (r : run_res (S := UdpSessionMapState) (op := udp_op) A) :
    run_res (S := ConnState) (op := conn_op) A :=
  match r with
  | RunDone a u => RunDone a (with_udp u s)
  | RunPanic u => RunPanic (with_udp u s)
  | RunBlocked o u => RunBlocked (Udp o) (with_udp u s)
  end.

Lemma exec_n_udp n tid o s :
  exec_n n tid (Udp o) s =
  ((exec_n n tid o (udp_sessions s)).1, with_udp (exec_n n tid o (udp_sessions s)).2 s).
Proof.
  revert s. induction n as [|n IH]; intros s; cbn [exec_n fst snd]; [by rewrite with_udp_id|].
  cbn [exec conn_machine]. destruct (exec tid o (udp_sessions s)); cbn [res_map]; auto.
  - by rewrite IH.
  - cbn [fst snd]. by rewrite with_udp_id.
Qed.

Lemma run_lift {A} tid (p : prog udp_resp A) s :
  run tid (lift p) s = lift_res s (run tid p (udp_sessions s)).
Proof.
  revert s. induction p as [a| |o k IH]; intros s; cbn [lift run lift_res];
    [by rewrite with_udp_id|by rewrite with_udp_id|].
  cbn [emb udp_Embeds]. rewrite exec_n_udp.
  destruct (exec_n polls tid o (udp_sessions s)) as [[r|] u]; cbn [fst snd]; [|done].
  rewrite IH. cbn [emb_resp udp_Embeds]. change (udp_sessions (with_udp u s)) with u.
  by destruct (run tid (k r) u).
Qed.

(** ** Outcomes *)

(** The close of the connection for an error of a handler. *)
Definition closed_for (e : DispatchError) (s : ConnState) : ConnState :=
  with_controller (close (DispatchError.as_error_code e) (DispatchError.to_string e) (controller s)) s.

Lemma report_ext tid h h' s s' :
  run tid h s = run tid h' s' -> run tid (report h) s = run tid (report h') s'.
Proof. intros E. unfold report. by rewrite !run_bind, E. Qed.

Lemma report_err tid h s e s' :
  run tid h s = RunDone (Err e) s' -> run tid (report h) s = RunDone tt (closed_for e s').
Proof. apply report_run. Qed.

Lemma report_ok tid h s u s' :
  run tid h s = RunDone (Ok u) s' -> run tid (report h) s = RunDone tt s'.
Proof. apply report_run. Qed.

Definition open (s : ConnState) : Prop := is_closed (is_connection_closed (auth s)) = false.

(** An authenticated connection that is open. *)
Definition serving (tid : nat) (s : ConnState) : Prop :=
  started tid s /\ open s /\ is_authenticated (auth s) = true.

(** What a stream that starts with a given command is dispatched to. *)
Lemma process_uni_run tid stream cmd rest s :
  Command.read_from stream = (Ok cmd, rest) -> (forall d, cmd <> Authenticate d) -> serving tid s ->
  run tid (process_uni_stream stream) s = run tid (dispatch_uni cmd rest) s.
Proof.
  intros E Hc (Hs & Ho & Ha). unfold process_uni_stream. rewrite E.
  destruct cmd; try (rewrite (await_then_run tid _ s Hs), Ho, Ha; done). by destruct (Hc digest).
Qed.

Lemma process_bi_run tid send recv cmd rest s :
  Command.read_from recv = (Ok cmd, rest) -> serving tid s ->
  run tid (process_bi_stream send recv) s =
  match cmd with
  | Connect addr => run tid (_ ← connect send rest addr; mret (Ok tt)) s
  | _ => RunDone (Err BadCommand) s
  end.
Proof.
  intros E (Hs & Ho & Ha). unfold process_bi_stream. rewrite E, (await_then_run tid _ s Hs), Ho, Ha.
  by destruct cmd.
Qed.

Lemma process_datagram_run tid datagram cmd rest s :
  Command.read_from datagram = (Ok cmd, rest) -> serving tid s ->
  run tid (process_datagram datagram) s =
  match cmd with
  | Packet assoc_id _ addr =>
      run tid (ok ← call (PacketFrom Datagram);
        if (ok : bool) then
          pkt ← or_panic (slice_from (Command.serialized_len cmd) datagram);
          _ ← packet_from_datagram pkt assoc_id addr;
          mret (Ok tt)
        else mret (Err BadCommand)) s
  | _ => RunDone (Err BadCommand) s
  end.
Proof.
  intros E (Hs & Ho & Ha). unfold process_datagram. rewrite E, (await_then_run tid _ s Hs), Ho, Ha.
  by destruct cmd.
Qed.

(** The claim of the way of UDP relaying, as an operation. *)
Lemma packet_from_run {A} tid src (k : bool -> task A) s :
  run tid (call (PacketFrom src) ≫= k) s =
  run tid (k (bool_decide (default src (udp_packet_from s) = src)))
    (with_packet_from (Some (default src (udp_packet_from s))) s).
Proof.
  eapply call_run. cbn. rewrite claim_spec. destruct (udp_packet_from s) as [m|]; cbn; [done|].
  by rewrite bool_decide_eq_true_2.
Qed.

Lemma with_packet_from_id s m : udp_packet_from s = Some m -> with_packet_from (Some m) s = s.
Proof. intros <-. by destruct s. Qed.

(** The sample connection once its client has authenticated. *)
Definition served : ConnState :=
  with_auth (IsAuthenticated.set_authenticated (auth sample_conn)) sample_conn.

Lemma served_serving tid : serving tid served.
Proof. done. Qed.

(** ** Properties: errors *)

(** C24: Input that is not a command closes the connection with the code of a
    protocol error and the message of the parser, on every kind of stream and
    for datagrams, authenticated or not, and changes nothing else. On an
    authenticated connection a command where it does not belong closes
    the connection as a bad command: a [Response] or a [Connect] on a
    unidirectional stream, anything but [Connect] on a bidirectional one,
    anything but [Packet] in a datagram, and a [Packet] that arrives another way
    than the first one did; the way first used stays. *)
Theorem bad_input_closes tid s :
  ((forall stream e rest, Command.read_from stream = (Err e, rest) ->
     run tid (report (process_uni_stream stream)) s = RunDone tt (closed_for (DispatchIo e) s))
  /\ (forall send recv e rest, Command.read_from recv = (Err e, rest) ->
     run tid (report (process_bi_stream send recv)) s = RunDone tt (closed_for (DispatchIo e) s))
  /\ (forall datagram e rest, Command.read_from datagram = (Err e, rest) ->
     run tid (report (process_datagram datagram)) s = RunDone tt (closed_for (DispatchIo e) s))
  /\ (forall e, close_reason (controller s) = None ->
     close_reason (controller (closed_for (DispatchIo e) s)) = Some (0xfffffff0, message e)))
  /\ (serving tid s ->
  (forall stream cmd rest, Command.read_from stream = (Ok cmd, rest) ->
     match cmd with
     | Response _ | Connect _ => True
     | Packet _ _ _ => udp_packet_from s = Some Datagram
     | _ => False
     end ->
     run tid (report (process_uni_stream stream)) s = RunDone tt (closed_for BadCommand s))
  /\ (forall send recv cmd rest, Command.read_from recv = (Ok cmd, rest) ->
     (forall addr, cmd <> Connect addr) ->
     run tid (report (process_bi_stream send recv)) s = RunDone tt (closed_for BadCommand s))
  /\ (forall datagram cmd rest, Command.read_from datagram = (Ok cmd, rest) ->
     match cmd with
     | Packet _ _ _ => udp_packet_from s = Some UniStream
     | _ => True
     end ->
     run tid (report (process_datagram datagram)) s = RunDone tt (closed_for BadCommand s))).
Proof.
  split; [split_and!|intros Hs; split_and!].
  - intros stream e rest E. apply report_err. unfold process_uni_stream. by rewrite E.
  - intros send recv e rest E. apply report_err. unfold process_bi_stream. by rewrite E.
  - intros datagram e rest E. apply report_err. unfold process_datagram. by rewrite E.
  - intros e Hc. cbn. by rewrite Hc.
  - intros stream cmd rest E Hc. apply report_err.
    erewrite process_uni_run by (try done; by intros d ->). destruct cmd; try done.
    unfold dispatch_uni. rewrite packet_from_run, Hc. cbn [default]. cbn.
    by rewrite with_packet_from_id.
  - intros send recv cmd rest E Hc. apply report_err. erewrite process_bi_run by done.
    destruct cmd; try done. by destruct (Hc addr).
  - intros datagram cmd rest E Hc. apply report_err. erewrite process_datagram_run by done.
    destruct cmd; try done. rewrite packet_from_run, Hc. cbn. by rewrite with_packet_from_id.
Qed.

Lemma bad_input_closes_witness :
  run 1%nat (report (process_datagram [3])) served =
    RunDone tt (closed_for (DispatchIo (IoError Unsupported "Unsupported TUIC version: 3")) served)
  /\ run 1%nat (report (process_datagram [4; 4])) served = RunDone tt (closed_for BadCommand served).
Proof.
  destruct (bad_input_closes 1%nat served) as [(_ & _ & H1 & _) H2]. split; [by apply (H1 [3] _ [])|].
  by apply (proj2 (proj2 (H2 (served_serving _))) [4; 4] Heartbeat []).
Defined.

(** ** Properties: authentication *)

(** C19: An [Authenticate] with a configured token makes the connection
    authenticated and wakes every task that waits for it. With any other digest
    the connection is closed as an authentication failure, stays as it was
    otherwise, and the waiting tasks are woken too. *)
Theorem authenticate_decides tid s stream digest rest :
  Command.read_from stream = (Ok (Authenticate digest), rest) ->
  exists s', run tid (report (process_uni_stream stream)) s = RunDone tt s'
  /\ (forall t, t ∈ broadcast (auth s) -> t ∈ woken (auth s')) /\ broadcast (auth s') = []
  /\ udp_sessions s' = udp_sessions s /\ token s' = token s
  /\ if decide (digest ∈ token s)
     then is_authenticated (auth s') = true /\ controller s' = controller s
     else is_authenticated (auth s') = is_authenticated (auth s)
       /\ (close_reason (controller s) = None ->
           close_reason (controller s') = Some (0xfffffff1, "authentication failed"%string)).
Proof.
  intros E. unfold report, process_uni_stream. rewrite E, run_bind. cbn iota.
  destruct (decide (digest ∈ token s)) as [Hd|Hd].
  - eexists. split; [cbn; rewrite bool_decide_eq_true_2 by done; reflexivity|].
    cbn. split_and!; try done. set_solver.
  - eexists. split; [cbn; rewrite bool_decide_eq_false_2 by done; reflexivity|]. cbn.
    split_and!; try done; [set_solver|]. by intros ->.
Qed.

Lemma authenticate_decides_witness :
  exists s', run 1%nat (report (process_uni_stream auth_stream)) sample_conn = RunDone tt s'
  /\ is_authenticated (auth s') = true.
Proof.
  destruct (authenticate_decides 1%nat sample_conn auth_stream sample_digest (MkRecvStream [] None))
    as (s' & E & _ & _ & _ & _ & H); [reflexivity|].
  exists s'. split; [done|]. rewrite decide_True in H by (by apply (bool_decide_unpack _)). apply H.
Defined.

(** C26: Before the authentication no other command does anything: its task waits,
    having registered its waker and changed nothing else. When the connection
    is already closed it fails with an authentication timeout instead. *)
Theorem commands_wait_for_authentication tid s h :
  started tid s -> is_authenticated (auth s) = false ->
  (exists stream cmd rest, h = process_uni_stream stream
     /\ Command.read_from stream = (Ok cmd, rest) /\ forall d, cmd <> Authenticate d)
  \/ (exists send recv cmd rest, h = process_bi_stream send recv /\ Command.read_from recv = (Ok cmd, rest))
  \/ (exists datagram cmd rest, h = process_datagram datagram
     /\ Command.read_from datagram = (Ok cmd, rest)) ->
  run tid (report h) s =
  if is_closed (is_connection_closed (auth s)) then RunDone tt (closed_for AuthenticationTimeout s)
  else RunBlocked AwaitAuthenticated (with_auth (waiting tid (auth s)) s).
Proof.
  intros Hs Ha Hh. assert (run tid h s =
    if is_closed (is_connection_closed (auth s)) then RunDone (Err AuthenticationTimeout) s
    else RunBlocked AwaitAuthenticated (with_auth (waiting tid (auth s)) s)) as E.
  { destruct Hh as [(st & cmd & rest & -> & E & Hc)|[(sd & rv & cmd & rest & -> & E)|(d & cmd & rest & -> & E)]];
      [unfold process_uni_stream|unfold process_bi_stream|unfold process_datagram]; rewrite E.
    - destruct cmd; try (rewrite (await_then_run tid _ s Hs), Ha; done). by destruct (Hc digest).
    - by rewrite (await_then_run tid _ s Hs), Ha.
    - by rewrite (await_then_run tid _ s Hs), Ha. }
  unfold report. rewrite run_bind, E. by destruct (is_closed _).
Qed.

Lemma commands_wait_for_authentication_witness :
  run 1%nat (report (process_datagram [4; 4])) sample_conn =
  RunBlocked AwaitAuthenticated (with_auth (waiting 1%nat (auth sample_conn)) sample_conn).
Proof.
  apply (commands_wait_for_authentication 1%nat sample_conn); [done|done|].
  right; right. by exists [4; 4], Heartbeat, [].
Defined.

(** C28: The end of [Connection::handle]: when the authentication did not arrive in
    time the connection is closed with that reason and the waiting tasks are
    woken; however the [select!] was left, the connection ends up marked as closed,
    which makes every later wait for the authentication fail. (A listener's
    [Ok(())] would be the panic of [unreachable!]: no listener returns it.) *)
Theorem handle_ends_closed tid s b :
  selected s = Some b ->
  match b with
  | BranchListen (Ok _) =>
      run tid handle s = RunPanic (with_listening false s) /\ forall error, b <> BranchListen (listener_ended error)
  | _ =>
      exists s', run tid handle s = RunDone tt s'
      /\ is_closed (is_connection_closed (auth s')) = true /\ listening s' = false
      /\ match b with
         | BranchListen _ => controller s' = controller s /\ broadcast (auth s') = broadcast (auth s)
         | BranchAuthTimeout =>
             (close_reason (controller s) = None ->
              close_reason (controller s') = Some (0xfffffff2, "authentication timeout"%string))
             /\ broadcast (auth s') = [] /\ forall t, t ∈ broadcast (auth s) -> t ∈ woken (auth s')
         end
  end.
Proof.
  intros Hb. destruct b as [[u|e]|]; [split; [cbn; by rewrite Hb|by intros []]|..]; (eexists; split; [cbn; rewrite Hb; reflexivity|]);
    (split; [apply set_closed_closed|]); cbn; unfold IsAuthenticated.set_closed, IsClosed.set_closed; cbn;
    destruct (closed_waker _); cbn; (split; [done|]); auto; (split; [by intros ->|]); set_solver.
Qed.

Lemma handle_ends_closed_witness :
  exists s', run 0%nat handle (with_selected (Some BranchAuthTimeout) sample_conn) = RunDone tt s'
  /\ is_closed (is_connection_closed (auth s')) = true.
Proof.
  destruct (handle_ends_closed 0%nat (with_selected (Some BranchAuthTimeout) sample_conn) BranchAuthTimeout)
    as (s' & E & H & _); [done|]. by exists s'.
Defined.

(** ** Relaying TCP *)

Lemma connect_first_success tid pre a post bs s :
  connects (net s) = replicate (length pre) false ++ true :: bs ->
  run tid (connect_first (pre ++ a :: post)) s =
  RunDone (Some a) (with_net (add_asked (AskedConnect <$> pre ++ [a]) (set_connects bs (net s))) s).
Proof.
  revert s. induction pre as [|x pre IH]; intros s E; cbn in E |- *; rewrite E; cbn; [done|].
  rewrite IH by done. unfold add_asked. cbn. by rewrite <- app_assoc.
Qed.

Lemma connect_first_failure tid addrs bs s :
  connects (net s) = replicate (length addrs) false ++ bs ->
  run tid (connect_first addrs) s =
  RunDone None (with_net (add_asked (AskedConnect <$> addrs) (set_connects bs (net s))) s).
Proof.
  revert s. induction addrs as [|x addrs IH]; intros s E; cbn in E |- *.
  - unfold add_asked. cbn. rewrite <- E, app_nil_r. by destruct s as [? ? ? ? ? []].
  - rewrite E. cbn. rewrite IH by done. unfold add_asked. cbn. by rewrite <- app_assoc.
Qed.

(** The addresses a [Connect] is tried on: its own, or the next answer of the name
    lookup. *)
Definition resolved (addr : Address) (s : ConnState) (addrs : list SocketAddr) : Prop :=
  match addr with
  | SocketAddress a => addrs = [a]
  | DomainAddress _ _ => head (lookups (net s)) = Some (Ok addrs)
  end.

(** The lookup that makes: of the name and the port of the command, and of nothing
    else. *)
Definition resolution (addr : Address) : list net_query :=
  match addr with
  | SocketAddress _ => []
  | DomainAddress domain port => [AskedLookup domain port]
  end.

Definition after_resolution (addr : Address) (s : ConnState) : ConnState :=
  match addr with
  | SocketAddress _ => s
  | DomainAddress _ _ => with_net (add_asked (resolution addr) (set_lookups (tail (lookups (net s))) (net s))) s
  end.

Lemma after_resolution_frame addr s :
  controller (after_resolution addr s) = controller s
  /\ connects (net (after_resolution addr s)) = connects (net s)
  /\ tunnels (net (after_resolution addr s)) = tunnels (net s)
  /\ asked (net (after_resolution addr s)) = asked (net s) ++ resolution addr.
Proof. destruct addr; cbn; [done|]. by rewrite app_nil_r. Qed.

Lemma connect_run tid send recv addr addrs s :
  resolved addr s addrs ->
  run tid (connect send recv addr) s =
  run tid (target ← connect_first addrs;
    match target with
    | Some target =>
        try_bind (err_into TaskIo (write_command (Command.new_response true) send)) (fun _ =>
        try_bind (err_into TaskIo (call (CopyBidirectional target send recv))) (fun _ => mret (Ok tt)))
    | None =>
        try_bind (err_into TaskIo (write_command (Command.new_response false) send)) (fun _ =>
        try_bind (err_into TaskWriteStream (call (Finish send))) (fun _ => mret (Ok tt)))
    end) (after_resolution addr s).
Proof.
  intros Hr. unfold connect. unfold try_bind at 1. rewrite run_bind. unfold err_into at 1. rewrite run_bind.
  destruct addr; simpl in Hr.
  - destruct (lookups (net s)) as [|l ls] eqn:Hl; [done|]. simplify_eq/=.
    unfold polls. cbn [exec_n exec conn_machine]. rewrite Hl. reflexivity.
  - by subst.
Qed.

(** The [Response] on the stream, and what was asked of the network. *)
Definition responded (b : bool) (send : nat) (addr : Address) (tried : list SocketAddr) (s s' : ConnState) : Prop :=
  streams (controller s') =
    <[send := MkSendStream (Command.write_to_buf (Response b) []) (negb b) None]> (streams (controller s))
  /\ asked (net s') = asked (net s) ++ resolution addr ++ (AskedConnect <$> tried).

(** The outcomes of [task::connect]. *)
Lemma connect_runs tid send recv addr addrs s :
  streams (controller s) !! send = Some (SendStream_new None) -> resolved addr s addrs ->
  (forall pre a post bs, addrs = pre ++ a :: post ->
     connects (net s) = replicate (length pre) false ++ true :: bs -> tunnels (net s) = [] ->
     exists s', run tid (connect send recv addr) s = RunBlocked (CopyBidirectional a send recv) s'
     /\ responded true send addr (pre ++ [a]) s s')
  /\ (forall bs, connects (net s) = replicate (length addrs) false ++ bs ->
     exists s', run tid (connect send recv addr) s = RunDone (Ok tt) s' /\ responded false send addr addrs s s').
Proof.
  intros Hst Hr. rewrite (connect_run tid send recv addr addrs s Hr). unfold responded.
  pose proof (after_resolution_frame addr s) as (Hc & Hn & Ht & Ha). revert Hc Hn Ht Ha.
  generalize (after_resolution addr s). intros s1 Hc Hn Ht Ha. rewrite <- Hn, <- Ht, <- Hc in *. clear Hn Ht Hc.
  split.
  - intros pre a post bs -> Hb Htn. rewrite run_bind, (connect_first_success _ _ _ _ bs) by done.
    eexists. split; [|split].
    + cbn. unfold on_stream. cbn. rewrite Hst. cbn. by rewrite Htn.
    + done.
    + by rewrite app_assoc, <- Ha.
  - intros bs Hb. rewrite run_bind, (connect_first_failure _ _ bs) by done.
    eexists. split; [|split].
    + cbn. unfold on_stream. cbn. rewrite Hst. cbn.
      unfold on_stream at 1. cbn. rewrite lookup_insert_eq. reflexivity.
    + cbn. by rewrite insert_insert_eq.
    + by rewrite app_assoc, <- Ha.
Qed.

Lemma handler_result_run tid (m : task (result TaskError unit)) s :
  run tid (report (_ ← m; mret (Ok tt))) s =
  match run tid m s with
  | RunDone _ s => RunDone tt s
  | RunPanic s => RunPanic s
  | RunBlocked o s => RunBlocked o s
  end.
Proof. unfold report. rewrite !run_bind. by destruct (run tid m s). Qed.

Lemma process_connect_runs tid send recv rest addr addrs s :
  serving tid s -> Command.read_from recv = (Ok (Connect addr), rest) ->
  streams (controller s) !! send = Some (SendStream_new None) -> resolved addr s addrs ->
  (forall pre a post bs, addrs = pre ++ a :: post ->
     connects (net s) = replicate (length pre) false ++ true :: bs -> tunnels (net s) = [] ->
     exists s', run tid (report (process_bi_stream send recv)) s = RunBlocked (CopyBidirectional a send rest) s'
     /\ responded true send addr (pre ++ [a]) s s')
  /\ (forall bs, connects (net s) = replicate (length addrs) false ++ bs ->
     exists s', run tid (report (process_bi_stream send recv)) s = RunDone tt s'
     /\ responded false send addr addrs s s').
Proof.
  intros Hs E Hst Hr. destruct (connect_runs tid send rest addr addrs s Hst Hr) as [H1 H2].
  assert (run tid (report (process_bi_stream send recv)) s =
    run tid (report (_ ← connect send rest addr; mret (Ok tt))) s) as Eq.
  { apply report_ext. by rewrite (process_bi_run _ _ _ _ _ _ E Hs). }
  rewrite Eq, handler_result_run. split.
  - intros pre a post bs Ha Hc Ht. destruct (H1 pre a post bs Ha Hc Ht) as (s2 & -> & ?). by exists s2.
  - intros bs Hc. destruct (H2 bs Hc) as (s2 & -> & ?). by exists s2.
Qed.

(** A failed lookup ends the task. *)
Lemma process_connect_fails tid send recv rest domain port s e ls :
  serving tid s -> Command.read_from recv = (Ok (Connect (DomainAddress domain port)), rest) ->
  lookups (net s) = Err e :: ls ->
  run tid (report (process_bi_stream send recv)) s =
  RunDone tt (with_net (add_asked [AskedLookup domain port] (set_lookups ls (net s))) s).
Proof.
  intros Hs E Hl. apply (report_ok _ _ _ tt). erewrite process_bi_run by done. cbn. by rewrite Hl.
Qed.

(** C18: A [Connect] of an authenticated client looks up its name and port (an IP
    address is not looked up), tries the resolved addresses in order and uses the
    first that accepts a connection: it answers [Response(true)] on the stream and
    relays between the stream and that address. When none accepts (or the name has no address) it answers
    [Response(false)] and finishes the stream. When the name lookup fails, the client
    gets no [Response] at all: nothing is written on the stream and it is not
    finished, the error is only logged. *)
Theorem connect_outcome tid send recv rest addr s :
  serving tid s -> Command.read_from recv = (Ok (Connect addr), rest) ->
  streams (controller s) !! send = Some (SendStream_new None) ->
  (forall addrs pre a post bs, resolved addr s addrs -> addrs = pre ++ a :: post ->
     connects (net s) = replicate (length pre) false ++ true :: bs -> tunnels (net s) = [] ->
     exists s', run tid (report (process_bi_stream send recv)) s = RunBlocked (CopyBidirectional a send rest) s'
     /\ streams (controller s') =
        <[send := MkSendStream (Command.write_to_buf (Response true) []) false None]> (streams (controller s))
     /\ asked (net s') = asked (net s) ++ resolution addr ++ (AskedConnect <$> pre ++ [a]))
  /\ (forall addrs bs, resolved addr s addrs -> connects (net s) = replicate (length addrs) false ++ bs ->
     exists s', run tid (report (process_bi_stream send recv)) s = RunDone tt s'
     /\ streams (controller s') =
        <[send := MkSendStream (Command.write_to_buf (Response false) []) true None]> (streams (controller s))
     /\ asked (net s') = asked (net s) ++ resolution addr ++ (AskedConnect <$> addrs))
  /\ (forall domain port e ls, addr = DomainAddress domain port -> lookups (net s) = Err e :: ls ->
     run tid (report (process_bi_stream send recv)) s =
     RunDone tt (with_net (add_asked [AskedLookup domain port] (set_lookups ls (net s))) s)).
Proof.
  intros Hs E Hst. split_and!.
  - intros addrs pre a post bs Hr. apply (process_connect_runs tid send recv rest addr addrs s Hs E Hst Hr).
  - intros addrs bs Hr. apply (process_connect_runs tid send recv rest addr addrs s Hs E Hst Hr).
  - intros domain port e ls ->. by eapply process_connect_fails.
Qed.

Definition connecting : ConnState :=
  with_net (MkNet [Ok [V4 (MkSocketAddrV4 (MkIpv4 10 0 0 1) 80); V4 (MkSocketAddrV4 (MkIpv4 10 0 0 2) 80)]]
              [false; true] [] [] [] [])
    (with_controller (MkController None [] {[5%nat := SendStream_new None]}) served).

Lemma connect_outcome_witness :
  let request := MkRecvStream (Command.write_to_buf (Connect (DomainAddress [97] 80)) []) None in
  let first := V4 (MkSocketAddrV4 (MkIpv4 10 0 0 1) 80) in
  let second := V4 (MkSocketAddrV4 (MkIpv4 10 0 0 2) 80) in
  let failing := with_net (set_lookups [Err eof_error] (net connecting)) connecting in
  (exists s', run 1%nat (report (process_bi_stream 5%nat request)) connecting =
    RunBlocked (CopyBidirectional second 5%nat (MkRecvStream [] None)) s'
    /\ asked (net s') = [AskedLookup [97] 80; AskedConnect first; AskedConnect second])
  /\ run 1%nat (report (process_bi_stream 5%nat request)) failing =
     RunDone tt (with_net (add_asked [AskedLookup [97] 80] (set_lookups [] (net failing))) failing).
Proof.
  intros request first second failing. split.
  - destruct (connect_outcome 1%nat 5%nat request (MkRecvStream [] None) (DomainAddress [97] 80) connecting)
      as [H _]; [done|reflexivity|done|].
    destruct (H [first; second] [first] second [] []) as (s' & E & _ & Ha); try done. by exists s'.
  - destruct (connect_outcome 1%nat 5%nat request (MkRecvStream [] None) (DomainAddress [97] 80) failing)
      as (_ & _ & H); [done|reflexivity|done|]. by apply (H [97] 80 eof_error []).
Defined.

(** ** Relaying UDP *)

(** The outcome of a handler that hands a packet to the sessions. *)
Definition relayed (s : ConnState)
    (r : run_res (S := UdpSessionMapState) (op := udp_op) (result io_error unit)) :
    run_res (S := ConnState) (op := conn_op) unit :=
  match lift_res s r with
  | RunDone _ s => RunDone tt s
  | RunPanic s => RunPanic s
  | RunBlocked o s => RunBlocked o s
  end.

Lemma report_relayed tid (m : task (result TaskError unit)) s r :
  m = err_into TaskIo (lift r) ->
  run tid (report (_ ← m; mret (Ok tt))) s = relayed s (run tid r (udp_sessions s)).
Proof.
  intros ->. unfold report, err_into. rewrite !run_bind, run_lift. unfold relayed.
  by destruct (lift_res s _).
Qed.

(** Running a handler after a claim that succeeded. *)
Lemma report_claimed tid src (h : task (result DispatchError unit)) s :
  default src (udp_packet_from s) = src ->
  run tid (report (ok ← call (PacketFrom src); if (ok : bool) then h else mret (Err BadCommand))) s =
  run tid (report h) (with_packet_from (Some src) s).
Proof.
  intros Hm. unfold report. rewrite run_bind, packet_from_run, Hm, bool_decide_eq_true_2 by done.
  by rewrite run_bind.
Qed.

(** A [Packet] that arrives the way the connection uses (or fixes that way by
    being the first) is handed to the session of its associate ID with exactly
    the payload: for a datagram everything after the header, whatever its
    length field says, for a stream as many bytes as the length field says. *)
Lemma packet_reaches_session tid s id len addr pkt :
  serving tid s -> Command.ok (Packet id len addr) -> Command.wire (Packet id len addr) ->
  let header := Command.write_to_buf (Packet id len addr) [] in
  (default Datagram (udp_packet_from s) = Datagram ->
     run tid (report (process_datagram (header ++ pkt))) s =
     relayed (with_packet_from (Some Datagram) s) (run tid (UdpSessionMap.send id pkt addr) (udp_sessions s)))
  /\ (default UniStream (udp_packet_from s) = UniStream -> blen pkt = len -> forall rest e,
     run tid (report (process_uni_stream (MkRecvStream (header ++ pkt ++ rest) e))) s =
     relayed (with_packet_from (Some UniStream) s) (run tid (UdpSessionMap.send id pkt addr) (udp_sessions s))).
Proof.
  intros Hs Hc Hw header. split.
  - intros Hm. assert (Command.read_from (header ++ pkt) = (Ok (Packet id len addr), pkt)) as E.
    { exact (@decode_encode_rest Command Command_Codec (Packet id len addr) pkt (conj Hc Hw)). }
    etransitivity; [apply report_ext, (process_datagram_run _ _ _ _ _ E Hs)|].
    rewrite report_claimed by done. unfold header. rewrite slice_after_command by done.
    exact (report_relayed _ (packet_from_datagram pkt id addr) (with_packet_from _ s) _ eq_refl).
  - intros Hm Hl rest e.
    destruct (Command_accepts _ Hc Hw (MkRecvStream (header ++ pkt ++ rest) e) (pkt ++ rest)) as (r' & E & U & _);
      [done|].
    etransitivity; [apply report_ext, (process_uni_run _ _ _ _ _ E); [by intros|done]|].
    unfold dispatch_uni. rewrite report_claimed by done.
    apply (report_relayed _ (packet_from_uni_stream r' id len addr) (with_packet_from _ s)).
    unfold packet_from_uni_stream, rs_read_exact.
    cbn in U. rewrite U, <- Hl. unfold blen. rewrite Nat2Z.id, decide_True by (rewrite length_app; lia).
    by rewrite take_app_length.
Qed.

(** A packet that a session received goes back the way the client's packets
    came, as one datagram or on one stream of its own that is then finished; its
    header carries the associate ID, the source address and the length modulo
    2^16. *)
Lemma reply_uses_client_mode tid s id pkt addr :
  let header := Command.write_to_buf (Packet id (blen pkt mod 2 ^ 16) addr) [] in
  (forall ds, udp_packet_from s = Some Datagram -> datagram_sends (net s) = Ok tt :: ds ->
     exists s', run tid (report (process_received_udp_packet id pkt addr)) s = RunDone tt s'
     /\ datagrams_sent (controller s') = datagrams_sent (controller s) ++ [header ++ pkt]
     /\ streams (controller s') = streams (controller s)
     /\ close_reason (controller s') = close_reason (controller s))
  /\ (forall os, udp_packet_from s = Some UniStream -> opens (net s) = Ok None :: os ->
     exists s' stream, run tid (report (process_received_udp_packet id pkt addr)) s = RunDone tt s'
     /\ streams (controller s) !! stream = None
     /\ streams (controller s') = <[stream := MkSendStream (header ++ pkt) true None]> (streams (controller s))
     /\ datagrams_sent (controller s') = datagrams_sent (controller s)
     /\ close_reason (controller s') = close_reason (controller s)).
Proof.
  intros header. split.
  - intros ds Hm Hd. eexists. split.
    + unfold report. rewrite run_bind. cbn -[Command.write_to_buf]. unfold UdpPacketFrom.check. rewrite Hm.
      cbn -[Command.write_to_buf]. rewrite Hd. reflexivity.
    + done.
  - intros os Hm Ho. pose (stream := next_stream (controller s)). eexists _, stream. split; [|split].
    + unfold report. rewrite run_bind. cbn -[Command.write_to_buf]. unfold UdpPacketFrom.check. rewrite Hm.
      cbn -[Command.write_to_buf]. rewrite Ho. fold stream. cbn -[Command.write_to_buf].
      do 3 (unfold on_stream at 1; cbn -[Command.write_to_buf]; rewrite lookup_insert_eq; cbn -[Command.write_to_buf]).
      reflexivity.
    + apply next_stream_fresh.
    + cbn -[Command.write_to_buf]. by rewrite !insert_insert_eq.
Qed.
