(* ===== verification/ServerWaiting.v ===== *)
(** * Tasks that wait for the authentication and are never woken

    [IsAuthenticated::poll] reads the flags and registers its waker in two steps,
    and [IsClosed::set_closed] does not wake the tasks registered there. Both
    leave tasks suspended that could go on. *)

From S2P Require Import Prelude RustIo Protocol Async Quic ServerAuth ServerUdp ServerConn ServerTask ServerScenario.

Local Open Scope Z_scope.

(** The task [tid] is suspended in its wait for the authentication. *)
Definition suspended (tid : nat) (σ : system conn_resp ConnState) : Prop :=
  exists k, tasks σ !! tid = Some (Vis AwaitAuthenticated k)
    /\ exec tid AwaitAuthenticated (shared σ) = Blocked.

Definition suspendedb (tid : nat) (σ : system conn_resp ConnState) : bool :=
  match tasks σ !! tid with
  | Some (Vis AwaitAuthenticated _) =>
      match exec tid AwaitAuthenticated (shared σ) with
      | Blocked => true
      | _ => false
      end
  | _ => false
  end.

Definition finishedb (tid : nat) (σ : system conn_resp ConnState) : bool :=
  match tasks σ !! tid with
  | Some (Ret _) => true
  | _ => false
  end.

Lemma suspendedb_suspended tid σ : suspendedb tid σ = true -> suspended tid σ.
Proof.
  unfold suspendedb. destruct (tasks σ !! tid) as [[| |o k]|] eqn:Et; try done.
  destruct o; try done. intros E. exists k. split; [done|]. by destruct (exec tid _ (shared σ)).
Qed.

Lemma finishedb_finished tid σ : finishedb tid σ = true -> tasks σ !! tid = Some (Ret tt).
Proof. unfold finishedb. by destruct (tasks σ !! tid) as [[[]| |]|]. Qed.

(** ** An authentication that races with a wait *)

(** The heartbeat reads both flags; the authentication runs to its end; the
    heartbeat registers its waker. *)
Definition racing_schedule : list nat := [2; 2; 1; 1; 1; 2]%nat.

(** ... and [handle] sees the authentication, so that its timer is off. *)
Definition timer_off (σ : system conn_resp ConnState) : system conn_resp ConnState :=
  MkSystem (with_timer false (with_auth (auth (shared σ)) (shared σ))) (tasks σ).

Definition after_race : system conn_resp ConnState := timer_off (after racing_schedule (two_streams heartbeat_stream)).

(** C34: A wake-up can be lost: there is a run in which the client has
    authenticated, the connection is open and was not closed for any error, the
    authentication's task is done and the timer is off, and yet a task that
    waits for the authentication is suspended, with nobody left to wake it. *)
Theorem authentication_wakeup_lost :
  exists tokens σ, reachable tokens σ
    /\ is_authenticated (auth (shared σ)) = true
    /\ is_closed (is_connection_closed (auth (shared σ))) = false
    /\ close_reason (controller (shared σ)) = None
    /\ timer_on (shared σ) = false /\ selected (shared σ) = None
    /\ tasks σ !! 0%nat = Some handle /\ tasks σ !! 1%nat = Some (Ret tt) /\ suspended 2%nat σ
    /\ (forall tid p, tasks σ !! tid = Some p -> tid = 0%nat \/ tid = 1%nat \/ tid = 2%nat).
Proof.
  exists {[sample_digest]}, after_race. split_and!; try (by vm_compute).
  - destruct (two_streams_reachable heartbeat_stream) as (size & bs & n & Hr); [by apply (bool_decide_unpack _)|]. exists size, bs, n.
    eapply steps_trans; [done|]. eapply steps_step; [apply (after_steps racing_schedule); by vm_compute|].
    apply step_env. apply (env_poll _ (Ready true)); by vm_compute.
  - apply suspendedb_suspended. by vm_compute.
  - intros tid p E. apply elem_of_dom_2 in E. change (tasks after_race) with (tasks (after racing_schedule (two_streams heartbeat_stream))) in E.
    rewrite after_dom in E. unfold two_streams in E. simpl in E. rewrite !dom_insert_L in E.
    repeat (apply elem_of_union in E as [E|E]; [apply elem_of_singleton in E; auto|]). by apply not_elem_of_empty in E.
Qed.

(** ** The end of a connection *)

(** Nobody moves any more: the listeners are gone, [handle] has its result, every
    task is finished or suspended in its wait. *)
Record quiescent (σ : system conn_resp ConnState) : Prop := MkQuiescent {
  q_listening : listening (shared σ) = false;
  q_selected : is_Some (selected (shared σ));
  q_tasks tid p : tasks σ !! tid = Some p -> p = Ret tt \/ suspended tid σ }.

Lemma await_auth_only tid s s' :
  auth s' = auth s -> exec tid AwaitAuthenticated s = Blocked -> exec tid AwaitAuthenticated s' = Blocked.
Proof. intros Ha. cbn. rewrite Ha. by destruct (IsAuthenticated.poll_access tid (auth s)). Qed.

Lemma quiescent_step σ σ' :
  quiescent σ -> step conn_env conn_spawn σ σ' ->
  tasks σ' = tasks σ /\ auth (shared σ') = auth (shared σ) /\ quiescent σ'.
Proof.
  intros [Hl [b Hsel] Ht] Hs. destruct Hs as [tid σ σ' E|σ s' E|tid p σ s' Hf E].
  - exfalso. unfold step_task in E. destruct (tasks σ !! tid) as [[| |o k]|] eqn:Et; try done.
    destruct (Ht tid (Vis o k) Et) as [|(k' & Hk & Hb)]; [done|]. rewrite Hk in Et. simplify_eq. by rewrite Hb in E.
  - assert (auth s' = auth (shared σ) /\ listening s' = listening (shared σ) /\ selected s' = selected (shared σ))
      as (Ha & Hl' & Hs') by (destruct E; simplify_eq; done).
    split; [done|]. split; [done|]. split; simpl; [congruence|rewrite Hs'; by exists b|].
    intros tid p Hp. destruct (Ht tid p Hp) as [|(k & Hk & Hb)]; [by left|]. right. exists k.
    split; [done|]. by eapply await_auth_only.
  - exfalso. destruct E; congruence.
Qed.

Lemma quiescent_steps σ σ' :
  conn_steps σ σ' -> quiescent σ -> tasks σ' = tasks σ /\ auth (shared σ') = auth (shared σ) /\ quiescent σ'.
Proof.
  induction 1 as [|σ1 σ2 σ3 _ IH Hs]; intros Hq; [done|].
  destruct (IH Hq) as (H1 & H2 & H3). apply quiescent_step in Hs as (H4 & H5 & H6); [|done].
  split_and!; try congruence.
Qed.

(** A stream is waiting for the authentication when the client disconnects. *)
Definition waiting_then_lost : system conn_resp ConnState :=
  MkSystem (with_accepted [heartbeat_stream] sample_conn)
    (<[1%nat := report (process_uni_stream heartbeat_stream)]> (<[0%nat := handle]> ∅)).

Definition lost (σ : system conn_resp ConnState) : system conn_resp ConnState :=
  MkSystem (with_selected (Some (BranchListen (listener_ended (Some (OtherConnectionError 0))))) (shared σ)) (tasks σ).

Definition before_loss : system conn_resp ConnState :=
  after [1; 1; 1]%nat waiting_then_lost.

Definition after_loss : system conn_resp ConnState :=
  after [0; 0]%nat (lost before_loss).

Lemma waiting_then_lost_reachable : reachable {[sample_digest]} waiting_then_lost.
Proof.
  exists 1500, [Ok tt], quiet_net. eapply steps_step; [eapply steps_one|].
  - by apply (step_spawn _ _ 0%nat); [|apply spawn_handle].
  - apply (step_spawn _ _ 1%nat _ (MkSystem _ _)); [done|].
    refine (spawn_uni sample_conn heartbeat_stream _ _); [done|]. by apply (bool_decide_unpack _).
Qed.

Lemma after_loss_reachable : reachable {[sample_digest]} after_loss.
Proof.
  destruct waiting_then_lost_reachable as (size & bs & n & Hr). exists size, bs, n.
  eapply steps_trans; [done|]. eapply steps_trans; [apply (after_steps [1; 1; 1]%nat); by vm_compute|].
  eapply steps_trans; [apply steps_one, (step_env _ _ before_loss), env_lost; by vm_compute|].
  apply after_steps. by vm_compute.
Qed.

Lemma after_loss_tasks tid p : tasks after_loss !! tid = Some p -> tid = 0%nat \/ tid = 1%nat.
Proof.
  intros E. apply elem_of_dom_2 in E. unfold after_loss in E. rewrite after_dom in E.
  change (tasks (lost before_loss)) with (tasks before_loss) in E. unfold before_loss in E.
  rewrite after_dom in E. unfold waiting_then_lost in E. simpl in E. rewrite !dom_insert_L in E.
  repeat (apply elem_of_union in E as [E|E]; [apply elem_of_singleton in E; auto|]). by apply not_elem_of_empty in E.
Qed.

(** C35: A task that waits for the authentication when the connection ends is
    never woken: [set_closed] marks the connection as closed, which would make
    the wait fail, but there is a run after which the task stays suspended in
    every state that can follow. *)
Theorem closed_connection_leaks_waiters :
  exists tokens σ tid, reachable tokens σ
    /\ is_closed (is_connection_closed (auth (shared σ))) = true
    /\ forall σ', conn_steps σ σ' -> suspended tid σ'
         /\ is_closed (is_connection_closed (auth (shared σ'))) = true.
Proof.
  exists {[sample_digest]}, after_loss, 1%nat. split; [apply after_loss_reachable|].
  assert (suspended 1%nat after_loss) as Hsus by (apply suspendedb_suspended; by vm_compute).
  assert (is_closed (is_connection_closed (auth (shared after_loss))) = true) as Hc by (by vm_compute).
  assert (quiescent after_loss) as Hq.
  { split; [by vm_compute|by eexists|]. intros tid p Hp. destruct (after_loss_tasks tid p Hp) as [->| ->].
    - left. rewrite (finishedb_finished 0%nat) in Hp by (by vm_compute). congruence.
    - by right. }
  split; [done|]. intros σ' Hs. destruct (quiescent_steps _ _ Hs Hq) as (Ht & Ha & _).
  split; [|by rewrite Ha]. destruct Hsus as (k & Hk & Hb). exists k. rewrite Ht. split; [done|].
  by eapply await_auth_only.
Qed.
