(* ===== verification/ClientConn.v ===== *)
(** * The shared state of a client connection and its operations
      (client/src/relay/connection.rs, stream.rs, address.rs)

    [CliConn] is what the clones of one relay [Connection] share: the QUIC
    connection, the UDP sessions with the channels to their owners, the register
    that counts live streams, the closed flag with the wakers waiting for it, and
    the program's maximum UDP packet size. *)

From S2P Require Import Prelude RustIo Protocol Async Quic ServerAuth.

Local Open Scope Z_scope.

(** ** Addresses (address.rs) *)

Inductive RelayAddress :=
| RelayDomain (hostname : bytes) (port : Z)
| RelaySocket (addr : SocketAddr).

#[export] Instance RelayAddress_eq_dec : EqDecision RelayAddress.
Proof. solve_decision. Defined.

(** [From<TuicAddress> for Address] and back. *)
Definition relay_of_tuic (a : Address) : RelayAddress :=
  match a with
  | DomainAddress hostname port => RelayDomain hostname port
  | SocketAddress addr => RelaySocket addr
  end.

Definition tuic_of_relay (a : RelayAddress) : Address :=
  match a with
  | RelayDomain hostname port => DomainAddress hostname port
  | RelaySocket addr => SocketAddress addr
  end.

Lemma tuic_of_relay_of_tuic a : tuic_of_relay (relay_of_tuic a) = a.
Proof. by destruct a. Qed.

Lemma relay_of_tuic_of_relay a : relay_of_tuic (tuic_of_relay a) = a.
Proof. by destruct a. Qed.

#[export] Hint Rewrite tuic_of_relay_of_tuic relay_of_tuic_of_relay : tuic.

(** ** [IsClosed] of the client: every waiting task is woken *)

Record ClosedState := MkClosed {
  closed : bool;
  closed_wakers : list nat;
  closed_woken : wakeups }.

Module CliClosed.

Definition new : ClosedState := MkClosed false [] ∅.

Definition set (c : ClosedState) : ClosedState :=
  MkClosed true [] (list_to_set (closed_wakers c) ∪ closed_woken c).

Definition poll (tid : nat) (c : ClosedState) : Poll unit * ClosedState :=
  if closed c then (Ready tt, c)
  else (Pending, MkClosed (closed c) (closed_wakers c ++ [tid]) (closed_woken c)).

End CliClosed.

(** ** Streams (stream.rs) *)

(** [Register] is an [Arc]: the connection holds one, every live stream another. *)
Module StreamRegister.

Definition new : nat := 1.
Definition clone (count : nat) : nat := S count.
Definition drop (count : nat) : nat := pred count.
Definition count (count : nat) : nat := count.

(** A [Registry] is a [Weak] of the register: [upgrade] fails when no owner is left. *)
Definition get_register (count : nat) : option nat :=
  match count with
  | O => None
  | S _ => Some (clone count)
  end.

End StreamRegister.

(** [IncomingUniStreams::poll_next]: [incoming] is what quinn's stream answers; the
    register taken for the poll goes into the stream it yields, or is dropped. *)
Definition poll_next {E A} (incoming : Poll (option (result E A))) (reg : nat) :
    Poll (option (result E A)) * nat :=
  match StreamRegister.get_register reg with
  | Some reg' =>
      match incoming with
      | Ready (Some (Ok recv)) => (Ready (Some (Ok recv)), reg')
      | other => (other, StreamRegister.drop reg')
      end
  | None => (Ready None, reg)
  end.

(** A bidirectional stream: its sending side and what its receiving side gets. *)
Definition BiStream : Type := nat * RecvStream.

(** ** State *)

Inductive UdpRelayMode :=
| Native
| Quic.

(** The channel to the owner of a UDP session. *)
Record Channel := MkChannel {
  ch_queue : list (bytes * RelayAddress);
  ch_open : bool }.

Definition ch_capacity : nat := 1.

(** The answers of the network to come, as the callers see them. *)
Record CliNet := MkCliNet {
  uni_opens : list (result io_error (option (Z * io_error)));
  bi_opens : list (result io_error (option (Z * io_error) * RecvStream));
  datagram_answers : list (result string unit) }.

Record CliConn := MkCli {
  cli_controller : Controller;
  cli_sessions : gmap Z nat;
  channels : gmap nat Channel;
  stream_reg : nat;
  udp_relay_mode : UdpRelayMode;
  cli_closed : ClosedState;
  default_max_udp_relay_packet_size : Z;
  (** what quinn's [max_datagram_size] returns *)
  max_datagram_size : option Z;
  (** the static [MAX_UDP_RELAY_PACKET_SIZE] *)
  max_udp_relay_packet_size : Z;
  cli_net : CliNet;
  (** requests whose receiver still waits, and the streams handed out *)
  awaiting : gset nat;
  delivered : gmap nat BiStream;
  (** [handle_packet_to] tasks spawned and not yet started *)
  spawned : list (Z * bytes * RelayAddress) }.

Definition with_cli_controller (x : Controller) (s : CliConn) :=
  MkCli x (cli_sessions s) (channels s) (stream_reg s) (udp_relay_mode s) (cli_closed s)
    (default_max_udp_relay_packet_size s) (max_datagram_size s) (max_udp_relay_packet_size s) (cli_net s)
    (awaiting s) (delivered s) (spawned s).
Definition with_cli_sessions (x : gmap Z nat) (s : CliConn) :=
  MkCli (cli_controller s) x (channels s) (stream_reg s) (udp_relay_mode s) (cli_closed s)
    (default_max_udp_relay_packet_size s) (max_datagram_size s) (max_udp_relay_packet_size s) (cli_net s)
    (awaiting s) (delivered s) (spawned s).
Definition with_channels (x : gmap nat Channel) (s : CliConn) :=
  MkCli (cli_controller s) (cli_sessions s) x (stream_reg s) (udp_relay_mode s) (cli_closed s)
    (default_max_udp_relay_packet_size s) (max_datagram_size s) (max_udp_relay_packet_size s) (cli_net s)
    (awaiting s) (delivered s) (spawned s).
Definition with_stream_reg (x : nat) (s : CliConn) :=
  MkCli (cli_controller s) (cli_sessions s) (channels s) x (udp_relay_mode s) (cli_closed s)
    (default_max_udp_relay_packet_size s) (max_datagram_size s) (max_udp_relay_packet_size s) (cli_net s)
    (awaiting s) (delivered s) (spawned s).
Definition with_max_size (x : Z) (s : CliConn) :=
  MkCli (cli_controller s) (cli_sessions s) (channels s) (stream_reg s) (udp_relay_mode s) (cli_closed s)
    (default_max_udp_relay_packet_size s) (max_datagram_size s) x (cli_net s) (awaiting s) (delivered s) (spawned s).
Definition with_cli_net (x : CliNet) (s : CliConn) :=
  MkCli (cli_controller s) (cli_sessions s) (channels s) (stream_reg s) (udp_relay_mode s) (cli_closed s)
    (default_max_udp_relay_packet_size s) (max_datagram_size s) (max_udp_relay_packet_size s) x
    (awaiting s) (delivered s) (spawned s).
Definition with_responses (w : gset nat) (d : gmap nat BiStream) (s : CliConn) :=
  MkCli (cli_controller s) (cli_sessions s) (channels s) (stream_reg s) (udp_relay_mode s) (cli_closed s)
    (default_max_udp_relay_packet_size s) (max_datagram_size s) (max_udp_relay_packet_size s) (cli_net s)
    w d (spawned s).
Definition with_spawned (x : list (Z * bytes * RelayAddress)) (s : CliConn) :=
  MkCli (cli_controller s) (cli_sessions s) (channels s) (stream_reg s) (udp_relay_mode s) (cli_closed s)
    (default_max_udp_relay_packet_size s) (max_datagram_size s) (max_udp_relay_packet_size s) (cli_net s)
    (awaiting s) (delivered s) x.

(** [Connection::new] *)
Definition cli_new (mode : UdpRelayMode) (default_max : Z) (dgram_size : option Z) (n : CliNet) (waits : gset nat) :
    CliConn :=
  MkCli Controller_new ∅ ∅ StreamRegister.new mode CliClosed.new default_max dgram_size 1500 n waits ∅ [].

Definition update_max_udp_relay_packet_size (s : CliConn) : CliConn :=
  let size :=
    match udp_relay_mode s with
    | Native =>
        match max_datagram_size s with
        | Some size => size
        | None => default_max_udp_relay_packet_size s
        end
    | Quic => default_max_udp_relay_packet_size s
    end in
  with_max_size size s.

Definition no_active_stream (s : CliConn) : bool := (StreamRegister.count (stream_reg s) =? 1)%nat.
Definition no_active_udp_session (s : CliConn) : bool := bool_decide (cli_sessions s = ∅).

(** ** Operations *)

Inductive cli_op :=
| GetSendStream
| GetBiStream
| CWriteAll (stream : nat) (data : bytes)
| CFinish (stream : nat)
| DropStreams (n : nat)
| CSendDatagram (data : bytes)
| UpdateMaxSize
| NoActiveStream
| NoActiveUdpSession
| SessionsGet (id : Z)
| SessionsInsert (id : Z) (ch : nat)
| SessionsRemove (id : Z)
| ChanSend (ch : nat) (pkt : bytes) (addr : RelayAddress)
| Respond (tx : nat) (stream : BiStream)
| SpawnPacketTo (id : Z) (pkt : bytes) (addr : RelayAddress).

Definition cli_resp (o : cli_op) : Type :=
  match o with
  | GetSendStream => result io_error nat
  | GetBiStream => result io_error BiStream
  | CWriteAll _ _ | CFinish _ => result io_error unit
  | CSendDatagram _ => result string unit
  | NoActiveStream | NoActiveUdpSession => bool
  | SessionsGet _ => option nat
  | DropStreams _ | UpdateMaxSize | SessionsInsert _ _ | SessionsRemove _ | ChanSend _ _ _
  | SpawnPacketTo _ _ _ => unit
  | Respond _ _ => bool
  end.

(** A new stream of the connection. *)
Definition open_stream (fault : option (Z * io_error)) (regs : nat) (s : CliConn) : nat * CliConn :=
  let id := next_stream (cli_controller s) in
  (id, with_stream_reg (Nat.iter regs StreamRegister.clone (stream_reg s))
         (with_cli_controller (update_stream id (SendStream_new fault) (cli_controller s)) s)).

Definition on_cli_stream (id : nat) (f : SendStream -> result io_error unit * SendStream) (s : CliConn) :
    exec_res CliConn (result io_error unit) :=
  match streams (cli_controller s) !! id with
  | Some st =>
      let '(r, st) := f st in
      Finished r (with_cli_controller (update_stream id st (cli_controller s)) s)
  | None => Blocked
  end.

(** [recv_pkt_tx.send((pkt, addr)).await]: waits while the channel is full, fails
    (which the caller ignores) when its receiver is gone. *)
Definition chan_send (ch : nat) (pkt : bytes) (addr : RelayAddress) (s : CliConn) : exec_res CliConn unit :=
  match channels s !! ch with
  | Some c =>
      if ch_open c then
        if decide (length (ch_queue c) < ch_capacity)%nat
        then Finished tt (with_channels (<[ch := MkChannel (ch_queue c ++ [(pkt, addr)]) true]> (channels s)) s)
        else Blocked
      else Finished tt s
  | None => Finished tt s
  end.

#[export] Instance cli_machine : Machine cli_resp CliConn := fun tid o s =>
  match o return exec_res CliConn (cli_resp o) with
  | GetSendStream =>
      match uni_opens (cli_net s) with
      | [] => Blocked
      | Err e :: l => Finished (Err e) (with_cli_net (MkCliNet l (bi_opens (cli_net s)) (datagram_answers (cli_net s))) s)
      | Ok fault :: l =>
          let '(id, s) := open_stream fault 1 s in
          Finished (Ok id) (with_cli_net (MkCliNet l (bi_opens (cli_net s)) (datagram_answers (cli_net s))) s)
      end
  | GetBiStream =>
      match bi_opens (cli_net s) with
      | [] => Blocked
      | Err e :: l => Finished (Err e) (with_cli_net (MkCliNet (uni_opens (cli_net s)) l (datagram_answers (cli_net s))) s)
      | Ok (fault, recv) :: l =>
          let '(id, s) := open_stream fault 2 s in
          Finished (Ok (id, recv))
            (with_cli_net (MkCliNet (uni_opens (cli_net s)) l (datagram_answers (cli_net s))) s)
      end
  | CWriteAll id data => on_cli_stream id (write_all data) s
  | CFinish id => on_cli_stream id finish s
  | DropStreams n => Finished tt (with_stream_reg (Nat.iter n StreamRegister.drop (stream_reg s)) s)
  | CSendDatagram data =>
      match datagram_answers (cli_net s) with
      | [] => Blocked
      | r :: l =>
          let s := with_cli_net (MkCliNet (uni_opens (cli_net s)) (bi_opens (cli_net s)) l) s in
          match r with
          | Ok _ => Finished (Ok tt) (with_cli_controller (push_datagram data (cli_controller s)) s)
          | Err e => Finished (Err e) s
          end
      end
  | UpdateMaxSize => Finished tt (update_max_udp_relay_packet_size s)
  | NoActiveStream => Finished (no_active_stream s) s
  | NoActiveUdpSession => Finished (no_active_udp_session s) s
  | SessionsGet id => Finished (cli_sessions s !! id) s
  | SessionsInsert id ch => Finished tt (with_cli_sessions (<[id := ch]> (cli_sessions s)) s)
  | SessionsRemove id => Finished tt (with_cli_sessions (delete id (cli_sessions s)) s)
  | ChanSend ch pkt addr => chan_send ch pkt addr s
  | Respond tx stream =>
      if decide (tx ∈ awaiting s)
      then Finished true (with_responses (awaiting s ∖ {[tx]}) (<[tx := stream]> (delivered s)) s)
      else Finished false s
  | SpawnPacketTo id pkt addr => Finished tt (with_spawned (spawned s ++ [(id, pkt, addr)]) s)
  end.
