(* ===== verification/ClientTask.v ===== *)
(** * The tasks of the client's relay (client/src/relay/task.rs, incoming.rs, the
      tasks of connection.rs and the requests of request.rs)

    Each [async fn] is a program over the operations of [ClientConn]. A stream
    holds a clone of the connection's register until it is dropped, which Rust
    does when the stream's owner returns, whatever the result. *)

From S2P Require Import Prelude RustIo Protocol Async Quic ServerAuth ClientConn.

Local Open Scope Z_scope.
Local Open Scope task_scope.

Abbreviation ctask A := (prog cli_resp A).

(** [Command::write_to] on a stream of the client. *)
Definition cli_write_command (cmd : Command) (stream : nat) : ctask (result io_error unit) :=
  call (CWriteAll stream (Command.write_to_buf cmd [])).

(** The scope of a variable that owns a send stream. *)
Definition owning_stream {A} (regs : nat) (body : ctask (result io_error A)) : ctask (result io_error A) :=
  r ← body;
  _ ← call (DropStreams regs);
  mret r.

(** ** connection.rs *)

Definition send_token (token_digest : bytes) : ctask (result io_error unit) :=
  send <-? call GetSendStream;;
  owning_stream 1 (
    let cmd := Command.new_authenticate token_digest in
    _ <-? cli_write_command cmd send;;
    _ <-? call (CFinish send);;
    mret (Ok tt)).

Definition send_authentication (token_digest : bytes) : ctask unit :=
  _ ← send_token token_digest;
  mret tt.

Definition send_heartbeat : ctask (result io_error unit) :=
  send <-? call GetSendStream;;
  owning_stream 1 (
    let cmd := Command.new_heartbeat in
    _ <-? cli_write_command cmd send;;
    _ <-? call (CFinish send);;
    mret (Ok tt)).

(** One tick of the loop of [heartbeat]. *)
Definition heartbeat_tick : ctask unit :=
  idle ← call NoActiveStream;
  idle ← (if negb (idle : bool) then mret false else call NoActiveUdpSession : ctask bool);
  if negb idle then
    _ ← send_heartbeat;
    mret tt
  else mret tt.

(** [time::interval] of tokio: documented to panic on a period of zero. *)
Class Interval := {
  interval : Z -> outcome unit;
  interval_zero : interval 0 = Panic;
  interval_pos : forall period, 0 < period -> interval period = Done tt }.

(** The loop of [heartbeat]; its condition yields [ticks] ticks, then the connection
    is closed. *)
Fixpoint heartbeat_loop (ticks : nat) : ctask unit :=
  match ticks with
  | O => mret tt
  | S ticks =>
      _ ← heartbeat_tick;
      heartbeat_loop ticks
  end.

Definition heartbeat `{Interval} (heartbeat_interval : Z) (ticks : nat) : ctask unit :=
  _ ← or_panic (interval heartbeat_interval);
  heartbeat_loop ticks.

(** ** task.rs *)

Definition negotiate_connect (addr : RelayAddress) : ctask (result io_error (option BiStream)) :=
  let cmd := Command.new_connect (tuic_of_relay addr) in
  stream <-? call GetBiStream;;
  let '(send, recv) := stream : BiStream in
  r ← (_ <-? cli_write_command cmd send;;
       match Command.read_from recv with
       | (Err err, _) =>
           _ <-? call (CFinish send);;
           mret (Err err)
       | (Ok (Response true), recv) => mret (Ok (Some (send, recv)))
       | (Ok _, _) =>
           _ <-? call (CFinish send);;
           mret (Ok None)
       end : ctask (result io_error (option BiStream)));
  match r with
  | Ok (Some stream) => mret r
  | _ =>
      _ ← call (DropStreams 2);
      mret r
  end.

Definition handle_connect (addr : RelayAddress) (tx : nat) : ctask unit :=
  r ← negotiate_connect addr;
  match r with
  | Ok (Some stream) =>
      sent ← call (Respond tx stream);
      if (sent : bool) then mret tt else call (DropStreams 2)
  | _ => mret tt
  end.

(** The error of [send_datagram], as [Connection::send_datagram] maps it. *)
Definition datagram_error (e : string) : io_error := IoError Other e.

Definition send_packet (assoc_id : Z) (pkt : bytes) (addr : RelayAddress) (mode : UdpRelayMode) :
    ctask (result io_error unit) :=
  let cmd := Command.new_packet assoc_id (as_u16 (blen pkt)) (tuic_of_relay addr) in
  match mode with
  | Native =>
      let buf := Command.write_to_buf cmd [] in
      let buf := buf ++ pkt in
      _ <-? err_into datagram_error (call (CSendDatagram buf));;
      mret (Ok tt)
  | Quic =>
      send <-? call GetSendStream;;
      owning_stream 1 (
        _ <-? cli_write_command cmd send;;
        _ <-? call (CWriteAll send pkt);;
        _ <-? call (CFinish send);;
        mret (Ok tt))
  end.

Definition handle_packet_to (assoc_id : Z) (pkt : bytes) (addr : RelayAddress) (mode : UdpRelayMode) : ctask unit :=
  _ ← call UpdateMaxSize;
  _ ← send_packet assoc_id pkt addr mode;
  mret tt.

Definition handle_packet_from (assoc_id : Z) (pkt : bytes) (addr : RelayAddress) : ctask unit :=
  _ ← call UpdateMaxSize;
  ch ← call (SessionsGet assoc_id);
  match ch : option nat with
  | Some ch => call (ChanSend ch pkt addr)
  | None => mret tt
  end.

Definition send_dissociate (assoc_id : Z) : ctask (result io_error unit) :=
  send <-? call GetSendStream;;
  owning_stream 1 (
    let cmd := Command.new_dissociate assoc_id in
    _ <-? cli_write_command cmd send;;
    _ <-? call (CFinish send);;
    mret (Ok tt)).

Definition handle_dissociate (assoc_id : Z) : ctask unit :=
  _ ← send_dissociate assoc_id;
  mret tt.

(** ** incoming.rs *)

(** [parse_header] of [process_incoming_datagram]. *)
Definition parse_datagram (pkt : bytes) : outcome (result io_error (Z * bytes * RelayAddress)) :=
  match Command.read_from pkt with
  | (Err e, _) => Done (Err e)
  | (Ok cmd, _) =>
      let cmd_len := Command.serialized_len cmd in
      match cmd with
      | Packet assoc_id len addr =>
          match slice_range cmd_len (cmd_len + len) pkt with
          | Done pkt => Done (Ok (assoc_id, pkt, relay_of_tuic addr))
          | Panic => Panic
          end
      | _ => Done (Err (IoError InvalidData "[relay] [connection] Unexpected incoming datagram"))
      end
  end.

Definition process_incoming_datagram (pkt : bytes) : ctask unit :=
  r ← or_panic (parse_datagram pkt);
  match r with
  | Ok (assoc_id, pkt, addr) => handle_packet_from assoc_id pkt addr
  | Err _ => mret tt
  end.

(** [parse_header] of [process_incoming_uni_stream]. *)
Definition parse_uni_stream (recv : RecvStream) : result io_error (Z * bytes * RelayAddress) :=
  match Command.read_from recv with
  | (Err e, _) => Err e
  | (Ok (Packet assoc_id len addr), recv) =>
      match rs_read_exact (Z.to_nat len) recv with
      | (Err e, _) => Err e
      | (Ok pkt, _) => Ok (assoc_id, pkt, relay_of_tuic addr)
      end
  | (Ok _, _) => Err (IoError InvalidData "[relay] [connection] Unexpected incoming uni stream")
  end.

(** The stream, counted by the register since [poll_next] accepted it, is dropped
    when [parse_header] returns. *)
Definition process_incoming_uni_stream (recv : RecvStream) : ctask unit :=
  let r := parse_uni_stream recv in
  _ ← call (DropStreams 1);
  match r with
  | Ok (assoc_id, pkt, addr) => handle_packet_from assoc_id pkt addr
  | Err _ => mret tt
  end.

(** ** request.rs *)

(** The [Associate] arm of [process_request]: [pkts] is what the owner of the
    session sends until it closes its channel. *)
Fixpoint relay_packets (assoc_id : Z) (pkts : list (bytes * RelayAddress)) : ctask unit :=
  match pkts with
  | [] => mret tt
  | (pkt, addr) :: pkts =>
      _ ← call (SpawnPacketTo assoc_id pkt addr);
      relay_packets assoc_id pkts
  end.

Definition associate (assoc_id : Z) (pkt_recv_tx : nat) (pkts : list (bytes * RelayAddress)) : ctask unit :=
  _ ← call (SessionsInsert assoc_id pkt_recv_tx);
  _ ← relay_packets assoc_id pkts;
  _ ← call (SessionsRemove assoc_id);
  handle_dissociate assoc_id.
