(* ===== verification/ClientHandlers.v ===== *)
(** * What the client's relay does

    The tasks of the client run to their end: what they send, what they hand to
    the owner of a request, and what is left of the streams they opened. *)

From S2P Require Import Prelude RustIo Protocol Async Quic ServerAuth ClientConn ClientTask.

Local Open Scope Z_scope.

(** ** A stream of one's own *)

(** The program that writes chunks to a stream and finishes it, and its effect on
    the stream, whatever the transport does. *)
Fixpoint send_chunks (stream : nat) (chunks : list bytes) : ctask (result io_error unit) :=
  match chunks with
  | [] => try_bind (call (CFinish stream)) (fun _ => mret (Ok tt))
  | bs :: chunks => try_bind (call (CWriteAll stream bs)) (fun _ => send_chunks stream chunks)
  end.

Fixpoint write_finish (chunks : list bytes) (st : SendStream) : result io_error unit * SendStream :=
  match chunks with
  | [] => finish st
  | bs :: chunks =>
      match write_all bs st with
      | (Ok _, st) => write_finish chunks st
      | (Err e, st) => (Err e, st)
      end
  end.

Lemma write_finish_sound chunks sent :
  write_finish chunks (MkSendStream sent false None) = (Ok tt, MkSendStream (sent ++ concat chunks) true None).
Proof.
  revert sent. induction chunks as [|bs chunks IH]; intros sent; simpl; [by rewrite app_nil_r|].
  by rewrite IH, <- app_assoc.
Qed.

Lemma update_stream_twice id a b c : update_stream id a (update_stream id b c) = update_stream id a c.
Proof. unfold update_stream. simpl. by rewrite insert_insert_eq. Qed.

Lemma send_chunks_run tid id chunks st s :
  streams (cli_controller s) !! id = Some st ->
  run tid (send_chunks id chunks) s =
  RunDone (write_finish chunks st).1
    (with_cli_controller (update_stream id (write_finish chunks st).2 (cli_controller s)) s).
Proof.
  revert st s. induction chunks as [|bs chunks IH]; intros st s Hst; cbn [send_chunks write_finish];
    unfold try_bind; rewrite run_bind; cbn; unfold on_cli_stream; rewrite Hst.
  - by destruct (finish st) as [[[]|e] st'].
  - destruct (write_all bs st) as [[[]|e] st']; cbn; [|done].
    rewrite (IH st') by (simpl; apply lookup_insert_eq). cbn. by rewrite update_stream_twice.
Qed.

(** A stream opened, used and dropped. *)
Definition uni_send (chunks : list bytes) : ctask (result io_error unit) :=
  try_bind (call GetSendStream) (fun send => owning_stream 1 (send_chunks send chunks)).

(** The state it leaves: one more stream, and the register as before. *)
Definition used_stream (st : SendStream) (l : list (result io_error (option (Z * io_error)))) (s : CliConn) : CliConn :=
  with_cli_net (MkCliNet l (bi_opens (cli_net s)) (datagram_answers (cli_net s)))
    (with_cli_controller (update_stream (next_stream (cli_controller s)) st (cli_controller s)) s).

Lemma uni_send_run tid chunks fault l s :
  uni_opens (cli_net s) = Ok fault :: l ->
  run tid (uni_send chunks) s =
  RunDone (write_finish chunks (SendStream_new fault)).1
    (used_stream (write_finish chunks (SendStream_new fault)).2 l s).
Proof.
  intros Hl. unfold uni_send, try_bind, owning_stream. rewrite run_bind. cbn [run call]. unfold polls.
  cbn [exec_n exec cli_machine]. rewrite Hl. cbn [open_stream run]. cbn iota beta.
  rewrite run_bind. erewrite send_chunks_run by (cbn; apply lookup_insert_eq).
  cbn. rewrite update_stream_twice. by destruct s as [? ? ? ? ? ? ? ? ? [] ? ? ?].
Qed.

Lemma uni_send_error_run tid chunks e l s :
  uni_opens (cli_net s) = Err e :: l ->
  run tid (uni_send chunks) s =
  RunDone (Err e) (with_cli_net (MkCliNet l (bi_opens (cli_net s)) (datagram_answers (cli_net s))) s).
Proof. intros Hl. cbn. by rewrite Hl. Qed.

Lemma send_token_uni digest : send_token digest = uni_send [Command.write_to_buf (Authenticate digest) []].
Proof. reflexivity. Qed.

Lemma send_heartbeat_uni : send_heartbeat = uni_send [Command.write_to_buf Heartbeat []].
Proof. reflexivity. Qed.

Lemma send_dissociate_uni id : send_dissociate id = uni_send [Command.write_to_buf (Dissociate id) []].
Proof. reflexivity. Qed.

Lemma send_packet_quic id pkt addr :
  send_packet id pkt addr Quic =
  uni_send [Command.write_to_buf (Packet id (as_u16 (blen pkt)) (tuic_of_relay addr)) []; pkt].
Proof. reflexivity. Qed.

(** ** Properties *)

(** One beat, with the stream the transport has ready. *)
Definition beat (s : CliConn) : CliConn :=
  used_stream (MkSendStream (Command.write_to_buf Heartbeat []) true None) (tail (uni_opens (cli_net s))) s.

(** The connection has neither a stream nor a UDP session. *)
Definition idle (s : CliConn) : bool := no_active_stream s && no_active_udp_session s.

Lemma heartbeat_tick_cases tid s :
  run tid heartbeat_tick s = if idle s then RunDone tt s else run tid (_ ← send_heartbeat; mret tt) s.
Proof.
  unfold heartbeat_tick, idle. rewrite run_bind. cbn [run call]. unfold polls. cbn [exec_n exec cli_machine].
  destruct (no_active_stream s); cbn [negb andb]; [|done].
  rewrite run_bind. cbn [run call]. unfold polls. cbn [exec_n exec cli_machine].
  by destruct (no_active_udp_session s).
Qed.

Lemma heartbeat_tick_run tid s :
  (idle s = false -> head (uni_opens (cli_net s)) = Some (Ok None)) ->
  run tid heartbeat_tick s = RunDone tt (if idle s then s else beat s).
Proof.
  rewrite heartbeat_tick_cases. destruct (idle s); [done|]. intros Hl. specialize (Hl eq_refl). unfold beat.
  destruct (uni_opens (cli_net s)) as [|a l] eqn:El; [done|]. injection Hl as ->.
  rewrite run_bind, send_heartbeat_uni, (uni_send_run _ _ None l) by done.
  unfold SendStream_new. by rewrite write_finish_sound.
Qed.

Lemma heartbeat_loop_run tid ticks s :
  (idle s = false -> take ticks (uni_opens (cli_net s)) = replicate ticks (Ok None)) ->
  run tid (heartbeat_loop ticks) s = RunDone tt (if idle s then s else Nat.iter ticks beat s).
Proof.
  revert s. induction ticks as [|ticks IH]; intros s Hl; [by destruct (idle s)|].
  cbn [heartbeat_loop]. rewrite run_bind, heartbeat_tick_run; last first.
  { intros Hi. specialize (Hl Hi). by destruct (uni_opens (cli_net s)); simplify_eq/=. }
  destruct (idle s) eqn:Ei.
  - rewrite IH; by rewrite Ei.
  - rewrite Nat.iter_succ_r. assert (idle (beat s) = false) as Eb by exact Ei. rewrite IH; rewrite Eb; [done|].
    intros _. specialize (Hl eq_refl). cbn. by destruct (uni_opens (cli_net s)); simplify_eq/=.
Qed.

(** ** Properties *)

(** C37: The client authenticates, beats and dissociates on a stream of its own that
    carries exactly that command and is finished, and the register of live
    streams is what it was; a fault of the transport or a refused stream is
    survived, with the register as it was too. The heartbeat beats on every tick
    when a stream or a UDP session is alive, not counting its own, and stays silent
    when none is; its task panics before the first beat when the configured
    interval is zero. *)
Theorem client_commands_on_own_stream `{Interval} tid s cmd h :
  (exists digest, cmd = Authenticate digest /\ h = send_authentication digest)
  \/ (exists id, cmd = Dissociate id /\ h = handle_dissociate id)
  \/ (cmd = Heartbeat /\ h = heartbeat_tick /\ idle s = false) ->
  (forall l, uni_opens (cli_net s) = Ok None :: l ->
     run tid h s = RunDone tt (used_stream (MkSendStream (Command.write_to_buf cmd []) true None) l s))
  /\ (forall a l, uni_opens (cli_net s) = a :: l ->
     exists s', run tid h s = RunDone tt s' /\ stream_reg s' = stream_reg s)
  /\ (forall period ticks, 0 < period ->
     (idle s = false -> take ticks (uni_opens (cli_net s)) = replicate ticks (Ok None)) ->
     run tid (heartbeat period ticks) s = RunDone tt (if idle s then s else Nat.iter ticks beat s))
  /\ (forall ticks, run tid (heartbeat 0 ticks) s = RunPanic s).
Proof.
  intros Hh. assert (run tid h s = run tid (_ ← uni_send [Command.write_to_buf cmd []]; mret tt) s) as ->.
  { destruct Hh as [(d & -> & ->)|[(id & -> & ->)|(-> & -> & Hi)]]; [done..|]. by rewrite heartbeat_tick_cases, Hi. }
  rewrite run_bind. split_and!.
  - intros l Hl. rewrite (uni_send_run _ _ None l) by done.
    unfold SendStream_new. rewrite write_finish_sound. cbn [concat]. by rewrite app_nil_r.
  - intros [fault|e] l Hl.
    + rewrite (uni_send_run _ _ fault l) by done. by eexists.
    + rewrite (uni_send_error_run _ _ e l) by done. by eexists.
  - intros period ticks Hp Hl. unfold heartbeat. rewrite interval_pos by done. by apply heartbeat_loop_run.
  - intros ticks. unfold heartbeat. by rewrite interval_zero.
Qed.

(** The outcomes of [handle_connect]. *)
Lemma handle_connect_runs tid s addr tx recv bs :
  bi_opens (cli_net s) = Ok (None, recv) :: bs -> tx ∈ awaiting s ->
  let stream := next_stream (cli_controller s) in
  let request := Command.write_to_buf (Connect (tuic_of_relay addr)) [] in
  exists s', run tid (handle_connect addr tx) s = RunDone tt s'
  /\ match Command.read_from recv with
     | (Ok (Response true), rest) =>
         delivered s' = <[tx := (stream, rest)]> (delivered s)
         /\ streams (cli_controller s') = <[stream := MkSendStream request false None]> (streams (cli_controller s))
         /\ stream_reg s' = (stream_reg s + 2)%nat
     | _ =>
         delivered s' = delivered s
         /\ streams (cli_controller s') = <[stream := MkSendStream request true None]> (streams (cli_controller s))
         /\ stream_reg s' = stream_reg s
     end.
Proof.
  intros Hb Htx stream request.
  unfold handle_connect, negotiate_connect, try_bind. rewrite run_bind, run_bind.
  cbn [run call]. unfold polls. cbn [exec_n exec cli_machine]. rewrite Hb. cbn [open_stream run]. cbn iota beta.
  rewrite run_bind. cbn -[Command.write_to_buf Command.read_from]. unfold on_cli_stream at 1.
  cbn -[Command.write_to_buf Command.read_from]. rewrite lookup_insert_eq. cbn -[Command.write_to_buf Command.read_from].
  destruct (Command.read_from recv) as [[cmd|e] rest]; [destruct cmd as [[]| | | | |]|];
    try (cbn -[Command.write_to_buf]; unfold on_cli_stream at 1; cbn -[Command.write_to_buf];
      rewrite lookup_insert_eq; cbn -[Command.write_to_buf]; eexists; (split; [reflexivity|]);
      cbn -[Command.write_to_buf]; rewrite !insert_insert_eq; done).
  cbn -[Command.write_to_buf]. rewrite decide_True by done. eexists. split; [reflexivity|].
  cbn -[Command.write_to_buf]. rewrite !insert_insert_eq. split_and!; try done.
  unfold StreamRegister.clone. lia.
Qed.

(** C36: [handle_connect] sends the [Connect] command on a new stream and hands the
    stream to the requester exactly when the server answers [Response(true)],
    with what follows the response still to be read. On any other answer, or
    none, the stream is finished and dropped, nothing is handed out, and the
    register of live streams is what it was. *)
Theorem connect_negotiation tid s addr tx recv bs :
  bi_opens (cli_net s) = Ok (None, recv) :: bs -> tx ∈ awaiting s ->
  let stream := next_stream (cli_controller s) in
  let request := Command.write_to_buf (Connect (tuic_of_relay addr)) [] in
  exists s', run tid (handle_connect addr tx) s = RunDone tt s'
  /\ match Command.read_from recv with
     | (Ok (Response true), rest) =>
         delivered s' = <[tx := (stream, rest)]> (delivered s)
         /\ streams (cli_controller s') = <[stream := MkSendStream request false None]> (streams (cli_controller s))
         /\ stream_reg s' = (stream_reg s + 2)%nat
     | _ =>
         delivered s' = delivered s
         /\ streams (cli_controller s') = <[stream := MkSendStream request true None]> (streams (cli_controller s))
         /\ stream_reg s' = stream_reg s
     end.
Proof. exact (handle_connect_runs tid s addr tx recv bs). Qed.

(** A packet of a UDP session is sent as one [Packet] command with the payload
    after it: in native mode as one datagram, in QUIC mode on a finished stream
    of its own, with the length field taken modulo 2^16; first the program's
    maximum packet size is refreshed. *)
Lemma client_packet_sent tid s id pkt addr :
  let header := Command.write_to_buf (Packet id (blen pkt mod 2 ^ 16) (tuic_of_relay addr)) [] in
  let s1 := update_max_udp_relay_packet_size s in
  (forall l, datagram_answers (cli_net s) = Ok tt :: l ->
     exists s', run tid (handle_packet_to id pkt addr Native) s = RunDone tt s'
     /\ cli_controller s' = push_datagram (header ++ pkt) (cli_controller s)
     /\ stream_reg s' = stream_reg s /\ max_udp_relay_packet_size s' = max_udp_relay_packet_size s1)
  /\ (forall l, uni_opens (cli_net s) = Ok None :: l ->
     run tid (handle_packet_to id pkt addr Quic) s =
     RunDone tt (used_stream (MkSendStream (header ++ pkt) true None) l s1)).
Proof.
  intros header s1. split.
  - intros l Hl. eexists. split.
    + cbn -[Command.write_to_buf update_max_udp_relay_packet_size]. fold s1.
      change (datagram_answers (cli_net s1)) with (datagram_answers (cli_net s)). rewrite Hl. reflexivity.
    + done.
  - intros l Hl. unfold handle_packet_to.
    change (run tid (call UpdateMaxSize ≫= ?k) s) with (run tid (k tt) s1). cbn beta.
    rewrite run_bind, send_packet_quic, (uni_send_run _ _ None l) by done.
    unfold SendStream_new. rewrite write_finish_sound. cbn [concat]. by rewrite app_nil_r.
Qed.

(** A packet from the server goes to the channel of its UDP session, at the end of
    what waits there; when the channel is full its task waits; a packet without
    session, or whose owner is gone, is dropped. *)
Definition deliver (id : Z) (pkt : bytes) (addr : RelayAddress) (s : CliConn) :
    run_res (op := cli_op) (S := CliConn) unit :=
  let s1 := update_max_udp_relay_packet_size s in
  match cli_sessions s !! id ≫= (fun ch => (fun c => (ch, c)) <$> channels s !! ch) with
  | Some (ch, MkChannel q true) =>
      if decide (length q < ch_capacity)%nat
      then RunDone tt (with_channels (<[ch := MkChannel (q ++ [(pkt, addr)]) true]> (channels s)) s1)
      else RunBlocked (ChanSend ch pkt addr) s1
  | _ => RunDone tt s1
  end.

Lemma handle_packet_from_run tid s id pkt addr :
  run tid (handle_packet_from id pkt addr) s = deliver id pkt addr s.
Proof.
  unfold deliver. set (s1 := update_max_udp_relay_packet_size s). cbn -[update_max_udp_relay_packet_size]. fold s1.
  change (cli_sessions s1) with (cli_sessions s). destruct (cli_sessions s !! id) as [ch|]; [|done].
  cbn. unfold chan_send at 1. change (channels s1) with (channels s).
  destruct (channels s !! ch) as [[q []]|] eqn:Ec; cbn; [|done|done].
  case_decide; [done|]. done.
Qed.

Lemma parse_datagram_runs id len addr rest :
  Command.ok (Packet id len addr) -> Command.wire (Packet id len addr) ->
  parse_datagram (Command.write_to_buf (Packet id len addr) [] ++ rest) =
  if len <=? blen rest then Done (Ok (id, take (Z.to_nat len) rest, relay_of_tuic addr)) else Panic.
Proof.
  intros Hc Hw. unfold parse_datagram.
  pose proof (@decode_encode_rest Command Command_Codec _ rest (conj Hc Hw)) as E.
  cbn [decode encode Command_Codec] in E. rewrite E.
  unfold slice_range. rewrite <- (Command_write_length _ Hc). autorewrite with tuic.
  assert (0 <= len) by (destruct Hc as (_ & Hl & _); unfold is_uint in Hl; lia).
  rewrite (proj2 (Z.leb_le _ (_ + len))) by lia. cbn [andb].
  destruct (len <=? blen rest) eqn:El.
  - rewrite (proj2 (Z.leb_le _ _)) by lia. rewrite drop_app_length' by (unfold blen; lia).
    do 4 f_equal. f_equal. lia.
  - by rewrite (proj2 (Z.leb_gt _ _)) by lia.
Qed.

Lemma parse_uni_stream_runs id len addr rest fault :
  Command.ok (Packet id len addr) -> Command.wire (Packet id len addr) ->
  parse_uni_stream (MkRecvStream (Command.write_to_buf (Packet id len addr) [] ++ rest) fault) =
  if len <=? blen rest then Ok (id, take (Z.to_nat len) rest, relay_of_tuic addr)
  else Err (rs_end_error (MkRecvStream [] fault)).
Proof.
  intros Hc Hw. assert (0 <= len) by (destruct Hc as (_ & Hl & _); unfold is_uint in Hl; lia).
  destruct (Command_accepts _ Hc Hw (MkRecvStream (Command.write_to_buf (Packet id len addr) [] ++ rest) fault) rest)
    as (r' & Er & U & He); [done|].
  unfold parse_uni_stream. rewrite Er. unfold rs_read_exact. cbn in U, He. rewrite U. unfold blen.
  destruct (Z.leb_spec len (Z.of_nat (length rest))); [by rewrite decide_True by lia|].
  rewrite decide_False by lia. unfold rs_end_error. by rewrite He.
Qed.

(** C25: A packet the server sends in a datagram or on a stream goes to the channel of
    its UDP session, with exactly the announced payload, at the end of what waits there; when
    the channel is full its task waits; a packet without session, or whose owner is
    gone, is dropped. When fewer bytes follow the header than it announces, a
    stream's packet is dropped with an error; a datagram's task panics: the length
    field is used to slice the datagram without a check. *)
Theorem incoming_packet_delivered tid s id len addr rest fault :
  Command.ok (Packet id len addr) -> Command.wire (Packet id len addr) ->
  let sent := Command.write_to_buf (Packet id len addr) [] ++ rest in
  let pkt := take (Z.to_nat len) rest in
  let s1 := with_stream_reg (StreamRegister.drop (stream_reg s)) s in
  run tid (process_incoming_datagram sent) s =
    (if len <=? blen rest then deliver id pkt (relay_of_tuic addr) s else RunPanic s)
  /\ run tid (process_incoming_uni_stream (MkRecvStream sent fault)) s =
    (if len <=? blen rest then deliver id pkt (relay_of_tuic addr) s1 else RunDone tt s1).
Proof.
  intros Hc Hw sent pkt s1. unfold process_incoming_datagram, process_incoming_uni_stream, sent.
  rewrite (parse_datagram_runs _ _ _ _ Hc Hw), (parse_uni_stream_runs _ _ _ _ _ Hc Hw).
  destruct (len <=? blen rest); cbn [or_panic]; [|done].
  split; rewrite <- (handle_packet_from_run tid); done.
Qed.

Lemma relay_packets_run tid id pkts s :
  run tid (relay_packets id pkts) s =
  RunDone tt (with_spawned (spawned s ++ ((fun p => (id, p.1, p.2)) <$> pkts)) s).
Proof.
  revert s. induction pkts as [|[pkt addr] pkts IH]; intros s; cbn [relay_packets run].
  - by rewrite app_nil_r; destruct s.
  - rewrite run_bind. cbn. rewrite IH. cbn. by rewrite <- app_assoc.
Qed.

(** An [Associate] request registers its channel for the time its owner sends
    packets, starts one [handle_packet_to] for each of them in order, and when
    the owner closes the channel removes the session and tells the server with
    a [Dissociate]. *)
Lemma associate_run tid s id ch pkts l :
  uni_opens (cli_net s) = Ok None :: l ->
  exists s', run tid (associate id ch pkts) s = RunDone tt s'
  /\ cli_sessions s' = delete id (cli_sessions s)
  /\ spawned s' = spawned s ++ ((fun p => (id, p.1, p.2)) <$> pkts)
  /\ streams (cli_controller s') =
     <[next_stream (cli_controller s) := MkSendStream (Command.write_to_buf (Dissociate id) []) true None]>
       (streams (cli_controller s))
  /\ stream_reg s' = stream_reg s.
Proof.
  intros Hl. unfold associate.
  change (run tid (call (SessionsInsert id ch) ≫= ?k) s) with
    (run tid (k tt) (with_cli_sessions (<[id := ch]> (cli_sessions s)) s)). cbn beta.
  rewrite run_bind, relay_packets_run.
  match goal with |- context [run tid (call (SessionsRemove id) ≫= ?k) ?s0] =>
    change (run tid (call (SessionsRemove id) ≫= k) s0) with
      (run tid (k tt) (with_cli_sessions (delete id (cli_sessions s0)) s0)) end. cbn beta.
  unfold handle_dissociate. rewrite run_bind, send_dissociate_uni, (uni_send_run _ _ None l) by done.
  unfold SendStream_new. rewrite write_finish_sound. eexists. split; [reflexivity|].
  cbn -[Command.write_to_buf]. rewrite app_nil_r, delete_insert_eq. done.
Qed.

(** ** Witnesses *)

Definition example_cli : CliConn :=
  with_cli_sessions {[7 := 0%nat]}
    (with_channels {[0%nat := MkChannel [] true]}
       (cli_new Quic 1500 None
          (MkCliNet [Ok None] [Ok (None, MkRecvStream (Command.write_to_buf (Response true) [] ++ [1]) None)]
             [Ok tt]) {[3%nat]})).

(** An interval as tokio documents it. *)
Definition example_interval : Interval.
Proof.
  refine {| interval period := if period =? 0 then Panic else Done tt |}; [done|].
  intros period Hp. by rewrite (proj2 (Z.eqb_neq period 0)) by lia.
Defined.

Lemma client_commands_on_own_stream_witness :
  run 1%nat (handle_dissociate 7) example_cli =
  RunDone tt (used_stream (MkSendStream [4; 3; 0; 0; 0; 7] true None) [] example_cli)
  /\ run 1%nat (heartbeat (H := example_interval) 10000 1) example_cli =
     RunDone tt (used_stream (MkSendStream [4; 4] true None) [] example_cli).
Proof.
  destruct (client_commands_on_own_stream (H := example_interval) 1%nat example_cli (Dissociate 7) (handle_dissociate 7))
    as (Hd & _ & Hb & _); [right; left; by exists 7|]. split; [by apply Hd|]. by apply Hb.
Defined.

Lemma connect_negotiation_witness :
  exists s', run 1%nat (handle_connect (RelayDomain [97] 80) 3%nat) example_cli = RunDone tt s'
  /\ delivered s' = {[3%nat := (0%nat, MkRecvStream [1] None)]}.
Proof.
  destruct (connect_negotiation 1%nat example_cli (RelayDomain [97] 80) 3%nat
    (MkRecvStream (Command.write_to_buf (Response true) [] ++ [1]) None) []) as (s' & E & H & _);
    [reflexivity|by apply (bool_decide_unpack _)|]. exists s'. split; [exact E|exact H].
Defined.

Lemma incoming_packet_delivered_witness :
  run 1%nat (process_incoming_datagram (Command.write_to_buf (Packet 7 2 (DomainAddress [97] 80)) [] ++ [1; 2])) example_cli
    = deliver 7 [1; 2] (RelayDomain [97] 80) example_cli
  /\ run 1%nat (process_incoming_datagram (Command.write_to_buf (Packet 7 3 (DomainAddress [97] 80)) [] ++ [1; 2])) example_cli
    = RunPanic example_cli.
Proof.
  split; [apply (incoming_packet_delivered 1%nat example_cli 7 2 (DomainAddress [97] 80) [1; 2] None)
         |apply (incoming_packet_delivered 1%nat example_cli 7 3 (DomainAddress [97] 80) [1; 2] None)];
    by apply (bool_decide_unpack _).
Defined.
