(* ===== verification/ClientLinear.v ===== *)
(** * The register of live streams (client/src/relay/stream.rs, connection.rs)

    Every stream of the client holds a clone of its connection's register; the
    heartbeat asks the register whether a stream is alive. Tasks are checked
    against a usage discipline: [uses n p post] says that [p], started with [n]
    registers, gives back or passes on all of them but those of [post]. Every
    task of the relay obeys it, so that the register counts exactly the streams
    that tasks own or that were handed out. *)

From S2P Require Import Prelude RustIo Protocol Async Quic ServerAuth ClientConn ClientTask.

Local Open Scope Z_scope.

(** ** A usage discipline for programs *)

Section uses.
Context {op : Type} {resp : op -> Type}.
(** The registers a task has after an operation and its answer; [None] when the
    operation needs more than it has. *)
Context (after : forall o : op, resp o -> nat -> option nat).

Fixpoint uses {A} (n : nat) (p : prog resp A) (post : A -> nat) : Prop :=
  match p with
  | Ret a => n = post a
  | Panics => n = 0%nat
  | Vis o k => forall r, match after o r n with Some n' => uses n' (k r) post | None => False end
  end.

Lemma uses_bind {A B} n (m : prog resp A) (f : A -> prog resp B) post post' :
  uses n m post -> (forall a, uses (post a) (f a) post') -> uses n (m ≫= f) post'.
Proof.
  intros Hm Hf. revert n Hm. induction m as [a| |o k IH]; intros n Hm; simpl in *; [by subst|done|].
  intros r. specialize (Hm r). destruct (after o r n); [by apply IH|done].
Qed.

Lemma uses_call n o (post : resp o -> nat) :
  (forall r, after o r n = Some (post r)) -> uses n (call o) post.
Proof. intros Ho r. by rewrite Ho. Qed.

(** The [?] operator: nothing is owned on the error path. *)
Lemma uses_try {E A B} n (m : prog resp (result E A)) (f : A -> prog resp (result E B)) post post' :
  uses n m post -> (forall e, post (Err e) = post' (Err e)) -> (forall a, uses (post (Ok a)) (f a) post') ->
  uses n (try_bind m f) post'.
Proof. intros Hm He Hf. eapply uses_bind; [done|]. intros [a|e]; [apply Hf|]. simpl. by rewrite He. Qed.

End uses.

(** ** The operations of the client *)

Definition after (o : cli_op) : cli_resp o -> nat -> option nat :=
  match o with
  | GetSendStream => fun r n => Some (match r with Ok _ => n + 1 | Err _ => n end)%nat
  | GetBiStream => fun r n => Some (match r with Ok _ => n + 2 | Err _ => n end)%nat
  | DropStreams m => fun _ n => if decide (m <= n)%nat then Some (n - m)%nat else None
  | Respond _ _ => fun sent n =>
      if (sent : bool) then if decide (2 <= n)%nat then Some (n - 2)%nat else None else Some n
  | _ => fun _ n => Some n
  end.

Abbreviation cli_uses := (uses after).

(** A task that ends with nothing. *)
Abbreviation balanced p := (cli_uses 0%nat p (fun _ => 0%nat)).

(** Every path of a task, one operation after the other. *)
Ltac uses_run :=
  repeat (cbn -[Command.write_to_buf Command.read_from decide];
    match goal with
    | |- 0%nat = 0%nat => reflexivity
    | |- context [decide (_ <= _)%nat] => rewrite decide_True by lia
    | |- forall _ : result _ _, _ => intros [?|?]
    | |- forall _ : option _, _ => intros [?|]
    | |- forall _ : bool, _ => intros []
    | |- forall _ : unit, _ => intros []
    | |- forall _, _ => intro
    | |- context [let '(_, _) := ?x in _] => destruct x
    | |- context [match ?x with _ => _ end] => destruct x
    end); try lia.

Lemma send_authentication_uses digest : balanced (send_authentication digest).
Proof. uses_run. Qed.

Lemma heartbeat_tick_uses : balanced heartbeat_tick.
Proof. uses_run. Qed.

Lemma heartbeat_uses `{Interval} period ticks : balanced (heartbeat period ticks).
Proof.
  unfold heartbeat. destruct (interval period) as [[]|]; [|done]. cbn.
  induction ticks as [|ticks IH]; [done|]. cbn [heartbeat_loop].
  apply (uses_bind _ _ _ _ (fun _ => 0%nat)); [apply heartbeat_tick_uses|done].
Qed.

Lemma handle_connect_uses addr tx : balanced (handle_connect addr tx).
Proof. uses_run. Qed.

Lemma handle_packet_to_uses id pkt addr mode : balanced (handle_packet_to id pkt addr mode).
Proof. destruct mode; uses_run. Qed.

Lemma handle_packet_from_uses id pkt addr : balanced (handle_packet_from id pkt addr).
Proof. uses_run. Qed.

Lemma handle_dissociate_uses id : balanced (handle_dissociate id).
Proof. uses_run. Qed.

Lemma associate_uses id ch pkts : balanced (associate id ch pkts).
Proof.
  unfold associate. intros []. simpl. apply (uses_bind _ _ _ _ (fun _ => 0%nat)); [|intros [] []; apply handle_dissociate_uses].
  induction pkts as [|[pkt addr] pkts IH]; simpl; [done|]. intros []. exact IH.
Qed.

Lemma process_datagram_uses pkt : balanced (process_incoming_datagram pkt).
Proof.
  unfold process_incoming_datagram. destruct (parse_datagram pkt) as [[[[id pl] a]|e]|]; [|done|done].
  exact (handle_packet_from_uses id pl a).
Qed.

(** An incoming stream comes with its register. *)
Lemma process_uni_uses recv : cli_uses 1%nat (process_incoming_uni_stream recv) (fun _ => 0%nat).
Proof.
  unfold process_incoming_uni_stream. intros []. cbn -[parse_uni_stream handle_packet_from].
  destruct (parse_uni_stream recv) as [[[id pl] a]|e]; [|done]. exact (handle_packet_from_uses id pl a).
Qed.

(** ** The system of a connection's tasks *)

(** What happens outside the tasks: quinn answers, owners of sessions take packets or
    leave, the datagram size changes, and a stream that was handed out is dropped. *)
Inductive cli_env : CliConn -> CliConn -> Prop :=
| env_net s n : cli_env s (with_cli_net n s)
| env_channels s c : cli_env s (with_channels c s)
| env_release s tx st :
    delivered s !! tx = Some st ->
    cli_env s (with_stream_reg (Nat.iter 2 StreamRegister.drop (stream_reg s))
                 (with_responses (awaiting s) (delete tx (delivered s)) s))
| env_give_up s tx : cli_env s (with_responses (awaiting s ∖ {[tx]}) (delivered s) s).

(** The tasks of the program: [Connection::new] starts the authentication and the
    heartbeat, the listeners a task per datagram and stream, [process_request] one per
    request and packet. *)
Inductive cli_spawn : CliConn -> ctask unit -> CliConn -> Prop :=
| spawn_authentication s digest : cli_spawn s (send_authentication digest) s
| spawn_heartbeat (I : Interval) s period ticks : cli_spawn s (heartbeat period ticks) s
| spawn_connect s addr tx :
    tx ∉ awaiting s -> delivered s !! tx = None ->
    cli_spawn s (handle_connect addr tx) (with_responses ({[tx]} ∪ awaiting s) (delivered s) s)
| spawn_associate s id ch pkts : cli_spawn s (associate id ch pkts) s
| spawn_packet_to s id pkt addr rest :
    spawned s = (id, pkt, addr) :: rest ->
    cli_spawn s (handle_packet_to id pkt addr (udp_relay_mode s)) (with_spawned rest s)
| spawn_datagram s pkt : cli_spawn s (process_incoming_datagram pkt) s
| spawn_uni_stream s (incoming : Poll (option (result ConnectionError RecvStream))) recv reg :
    poll_next incoming (stream_reg s) = (Ready (Some (Ok recv)), reg) ->
    cli_spawn s (process_incoming_uni_stream recv) (with_stream_reg reg s).

Abbreviation cli_steps := (steps cli_env cli_spawn).

(** ** The accounts *)

(** The registers all tasks own. *)
Definition total (owned : gmap nat nat) : nat := map_fold (fun _ n m => (n + m)%nat) 0%nat owned.

Lemma total_insert tid n owned :
  total (<[tid := n]> owned) = (n + total (delete tid owned))%nat.
Proof.
  rewrite <- insert_delete_eq. unfold total. rewrite map_fold_insert_L; [done| |apply lookup_delete_eq]. intros. lia.
Qed.

Lemma total_delete tid n owned : owned !! tid = Some n -> total owned = (n + total (delete tid owned))%nat.
Proof. intros Ho. by rewrite <- (insert_id owned tid n Ho) at 1; rewrite total_insert. Qed.

Lemma total_zero owned : total owned = 0%nat -> forall tid n, owned !! tid = Some n -> n = 0%nat.
Proof. intros Ht tid n Ho. rewrite (total_delete _ _ _ Ho) in Ht. lia. Qed.

(** The registers of the streams handed out. *)
Definition handed (s : CliConn) : nat := (2 * size (delivered s))%nat.

(** The tasks own what [owned] says and will give it back, and the register counts
    the connection, the tasks' streams and the streams handed out. *)
Record accounts (owned : gmap nat nat) (σ : system cli_resp CliConn) : Prop := {
  acc_dom : dom owned = dom (tasks σ);
  acc_tasks tid n p : owned !! tid = Some n -> tasks σ !! tid = Some p -> cli_uses n p (fun _ => 0%nat);
  acc_count : stream_reg (shared σ) = (1 + total owned + handed (shared σ))%nat;
  acc_fresh : awaiting (shared σ) ## dom (delivered (shared σ)) }.

Lemma iter_drop n c : Nat.iter n StreamRegister.drop c = (c - n)%nat.
Proof. induction n as [|n IH]; [simpl; lia|]. simpl. rewrite IH. unfold StreamRegister.drop. lia. Qed.

Lemma iter_clone n c : Nat.iter n StreamRegister.clone c = (c + n)%nat.
Proof. induction n as [|n IH]; [simpl; lia|]. simpl. rewrite IH. unfold StreamRegister.clone. lia. Qed.

(** An operation changes the register by as much as it changes what its task and the
    owners of streams have. *)
Lemma exec_counts tid o s r s' n n' :
  exec tid o s = Finished r s' -> after o r n = Some n' -> (n <= stream_reg s)%nat ->
  awaiting s ## dom (delivered s) ->
  (stream_reg s' + n + handed s = stream_reg s + n' + handed s')%nat /\ awaiting s' ## dom (delivered s').
Proof.
  intros E Ha Hn Hd. unfold handed.
  destruct o; cbn in E, Ha; unfold on_cli_stream, chan_send in E;
    repeat (case_match; simplify_eq/=); simplify_eq/=; rewrite ?iter_drop, ?iter_clone; try (split; [lia|done]).
  split; [|set_solver]. rewrite map_size_insert_None by (apply not_elem_of_dom; set_solver). lia.
Qed.

Lemma cli_never_again tid o s s' : exec tid o s <> Again s'.
Proof. destruct o; cbn; unfold on_cli_stream, chan_send; repeat case_match; done. Qed.

Lemma spawn_uses s p s' :
  cli_spawn s p s' -> awaiting s ## dom (delivered s) -> (0 < stream_reg s)%nat ->
  exists n, cli_uses n p (fun _ => 0%nat) /\ stream_reg s' = (stream_reg s + n)%nat /\ delivered s' = delivered s
    /\ awaiting s' ## dom (delivered s').
Proof.
  intros Hs Hd Hp. destruct Hs.
  - exists 0%nat. split; [apply send_authentication_uses|]. split_and!; [lia|done..].
  - exists 0%nat. split; [apply heartbeat_uses|]. split_and!; [lia|done..].
  - exists 0%nat. split; [apply handle_connect_uses|]. split_and!; [simpl; lia|done|].
    simpl. apply not_elem_of_dom in H0. set_solver.
  - exists 0%nat. split; [apply associate_uses|]. split_and!; [lia|done..].
  - exists 0%nat. split; [apply handle_packet_to_uses|]. split_and!; [simpl; lia|done..].
  - exists 0%nat. split; [apply process_datagram_uses|]. split_and!; [lia|done..].
  - exists 1%nat. split; [apply process_uni_uses|]. split_and!; [|done..].
    unfold poll_next in H. destruct (stream_reg s) as [|c]; [lia|]. simpl in H.
    repeat case_match; simplify_eq/=; unfold StreamRegister.clone; lia.
Qed.

Lemma env_accounts owned σ s' :
  accounts owned σ -> cli_env (shared σ) s' -> accounts owned (MkSystem s' (tasks σ)).
Proof.
  intros [] He. destruct He as [s n|s c|s tx st Htx|s tx]; split; simpl; auto; unfold handed in *; simpl in *.
  - unfold StreamRegister.drop. rewrite map_size_delete, Htx. destruct (size (delivered s)) eqn:Es; [|lia].
    apply map_size_empty_inv in Es. by rewrite Es, lookup_empty in Htx.
  - set_solver.
  - set_solver.
Qed.

(** A task takes one step. *)
Lemma task_accounts tid owned σ σ' :
  accounts owned σ -> step_task tid σ = Some σ' -> exists owned', accounts owned' σ'.
Proof.
  intros [] E. unfold step_task in E. destruct (tasks σ !! tid) as [[|  |o k]|] eqn:Et; try done.
  destruct (exec tid o (shared σ)) as [r s1|s1|] eqn:Ex; try done; [|by apply cli_never_again in Ex].
  simplify_eq. assert (is_Some (owned !! tid)) as [n Hn]
    by (apply elem_of_dom; rewrite acc_dom0; by apply elem_of_dom_2 in Et).
  pose proof (acc_tasks0 _ _ _ Hn Et r) as Hu. destruct (after o r n) as [n'|] eqn:Ea; [|done].
  rewrite (total_delete _ _ _ Hn) in acc_count0.
  destruct (exec_counts _ _ _ _ _ _ _ Ex Ea ltac:(lia) acc_fresh0) as [Hc Hd].
  exists (<[tid := n']> owned). split; simpl; auto.
  - rewrite !dom_insert_L. by rewrite acc_dom0.
  - intros tid' m p Ho Ht. rewrite lookup_insert in Ho. rewrite lookup_insert in Ht. case_decide; simplify_eq; [done|eauto].
  - rewrite total_insert. lia.
Qed.

Lemma step_accounts owned σ σ' :
  accounts owned σ -> step cli_env cli_spawn σ σ' -> exists owned', accounts owned' σ'.
Proof.
  intros Ha Hs. destruct Hs as [tid σ σ' E|σ s' He|tid p σ s' Ht Hs].
  - by eapply task_accounts.
  - exists owned. by apply env_accounts.
  - destruct Ha. destruct (spawn_uses _ _ _ Hs) as (n & Hu & Hr & Hd & Hf); [done|lia|].
    assert (owned !! tid = None) as Hn by (apply not_elem_of_dom; rewrite acc_dom0; by apply not_elem_of_dom).
    exists (<[tid := n]> owned). split; simpl; auto.
    + rewrite !dom_insert_L. by rewrite acc_dom0.
    + intros tid' m p' Ho Ht'. rewrite lookup_insert in Ho. rewrite lookup_insert in Ht'. case_decide; simplify_eq; [done|eauto].
    + rewrite total_insert, delete_id by done. unfold handed in *. rewrite Hd. lia.
Qed.

Definition cli_start (mode : UdpRelayMode) (default_max : Z) : system cli_resp CliConn :=
  MkSystem (cli_new mode default_max None (MkCliNet [] [] []) ∅) ∅.

Lemma reachable_accounts mode default_max σ :
  cli_steps (cli_start mode default_max) σ -> exists owned, accounts owned σ.
Proof.
  intros Hs. remember (cli_start mode default_max) as σ0 eqn:E0. induction Hs as [σ|σ1 σ2 σ3 Hs IH H1]; subst.
  - exists ∅. by split.
  - destruct (IH eq_refl) as [owned Ha]. by eapply step_accounts.
Qed.

(** C14: In every reachable state of a client connection the register of live streams
    counts exactly the streams that exist: one for the connection itself, those each
    task owns (and will give back or hand out on every path it can take), two for
    every bidirectional stream handed out. So the register says that no stream is
    alive only when no task owns one and none is handed out, it says so when all tasks
    have ended and all streams were dropped, and an incoming stream always finds the
    register alive. *)
Theorem streams_accounted mode default_max σ :
  cli_steps (cli_start mode default_max) σ ->
  (exists owned, accounts owned σ)
  /\ (no_active_stream (shared σ) = true ->
      delivered (shared σ) = ∅ /\ forall tid p, tasks σ !! tid = Some p -> balanced p)
  /\ ((forall tid p, tasks σ !! tid = Some p -> p = Ret tt) -> delivered (shared σ) = ∅ ->
      no_active_stream (shared σ) = true)
  /\ is_Some (StreamRegister.get_register (stream_reg (shared σ))).
Proof.
  intros Hs. destruct (reachable_accounts _ _ _ Hs) as [owned Ha]. split; [by exists owned|]. destruct Ha.
  unfold no_active_stream, StreamRegister.count. rewrite acc_count0. split; [|split].
  - rewrite Nat.eqb_eq. unfold handed. intros Hc. split; [apply map_size_empty_inv; lia|].
    intros tid p Ht. assert (is_Some (owned !! tid)) as [n Hn]
      by (apply elem_of_dom; rewrite acc_dom0; by apply elem_of_dom_2 in Ht).
    assert (n = 0%nat) as -> by (apply (total_zero owned) with tid; [lia|done]). eauto.
  - intros Hd He. unfold handed. rewrite He, map_size_empty. rewrite Nat.eqb_eq.
    assert (total owned = 0%nat) as ->; [|done].
    assert (forall tid n, owned !! tid = Some n -> n = 0%nat) as Hz.
    { intros tid n Ho. assert (is_Some (tasks σ !! tid)) as [p Hp]
        by (apply elem_of_dom; rewrite <- acc_dom0; by apply elem_of_dom_2 in Ho).
      pose proof (acc_tasks0 _ _ _ Ho Hp) as Hu. by rewrite (Hd _ _ Hp) in Hu. }
    clear -Hz. induction owned as [|tid n owned Hn IH] using map_ind; [done|].
    rewrite total_insert, delete_id by done. rewrite (Hz tid n) by apply lookup_insert_eq. apply IH.
    intros tid' n' Ho. apply (Hz tid'). rewrite lookup_insert_ne; [done|]. congruence.
  - simpl. eauto.
Qed.

(** ** Witness *)

(** A [Connect] that was answered, on a connection with one incoming stream. *)
Definition example_uni : RecvStream := MkRecvStream (Command.write_to_buf (Packet 7 0 (DomainAddress [97] 53)) []) None.

Definition example_shared : CliConn :=
  with_stream_reg 2%nat (shared (cli_start Quic 1500)).
Definition example_system : system cli_resp CliConn :=
  MkSystem example_shared {[1%nat := process_incoming_uni_stream example_uni]}.

Lemma example_reachable : cli_steps (cli_start Quic 1500) example_system.
Proof.
  apply steps_one. apply (step_spawn _ _ 1%nat (process_incoming_uni_stream example_uni) (cli_start Quic 1500));
    [done|]. by apply (spawn_uni_stream _ (Ready (Some (Ok example_uni)))).
Qed.

Lemma streams_accounted_witness :
  no_active_stream example_shared = false
  /\ exists owned, accounts owned example_system /\ total owned = 1%nat.
Proof.
  split; [done|]. destruct (proj1 (streams_accounted Quic 1500 example_system example_reachable)) as [owned Ha].
  exists owned. split; [exact Ha|]. pose proof (acc_count _ _ Ha) as Hc. vm_compute (stream_reg _) in Hc.
  vm_compute (handed _) in Hc. lia.
Defined.
