(* ===== verification/ClientManage.v ===== *)
(** * The life of the client's connection
      (client/src/relay/connection.rs [manage_connection] and [IsClosed],
       request.rs [process_request], [Register] and [Wait], incoming.rs
       [listen_incoming], mod.rs [init])

    One task establishes connections on demand and publishes them in a mutex that
    it keeps locked while there is none; one task listens on each connection in
    turn, receiving them over a chain of one-shot channels; every request is a
    task that locks the mutex to get the connection. [mgr_step] is one step of one
    of them; the [unwrap]s of the code are steps to a panic. *)

From S2P Require Import Prelude RustIo Protocol Async.

Local Open Scope Z_scope.

(** ** State *)

Inductive mgr_point :=
(** in [wait_req.await]: before reading the count, before storing the waker,
    suspended *)
| MPoll
| MStore
| MPending
| MConnecting
| MSleeping
(** in [wait_close().await] of a connection: before reading the flag, before pushing
    the waker, suspended *)
| MCloseLoad (conn : nat)
| MClosePush (conn : nat)
| MClosePending (conn : nat)
(** in [lock_owned().await] *)
| MLocking
| MPanicked.

Inductive req_point :=
(** [reg.clone()]: the count is up, the waker not yet taken *)
| RCloning
(** waiting for the mutex *)
| RQueued
(** holding the mutex *)
| RLocked
| RServed (conn : nat)
| RDone
| RPanicked.

Inductive lst_point :=
| LWait (ch : nat)
| LListening (conn ch : nat)
(** in [set_closed]: the flag is set, the wakers not yet drained *)
| LClosing (conn ch : nat)
| LPanicked.

Inductive holder :=
| HManager
| HRequest (n : nat).

#[export] Instance mgr_point_eq_dec : EqDecision mgr_point.
Proof. solve_decision. Defined.
#[export] Instance req_point_eq_dec : EqDecision req_point.
Proof. solve_decision. Defined.
#[export] Instance lst_point_eq_dec : EqDecision lst_point.
Proof. solve_decision. Defined.
#[export] Instance holder_eq_dec : EqDecision holder.
Proof. solve_decision. Defined.

Record Mgr := MkMgr {
  (** the mutex: who holds it, what is in it *)
  held_by : option holder;
  slot : option nat;
  (** the manager, and whether its variable [lock] holds the guard *)
  mgr : mgr_point;
  guard : bool;
  (** the sending end of the channel the next connection goes to *)
  next_tx : nat;
  (** the one-shot channels that have been sent on: connection and next channel *)
  chain : gmap nat (nat * nat);
  listener : lst_point;
  (** connections established and connections marked as closed *)
  established : nat;
  closed_conns : gset nat;
  (** connections whose list of wakers has the manager's *)
  close_wakers : gset nat;
  reqs : gmap nat req_point;
  (** the register of requests: its waker *)
  req_waker : bool }.

Definition live (p : req_point) : bool :=
  match p with
  | RDone => false
  | _ => true
  end.

(** [strong_count]: one register in [listen_requests], one in every live request. *)
Definition strong_count (s : Mgr) : nat :=
  S (length (filter (fun p => live p.2 = true) (map_to_list (reqs s)))).

(** [relay::init]: the mutex is locked by the manager and empty. *)
Definition mgr_init : Mgr :=
  MkMgr (Some HManager) None MPoll true 0 ∅ (LWait 0) 0 ∅ ∅ ∅ false.

Definition with_mgr (x : mgr_point) (s : Mgr) :=
  MkMgr (held_by s) (slot s) x (guard s) (next_tx s) (chain s) (listener s) (established s) (closed_conns s)
    (close_wakers s) (reqs s) (req_waker s).
Definition with_mutex (h : option holder) (x : option nat) (g : bool) (s : Mgr) :=
  MkMgr h x (mgr s) g (next_tx s) (chain s) (listener s) (established s) (closed_conns s)
    (close_wakers s) (reqs s) (req_waker s).
Definition with_chain (tx : nat) (c : gmap nat (nat * nat)) (e : nat) (s : Mgr) :=
  MkMgr (held_by s) (slot s) (mgr s) (guard s) tx c (listener s) e (closed_conns s)
    (close_wakers s) (reqs s) (req_waker s).
Definition with_listener (x : lst_point) (c : gset nat) (s : Mgr) :=
  MkMgr (held_by s) (slot s) (mgr s) (guard s) (next_tx s) (chain s) x (established s) c
    (close_wakers s) (reqs s) (req_waker s).
Definition with_req (n : nat) (p : req_point) (s : Mgr) :=
  MkMgr (held_by s) (slot s) (mgr s) (guard s) (next_tx s) (chain s) (listener s) (established s) (closed_conns s)
    (close_wakers s) (<[n := p]> (reqs s)) (req_waker s).
Definition with_waker (b : bool) (s : Mgr) :=
  MkMgr (held_by s) (slot s) (mgr s) (guard s) (next_tx s) (chain s) (listener s) (established s) (closed_conns s)
    (close_wakers s) (reqs s) b.

Definition with_close_wakers (c : gset nat) (s : Mgr) :=
  MkMgr (held_by s) (slot s) (mgr s) (guard s) (next_tx s) (chain s) (listener s) (established s) (closed_conns s)
    c (reqs s) (req_waker s).

(** ** Steps *)

Inductive label :=
| WaitPoll
| WaitStore
| ConnectFails
| SleepOver
| ConnectOk
| ClosePoll
| CloseStore
| Relock
| ReqClone (n : nat)
| ReqWake (n : nat)
| ReqLock (n : nat)
| ReqTake (n : nat)
| ReqTimeout (n : nat)
| ReqFinish (n : nat)
| IncomingNext
| IncomingEnd
| CloseWake.

#[export] Instance label_eq_dec : EqDecision label.
Proof. solve_decision. Defined.

(** [Wait::poll]: the count of registers is read, the waker stored. *)
Definition wait_load (s : Mgr) : Mgr :=
  if (1 <? strong_count s)%nat then with_mgr MConnecting s else with_mgr MStore s.
Definition wait_store (s : Mgr) : Mgr := with_mgr MPending (with_waker true s).

(** [IsClosed::poll] of a connection: the flag is read, the waker pushed. *)
Definition closed_load (c : nat) (s : Mgr) : Mgr :=
  if decide (c ∈ closed_conns s) then with_mgr MLocking s else with_mgr (MClosePush c) s.
Definition closed_push (c : nat) (s : Mgr) : Mgr :=
  with_mgr (MClosePending c) (with_close_wakers ({[c]} ∪ close_wakers s) s).

(** [incoming::channel] and [Sender::send]: the connection goes to the listener with
    the receiving end of a new channel. *)
Definition send_incoming (new_conn : nat) (s : Mgr) : Mgr :=
  let tx := S (next_tx s) in
  with_chain tx (<[next_tx s := (new_conn, tx)]> (chain s)) (S (established s)) s.

(** [manage_connection] *)
Definition mgr_step (l : label) (s : Mgr) : option Mgr :=
  match l, mgr s with
  | WaitPoll, MPoll => Some (wait_load s)
  | WaitStore, MStore => Some (wait_store s)
  | ConnectFails, MConnecting => Some (with_mgr MSleeping s)
  | SleepOver, MSleeping => Some (with_mgr MPoll s)
  | ConnectOk, MConnecting =>
      if guard s then
        let new_conn := established s in
        Some (with_mgr (MCloseLoad new_conn) (with_mutex None (Some new_conn) false (send_incoming new_conn s)))
      else Some (with_mgr MPanicked s)
  | ClosePoll, MCloseLoad c => Some (closed_load c s)
  | CloseStore, MClosePush c => Some (closed_push c s)
  | Relock, MLocking =>
      match held_by s with
      | None => Some (with_mgr MPoll (with_mutex (Some HManager) (slot s) true s))
      | Some _ => None
      end
  | _, _ => None
  end.

(** [listen_requests]: a task for the request, with a clone of the register. *)
Definition listen_requests (n : nat) (s : Mgr) : option Mgr :=
  if reqs s !! n is Some _ then None else Some (with_req n RCloning s).

(** [Register::clone] takes the waker and wakes the manager. *)
Definition register_wake (n : nat) (s : Mgr) : Mgr :=
  let s' := with_req n RQueued (with_waker false s) in
  if req_waker s then
    match mgr s with
    | MPending => with_mgr MPoll s'
    | _ => s'
    end
  else s'.

(** The requests: [process_request] up to the connection. *)
Definition req_step (l : label) (s : Mgr) : option Mgr :=
  match l with
  | ReqClone n => listen_requests n s
  | ReqWake n =>
      match reqs s !! n with
      | Some RCloning => Some (register_wake n s)
      | _ => None
      end
  | ReqLock n =>
      match reqs s !! n, held_by s with
      | Some RQueued, None => Some (with_req n RLocked (with_mutex (Some (HRequest n)) (slot s) (guard s) s))
      | _, _ => None
      end
  | ReqTake n =>
      match reqs s !! n with
      | Some RLocked =>
          match slot s with
          | Some c => Some (with_req n (RServed c) (with_mutex None (slot s) (guard s) s))
          | None => Some (with_req n RPanicked s)
          end
      | _ => None
      end
  | ReqTimeout n =>
      match reqs s !! n with
      | Some RQueued => Some (with_req n RDone s)
      | _ => None
      end
  | ReqFinish n =>
      match reqs s !! n with
      | Some (RServed _) => Some (with_req n RDone s)
      | _ => None
      end
  | _ => None
  end.

(** [Receiver::next], which fails when the channel was never sent on and its sender is
    gone: the [unwrap] panics. *)
Definition next_incoming (ch : nat) (s : Mgr) : option Mgr :=
  match chain s !! ch with
  | Some (c, next) => Some (with_listener (LListening c next) (closed_conns s) s)
  | None => if decide (ch = next_tx s) then None else Some (with_listener LPanicked (closed_conns s) s)
  end.

(** [IsClosed::set]: the flag is stored, the wakers are drained and woken. *)
Definition closed_store (c next : nat) (s : Mgr) : Mgr :=
  with_listener (LClosing c next) ({[c]} ∪ closed_conns s) s.
Definition closed_wake (c next : nat) (s : Mgr) : Mgr :=
  let s' := with_listener (LWait next) (closed_conns s) (with_close_wakers (close_wakers s ∖ {[c]}) s) in
  if decide (c ∈ close_wakers s) then
    match mgr s with
    | MClosePending c' => if decide (c' = c) then with_mgr (MCloseLoad c) s' else s'
    | _ => s'
    end
  else s'.

(** [listen_incoming] *)
Definition lst_step (l : label) (s : Mgr) : option Mgr :=
  match l, listener s with
  | IncomingNext, LWait ch => next_incoming ch s
  | IncomingEnd, LListening c next => Some (closed_store c next s)
  | CloseWake, LClosing c next => Some (closed_wake c next s)
  | _, _ => None
  end.

Definition relay_step (l : label) (s : Mgr) : option Mgr :=
  match mgr_step l s with
  | Some s' => Some s'
  | None =>
      match req_step l s with
      | Some s' => Some s'
      | None => lst_step l s
      end
  end.

Inductive relay_steps : Mgr -> Mgr -> Prop :=
| relay_refl s : relay_steps s s
| relay_trans s1 s2 s3 l : relay_steps s1 s2 -> relay_step l s2 = Some s3 -> relay_steps s1 s3.

Fixpoint run_labels (ls : list label) (s : Mgr) : option Mgr :=
  match ls with
  | [] => Some s
  | l :: ls => s ← relay_step l s; run_labels ls s
  end.

(** ** The invariant *)

(** The manager has the guard while it is establishing a connection. *)
Definition establishing (p : mgr_point) : bool :=
  match p with
  | MPoll | MStore | MPending | MConnecting | MSleeping => true
  | _ => false
  end.

(** The connection whose end the manager waits for. *)
Definition watched (p : mgr_point) : option nat :=
  match p with
  | MCloseLoad c | MClosePush c | MClosePending c => Some c
  | _ => None
  end.

(** The listener waits on the channel [ch], or will once it has woken the tasks that
    wait for the end of its last connection. *)
Definition awaits (ch : nat) (s : Mgr) : Prop :=
  listener s = LWait ch \/ exists c, listener s = LClosing c ch /\ c ∈ closed_conns s.

(** The listener and the manager agree on the connection: while the current one
    is open the listener is about to receive it or listens on it, otherwise it
    waits on the channel whose sender the manager has. *)
Definition in_step (s : Mgr) : Prop :=
  match watched (mgr s) with
  | Some c =>
      S c = established s /\
      (((c ∉ closed_conns s) /\
        ((exists ch, awaits ch s /\ chain s !! ch = Some (c, next_tx s)) \/ listener s = LListening c (next_tx s)))
       \/ (c ∈ closed_conns s /\ awaits (next_tx s) s))
  | None => mgr s <> MPanicked /\ awaits (next_tx s) s
  end.

Record mgr_inv (s : Mgr) : Prop := MkMgrInv {
  inv_slot : slot s = None -> held_by s = Some HManager;
  inv_latest c : slot s = Some c -> S c = established s;
  inv_guard : guard s = establishing (mgr s);
  inv_holder : held_by s = Some HManager <-> guard s = true;
  inv_locked n : reqs s !! n = Some RLocked -> held_by s = Some (HRequest n);
  inv_reqs n : reqs s !! n <> Some RPanicked;
  inv_served n c : reqs s !! n = Some (RServed c) -> (c < established s)%nat;
  inv_step : in_step s;
  inv_fresh : chain s !! next_tx s = None;
  inv_next k : (next_tx s < k)%nat -> chain s !! k = None;
  inv_open c : (c < established s)%nat -> c ∉ closed_conns s -> watched (mgr s) = Some c;
  inv_closed c : c ∈ closed_conns s -> (c < established s)%nat }.

Lemma mgr_init_inv : mgr_inv mgr_init.
Proof.
  split; simpl; try done; try set_solver; try (intros; lia). split; [done|]. by left.
Qed.

(** A step that moves only the manager, between points of the same kind. *)
Lemma with_mgr_inv p s :
  establishing p = establishing (mgr s) -> watched p = watched (mgr s) -> p <> MPanicked ->
  mgr_inv s -> mgr_inv (with_mgr p s).
Proof.
  intros Hp Hw Hn []. split; simpl; auto; try congruence.
  - unfold in_step in *. simpl. rewrite Hw. destruct (watched (mgr s)); [done|]. by destruct inv_step0.
  - intros c Hc Ho. rewrite Hw. auto.
Qed.

Lemma with_waker_inv b s : mgr_inv s -> mgr_inv (with_waker b s).
Proof. intros []. by split. Qed.

Lemma with_close_wakers_inv w s : mgr_inv s -> mgr_inv (with_close_wakers w s).
Proof. intros []. by split. Qed.

(** A step that moves only one request, neither to the lock nor from it. *)
Lemma with_req_inv n p s :
  p <> RLocked -> p <> RPanicked -> (forall c, p = RServed c -> (c < established s)%nat) ->
  mgr_inv s -> mgr_inv (with_req n p s).
Proof.
  intros H1 H2 H3 []. split; simpl; auto.
  - intros k. rewrite lookup_insert. case_decide; [congruence|auto].
  - intros k. rewrite lookup_insert. case_decide; [congruence|auto].
  - intros k c. rewrite lookup_insert. case_decide; [intros; simplify_eq; auto|eauto].
Qed.

(** A new connection is published and sent to the listener. *)
Lemma publish_inv s s' :
  mgr s = MConnecting -> mgr_inv s -> mgr_step ConnectOk s = Some s' -> mgr_inv s'.
Proof.
  intros Em Hi E. unfold mgr_step in E. rewrite Em, (inv_guard _ Hi), Em in E. simpl in E. simplify_eq.
  pose proof (inv_holder _ Hi) as Hh. rewrite (inv_guard _ Hi), Em in Hh.
  destruct Hi. unfold in_step in inv_step0. rewrite Em in *. destruct inv_step0 as [_ Hl]. split; simpl; auto.
  - done.
  - by intros c [= <-].
  - done.
  - intros n Hn. apply inv_locked0 in Hn. rewrite (proj2 Hh eq_refl) in Hn. done.
  - intros n c Hn. apply inv_served0 in Hn. lia.
  - unfold in_step. simpl. split; [done|]. left. split; [intros Hc; apply inv_closed0 in Hc; lia|].
    left. exists (next_tx s). split; [exact Hl|]. by rewrite lookup_insert_eq.
  - rewrite lookup_insert_ne by lia. apply inv_next0. lia.
  - intros k Hk. rewrite lookup_insert_ne by lia. apply inv_next0. lia.
  - intros c Hc Ho. destruct (decide (c = established s)) as [->|]; [done|].
    by discriminate (inv_open0 c ltac:(lia) Ho).
  - intros c Hc. apply inv_closed0 in Hc. lia.
Qed.

Lemma close_seen_inv c s :
  mgr s = MCloseLoad c -> c ∈ closed_conns s -> mgr_inv s -> mgr_inv (with_mgr MLocking s).
Proof.
  intros Em Hc Hi. destruct Hi. unfold in_step in inv_step0. rewrite Em in *. split; simpl; auto.
  - unfold in_step. simpl. split; [done|]. by destruct inv_step0 as (_ & [[? _]|[_ ?]]).
  - intros c' Hc' Ho. specialize (inv_open0 c' Hc' Ho). simpl in inv_open0. by simplify_eq.
Qed.

Lemma relock_inv s :
  mgr s = MLocking -> held_by s = None -> mgr_inv s ->
  mgr_inv (with_mgr MPoll (with_mutex (Some HManager) (slot s) true s)).
Proof.
  intros Em Hn Hi. destruct Hi. unfold in_step in inv_step0. rewrite Em in *. split; simpl; auto.
  - done.
  - intros n Hl. apply inv_locked0 in Hl. congruence.
  - unfold in_step. simpl. split; [done|]. by destruct inv_step0.
Qed.

Lemma mgr_step_inv l s s' : mgr_inv s -> mgr_step l s = Some s' -> mgr_inv s'.
Proof.
  intros Hi E. destruct (decide (l = ConnectOk)) as [->|Hl].
  { destruct (mgr s) eqn:Em; try (unfold mgr_step in E; by rewrite Em in E). by eapply publish_inv. }
  unfold mgr_step, wait_load, wait_store, closed_load, closed_push in E. destruct l, (mgr s) eqn:Em; try done;
    try (simplify_eq; apply with_mgr_inv; simpl; rewrite ?Em; auto using with_waker_inv, with_close_wakers_inv; done).
  - case_match; simplify_eq; apply with_mgr_inv; rewrite ?Em; auto.
  - case_decide; simplify_eq; [by eapply close_seen_inv|]. apply with_mgr_inv; rewrite ?Em; auto.
  - destruct (held_by s) eqn:Eh; simplify_eq. by apply relock_inv.
Qed.

Lemma req_lock_inv n s :
  held_by s = None -> mgr_inv s ->
  mgr_inv (with_req n RLocked (with_mutex (Some (HRequest n)) (slot s) (guard s) s)).
Proof.
  intros Hh []. split; simpl; auto.
  - intros Hs. apply inv_slot0 in Hs. congruence.
  - rewrite <- inv_holder0. split; congruence.
  - intros k. rewrite lookup_insert. case_decide; [congruence|]. intros Hk. apply inv_locked0 in Hk. congruence.
  - intros k. rewrite lookup_insert. by case_decide.
  - intros k c. rewrite lookup_insert. case_decide; [done|eauto].
Qed.

Lemma req_take_inv n c s :
  reqs s !! n = Some RLocked -> slot s = Some c -> mgr_inv s ->
  mgr_inv (with_req n (RServed c) (with_mutex None (slot s) (guard s) s)).
Proof.
  intros Hr Hs Hi. destruct Hi. pose proof (inv_locked0 n Hr) as Hh. split; simpl; auto.
  - congruence.
  - rewrite <- inv_holder0. split; congruence.
  - intros k. rewrite lookup_insert. case_decide; [congruence|]. intros Hk. apply inv_locked0 in Hk. congruence.
  - intros k. rewrite lookup_insert. by case_decide.
  - intros k c'. rewrite lookup_insert. case_decide; [|eauto]. intros [= <-].
    apply inv_latest0 in Hs. lia.
Qed.

Lemma req_step_inv l s s' : mgr_inv s -> req_step l s = Some s' -> mgr_inv s'.
Proof.
  intros Hi E. unfold req_step, listen_requests, register_wake in E. destruct l; try done.
  - destruct (reqs s !! n); simplify_eq. by apply with_req_inv.
  - destruct (reqs s !! n) as [[]|]; try done.
    assert (mgr_inv (with_req n RQueued (with_waker false s))) as Hw.
    { apply with_req_inv; auto using with_waker_inv; done. }
    destruct (req_waker s); [|by simplify_eq].
    destruct (mgr s) eqn:Em; simplify_eq; try done. apply with_mgr_inv; simpl; rewrite ?Em; auto.
  - destruct (reqs s !! n) as [[]|], (held_by s) eqn:Eh; simplify_eq. by apply req_lock_inv.
  - destruct (reqs s !! n) as [[]|] eqn:Er; try done. destruct (slot s) as [c|] eqn:Es; simplify_eq.
    + rewrite <- Es. by eapply req_take_inv.
    + exfalso. apply (inv_slot _ Hi) in Es. apply (inv_locked _ Hi) in Er. congruence.
  - destruct (reqs s !! n) as [[]|]; simplify_eq. by apply with_req_inv.
  - destruct (reqs s !! n) as [[]|]; simplify_eq. by apply with_req_inv.
Qed.

(** What the listener may be doing. *)
Lemma in_step_cases s :
  in_step s ->
  (exists ch, awaits ch s) \/ exists c, watched (mgr s) = Some c /\ S c = established s /\ (c ∉ closed_conns s)
    /\ listener s = LListening c (next_tx s).
Proof.
  unfold in_step. destruct (watched (mgr s)) as [c|]; [|intros [_ ?]; left; eauto].
  intros (He & [(Ho & [(ch & Ha & _)|El])|[_ Ha]]); [left; eauto|right; by exists c|left; eauto].
Qed.

(** A listener that waits does so on the manager's channel, or on one that the
    current, open connection has been sent on. *)
Lemma pending_channel ch s :
  mgr_inv s -> awaits ch s ->
  ch = next_tx s \/
  exists c, watched (mgr s) = Some c /\ (c ∉ closed_conns s) /\ chain s !! ch = Some (c, next_tx s).
Proof.
  intros Hi Ha. pose proof (inv_step _ Hi) as Hs. unfold in_step in Hs.
  assert (forall ch', awaits ch' s -> ch' = ch) as Hu.
  { intros ch' [El|(c & El & _)]; destruct Ha as [El'|(c' & El' & _)]; congruence. }
  destruct (watched (mgr s)) as [c|]; [|left; symmetry; apply Hu, Hs].
  destruct Hs as (_ & [(Ho & [(ch' & Ha' & Hc)|El])|[_ Ha']]).
  - apply Hu in Ha' as ->. right. by exists c.
  - destruct Ha as [?|(? & ? & _)]; congruence.
  - left. symmetry. apply Hu, Ha'.
Qed.

(** A listener that leaves [LClosing] still waits on the same channel. *)
Lemma close_wake_inv c next s :
  listener s = LClosing c next -> mgr_inv s -> mgr_inv (with_listener (LWait next) (closed_conns s) s).
Proof.
  intros El []. split; simpl; auto.
  assert (forall ch, awaits ch s -> awaits ch (with_listener (LWait next) (closed_conns s) s)) as Ha.
  { intros ch [El'|(c' & El' & _)]; left; simpl; congruence. }
  unfold in_step in *. simpl. destruct (watched (mgr s)) as [c'|].
  - destruct inv_step0 as (He & [(Ho & [(ch' & Ha' & Hc)|El'])|[Hc Ha']]); [|congruence|by eauto 8].
    split; [done|]. left. split; [done|]. left. eauto.
  - destruct inv_step0. auto.
Qed.

Lemma incoming_end_inv c next s :
  listener s = LListening c next -> mgr_inv s ->
  mgr_inv (with_listener (LClosing c next) ({[c]} ∪ closed_conns s) s).
Proof.
  intros El Hi. destruct Hi. unfold in_step in inv_step0.
  destruct (watched (mgr s)) as [c'|] eqn:Em;
    [|destruct inv_step0 as [_ [?|(? & ? & _)]]; congruence].
  assert (c' = c /\ next = next_tx s /\ S c = established s) as (-> & -> & He).
  { destruct inv_step0 as (He & [(_ & [(ch & [?|(? & ? & _)] & _)|?])|(_ & [?|(? & ? & _)])]); try congruence.
    split_and!; congruence. }
  split; simpl; auto.
  - unfold in_step. simpl. rewrite Em. split; [done|].
    assert (c ∈ {[c]} ∪ closed_conns s) as Hc by (by apply elem_of_union_l, elem_of_singleton).
    right. split; [done|]. right. by exists c.
  - intros c' Hlt Hn. rewrite ?Em. apply inv_open0; [done|]. intros Hc. by apply Hn, elem_of_union_r.
  - intros c' Hin. apply elem_of_union in Hin as [->%elem_of_singleton|]; [lia|auto].
Qed.

Lemma lst_step_inv l s s' : mgr_inv s -> lst_step l s = Some s' -> mgr_inv s'.
Proof.
  intros Hi E. unfold lst_step, next_incoming, closed_store, closed_wake in E. destruct l, (listener s) as [ch|c next|c next|] eqn:El; try done.
  - destruct (pending_channel ch s Hi (or_introl El)) as [->|(c & Em & Hn & Hc)].
    + rewrite (inv_fresh _ Hi), decide_True in E by done. done.
    + rewrite Hc in E. simplify_eq. destruct Hi. split; simpl; auto. unfold in_step in *. simpl. rewrite Em in *.
      destruct inv_step0 as [He _]. auto.
  - simplify_eq. by apply incoming_end_inv.
  - assert (mgr_inv (with_listener (LWait next) (closed_conns s) (with_close_wakers (close_wakers s ∖ {[c]}) s)))
      as Hw by exact (close_wake_inv c next (with_close_wakers _ s) El (with_close_wakers_inv _ _ Hi)).
    case_decide; [|by simplify_eq]. destruct (mgr s) as [| | | | | | |c'| |] eqn:Em; simplify_eq; try done.
    case_decide; simplify_eq; [|done]. apply with_mgr_inv; simpl; rewrite ?Em; auto.
Qed.

Lemma relay_step_inv l s s' : mgr_inv s -> relay_step l s = Some s' -> mgr_inv s'.
Proof.
  intros Hi E. unfold relay_step in E. destruct (mgr_step l s) eqn:E1; simplify_eq; [by eapply mgr_step_inv|].
  destruct (req_step l s) eqn:E2; simplify_eq; [by eapply req_step_inv|]. by eapply lst_step_inv.
Qed.

Lemma relay_steps_inv s s' : mgr_inv s -> relay_steps s s' -> mgr_inv s'.
Proof. intros Hi Hs. induction Hs; eauto using relay_step_inv. Qed.

Lemma run_labels_steps ls s s' : run_labels ls s = Some s' -> relay_steps s s'.
Proof.
  intros E. assert (forall s0, relay_steps s0 s -> relay_steps s0 s') as H; [|apply H; constructor].
  revert s E. induction ls as [|l ls IH]; intros s E s0 H0; simpl in E; [by simplify_eq|].
  destruct (relay_step l s) as [s1|] eqn:E1; [|done]. eapply IH; [done|]. by econstructor.
Qed.

(** ** From a queued request to a connection

    The stages of a request, each a few steps that are possible in the states the
    invariant describes. *)













(** ** Properties *)

(** C8: The [unwrap]s of the client's relay never fail, however requests, the
    manager and the listener interleave: a request that gets the mutex finds a
    connection in it, the manager has the guard when it publishes a connection,
    and the channel on which the listener waits is never dropped unsent. *)
Theorem relay_unwraps_succeed s :
  relay_steps mgr_init s ->
  mgr s <> MPanicked /\ listener s <> LPanicked /\ (forall n, reqs s !! n <> Some RPanicked)
  /\ (slot s = None -> held_by s = Some HManager).
Proof.
  intros Hs. apply relay_steps_inv in Hs as Hi; [|apply mgr_init_inv].
  split; [|split; [|split; [apply (inv_reqs _ Hi)|apply (inv_slot _ Hi)]]].
  - intros Em. pose proof (inv_step _ Hi) as Hst. unfold in_step in Hst. rewrite Em in Hst. by destruct Hst.
  - intros El. destruct (in_step_cases s (inv_step _ Hi)) as [(ch & [?|(? & ? & _)])|(? & _ & _ & _ & ?)]; congruence.
Qed.

(** C9: At any time at most one of the connections is open, the mutex holds the
    latest one, and the listener listens on no other: a connection is replaced
    only after it has been marked as closed. *)
Theorem one_connection_at_a_time s :
  relay_steps mgr_init s ->
  (forall c c', (c < established s)%nat -> (c' < established s)%nat ->
     c ∉ closed_conns s -> c' ∉ closed_conns s -> c = c')
  /\ (forall c, slot s = Some c -> S c = established s)
  /\ (forall c ch, listener s = LListening c ch -> S c = established s /\ c ∉ closed_conns s).
Proof.
  intros Hs. apply relay_steps_inv in Hs as Hi; [|apply mgr_init_inv]. split; [|split].
  - intros c c' H1 H2 H3 H4. pose proof (inv_open _ Hi c H1 H3). pose proof (inv_open _ Hi c' H2 H4). congruence.
  - apply (inv_latest _ Hi).
  - intros c ch El. destruct (in_step_cases s (inv_step _ Hi)) as [(ch' & [?|(? & ? & _)])|(c' & _ & ? & ? & ?)];
      try congruence. split; congruence.
Qed.

(** A request that is served: the client of the example connects once. *)
Definition served_labels : list label :=
  [ReqClone 1; WaitPoll; ReqWake 1; ConnectFails; SleepOver; WaitPoll; ConnectOk; ReqLock 1; IncomingNext; ReqTake 1].

Definition served_state : Mgr := default mgr_init (run_labels served_labels mgr_init).

Lemma served_reachable : relay_steps mgr_init served_state.
Proof. apply (run_labels_steps served_labels). by vm_compute. Qed.

Lemma relay_unwraps_succeed_witness :
  reqs served_state !! 1%nat = Some (RServed 0) /\ mgr served_state <> MPanicked.
Proof. split; [by vm_compute|]. exact (proj1 (relay_unwraps_succeed _ served_reachable)). Defined.

Lemma one_connection_at_a_time_witness :
  listener served_state = LListening 0 1 /\ 0%nat ∉ closed_conns served_state.
Proof.
  split; [by vm_compute|].
  exact (proj2 (proj2 (proj2 (one_connection_at_a_time _ served_reachable)) 0%nat 1%nat eq_refl)).
Defined.


(** The lost wake-up of the register of requests: the request 1 waits, the manager
    is suspended. *)
Definition lost_labels : list label := [WaitPoll; ReqClone 1; ReqWake 1; WaitStore].
Definition lost_state : Mgr := default mgr_init (run_labels lost_labels mgr_init).

Lemma lost_reachable : relay_steps mgr_init lost_state.
Proof. apply (run_labels_steps lost_labels). by vm_compute. Qed.


(** C38: The wake-up of the first request can be lost: there is a run in which a
    request waits for a connection, the manager is suspended waiting for a
    request, and only another request or the timeout of this one can happen. *)
Theorem request_wakeup_lost :
  exists s n, relay_steps mgr_init s /\ reqs s !! n = Some RQueued /\ mgr s = MPending
    /\ forall l s', relay_step l s = Some s' -> l = ReqTimeout n \/ exists m, l = ReqClone m.
Proof.
  pose (s := lost_state). exists s, 1%nat. split; [exact lost_reachable|].
  split; [done|]. split; [done|]. intros l s' E.
  assert (forall k p, reqs s !! k = Some p -> k = 1%nat /\ p = RQueued) as Hr.
  { intros k p Hk. change (reqs s) with (<[1%nat := RQueued]> (<[1%nat := RCloning]> (∅ : gmap nat req_point))) in Hk.
    rewrite insert_insert_eq, lookup_insert in Hk. case_decide; [by simplify_eq|by rewrite lookup_empty in Hk]. }
  destruct l; try done; [right; eauto|..]; unfold relay_step in E; simpl in E;
    destruct (reqs s !! n) as [p|] eqn:En; try done; apply Hr in En as [-> ->]; try done. by left.
Qed.

(** The manager is suspended on a connection whose wakers have been drained. *)
Definition stranded (c : nat) (s : Mgr) : Prop :=
  mgr s = MClosePending c /\ listener s = LWait (next_tx s) /\ chain s !! next_tx s = None /\ slot s = Some c
  /\ c ∈ closed_conns s.

(** Only requests move, and they are served with that connection. *)
Lemma stranded_step c l s s' :
  stranded c s -> relay_step l s = Some s' ->
  stranded c s' /\ established s' = established s
  /\ forall n c', reqs s' !! n = Some (RServed c') -> reqs s !! n = Some (RServed c') \/ c' = c.
Proof.
  intros (Em & El & Hn & Hs & Hc) E. unfold relay_step in E.
  assert (mgr_step l s = None) as Hm by (unfold mgr_step; rewrite Em; by destruct l). rewrite Hm in E.
  destruct (req_step l s) as [s1|] eqn:Er; simplify_eq.
  - unfold req_step, listen_requests, register_wake in Er. unfold stranded. destruct l as [| | | | | | | |n|n|n|n|n|n| | |]; try done;
      repeat (case_match; simplify_eq/=; try congruence);
      (split; [done|split; [done|intros k c' Hk; rewrite lookup_insert in Hk; case_decide; simplify_eq/=; auto; congruence]]).
  - unfold lst_step, next_incoming in E. rewrite El in E. destruct l; try done. by rewrite Hn, decide_True in E.
Qed.

Lemma stranded_steps c s s' :
  stranded c s -> relay_steps s s' ->
  stranded c s' /\ established s' = established s
  /\ forall n c', reqs s' !! n = Some (RServed c') -> reqs s !! n = Some (RServed c') \/ c' = c.
Proof.
  intros H0 Hs. induction Hs as [s|s1 s2 s3 l Hs IH E]; [by auto|]. destruct (IH H0) as (H2 & He & Hr).
  destruct (stranded_step _ _ _ _ H2 E) as (H3 & He' & Hr'). split; [done|]. split; [congruence|].
  intros n c' Hn. destruct (Hr' n c' Hn) as [?| ->]; auto.
Qed.

(** C39: The wake-up at the end of a connection can be lost, for good: there is a run
    in which the connection is marked as closed and its wakers drained between the
    two halves of the manager's poll of [IsClosed]. From then on, whatever happens,
    the manager stays suspended, no connection is ever established again, and every
    further request is served with the closed connection. *)
Theorem close_wakeup_lost :
  exists s c, relay_steps mgr_init s /\ c ∈ closed_conns s
    /\ forall s', relay_steps s s' ->
       mgr s' = MClosePending c /\ established s' = established s /\ slot s' = Some c
       /\ forall n c', reqs s' !! n = Some (RServed c') -> reqs s !! n = Some (RServed c') \/ c' = c.
Proof.
  pose (ls := served_labels ++ [ClosePoll; IncomingEnd; CloseWake; CloseStore]).
  pose (s := default mgr_init (run_labels ls mgr_init)).
  exists s, 0%nat. split; [apply (run_labels_steps ls); by vm_compute|].
  assert (stranded 0 s) as H0 by (unfold stranded; split_and!; [by vm_compute..|by apply (bool_decide_unpack _)]).
  split; [apply H0|]. intros s' Hs. destruct (stranded_steps _ _ _ H0 Hs) as ((? & _ & _ & ? & _) & ? & ?). auto.
Qed.
