(* ===== verification/EndToEnd.v ===== *)
(** * Client and server together

    What one end sends is what the other end does: the bytes recorded by the QUIC
    connection of one side are the input of the handlers of the other. *)

From S2P Require Import Prelude RustIo Protocol Async Quic ServerAuth ServerUdp ServerConn ServerTask ServerScenario.
From S2P Require Import ServerHandlers ClientConn ClientTask ClientHandlers.

Local Open Scope Z_scope.

(** A UDP packet that can be relayed: its fields have their width, its address
    fits the wire format. *)
Definition relayable (id : Z) (pkt : bytes) (addr : Address) : Prop :=
  is_u32 id /\ blen pkt < 2 ^ 16 /\ Address.ok addr /\ Address.wire addr.

Lemma relayable_packet id pkt addr :
  relayable id pkt addr ->
  blen pkt mod 2 ^ 16 = blen pkt
  /\ Command.ok (Packet id (blen pkt) addr) /\ Command.wire (Packet id (blen pkt) addr).
Proof.
  intros (Hi & Hl & Ha & Hw). assert (0 <= blen pkt) by (unfold blen; lia).
  split; [by apply Z.mod_small|]. split; [|done]. split; [done|]. split; [|done]. by split.
Qed.

(** Sending the packet makes the server hand it to the session of the same ID. *)
Definition reaches_session (tid tid' : nat) (sc : CliConn) (ss : ConnState) (id : Z) (pkt : bytes) (addr : RelayAddress) :
    Prop :=
  let to_session mode :=
    relayed (with_packet_from (Some mode) ss)
      (run tid' (UdpSessionMap.send id pkt (tuic_of_relay addr)) (udp_sessions ss)) in
  (forall l, datagram_answers (cli_net sc) = Ok tt :: l -> default Datagram (udp_packet_from ss) = Datagram ->
   exists sc' d, run tid (handle_packet_to id pkt addr Native) sc = RunDone tt sc'
   /\ datagrams_sent (cli_controller sc') = datagrams_sent (cli_controller sc) ++ [d]
   /\ run tid' (report (process_datagram d)) ss = to_session Datagram)
  /\ (forall l, uni_opens (cli_net sc) = Ok None :: l -> default UniStream (udp_packet_from ss) = UniStream ->
   exists sc' stream sent, run tid (handle_packet_to id pkt addr Quic) sc = RunDone tt sc'
   /\ streams (cli_controller sc) !! stream = None
   /\ streams (cli_controller sc') !! stream = Some (MkSendStream sent true None)
   /\ run tid' (report (process_uni_stream (MkRecvStream sent None))) ss = to_session UniStream).

Lemma packet_to_session tid tid' sc ss id pkt addr :
  relayable id pkt (tuic_of_relay addr) -> serving tid' ss -> reaches_session tid tid' sc ss id pkt addr.
Proof.
  intros Hr Hs. unfold reaches_session. destruct (relayable_packet _ _ _ Hr) as (Hm & Hok & Hw).
  destruct (client_packet_sent tid sc id pkt addr) as [H1 H2]. rewrite Hm in H1, H2.
  destruct (packet_reaches_session tid' ss id (blen pkt) (tuic_of_relay addr) pkt Hs Hok Hw) as [H3 H4]. split.
  - intros l Hd Hmode. destruct (H1 l Hd) as (sc' & E & Hc & _). exists sc'. eexists. split; [exact E|].
    rewrite Hc. split; [reflexivity|]. exact (H3 Hmode).
  - intros l' Hl Hmode. do 3 eexists. split; [exact (H2 l' Hl)|]. split; [apply next_stream_fresh|].
    split; [apply lookup_insert_eq|]. specialize (H4 Hmode eq_refl [] None). by rewrite app_nil_r in H4.
Qed.

(** C2: A UDP packet of a session of the client reaches the session of the same
    associate ID on the server, with its payload and its destination, in native
    mode as in QUIC mode: the server hands it to [UdpSessionMap::send]. *)
Theorem udp_client_to_server tid tid' sc ss id pkt addr :
  relayable id pkt (tuic_of_relay addr) -> serving tid' ss -> reaches_session tid tid' sc ss id pkt addr.
Proof. exact (packet_to_session tid tid' sc ss id pkt addr). Qed.

Lemma udp_client_to_server_witness :
  exists sc' d, run 1%nat (handle_packet_to 7 [1; 2] (relay_of_tuic sample_addr) Native) example_cli = RunDone tt sc'
  /\ datagrams_sent (cli_controller sc') = [d]
  /\ run 2%nat (report (process_datagram d)) served =
     relayed (with_packet_from (Some Datagram) served)
       (run 2%nat (UdpSessionMap.send 7 [1; 2] sample_addr) (udp_sessions served)).
Proof.
  assert (relayable 7 [1; 2] sample_addr) as Hr.
  { split_and!; try (by apply (bool_decide_unpack _)); done. }
  exact (proj1 (udp_client_to_server 1%nat 2%nat example_cli served 7 [1; 2] (relay_of_tuic sample_addr) Hr
    (served_serving _)) [] eq_refl eq_refl).
Defined.

(** What the server's session received is delivered to the client's session. *)
Definition reaches_client (tid tid' : nat) (sc : CliConn) (ss : ConnState) (id : Z) (pkt : bytes) (addr : Address) : Prop :=
  (forall ds, udp_packet_from ss = Some Datagram -> datagram_sends (net ss) = Ok tt :: ds ->
   exists ss' d, run tid' (report (process_received_udp_packet id pkt addr)) ss = RunDone tt ss'
   /\ datagrams_sent (controller ss') = datagrams_sent (controller ss) ++ [d]
   /\ run tid (process_incoming_datagram d) sc = deliver id pkt (relay_of_tuic addr) sc)
  /\ (forall os, udp_packet_from ss = Some UniStream -> opens (net ss) = Ok None :: os ->
   exists ss' stream sent, run tid' (report (process_received_udp_packet id pkt addr)) ss = RunDone tt ss'
   /\ streams (controller ss) !! stream = None
   /\ streams (controller ss') !! stream = Some (MkSendStream sent true None)
   /\ run tid (process_incoming_uni_stream (MkRecvStream sent None)) sc =
      deliver id pkt (relay_of_tuic addr) (with_stream_reg (StreamRegister.drop (stream_reg sc)) sc)).

Lemma packet_to_client tid tid' sc ss id pkt addr :
  relayable id pkt addr -> reaches_client tid tid' sc ss id pkt addr.
Proof.
  intros Hr. unfold reaches_client. destruct (relayable_packet _ _ _ Hr) as (Hm & Hok & Hw).
  destruct (reply_uses_client_mode tid' ss id pkt addr) as [H1 H2]. rewrite Hm in H1, H2. split.
  - intros ds Hmode Hd. destruct (H1 ds Hmode Hd) as (ss' & E & Hc & _). exists ss'. eexists.
    split; [exact E|]. split; [exact Hc|]. unfold process_incoming_datagram. rewrite <- (handle_packet_from_run tid).
    rewrite (parse_datagram_runs id (blen pkt) addr pkt Hok Hw), Z.leb_refl. cbn [or_panic].
    unfold blen. by rewrite Nat2Z.id, firstn_all.
  - intros os Hmode Ho. destruct (H2 os Hmode Ho) as (ss' & stream & E & Hf & Hst & _). exists ss', stream. eexists.
    split; [exact E|]. split; [done|]. rewrite Hst. split; [apply lookup_insert_eq|].
    rewrite <- (handle_packet_from_run tid). unfold process_incoming_uni_stream. rewrite (parse_uni_stream_runs _ _ _ _ _ Hok Hw), Z.leb_refl.
    unfold blen. by rewrite Nat2Z.id, firstn_all.
Qed.

(** C3: A packet a session of the server received reaches, on the client, the
    channel of the session with the same associate ID, with its payload and its
    source address, the way the client's packets went (or it waits for room, or
    is dropped when there is no session: [deliver]). A stream's share of the register
    is given back first. *)
Theorem udp_server_to_client tid tid' sc ss id pkt addr :
  relayable id pkt addr -> reaches_client tid tid' sc ss id pkt addr.
Proof. exact (packet_to_client tid tid' sc ss id pkt addr). Qed.

Definition replying : ConnState :=
  with_packet_from (Some Datagram) (with_net (MkNet [] [] [] [Ok tt] [] []) served).

Lemma udp_server_to_client_witness :
  exists ss' d, run 2%nat (report (process_received_udp_packet 7 [1; 2] sample_addr)) replying = RunDone tt ss'
  /\ datagrams_sent (controller ss') = [d]
  /\ run 1%nat (process_incoming_datagram d) example_cli =
     deliver 7 [1; 2] (relay_of_tuic sample_addr) example_cli.
Proof.
  assert (relayable 7 [1; 2] sample_addr) as Hr.
  { split_and!; try (by apply (bool_decide_unpack _)); done. }
  exact (proj1 (udp_server_to_client 1%nat 2%nat example_cli replying 7 [1; 2] sample_addr Hr) [] eq_refl eq_refl).
Defined.

(** The request of the client's [handle_connect addr tx], whose stream is answered
    with [recv]: the command is sent on the new stream; the stream is handed to the
    request, with what follows the response, when [handed] says so, and is finished
    and handed to nobody otherwise. *)
Definition client_request (tid : nat) (sc : CliConn) (addr : RelayAddress) (tx : nat) (handed : option bytes) : Prop :=
  let stream := next_stream (cli_controller sc) in
  exists sc', run tid (handle_connect addr tx) sc = RunDone tt sc'
  /\ streams (cli_controller sc') !! stream =
     Some (MkSendStream (Command.write_to_buf (Connect (tuic_of_relay addr)) []) (bool_decide (handed = None)) None)
  /\ match handed with
     | Some data => exists recv, delivered sc' = <[tx := (stream, recv)]> (delivered sc) /\ rs_data recv = data
     | None => delivered sc' = delivered sc
     end.

Lemma client_request_runs tid sc addr tx recv bs :
  bi_opens (cli_net sc) = Ok (None, recv) :: bs -> tx ∈ awaiting sc ->
  client_request tid sc addr tx
    (match Command.read_from recv with (Ok (Response true), rest) => Some (rs_data rest) | _ => None end).
Proof.
  intros Hb Htx. destruct (handle_connect_runs tid sc addr tx recv bs Hb Htx) as (sc' & E & H). exists sc'.
  split; [exact E|]. destruct (Command.read_from recv) as [[[[]| | | | |]|e] rest];
    destruct H as (H1 & -> & _); (split; [apply lookup_insert_eq|]); try done. by exists rest.
Qed.

Lemma client_request_answered tid sc addr tx b data bs :
  bi_opens (cli_net sc) = Ok (None, MkRecvStream (Command.write_to_buf (Response b) [] ++ data) None) :: bs ->
  tx ∈ awaiting sc -> client_request tid sc addr tx (if b then Some data else None).
Proof.
  intros Hb Htx. pose proof (client_request_runs tid sc addr tx _ _ Hb Htx) as H.
  destruct (Command_accepts (R := RecvStream) (Response b) I I
    (MkRecvStream (Command.write_to_buf (Response b) [] ++ data) None) data) as (recv & E & U & _); [done|].
  rewrite E in H. cbn in U. destruct b; [by rewrite <- U|done].
Qed.

(** C4: A TCP request of the client against the server. The server looks up exactly
    the name and port the client asked for (nothing for an IP address) and dials the
    addresses found, in order, up to the first that accepts. The client sent the
    request the server read, and gets a stream exactly when the server reached one
    of the addresses, with the data that follows the response; when no address
    accepts, or when the lookup fails and the server's stream ends without a
    response, it gets nothing and finishes its stream. *)
Theorem tcp_end_to_end tid tid' sc ss tx addr bs send :
  Address.ok (tuic_of_relay addr) -> Address.wire (tuic_of_relay addr) -> serving tid' ss ->
  streams (controller ss) !! send = Some (SendStream_new None) -> tx ∈ awaiting sc ->
  let request := MkRecvStream (Command.write_to_buf (Connect (tuic_of_relay addr)) []) None in
  let answered sent fault := bi_opens (cli_net sc) = Ok (None, MkRecvStream sent fault) :: bs in
  let response b := Command.write_to_buf (Response b) [] in
  (forall addrs pre a post rest, resolved (tuic_of_relay addr) ss addrs ->
     addrs = pre ++ a :: post -> tunnels (net ss) = [] ->
     connects (net ss) = replicate (length pre) false ++ true :: rest ->
     exists ss' recv, run tid' (report (process_bi_stream send request)) ss =
       RunBlocked (CopyBidirectional a send recv) ss' /\ rs_data recv = []
     /\ asked (net ss') = asked (net ss) ++ resolution (tuic_of_relay addr) ++ (AskedConnect <$> pre ++ [a])
     /\ streams (controller ss') !! send = Some (MkSendStream (response true) false None)
     /\ (forall data, answered (response true ++ data) None -> client_request tid sc addr tx (Some data)))
  /\ (forall addrs rest, resolved (tuic_of_relay addr) ss addrs ->
     connects (net ss) = replicate (length addrs) false ++ rest ->
     exists ss', run tid' (report (process_bi_stream send request)) ss = RunDone tt ss'
     /\ asked (net ss') = asked (net ss) ++ resolution (tuic_of_relay addr) ++ (AskedConnect <$> addrs)
     /\ streams (controller ss') !! send = Some (MkSendStream (response false) true None)
     /\ (answered (response false) None -> client_request tid sc addr tx None))
  /\ (forall domain port e ls, addr = RelayDomain domain port -> lookups (net ss) = Err e :: ls ->
     exists ss', run tid' (report (process_bi_stream send request)) ss = RunDone tt ss'
     /\ asked (net ss') = asked (net ss) ++ [AskedLookup domain port]
     /\ streams (controller ss') !! send = Some (SendStream_new None)
     /\ (forall fault, answered [] fault -> client_request tid sc addr tx None)).
Proof.
  intros Ha Hw Hs Hst Htx request answered response.
  destruct (Command_accepts (R := RecvStream) (Connect (tuic_of_relay addr)) Ha Hw request [])
    as (recv & Er & U & _); [by rewrite app_nil_r|].
  pose proof (fun addrs => process_connect_runs tid' send request recv (tuic_of_relay addr) addrs ss Hs Er Hst) as Hrun.
  split_and!.
  - intros addrs pre a post rest Hres Hp Ht Hc.
    destruct (proj1 (Hrun addrs Hres) pre a post rest Hp Hc Ht) as (ss' & E & Hss & Hq).
    exists ss', recv. split; [exact E|]. split; [done|]. split; [done|]. rewrite Hss.
    split; [apply lookup_insert_eq|]. intros data Han. exact (client_request_answered tid sc addr tx true data bs Han Htx).
  - intros addrs rest Hres Hc. destruct (proj2 (Hrun addrs Hres) rest Hc) as (ss' & E & Hss & Hq).
    exists ss'. split; [exact E|]. split; [done|]. rewrite Hss. split; [apply lookup_insert_eq|].
    intros Han. apply (client_request_answered tid sc addr tx false [] bs); [|done]. by rewrite app_nil_r.
  - intros domain port e ls -> Hl. eexists. split; [by eapply process_connect_fails|]. split; [done|].
    split; [exact Hst|]. intros fault Han.
    exact (client_request_runs tid sc (RelayDomain domain port) tx _ _ Han Htx).
Qed.

Lemma tcp_end_to_end_witness :
  let request := MkRecvStream (Command.write_to_buf (Connect (DomainAddress [97] 80)) []) None in
  let first := V4 (MkSocketAddrV4 (MkIpv4 10 0 0 1) 80) in
  let second := V4 (MkSocketAddrV4 (MkIpv4 10 0 0 2) 80) in
  (exists ss' recv, run 2%nat (report (process_bi_stream 5%nat request)) connecting =
     RunBlocked (CopyBidirectional second 5%nat recv) ss'
   /\ asked (net ss') = [AskedLookup [97] 80; AskedConnect first; AskedConnect second])
  /\ client_request 1%nat example_cli (RelayDomain [97] 80) 3%nat (Some [1]).
Proof.
  intros request first second.
  destruct (tcp_end_to_end 1%nat 2%nat example_cli connecting 3%nat (RelayDomain [97] 80) [] 5%nat) as [H _];
    try done; try (by apply (bool_decide_unpack _)).
  destruct (H [first; second] [first] second [] []) as (ss' & recv & E & _ & Ha & _ & Hcl); try done.
  split; [by exists ss', recv|]. by apply (Hcl [1]).
Defined.
