(* ===== verification/Socks5.v ===== *)
(** * The local socks5 server of the client (client/src/socks5/)

    The handlers of the three socks5 commands are programs over the calls they
    make to the control connection, the relay and the operating system; a run of
    a handler is what it does against an environment that may answer every call
    as it likes. The two loops that relay the UDP packets of an association and
    the wait for the end of its control connection run concurrently inside one
    [select!]: they are a transition system, [assoc_step]. *)

From S2P Require Import Prelude RustIo Protocol Async Quic ServerAuth ClientConn ClientTask ClientHandlers.

Local Open Scope Z_scope.
Local Open Scope task_scope.

(** ** Addresses of socks5_proto *)

Inductive Socks5Address :=
| Socks5Socket (addr : SocketAddr)
| Socks5Domain (domain : bytes) (port : Z).

#[export] Instance Socks5Address_eq_dec : EqDecision Socks5Address.
Proof. solve_decision. Defined.

(** [Address::unspecified]: 0.0.0.0:0. *)
Definition Socks5_unspecified : Socks5Address := Socks5Socket (V4 (MkSocketAddrV4 Ipv4_UNSPECIFIED 0)).

(** The conversions written out in [handle], [socks5_to_relay] and [relay_to_socks5]. *)
Definition relay_of_socks5 (a : Socks5Address) : RelayAddress :=
  match a with
  | Socks5Domain domain port => RelayDomain domain port
  | Socks5Socket addr => RelaySocket addr
  end.

Definition socks5_of_relay (a : RelayAddress) : Socks5Address :=
  match a with
  | RelayDomain domain port => Socks5Domain domain port
  | RelaySocket addr => Socks5Socket addr
  end.

(** ** Requests to the relay (client/src/relay/request.rs) *)

Inductive Request :=
| ReqConnect (addr : RelayAddress)
| ReqAssociate (assoc_id : Z).

Definition new_connect (addr : RelayAddress) : Request := ReqConnect addr.
(** The random number is an argument. *)
Definition new_associate (random : Z) : Request := ReqAssociate random.

(** ** The size of the receive buffer *)

(** What the header of a socks5 UDP packet takes (RFC 1928, as socks5_proto writes
    it): two reserved bytes, the fragment number, the address. *)
Class UdpHeader := {
  header_len : Socks5Address -> Z;
  header_max_len : Z;
  header_len_domain : forall d p, header_len (Socks5Domain d p) = 3 + (1 + 1 + blen d + 2);
  header_len_v4 : forall a, header_len (Socks5Socket (V4 a)) = 3 + (1 + 4 + 2);
  header_len_v6 : forall a, header_len (Socks5Socket (V6 a)) = 3 + (1 + 16 + 2);
  header_max : header_max_len = 3 + (1 + 1 + 255 + 2) }.

(** [usize] subtraction: it panics where overflow checks are compiled in, and wraps
    around where they are not. *)
Definition usize_sub (checks : bool) (a b : Z) : outcome Z :=
  if b <=? a then Done (a - b)
  else if checks then Panic
  else Done (as_uint 64 (a - b)).

(** ** Calls of the handlers *)

Inductive Reply :=
| Succeeded
| GeneralFailure
| NetworkUnreachable
| CommandNotSupported.

#[export] Instance Reply_eq_dec : EqDecision Reply.
Proof. solve_decision. Defined.

Inductive sk_op :=
| PeerAddr
| LocalAddr
| SendReply (r : Reply) (addr : Socks5Address)
| Shutdown
| SendRequest (req : Request)
| AwaitRelay
| CopyBidirectional (relay : BiStream)
| BindUdp (addr : SocketAddr)
| UdpLocalAddr
| LoadMaxSize
| RelayAssociation (buf_size : Z) (ctrl_addr : SocketAddr).

(** The stream of a [Connect], when the relay answers the request at all. *)
Definition sk_resp (o : sk_op) : Type :=
  match o with
  | PeerAddr | LocalAddr | UdpLocalAddr => result io_error SocketAddr
  | SendReply _ _ | Shutdown | CopyBidirectional _ | BindUdp _ | RelayAssociation _ _ => result io_error unit
  | SendRequest _ => unit
  | AwaitRelay => option BiStream
  | LoadMaxSize => Z
  end.

Abbreviation sktask A := (prog sk_resp (result io_error A)).

Definition do_ (o : sk_op) : prog sk_resp (sk_resp o) := call o.

Section handlers.
Context `{UdpHeader}.
(** Whether overflow checks are compiled in, and whether the log shows level Info
    (the arguments of a log line are evaluated only then). *)
Context (checks info : bool).

Definition buffer_size (max : Z) : outcome Z :=
  margin ← usize_sub checks Command.max_serialized_len header_max_len;
  usize_sub checks max margin.

Definition log_peer : sktask unit :=
  if info then _ <-? do_ PeerAddr;; mret (Ok tt)
  else mret (Ok tt).

(** connect.rs [handle] *)
Definition connect_handle (target_addr : Socks5Address) : sktask unit :=
  _ <-? log_peer;;
  let target_addr := relay_of_socks5 target_addr in
  let relay_req := new_connect target_addr in
  _ ← do_ (SendRequest relay_req);
  relay ← do_ AwaitRelay;
  match relay : option BiStream with
  | Some relay =>
      _ <-? do_ (SendReply Succeeded Socks5_unspecified);;
      _ <-? do_ (CopyBidirectional relay);;
      mret (Ok tt)
  | None =>
      _ <-? do_ (SendReply NetworkUnreachable Socks5_unspecified);;
      _ ← do_ Shutdown;
      mret (Ok tt)
  end.

(** bind.rs [handle] *)
Definition bind_handle (target_addr : Socks5Address) : sktask unit :=
  _ <-? log_peer;;
  _ <-? do_ (SendReply CommandNotSupported Socks5_unspecified);;
  _ ← do_ Shutdown;
  mret (Err (IoError Unsupported "BIND command is not supported")).

Definition ip_of (a : SocketAddr) : IpAddr :=
  match a with
  | V4 a => IpV4 (v4_ip a)
  | V6 a => IpV6 (v6_ip a)
  end.

(** associate.rs [handle] and its [bind_udp_socket] *)
Definition bind_udp_socket : sktask unit :=
  addr <-? do_ LocalAddr;;
  do_ (BindUdp (SocketAddr_from (ip_of addr) 0)).

Definition associate_handle (target_addr : Socks5Address) (random : Z) : sktask unit :=
  _ <-? log_peer;;
  bound ← (_ <-? bind_udp_socket;; do_ UdpLocalAddr : sktask SocketAddr);
  match bound with
  | Ok socket_addr =>
      _ ← do_ (SendRequest (new_associate random));
      _ <-? do_ (SendReply Succeeded (Socks5Socket socket_addr));;
      max ← do_ LoadMaxSize;
      buf_size ← or_panic (buffer_size max);
      ctrl_addr <-? do_ PeerAddr;;
      res ← do_ (RelayAssociation buf_size ctrl_addr);
      _ ← do_ Shutdown;
      _ <-? log_peer;;
      mret res
  | Err err =>
      _ <-? do_ (SendReply GeneralFailure Socks5_unspecified);;
      _ ← do_ Shutdown;
      mret (Err err)
  end.

(** What the handshake of a client yields, and [handle_connection] of mod.rs. *)
Inductive Handshake :=
| HConnect (addr : Socks5Address)
| HBind (addr : Socks5Address)
| HAssociate (addr : Socks5Address).

Definition handle_connection (handshake : result io_error Handshake) (random : Z) : sktask unit :=
  match handshake with
  | Err e => mret (Err e)
  | Ok (HConnect addr) => connect_handle addr
  | Ok (HBind addr) => bind_handle addr
  | Ok (HAssociate addr) => associate_handle addr random
  end.

End handlers.

(** ** Runs of a handler *)

(** The replies sent to the client, the requests sent to the relay and the streams
    copied, in order. *)
Definition replies (tr : list (event sk_resp)) : list (Reply * Socks5Address) :=
  omap (fun e => match ev_op e with SendReply r a => Some (r, a) | _ => None end) tr.
(** Those the connection accepted. *)
Definition delivered_replies (tr : list (event sk_resp)) : list Reply :=
  omap (fun e =>
    match ev_op e as o return sk_resp o -> option Reply with
    | SendReply r _ => fun x => match x with Ok _ => Some r | Err _ => None end
    | _ => fun _ => None
    end (ev_resp e)) tr.
Definition requests (tr : list (event sk_resp)) : list Request :=
  omap (fun e => match ev_op e with SendRequest r => Some r | _ => None end) tr.
Definition copied (tr : list (event sk_resp)) : list BiStream :=
  omap (fun e => match ev_op e with CopyBidirectional s => Some s | _ => None end) tr.

(** The only request a handler may send. *)
Definition request_of (handshake : result io_error Handshake) (random : Z) : list Request :=
  match handshake with
  | Ok (HConnect addr) => [ReqConnect (relay_of_socks5 addr)]
  | Ok (HAssociate _) => [ReqAssociate random]
  | _ => []
  end.

(** When a handler may report success. *)
Definition success_justified (handshake : result io_error Handshake) (addr : Socks5Address) (tr : list (event sk_resp)) : Prop :=
  match handshake with
  | Ok (HConnect _) => addr = Socks5_unspecified /\ exists stream, Event AwaitRelay (Some stream) ∈ tr
  | Ok (HAssociate _) => exists a, addr = Socks5Socket a /\ Event UdpLocalAddr (Ok a) ∈ tr
  | _ => False
  end.

(** A finished run: its trace is a list of known calls. *)
Ltac handler_done :=
  cbn; split_and!; intros;
  repeat match goal with
  | H : _ ∈ _ :: _ |- _ => apply elem_of_cons in H as [H|H]
  | H : _ ∈ [] |- _ => by apply elem_of_nil in H
  end; simplify_eq; unfold new_connect, new_associate in *;
  repeat match goal with
  | |- _ /\ _ => split
  | |- exists x, Event Shutdown x ∈ _ => eexists
  | |- exists x, Event AwaitRelay _ ∈ _ => eexists
  | |- exists a, Socks5Socket ?x = _ /\ _ => exists x
  end;
  first [done | lia | by apply prefix_nil | by repeat constructor | by set_solver].

(** C21: Whatever the control connection, the relay and the operating system answer,
    a socks5 client gets at most one reply to its command, and gets one unless
    its handler failed before. The relay receives at most one request, for the
    address the client asked for. Success is reported only for a [Connect] for
    which the relay handed out a stream, and for an association whose socket is
    bound, with the address of the socket; data is copied only from that stream
    and after the reply. After a refusal the control connection is shut down. *)
Theorem socks5_one_reply `{UdpHeader} checks info (env : environment sk_resp) handshake random r tr :
  perform env [] (handle_connection checks info handshake random) = (r, tr) ->
  (length (replies tr) <= 1)%nat
  /\ (r = Done (Ok tt) -> replies tr <> [])
  /\ requests tr `prefix_of` request_of handshake random
  /\ (forall addr, (Succeeded, addr) ∈ replies tr -> success_justified handshake addr tr)
  /\ (forall stream, stream ∈ copied tr ->
      replies tr = [(Succeeded, Socks5_unspecified)] /\ Event AwaitRelay (Some stream) ∈ tr)
  /\ (forall rep, rep ∈ delivered_replies tr -> rep <> Succeeded -> exists x, Event Shutdown x ∈ tr).
Proof.
  intros E. unfold handle_connection in E.
  destruct handshake as [[a|a|a]|e]; destruct info; simpl in E; unfold bind_udp_socket, or_panic in E;
    repeat (match type of E with context [match ?x with _ => _ end] => destruct x eqn:? end; simpl in E);
    injection E as <- <-; handler_done.
Qed.

(** ** An association *)

Definition Packet5 : Type := bytes * Socks5Address.

(** Where [socks5_to_relay] and [relay_to_socks5] are. *)
Inductive Up :=
| UpFirst
| UpRecvFrom
| UpSendFirst (pkt : bytes) (dst : RelayAddress) (src : SocketAddr)
| UpConnect (src : SocketAddr)
| UpNext
| UpRecv
| UpSend (pkt : bytes) (dst : RelayAddress).

Inductive Down :=
| DownRecv
| DownSend (pkt : bytes) (src : Socks5Address).

(** The association: the program counters, the UDP socket with what was sent through
    it, the two channels it shares with the relay with what the relay took out of the
    first. *)
Record Assoc := MkAssoc {
  up : Up;
  down : Down;
  max_packet_size : Z;
  socket_peer : option SocketAddr;
  to_relay : list (bytes * RelayAddress);
  to_relay_open : bool;
  from_relay : list (bytes * RelayAddress);
  from_relay_open : bool;
  sent_to_client : list (bytes * Z * Socks5Address);
  taken : list (bytes * RelayAddress);
  res : option (outcome (result io_error unit)) }.

Definition assoc_init (buf_size : Z) : Assoc :=
  MkAssoc UpFirst DownRecv buf_size None [] true [] true [] [] None.

Definition with_up (u : Up) (s : Assoc) :=
  MkAssoc u (down s) (max_packet_size s) (socket_peer s) (to_relay s) (to_relay_open s) (from_relay s)
    (from_relay_open s) (sent_to_client s) (taken s) (res s).
Definition with_down (d : Down) (s : Assoc) :=
  MkAssoc (up s) d (max_packet_size s) (socket_peer s) (to_relay s) (to_relay_open s) (from_relay s)
    (from_relay_open s) (sent_to_client s) (taken s) (res s).
Definition with_socket (size : Z) (peer : option SocketAddr) (s : Assoc) :=
  MkAssoc (up s) (down s) size peer (to_relay s) (to_relay_open s) (from_relay s) (from_relay_open s)
    (sent_to_client s) (taken s) (res s).
Definition with_to_relay (q : list (bytes * RelayAddress)) (o : bool) (s : Assoc) :=
  MkAssoc (up s) (down s) (max_packet_size s) (socket_peer s) q o (from_relay s) (from_relay_open s)
    (sent_to_client s) (taken s) (res s).
Definition with_from_relay (q : list (bytes * RelayAddress)) (o : bool) (s : Assoc) :=
  MkAssoc (up s) (down s) (max_packet_size s) (socket_peer s) (to_relay s) (to_relay_open s) q o
    (sent_to_client s) (taken s) (res s).
Definition with_sent (l : list (bytes * Z * Socks5Address)) (s : Assoc) :=
  MkAssoc (up s) (down s) (max_packet_size s) (socket_peer s) (to_relay s) (to_relay_open s) (from_relay s)
    (from_relay_open s) l (taken s) (res s).
Definition with_taken (l : list (bytes * RelayAddress)) (s : Assoc) :=
  MkAssoc (up s) (down s) (max_packet_size s) (socket_peer s) (to_relay s) (to_relay_open s) (from_relay s)
    (from_relay_open s) (sent_to_client s) l (res s).
Definition with_res (r : outcome (result io_error unit)) (s : Assoc) :=
  MkAssoc (up s) (down s) (max_packet_size s) (socket_peer s) (to_relay s) (to_relay_open s) (from_relay s)
    (from_relay_open s) (sent_to_client s) (taken s) (Some r).

(** What happens next: an awaited call of one of the three branches returns (the
    packet size the program finds, a received packet with its fragment number, the
    outcome of a call), or the relay acts on its ends of the channels. *)
Inductive assoc_event :=
| EvClosed
| EvLoad (max : Z)
| EvRecvFrom (r : result io_error (bytes * Z * Socks5Address * SocketAddr))
| EvRecv (r : result io_error (bytes * Z * Socks5Address))
| EvSend
| EvConnect (r : result io_error unit)
| EvDownRecv
| EvDownSend (r : result io_error unit)
| EvRelayTakes
| EvRelayStops
| EvRelayHands (pkt : bytes) (addr : RelayAddress)
| EvRelayDrops.

(** [pkt_send_tx.send((pkt, dst)).await], whose error is ignored: [None] while the
    channel is full. *)
Definition to_relay_send (pkt : bytes) (dst : RelayAddress) (s : Assoc) : option Assoc :=
  if negb (to_relay_open s) then Some s
  else if decide (length (to_relay s) < ch_capacity)%nat
  then Some (with_to_relay (to_relay s ++ [(pkt, dst)]) true s)
  else None.

Section association.
Context `{UdpHeader} (checks : bool).

(** Both loops of [socks5_to_relay] begin with the size of the buffer. *)
Definition refresh_size (max : Z) (next : Up) (s : Assoc) : Assoc :=
  match buffer_size checks max with
  | Done size => with_up next (with_socket size (socket_peer s) s)
  | Panic => with_res Panic s
  end.

(** One step of [socks5_to_relay]. *)
Definition up_step (ev : assoc_event) (s : Assoc) : option Assoc :=
  match up s, ev with
  | UpFirst, EvLoad max => Some (refresh_size max UpRecvFrom s)
  | UpRecvFrom, EvRecvFrom (Ok (pkt, frag, dst_addr, src_addr)) =>
      Some (if frag =? 0
            then with_up (UpSendFirst pkt (relay_of_socks5 dst_addr) src_addr) s
            else with_up UpFirst s)
  | UpRecvFrom, EvRecvFrom (Err e) => Some (with_res (Done (Err e)) s)
  | UpSendFirst pkt dst src, EvSend => s ← to_relay_send pkt dst s; Some (with_up (UpConnect src) s)
  | UpConnect src, EvConnect (Ok _) => Some (with_up UpNext (with_socket (max_packet_size s) (Some src) s))
  | UpConnect _, EvConnect (Err e) => Some (with_res (Done (Err e)) s)
  | UpNext, EvLoad max => Some (refresh_size max UpRecv s)
  | UpRecv, EvRecv (Ok (pkt, frag, dst_addr)) =>
      Some (if frag =? 0
            then with_up (UpSend pkt (relay_of_socks5 dst_addr)) s
            else with_up UpNext s)
  | UpRecv, EvRecv (Err e) => Some (with_res (Done (Err e)) s)
  | UpSend pkt dst, EvSend => s ← to_relay_send pkt dst s; Some (with_up UpNext s)
  | _, _ => None
  end.

(** One step of [relay_to_socks5]. *)
Definition down_step (ev : assoc_event) (s : Assoc) : option Assoc :=
  match down s, ev with
  | DownRecv, EvDownRecv =>
      match from_relay s with
      | (pkt, src_addr) :: q =>
          Some (with_down (DownSend pkt (socks5_of_relay src_addr)) (with_from_relay q (from_relay_open s) s))
      | [] => if from_relay_open s then None else Some (with_res (Done (Ok tt)) s)
      end
  | DownSend pkt src_addr, EvDownSend (Ok _) =>
      Some (with_down DownRecv (with_sent (sent_to_client s ++ [(pkt, 0, src_addr)]) s))
  | DownSend _ _, EvDownSend (Err e) => Some (with_res (Done (Err e)) s)
  | _, _ => None
  end.

(** The relay's ends: [process_request] takes packets until it stops, and
    [handle_packet_from] hands packets over until the session is removed. *)
Definition relay_step (ev : assoc_event) (s : Assoc) : option Assoc :=
  match ev with
  | EvRelayTakes =>
      match to_relay s with
      | p :: q => if to_relay_open s then Some (with_taken (taken s ++ [p]) (with_to_relay q true s)) else None
      | [] => None
      end
  | EvRelayStops => Some (with_to_relay [] false s)
  | EvRelayHands pkt addr =>
      if from_relay_open s && bool_decide (length (from_relay s) < ch_capacity)%nat
      then Some (with_from_relay (from_relay s ++ [(pkt, addr)]) true s)
      else None
  | EvRelayDrops => Some (with_from_relay (from_relay s) false s)
  | _ => None
  end.

(** The [select!] of [handle]: the first branch that ends decides. *)
Definition assoc_step (ev : assoc_event) (s : Assoc) : option Assoc :=
  match res s with
  | Some _ => None
  | None =>
      match ev with
      | EvClosed => Some (with_res (Done (Ok tt)) s)
      | EvLoad _ | EvRecvFrom _ | EvRecv _ | EvSend | EvConnect _ => up_step ev s
      | EvDownRecv | EvDownSend _ => down_step ev s
      | EvRelayTakes | EvRelayStops | EvRelayHands _ _ | EvRelayDrops => relay_step ev s
      end
  end.

Fixpoint assoc_run (evs : list assoc_event) (s : Assoc) : option Assoc :=
  match evs with
  | [] => Some s
  | ev :: evs => s ← assoc_step ev s; assoc_run evs s
  end.

(** ** Lemmas *)

Lemma relay_of_socks5_of_relay a : relay_of_socks5 (socks5_of_relay a) = a.
Proof. by destruct a. Qed.

Lemma margin_is_5 : usize_sub checks Command.max_serialized_len header_max_len = Done 5.
Proof. rewrite header_max. reflexivity. Qed.

Lemma buffer_size_enough max : 5 <= max -> buffer_size checks max = Done (max - 5).
Proof.
  intros Hm. unfold buffer_size. rewrite margin_is_5. cbn. unfold usize_sub. by rewrite (proj2 (Z.leb_le _ _)) by lia.
Qed.

Lemma buffer_size_small max :
  0 <= max < 5 -> buffer_size checks max = if checks then Panic else Done (2 ^ 64 + max - 5).
Proof.
  intros Hm. unfold buffer_size. rewrite margin_is_5. cbn. unfold usize_sub.
  rewrite (proj2 (Z.leb_gt _ _)) by lia. destruct checks; [done|]. f_equal. unfold as_uint.
  rewrite <- (Z.mod_add _ 1) by lia. rewrite Z.mod_small; lia.
Qed.

(** What the events say, whatever the association makes of them: the unfragmented
    packets that the client's datagrams carried (in socks5 UDP, fragment number 0),
    the senders of those that came before the socket was connected, and the packets
    the relay handed over. *)
Definition client_packet (ev : assoc_event) : option Packet5 :=
  match ev with
  | EvRecvFrom (Ok (pkt, frag, dst, _)) | EvRecv (Ok (pkt, frag, dst)) =>
      if decide (frag = 0) then Some (pkt, dst) else None
  | _ => None
  end.
Definition first_sender (ev : assoc_event) : option SocketAddr :=
  match ev with
  | EvRecvFrom (Ok (_, frag, _, src)) => if decide (frag = 0) then Some src else None
  | _ => None
  end.
Definition handed_packet (ev : assoc_event) : option (bytes * RelayAddress) :=
  match ev with
  | EvRelayHands pkt addr => Some (pkt, addr)
  | _ => None
  end.

Definition received (evs : list assoc_event) : list Packet5 := omap client_packet evs.
Definition senders (evs : list assoc_event) : list SocketAddr := omap first_sender evs.
Definition handed (evs : list assoc_event) : list (bytes * RelayAddress) := omap handed_packet evs.

(** The packets of the client as the relay gets them, and those of the relay as
    they are sent to the client. *)
Definition relayed (l : list Packet5) : list (bytes * RelayAddress) := prod_map id relay_of_socks5 <$> l.
Definition unsent (l : list (bytes * Z * Socks5Address)) : list (bytes * RelayAddress) :=
  (fun '(pkt, _, a) => (pkt, relay_of_socks5 a)) <$> l.

(** The packet a loop holds. *)
Definition up_pending (u : Up) : list (bytes * RelayAddress) :=
  match u with
  | UpSendFirst pkt dst _ | UpSend pkt dst => [(pkt, dst)]
  | _ => []
  end.
Definition down_pending (d : Down) : list (bytes * RelayAddress) :=
  match d with
  | DownSend pkt src => [(pkt, relay_of_socks5 src)]
  | DownRecv => []
  end.
Definition up_connected (u : Up) : bool :=
  match u with
  | UpNext | UpRecv | UpSend _ _ => true
  | _ => false
  end.

(** Where the loop keeps the sender of the first packet. *)
Definition sender_known (s : Assoc) : list SocketAddr :=
  match up s with
  | UpSendFirst _ _ src | UpConnect src => [src]
  | _ => option_list (socket_peer s)
  end.

Record assoc_inv (past : list assoc_event) (s : Assoc) : Prop := {
  inv_up : to_relay_open s = true -> relayed (received past) = taken s ++ to_relay s ++ up_pending (up s);
  inv_up_closed : taken s `prefix_of` relayed (received past);
  inv_down : handed past = unsent (sent_to_client s) ++ down_pending (down s) ++ from_relay s;
  inv_frag : Forall (fun p => p.1.2 = 0) (sent_to_client s);
  inv_to_cap : (length (to_relay s) <= ch_capacity)%nat;
  inv_from_cap : (length (from_relay s) <= ch_capacity)%nat;
  inv_peer : is_Some (socket_peer s) <-> up_connected (up s) = true;
  inv_sender : senders past = sender_known s }.

Lemma assoc_init_inv buf_size : assoc_inv [] (assoc_init buf_size).
Proof. split; simpl; try done; try lia; by constructor. Qed.

Lemma with_res_inv r past s : assoc_inv past s -> assoc_inv past (with_res r s).
Proof. by intros []; split. Qed.

(** Most events carry no packet. *)
Lemma quiet_inv ev past s :
  client_packet ev = None -> first_sender ev = None -> handed_packet ev = None ->
  assoc_inv past s -> assoc_inv (past ++ [ev]) s.
Proof.
  intros H1 H2 H3 []. split; try done; unfold received, senders, handed in *;
    rewrite omap_app; simpl; by rewrite ?H1, ?H2, ?H3, app_nil_r.
Qed.

Lemma refresh_inv max u past s :
  assoc_inv past s -> up_pending u = up_pending (up s) -> up_connected u = up_connected (up s) ->
  sender_known (with_up u s) = sender_known s -> assoc_inv past (refresh_size max u s).
Proof.
  intros Hi Hp Hc Hs. unfold refresh_size. destruct (buffer_size checks max) as [size|]; [|by apply with_res_inv].
  destruct Hi. split; simpl; auto; [by rewrite Hp|by rewrite Hc|]. by rewrite inv_sender0, <- Hs.
Qed.

Lemma received_inv ev pkt dst u past s :
  client_packet ev = Some (pkt, dst) -> handed_packet ev = None ->
  option_list (first_sender ev) ++ sender_known s = sender_known (with_up u s) ->
  (sender_known s = [] \/ first_sender ev = None) ->
  assoc_inv past s -> up_pending (up s) = [] -> up_pending u = [(pkt, relay_of_socks5 dst)] ->
  up_connected u = up_connected (up s) -> assoc_inv (past ++ [ev]) (with_up u s).
Proof.
  intros H1 H3 H2 H4 Hi Hp Hu Hc. destruct Hi.
  assert (relayed (received (past ++ [ev])) = relayed (received past) ++ [(pkt, relay_of_socks5 dst)]) as Hr.
  { unfold relayed, received. rewrite omap_app, fmap_app. simpl. by rewrite H1. }
  split; simpl; auto.
  - intros Ho. rewrite Hr, Hu, inv_up0 by done. rewrite Hp. by simplify_list_eq.
  - rewrite Hr. by apply prefix_app_r.
  - unfold handed in *. rewrite omap_app. simpl. by rewrite H3, app_nil_r.
  - by rewrite Hc.
  - rewrite <- H2. unfold senders in *. rewrite omap_app, inv_sender0. simpl.
    destruct H4 as [->| ->]; [by destruct (first_sender ev)|by rewrite app_nil_r].
Qed.

Lemma to_relay_send_inv pkt dst u past s s' :
  assoc_inv past s -> up_pending (up s) = [(pkt, dst)] -> up_pending u = [] -> up_connected u = up_connected (up s) ->
  sender_known (with_up u s) = sender_known s ->
  to_relay_send pkt dst s = Some s' -> assoc_inv past (with_up u s').
Proof.
  intros Hi Hp Hu Hc Hs E. unfold to_relay_send in E. destruct Hi. destruct (to_relay_open s) eqn:Eo; simpl in E.
  - case_decide as Hl; simplify_eq. split; simpl; auto.
    + intros _. rewrite inv_up0 by done. rewrite Hp, Hu. by simplify_list_eq.
    + rewrite length_app. simpl. lia.
    + by rewrite Hc.
    + by rewrite inv_sender0, <- Hs.
  - simplify_eq. split; simpl; auto; [congruence|by rewrite Hc|]. by rewrite inv_sender0, <- Hs.
Qed.

(** A fragment is left out. *)
Lemma fragment_inv ev u past s :
  client_packet ev = None -> first_sender ev = None -> handed_packet ev = None ->
  assoc_inv past s -> up_pending u = up_pending (up s) -> up_connected u = up_connected (up s) ->
  sender_known (with_up u s) = sender_known s -> assoc_inv (past ++ [ev]) (with_up u s).
Proof.
  intros H1 H2 H3 Hi Hp Hc Hs. apply quiet_inv; [done..|]. destruct Hi.
  split; simpl; auto; [by rewrite Hp|by rewrite Hc|by rewrite inv_sender0].
Qed.

Lemma up_step_inv ev past s s' : assoc_inv past s -> up_step ev s = Some s' -> assoc_inv (past ++ [ev]) s'.
Proof.
  intros Hi E. unfold up_step in E. destruct (up s) eqn:Eu; destruct ev as [|max|r|r| |r| | | | | | ]; try done;
    assert (is_Some (socket_peer s) <-> up_connected (up s) = true) as Hpeer by apply Hi; rewrite Eu in Hpeer.
  - simplify_eq. apply quiet_inv; [done..|]. apply refresh_inv; unfold sender_known; simpl; by rewrite ?Eu.
  - destruct r as [[[[pkt frag] dst] src]|e]; simplify_eq; [|by apply quiet_inv, with_res_inv].
    assert (sender_known s = []) as Hs0.
    { unfold sender_known. rewrite Eu. destruct (socket_peer s) eqn:Ep; [|done]. by pose proof (proj1 Hpeer (mk_is_Some _ _ eq_refl)). }
    destruct (frag =? 0) eqn:Ef.
    + apply Z.eqb_eq in Ef as ->. apply (received_inv _ pkt dst); simpl; rewrite ?Eu, ?Hs0; auto.
    + apply Z.eqb_neq in Ef. apply fragment_inv; simpl; rewrite ?decide_False, ?Eu by done; auto.
      unfold sender_known. simpl. by rewrite Eu.
  - apply bind_Some in E as (s1 & E1 & [= <-]). apply quiet_inv; [done..|].
    eapply to_relay_send_inv; [done|..|done]; unfold sender_known; simpl; by rewrite ?Eu.
  - destruct r as [[]|e]; simplify_eq; [|by apply quiet_inv, with_res_inv]. apply quiet_inv; [done..|].
    destruct Hi. unfold sender_known in *. rewrite Eu in *. split; simpl; auto. split; eauto.
  - simplify_eq. apply quiet_inv; [done..|]. apply refresh_inv; unfold sender_known; simpl; by rewrite ?Eu.
  - destruct r as [[[pkt frag] dst]|e]; simplify_eq; [|by apply quiet_inv, with_res_inv].
    assert (forall pkt dst, sender_known (with_up (UpSend pkt dst) s) = sender_known s
      /\ sender_known (with_up UpNext s) = sender_known s) as Hs0.
    { intros. unfold sender_known. simpl. by rewrite Eu. }
    destruct (frag =? 0) eqn:Ef.
    + apply Z.eqb_eq in Ef as ->. apply (received_inv _ pkt dst); simpl; rewrite ?Eu; auto.
      symmetry. exact (proj1 (Hs0 _ _)).
    + apply Z.eqb_neq in Ef. apply fragment_inv; simpl; rewrite ?decide_False, ?Eu by done; auto.
      exact (proj2 (Hs0 [] (RelayDomain [] 0))).
  - apply bind_Some in E as (s1 & E1 & [= <-]). apply quiet_inv; [done..|].
    eapply to_relay_send_inv; [done|..|done]; unfold sender_known; simpl; by rewrite ?Eu.
Qed.

Lemma down_step_inv ev past s s' : assoc_inv past s -> down_step ev s = Some s' -> assoc_inv (past ++ [ev]) s'.
Proof.
  intros Hi E. unfold down_step in E. destruct (down s) eqn:Ed; destruct ev as [| | | | | | |r| | | | ]; try done;
    (apply quiet_inv; [done..|]).
  - destruct (from_relay s) as [|[pkt src] q] eqn:Ef; [case_match; simplify_eq; by apply with_res_inv|].
    simplify_eq. destruct Hi. split; simpl; auto.
    + rewrite inv_down0, Ed, Ef, relay_of_socks5_of_relay. done.
    + rewrite Ef in *. simpl in *. lia.
  - destruct r as [[]|e]; simplify_eq; [|by apply with_res_inv]. destruct Hi. split; simpl; auto.
    + rewrite inv_down0, Ed. unfold unsent. rewrite fmap_app. by simplify_list_eq.
    + by apply Forall_app; split; [|repeat constructor].
Qed.

Lemma relay_step_inv_assoc ev past s s' : assoc_inv past s -> relay_step ev s = Some s' -> assoc_inv (past ++ [ev]) s'.
Proof.
  intros Hi E. unfold relay_step in E. destruct ev as [| | | | | | | | | |pkt addr| ]; try done;
    try (apply quiet_inv; [done..|]).
  - destruct (to_relay s) as [|p q] eqn:Eq; [done|]. destruct (to_relay_open s) eqn:Eo; simplify_eq.
    destruct Hi. split; simpl; auto.
    + intros _. rewrite inv_up0 by done. by rewrite Eq, <- app_assoc.
    + rewrite inv_up0 by done. rewrite Eq. exists (q ++ up_pending (up s)). by rewrite <- app_assoc.
    + rewrite Eq in *. simpl in *. lia.
  - simplify_eq. destruct Hi. split; simpl; auto; [done|lia].
  - case_match eqn:Ec; simplify_eq. apply andb_true_iff in Ec as [Eo Hl]. apply bool_decide_eq_true in Hl.
    destruct Hi. unfold received, senders, handed in *. split; unfold received, senders, handed; rewrite ?omap_app; simpl;
      rewrite ?app_nil_r; auto.
    + rewrite inv_down0. by simplify_list_eq.
    + rewrite length_app. simpl. lia.
  - simplify_eq. destruct Hi. by split.
Qed.

Lemma assoc_step_inv ev past s s' : assoc_inv past s -> assoc_step ev s = Some s' -> assoc_inv (past ++ [ev]) s'.
Proof.
  intros Hi E. unfold assoc_step in E. destruct (res s); [done|].
  destruct ev; eauto using up_step_inv, down_step_inv, relay_step_inv_assoc. simplify_eq. by apply quiet_inv, with_res_inv.
Qed.

Lemma assoc_run_inv evs past s s' : assoc_inv past s -> assoc_run evs s = Some s' -> assoc_inv (past ++ evs) s'.
Proof.
  revert past s. induction evs as [|ev evs IH]; intros past s Hi E; simpl in E; [by simplify_eq; rewrite app_nil_r|].
  apply bind_Some in E as (s1 & E1 & E). rewrite cons_middle, app_assoc. eauto using assoc_step_inv.
Qed.

Lemma assoc_reached evs buf_size s : assoc_run evs (assoc_init buf_size) = Some s -> assoc_inv evs s.
Proof. apply (assoc_run_inv evs []), assoc_init_inv. Qed.

(** A buffer size that underflows is the only panic. *)
Lemma refresh_panic max u s :
  res s = None -> res (refresh_size max u s) = Some Panic -> max < 5.
Proof.
  intros Hn E. unfold refresh_size in E. destruct (Z.lt_ge_cases max 5) as [|Hm]; [done|].
  rewrite buffer_size_enough in E by done. simpl in E. congruence.
Qed.

Lemma assoc_step_panic ev s s' :
  assoc_step ev s = Some s' -> res s' = Some Panic -> exists max, ev = EvLoad max /\ max < 5.
Proof.
  intros E Hp. unfold assoc_step in E. destruct (res s) eqn:Er; [done|].
  assert (forall pkt dst s1, to_relay_send pkt dst s = Some s1 -> res s1 = None) as Hsend.
  { intros pkt dst s1. unfold to_relay_send. intros. repeat case_match; by simplify_eq. }
  destruct ev; unfold up_step, down_step, relay_step in E; repeat (case_match; simplify_eq/=; try congruence);
    try (apply bind_Some in E as (s1 & E1 & [= <-]); apply Hsend in E1; simpl in Hp; congruence);
    simplify_eq/=; try congruence; eauto using refresh_panic.
Qed.

Lemma assoc_run_panic evs s s' :
  res s = None -> assoc_run evs s = Some s' -> res s' = Some Panic -> exists max, EvLoad max ∈ evs /\ max < 5.
Proof.
  revert s. induction evs as [|ev evs IH]; intros s Hn E Hp; simpl in E; [congruence|].
  apply bind_Some in E as (s1 & E1 & E). destruct (res s1) as [r|] eqn:Er1.
  - destruct evs as [|ev' evs]; simpl in E; [|unfold assoc_step in E; by rewrite Er1 in E]. simplify_eq.
    destruct (assoc_step_panic _ _ _ E1) as (max & -> & Hm); [congruence|]. exists max. split; [left|done].
  - destruct (IH _ Er1 E Hp) as (max & Hin & Hm). exists max. split; [by right|done].
Qed.

(** ** Properties of associations *)

(** C20: At any point of an association, whatever comes from the client, the relay and
    the operating system and in whatever order: the packets that the client's
    datagrams carried unfragmented have gone to the relay in order, none lost,
    doubled or changed, except the one the loop holds and the one in the channel
    (while the relay listens; when it stopped, those it took are still the first
    ones), and no fragment has; the packets the relay handed over have been sent to
    the client in order, as fragment 0 with the relay's address, except the one the
    loop holds and the one in the channel; after the first packet the socket is
    connected to the sender of that packet. The association panics only when the
    program's maximum packet size was found below 5. *)
Theorem association_relays_in_order buf_size evs s :
  assoc_run evs (assoc_init buf_size) = Some s ->
  (to_relay_open s = true -> relayed (received evs) = taken s ++ to_relay s ++ up_pending (up s))
  /\ taken s `prefix_of` relayed (received evs)
  /\ handed evs = unsent (sent_to_client s) ++ down_pending (down s) ++ from_relay s
  /\ Forall (fun p => p.1.2 = 0) (sent_to_client s)
  /\ (length (to_relay s) <= 1)%nat /\ (length (from_relay s) <= 1)%nat
  /\ (is_Some (socket_peer s) <-> up_connected (up s) = true)
  /\ (up_connected (up s) = true -> exists src, senders evs = [src] /\ socket_peer s = Some src)
  /\ (res s = Some Panic -> exists max, EvLoad max ∈ evs /\ max < 5).
Proof.
  intros E. destruct (assoc_reached _ _ _ E). split_and!; auto; try tauto.
  - intros Hu. destruct (proj2 inv_peer0 Hu) as [src Hsrc]. exists src. split; [|done]. rewrite inv_sender0.
    unfold sender_known. rewrite Hsrc. by destruct (up s).
  - by apply (assoc_run_panic _ (assoc_init buf_size)).
Qed.

(** C22: A socks5 packet that fits the receive buffer becomes a datagram of at most
    the size the buffer was computed from: the buffer leaves room for exactly the
    difference between the headers of the two protocols. When the program's
    maximum packet size is below 5 the computation underflows: a panic where
    overflow checks are compiled in, a buffer of almost 2^64 bytes otherwise. *)
Theorem socks5_packet_fits_datagram :
  (forall tid id max pkt dst sc l,
     5 <= max -> datagram_answers (cli_net sc) = Ok tt :: l ->
     exists size, buffer_size checks max = Done size
     /\ (header_len dst + blen pkt <= size ->
         exists sc' d, run tid (handle_packet_to id pkt (relay_of_socks5 dst) Native) sc = RunDone tt sc'
         /\ datagrams_sent (cli_controller sc') = datagrams_sent (cli_controller sc) ++ [d]
         /\ blen d = header_len dst + blen pkt + 5 /\ blen d <= max))
  /\ forall max, 0 <= max < 5 -> buffer_size checks max = if checks then Panic else Done (2 ^ 64 + max - 5).
Proof.
  split; [|apply buffer_size_small]. intros tid id max pkt dst sc l Hm Hl. exists (max - 5).
  split; [by apply buffer_size_enough|]. intros Hs.
  destruct (client_packet_sent tid sc id pkt (relay_of_socks5 dst)) as [Hn _].
  destruct (Hn l Hl) as (sc' & E & Hc & _). eexists sc', _. split; [exact E|]. rewrite Hc. split; [reflexivity|].
  rewrite blen_app, Command_write_shape. autorewrite with tuic. rewrite Address_write_length.
  destruct dst as [[a|a]|d p]; simpl; rewrite ?header_len_domain, ?header_len_v4, ?header_len_v6 in *;
    unfold Address.serialized_len; lia.
Qed.

End association.

(** ** Witnesses *)

(** The header of RFC 1928. *)
#[export] Instance rfc1928 : UdpHeader.
Proof.
  refine {|
    header_len a :=
      match a with
      | Socks5Domain d _ => 3 + (1 + 1 + blen d + 2)
      | Socks5Socket (V4 _) => 3 + (1 + 4 + 2)
      | Socks5Socket (V6 _) => 3 + (1 + 16 + 2)
      end;
    header_max_len := 262 |}; done.
Defined.

Definition example_dst : Socks5Address := Socks5Domain [97] 53.
Definition example_src : SocketAddr := V4 (MkSocketAddrV4 Ipv4_LOCALHOST 5000).

(** A fragment that is ignored, a packet each way, and a maximum size of 4. *)
Definition example_events : list assoc_event :=
  [EvLoad 1500; EvRecvFrom (Ok ([1; 2], 1, example_dst, example_src)); EvLoad 1500;
   EvRecvFrom (Ok ([1; 2], 0, example_dst, example_src)); EvSend; EvRelayTakes; EvConnect (Ok tt);
   EvRelayHands [3] (RelayDomain [97] 53); EvDownRecv; EvDownSend (Ok tt); EvLoad 4].
Definition example_assoc : Assoc := default (assoc_init 0) (assoc_run true example_events (assoc_init 1495)).

Lemma association_relays_in_order_witness :
  relayed (received example_events) = taken example_assoc
  /\ taken example_assoc = [([1; 2], RelayDomain [97] 53)]
  /\ (exists max, EvLoad max ∈ example_events /\ max < 5).
Proof.
  destruct (association_relays_in_order true 1495 example_events example_assoc)
    as (H1 & _ & _ & _ & _ & _ & _ & _ & H2); [by vm_compute|].
  split; [by rewrite H1 by by vm_compute|]. split; [by vm_compute|]. apply H2. by vm_compute.
Defined.

(** The relay hands out a stream, and everything else succeeds. *)
Definition example_env : environment sk_resp := fun _ o =>
  match o with
  | PeerAddr | LocalAddr | UdpLocalAddr => Ok example_src
  | SendReply _ _ | Shutdown | CopyBidirectional _ | BindUdp _ | RelayAssociation _ _ => Ok tt
  | SendRequest _ => tt
  | AwaitRelay => Some (0%nat, MkRecvStream [] None)
  | LoadMaxSize => 1500
  end.

Definition example_trace : list (event sk_resp) :=
  snd (perform example_env [] (handle_connection true true (Ok (HConnect example_dst)) 7)).

Lemma socks5_one_reply_witness :
  replies example_trace = [(Succeeded, Socks5_unspecified)]
  /\ success_justified (Ok (HConnect example_dst)) Socks5_unspecified example_trace
  /\ replies (snd (perform example_env [] (handle_connection true true (Ok (HBind example_dst)) 7)))
     = [(CommandNotSupported, Socks5_unspecified)].
Proof.
  split; [reflexivity|]. split; [|reflexivity].
  destruct (socks5_one_reply true true example_env (Ok (HConnect example_dst)) 7 (Done (Ok tt)) example_trace)
    as (_ & _ & _ & H & _); [reflexivity|]. apply H. by left.
Defined.

Lemma socks5_packet_fits_datagram_witness :
  let sc := cli_new Native 1500 (Some 1200) (MkCliNet [] [] [Ok tt]) ∅ in
  exists sc' d, run 0%nat (handle_packet_to 7 [1; 2] (relay_of_socks5 example_dst) Native) sc = RunDone tt sc'
    /\ datagrams_sent (cli_controller sc') = [d] /\ blen d = 15 /\ blen d <= 1200.
Proof.
  intros sc. destruct (proj1 (socks5_packet_fits_datagram true) 0%nat 7 1200 [1; 2] example_dst sc [])
    as (size & Hs & Hf); [lia|reflexivity|]. vm_compute in Hs. injection Hs as <-.
  destruct Hf as (sc' & d & E & Hd & Hl & Hm); [by vm_compute|]. exists sc', d. by split_and!.
Defined.
