(* ===== verification/UdpPath.v ===== *)
(** * UDP from the application to the server's session

    The association of the local socks5 server, the request it makes to the relay, the
    tasks that request starts and the server put together: what an application sends
    to the UDP socket of its association is what the server's session of that
    association sends. *)

From S2P Require Import Prelude RustIo Protocol Async Quic ServerAuth ServerUdp ServerConn ServerTask ServerScenario.
From S2P Require Import ServerHandlers ClientConn ClientTask ClientHandlers EndToEnd Socks5.

Local Open Scope Z_scope.



(** ** The tasks of the packets, in any order of their steps *)

Abbreviation relay_packet := (Z * bytes * RelayAddress)%type.



(** Only the tasks move. *)
Abbreviation task_steps :=
  (steps (fun _ _ : CliConn => False) (fun (_ : CliConn) (_ : ctask unit) (_ : CliConn) => False)).









(** ** The server, datagram by datagram *)










(** ** The whole way *)







