(* ===== verification/ConfigLib.v ===== *)
(** * What the configurations of the server and of the client share

    The parts of the Rust standard library they use ([eq_ignore_ascii_case],
    the [parse] of integers and of IP addresses), the command line parser
    [getopts] as an interface with its documented laws, and the congestion
    controllers. *)

From S2P Require Import Prelude RustIo.

Local Open Scope Z_scope.

(** ** Strings *)

Definition code (c : Ascii.ascii) : Z := Z.of_N (Ascii.N_of_ascii c).
Definition chars (s : string) : list Z := code <$> String.list_ascii_of_string s.

(** [u8::to_ascii_lowercase] and [str::eq_ignore_ascii_case]. *)
Definition to_lower (c : Z) : Z := if (65 <=? c) && (c <=? 90) then c + 32 else c.

Definition eq_ignore_ascii_case (a b : string) : bool :=
  bool_decide (to_lower <$> chars a = to_lower <$> chars b).

(** ** Integers: [u16::from_str] and the like *)

Inductive ParseIntError :=
| IntEmpty
| IntInvalidDigit
| IntPosOverflow.

Definition to_digit (radix c : Z) : option Z :=
  let d :=
    if (48 <=? c) && (c <=? 57) then Some (c - 48)
    else if (97 <=? to_lower c) && (to_lower c <=? 122) then Some (to_lower c - 97 + 10)
    else None in
  d ← d; if d <? radix then Some d else None.

(** [checked_mul] and [checked_add] at the width [w]. *)
Definition checked (w x : Z) : option Z := if x <? 2 ^ w then Some x else None.

Fixpoint parse_digits (w : Z) (cs : list Z) (acc : Z) : result ParseIntError Z :=
  match cs with
  | [] => Ok acc
  | c :: cs =>
      let mul := checked w (acc * 10) in
      x ← ok_or (to_digit 10 c) IntInvalidDigit;
      acc ← ok_or mul IntPosOverflow;
      acc ← ok_or (checked w (acc + x)) IntPosOverflow;
      parse_digits w cs acc
  end.

Definition parse_uint (w : Z) (s : string) : result ParseIntError Z :=
  match chars s with
  | [] => Err IntEmpty
  | [43] | [45] => Err IntInvalidDigit
  | 43 :: cs => parse_digits w cs 0
  | cs => parse_digits w cs 0
  end.

(** The value of a list of digits. *)
Definition digits_value (cs : list Z) (acc : Z) : Z := foldl (fun acc c => acc * 10 + (c - 48)) acc cs.

Lemma digits_value_ge cs acc :
  0 <= acc -> Forall (fun c => 48 <= c <= 57) cs -> acc <= digits_value cs acc.
Proof.
  revert acc. induction cs as [|c cs IH]; intros acc Ha Hc; [done|]. apply Forall_cons in Hc as [Hc Hcs].
  unfold digits_value in *. simpl. specialize (IH (acc * 10 + (c - 48)) ltac:(lia) Hcs). lia.
Qed.

Lemma to_digit_10 c : 48 <= c <= 57 -> to_digit 10 c = Some (c - 48).
Proof.
  intros Hc. unfold to_digit. rewrite !(proj2 (Z.leb_le _ _)) by lia. simpl.
  by rewrite (proj2 (Z.ltb_lt _ _)) by lia.
Qed.

Lemma to_digit_10_inv c x : to_digit 10 c = Some x -> 48 <= c <= 57 /\ x = c - 48.
Proof.
  unfold to_digit. destruct ((48 <=? c) && (c <=? 57)) eqn:E1; simpl.
  - bool_to_prop. case_match; intros; simplify_eq. lia.
  - destruct ((97 <=? to_lower c) && (to_lower c <=? 122)) eqn:E2; simpl; [|done]. bool_to_prop.
    by rewrite (proj2 (Z.ltb_ge _ _)) by lia.
Qed.

(** The parser of integers accepts exactly the digit strings whose value fits. *)
Lemma parse_digits_spec w cs acc :
  0 <= acc < 2 ^ w ->
  forall n, parse_digits w cs acc = Ok n <->
    Forall (fun c => 48 <= c <= 57) cs /\ digits_value cs acc = n /\ n < 2 ^ w.
Proof.
  revert acc. induction cs as [|c cs IH]; intros acc Ha n; simpl.
  - split; [intros [= <-]; split_and!; auto; lia|]. by intros (_ & <- & _).
  - split.
    + destruct (to_digit 10 c) as [x|] eqn:Ed; simpl; [|done]. apply to_digit_10_inv in Ed as [Hc ->].
      unfold checked. destruct (acc * 10 <? 2 ^ w) eqn:E1; simpl; [|done].
      destruct (acc * 10 + (c - 48) <? 2 ^ w) eqn:E2; simpl; [|done]. bool_to_prop.
      rewrite IH by lia. intros (H1 & H2 & H3). split_and!; auto.
    + intros (Hcs & Hv & Hn). apply Forall_cons in Hcs as [Hc Hcs]. rewrite (to_digit_10 c Hc). simpl.
      pose proof (digits_value_ge cs (acc * 10 + (c - 48)) ltac:(lia) Hcs) as Hge.
      unfold digits_value in *. simpl in Hv. rewrite Hv in Hge. unfold checked.
      rewrite (proj2 (Z.ltb_lt (acc * 10) _)) by lia. simpl.
      rewrite (proj2 (Z.ltb_lt (acc * 10 + _) _)) by lia. simpl. apply IH; [lia|]. auto.
Qed.

(** ** IP addresses: [IpAddr::from_str] *)

(** A parser returns what it read and the rest, or leaves its input alone. *)
Definition ip_parser (A : Type) : Type := list Z -> option (A * list Z).

(** Digits as long as there are some: the value at the width [w], which must not
    overflow, and their number, which must not exceed [max]. *)
Fixpoint read_digits (radix w : Z) (max : nat) (cs : list Z) (acc : Z) (count : nat) : option (Z * nat * list Z) :=
  match cs with
  | c :: cs' =>
      match to_digit radix c with
      | Some d =>
          acc ← checked w (acc * radix);
          acc ← checked w (acc + d);
          if (max <? S count)%nat then None else read_digits radix w max cs' acc (S count)
      | None => Some (acc, count, cs)
      end
  | [] => Some (acc, count, [])
  end.

Definition read_number (radix w : Z) (max : nat) (allow_zero_prefix : bool) : ip_parser Z := fun cs =>
  let has_leading_zero := bool_decide (head cs = Some 48) in
  '(n, count, rest) ← read_digits radix w max cs 0 0;
  if (count =? 0)%nat then None
  else if negb allow_zero_prefix && has_leading_zero && (1 <? count)%nat then None
  else Some (n, rest).

Definition read_given_char (c : Z) : ip_parser unit := fun cs =>
  match cs with
  | c' :: cs => if c' =? c then Some (tt, cs) else None
  | [] => None
  end.

Definition read_separator {A} (sep : Z) (index : nat) (inner : ip_parser A) : ip_parser A := fun cs =>
  match index with
  | O => inner cs
  | S _ => '(_, cs) ← read_given_char sep cs; inner cs
  end.

Definition read_ipv4_addr : ip_parser Ipv4Addr := fun cs =>
  let octet i := read_separator 46 i (read_number 10 8 3 false) in
  '(a, cs) ← octet 0%nat cs;
  '(b, cs) ← octet 1%nat cs;
  '(c, cs) ← octet 2%nat cs;
  '(d, cs) ← octet 3%nat cs;
  Some (MkIpv4 a b c d, cs).

(** [read_groups] into the remaining [n] slots, the next one having the index [i]:
    the groups read, whether they end in an IPv4 address, and the rest. *)
Fixpoint read_groups (n i : nat) (cs : list Z) : list Z * bool * list Z :=
  match n with
  | O => ([], false, cs)
  | S n =>
      let ipv4 := match n with O => None | S _ => read_separator 58 i read_ipv4_addr cs end in
      match ipv4 with
      | Some (ip, cs) => ([v4_a ip * 256 + v4_b ip; v4_c ip * 256 + v4_d ip], true, cs)
      | None =>
          match read_separator 58 i (read_number 16 16 4 true) cs with
          | Some (g, cs) => let '(gs, v4, cs) := read_groups n (S i) cs in (g :: gs, v4, cs)
          | None => ([], false, cs)
          end
      end
  end.

Definition ipv6_of_groups (gs : list Z) : option Ipv6Addr :=
  match gs with
  | [a; b; c; d; e; f; g; h] => Some (MkIpv6 a b c d e f g h)
  | _ => None
  end.

Definition read_ipv6_addr : ip_parser Ipv6Addr := fun cs =>
  let '(hd, head_ipv4, cs) := read_groups 8 0 cs in
  if (length hd =? 8)%nat then ip ← ipv6_of_groups hd; Some (ip, cs)
  else if head_ipv4 then None
  else
    '(_, cs) ← read_given_char 58 cs;
    '(_, cs) ← read_given_char 58 cs;
    let '(tl, _, cs) := read_groups (8 - (length hd + 1)) 0 cs in
    ip ← ipv6_of_groups (hd ++ replicate (8 - length hd - length tl) 0 ++ tl);
    Some (ip, cs).

Inductive AddrParseError := AddrParseErrorIp.

Definition parse_ip (s : string) : result AddrParseError IpAddr :=
  let parsed :=
    match read_ipv4_addr (chars s) with
    | Some (ip, rest) => Some (IpV4 ip, rest)
    | None =>
        match read_ipv6_addr (chars s) with
        | Some (ip, rest) => Some (IpV6 ip, rest)
        | None => None
        end
    end in
  match parsed with
  | Some (ip, []) => Ok ip
  | _ => Err AddrParseErrorIp
  end.

Example parse_ip_v4 : parse_ip "127.0.0.1" = Ok (IpV4 (MkIpv4 127 0 0 1)).
Proof. reflexivity. Qed.
Example parse_ip_v6 : parse_ip "fe80::1:192.0.2.1" = Ok (IpV6 (MkIpv6 0xfe80 0 0 0 0 1 0xc000 0x201)).
Proof. reflexivity. Qed.
Example parse_ip_any : parse_ip "::" = Ok (IpV6 Ipv6_UNSPECIFIED).
Proof. reflexivity. Qed.
Example parse_ip_bad : parse_ip "1.2.3.04" = Err AddrParseErrorIp.
Proof. reflexivity. Qed.

(** ** The command line: getopts *)

(** An option with an argument ([optopt]) or without ([optflag]); its help texts
    are left out. *)
Inductive Opt :=
| OptOpt (short long : string)
| OptFlag (short long : string).

#[export] Instance Opt_eq_dec : EqDecision Opt.
Proof. solve_decision. Defined.

(** What the program uses of getopts, with the laws its documentation states: the
    value of an option is the first of its values, and an option declared with
    [optopt] may be given at most once. *)
Class Getopts := {
  Matches : Type;
  Fail : Type;
  opts_parse : list Opt -> list string -> result Fail Matches;
  usage : list Opt -> string -> string;
  opt_present : Matches -> string -> bool;
  opt_strs : Matches -> string -> list string;
  opt_str : Matches -> string -> option string;
  free : Matches -> list string;
  opt_str_first : forall m name, opt_str m name = head (opt_strs m name);
  optopt_once : forall opts args m short long,
    opts_parse opts args = Ok m -> OptOpt short long ∈ opts -> (length (opt_strs m long) <= 1)%nat }.

(** A parser of long options only, to run the program on examples. *)
Module LongOptions.

Record matches := MkMatches {
  vals : gmap string string;
  flags : gset string;
  rest : list string }.

Definition long_name (o : Opt) : string :=
  match o with
  | OptOpt _ l | OptFlag _ l => l
  end.

Definition declared (arg : string) (opts : list Opt) : option Opt :=
  snd <$> list_find (fun o => arg = ("--" +:+ long_name o)%string) opts.

Fixpoint parse (opts : list Opt) (args : list string) (m : matches) : result string matches :=
  match args with
  | [] => Ok m
  | a :: args =>
      match declared a opts with
      | Some (OptFlag _ l) => parse opts args (MkMatches (vals m) ({[l]} ∪ flags m) (rest m))
      | Some (OptOpt _ l) =>
          match args with
          | [] => Err ("Argument to option '" +:+ l +:+ "' missing")%string
          | v :: args =>
              match vals m !! l with
              | Some _ => Err ("Option '" +:+ l +:+ "' given more than once")%string
              | None => parse opts args (MkMatches (<[l := v]> (vals m)) (flags m) (rest m))
              end
          end
      | None => parse opts args (MkMatches (vals m) (flags m) (rest m ++ [a]))
      end
  end.

End LongOptions.

Definition long_options : Getopts.
Proof.
  refine {|
    Matches := LongOptions.matches;
    Fail := string;
    opts_parse opts args := LongOptions.parse opts args (LongOptions.MkMatches ∅ ∅ []);
    usage _ name := name;
    opt_present m l := bool_decide (l ∈ LongOptions.flags m);
    opt_strs m l := option_list (LongOptions.vals m !! l);
    opt_str m l := LongOptions.vals m !! l;
    free := LongOptions.rest |}.
  - intros m l. by destruct (LongOptions.vals m !! l).
  - intros opts args m short long _ _. destruct (LongOptions.vals m !! long); simpl; lia.
Defined.

(** ** Congestion controllers *)

Inductive CongestionController :=
| Cubic
| NewReno
| Bbr.

Definition parse_congestion_controller (s : string) : option CongestionController :=
  if eq_ignore_ascii_case s "cubic" then Some Cubic
  else if eq_ignore_ascii_case s "new_reno" || eq_ignore_ascii_case s "newreno" then Some NewReno
  else if eq_ignore_ascii_case s "bbr" then Some Bbr
  else None.

(** [Duration], in milliseconds. *)
Definition Duration_from_secs (s : Z) : Z := s * 1000.

(** ** Code that returns errors and may panic *)

(** The [?] operator and [unwrap], in code that returns a [Result]. *)
Definition attempt {E A B} (m : result E A) (k : A -> outcome (result E B)) : outcome (result E B) :=
  match m with
  | Ok a => k a
  | Err e => Done (Err e)
  end.

Definition unwrapping {E A B} (o : option A) (k : A -> outcome (result E B)) : outcome (result E B) :=
  match o with
  | Some a => k a
  | None => Panic
  end.

(** [Option<Result<A, E>>::transpose]. *)
Definition transpose {E A} (o : option (result E A)) : result E (option A) :=
  match o with
  | Some (Ok a) => Ok (Some a)
  | Some (Err e) => Err e
  | None => Ok None
  end.

(** [Option::or]. *)
Definition or_else {A} (o o' : option A) : option A :=
  match o with
  | Some a => Some a
  | None => o'
  end.

(** An option of the command line over the value of the configuration so far. *)
Definition over {E A} (parse : string -> result E A) (o : option string) (base : A) : result E A :=
  match o with
  | Some s => parse s
  | None => Ok base
  end.

(** [if let Some(s) = o { raw.field = s.parse()?; }] *)
Definition set_parsed {E A R} (parse : string -> result E A) (set : A -> R -> R) (o : option string) (raw : R) :
    result E R :=
  match o with
  | Some s => a ← parse s; Ok (set a raw)
  | None => Ok raw
  end.

Lemma set_parsed_inv {E A R} (parse : string -> result E A) set o (raw raw' : R) :
  set_parsed parse set o raw = Ok raw' ->
  (o = None /\ raw' = raw) \/ exists s a, o = Some s /\ parse s = Ok a /\ raw' = set a raw.
Proof.
  destruct o as [s|]; simpl; [|intros [= <-]; by left]. destruct (parse s) as [a|e] eqn:Ep; simpl; [|done].
  intros [= <-]. right. by exists s, a.
Qed.

(** The configuration after the command line was applied to one of its fields. *)
Lemma set_parsed_set {E A R} (get : R -> A) (parse : string -> result E A) set o (raw raw' : R) :
  (forall r, set (get r) r = r) -> set_parsed parse set o raw = Ok raw' ->
  exists a, over parse o (get raw) = Ok a /\ raw' = set a raw.
Proof.
  intros Hg Hs. apply set_parsed_inv in Hs as [[-> ->]|(s & a & -> & Hp & ->)].
  - exists (get raw). by rewrite Hg.
  - by exists a.
Qed.

(** A required option, on the command line or in the file. *)
Lemma required_over {E A} (parse : string -> result E A) o base a0 a :
  transpose (parse <$> o) = Ok a0 -> or_else a0 base = Some a ->
  over (fun s => Some <$> parse s) o base = Ok (Some a).
Proof. destruct o as [s|]; simpl; [destruct (parse s)|]; intros; simplify_eq/=; congruence. Qed.

Lemma required_given {E A} (parse : string -> result E A) o base a :
  parse <$> o = Some (Ok a) -> over (fun s => Some <$> parse s) o base = Ok (Some a).
Proof. destruct o as [s|]; simpl; [|done]. intros [= ->]. done. Qed.

(** Inversion of a successful sequence of fallible steps. *)
Lemma result_bind_ok {E A B} (m : result E A) (f : A -> result E B) b :
  (m ≫= f) = Ok b -> exists a, m = Ok a /\ f a = Ok b.
Proof. destruct m as [a|e]; [|done]. intros H. by exists a. Qed.

Lemma map_err_ok {E F A} (f : E -> F) (m : result E A) a : map_err f m = Ok a -> m = Ok a.
Proof. by destruct m as [x|x]; simpl; intros [= ->]. Qed.

Lemma ok_or_ok {E A} (o : option A) (e : E) a : ok_or o e = Ok a -> o = Some a.
Proof. by destruct o as [x|]; simpl; intros [= ->]. Qed.

Ltac result_inv :=
  repeat match goal with
  | H : mbind _ _ = Ok _ |- _ =>
      let a := fresh "a" in let E := fresh "E" in apply result_bind_ok in H as (a & E & H)
  | H : map_err _ _ = Ok _ |- _ => apply map_err_ok in H
  | H : ok_or _ _ = Ok _ |- _ => apply ok_or_ok in H
  | H : Ok _ = Ok _ |- _ => injection H as H
  | H : Err _ = Ok _ |- _ => discriminate H
  | H : (if ?b then _ else _) = Ok _ |- _ => destruct b eqn:?
  end.
