(* ===== verification/ServerConfig.v ===== *)
(** * The configuration of the server (server/src/config.rs, certificate.rs)

    [RawConfig.parse] merges the command line, the configuration file and the
    defaults; [Config.parse] turns the result into the settings of the server.
    The file system, the JSON deserializer, rustls, blake3 and the log crate are
    parameters; [usize] has 64 bits. *)

From S2P Require Import Prelude RustIo ConfigLib.

Local Open Scope Z_scope.

(** ** certificate.rs *)

Section certificate.
(** [fs::read], and the items [rustls_pemfile::read_one] returns of a file until
    it ends or fails. *)
Inductive PemItem :=
| X509Certificate (der : bytes)
| RSAKey (der : bytes)
| PKCS8Key (der : bytes)
| ECKey (der : bytes)
| OtherItem.

Context (read : string -> result io_error bytes) (pem_items : bytes -> list PemItem).

Definition load_certificates (path : string) : result io_error (list bytes) :=
  file ← read path;
  let certs := omap (fun item => match item with X509Certificate cert => Some cert | _ => None end)
                 (pem_items file) in
  if bool_decide (certs = []) then
    der ← read path;
    Ok [der]
  else Ok certs.

Definition load_private_key (path : string) : result io_error bytes :=
  file ← read path;
  let priv_key := foldl (fun priv_key item =>
    match item with
    | RSAKey key | PKCS8Key key | ECKey key => Some key
    | _ => priv_key
    end) None (pem_items file) in
  match priv_key with
  | Some key => Ok key
  | None => read path
  end.

End certificate.

(** ** The module [default] *)

Module Default.

Definition ip : IpAddr := IpV4 Ipv4_UNSPECIFIED.
Definition congestion_controller : CongestionController := Cubic.
Definition max_idle_time : Z := 15000.
Definition authentication_timeout : Z := 1000.
Definition alpn : list string := [].
Definition max_udp_relay_packet_size : Z := 1500.

End Default.

(** ** Errors and raw configuration *)

Section config.
Context `{G : Getopts} {LevelFilter ParseLevelError JsonError RustlsError : Type}.

Inductive ConfigError :=
| Help (text : string)
| Version (text : string)
| Io (path : string) (e : io_error)
| ParseConfigJson (e : JsonError)
| ParseArgument (e : Fail)
| UnexpectedArguments (args : string)
| MissingOption (name : string)
| ParseInt (e : ParseIntError)
| ParseAddr (e : AddrParseError)
| InvalidCongestionController
| ParseLogLevel (e : ParseLevelError)
| Rustls (e : RustlsError).

Record RawConfig := MkRaw {
  port : option Z;
  token : list string;
  certificate : option string;
  private_key : option string;
  ip : IpAddr;
  congestion_controller : CongestionController;
  max_idle_time : Z;
  authentication_timeout : Z;
  alpn : list string;
  max_udp_relay_packet_size : Z;
  log_level : LevelFilter }.

Context (level_info : LevelFilter) (parse_level : string -> result ParseLevelError LevelFilter).

(** [Default for RawConfig]; the default level is [LevelFilter::Info]. *)
Definition default_raw : RawConfig :=
  MkRaw None [] None None Default.ip Default.congestion_controller Default.max_idle_time
    Default.authentication_timeout Default.alpn Default.max_udp_relay_packet_size level_info.

Definition set_required (p : Z) (t : list string) (c k : string) (r : RawConfig) :=
  MkRaw (Some p) t (Some c) (Some k) (ip r) (congestion_controller r) (max_idle_time r) (authentication_timeout r)
    (alpn r) (max_udp_relay_packet_size r) (log_level r).
Definition set_ip (x : IpAddr) (r : RawConfig) :=
  MkRaw (port r) (token r) (certificate r) (private_key r) x (congestion_controller r) (max_idle_time r)
    (authentication_timeout r) (alpn r) (max_udp_relay_packet_size r) (log_level r).
Definition set_congestion_controller (x : CongestionController) (r : RawConfig) :=
  MkRaw (port r) (token r) (certificate r) (private_key r) (ip r) x (max_idle_time r)
    (authentication_timeout r) (alpn r) (max_udp_relay_packet_size r) (log_level r).
Definition set_max_idle_time (x : Z) (r : RawConfig) :=
  MkRaw (port r) (token r) (certificate r) (private_key r) (ip r) (congestion_controller r) x
    (authentication_timeout r) (alpn r) (max_udp_relay_packet_size r) (log_level r).
Definition set_authentication_timeout (x : Z) (r : RawConfig) :=
  MkRaw (port r) (token r) (certificate r) (private_key r) (ip r) (congestion_controller r) (max_idle_time r)
    x (alpn r) (max_udp_relay_packet_size r) (log_level r).
Definition set_alpn (x : list string) (r : RawConfig) :=
  MkRaw (port r) (token r) (certificate r) (private_key r) (ip r) (congestion_controller r) (max_idle_time r)
    (authentication_timeout r) x (max_udp_relay_packet_size r) (log_level r).
Definition set_max_size (x : Z) (r : RawConfig) :=
  MkRaw (port r) (token r) (certificate r) (private_key r) (ip r) (congestion_controller r) (max_idle_time r)
    (authentication_timeout r) (alpn r) x (log_level r).
Definition set_log_level (x : LevelFilter) (r : RawConfig) :=
  MkRaw (port r) (token r) (certificate r) (private_key r) (ip r) (congestion_controller r) (max_idle_time r)
    (authentication_timeout r) (alpn r) (max_udp_relay_packet_size r) x.

(** The options of the command line. *)
Definition options : list Opt :=
  [ OptOpt "c" "config"; OptOpt "" "port"; OptOpt "" "token"; OptOpt "" "certificate"; OptOpt "" "private-key";
    OptOpt "" "ip"; OptOpt "" "congestion-controller"; OptOpt "" "max-idle-time";
    OptOpt "" "authentication-timeout"; OptOpt "" "alpn"; OptOpt "" "max-udp-relay-packet-size";
    OptOpt "" "log-level"; OptFlag "v" "version"; OptFlag "h" "help" ].

(** The conversions of [parse()?]. *)
Definition parse_int (w : Z) (s : string) : result ConfigError Z := map_err ParseInt (parse_uint w s).
Definition parse_addr (s : string) : result ConfigError IpAddr := map_err ParseAddr (parse_ip s).
Definition parse_controller (s : string) : result ConfigError CongestionController :=
  ok_or (parse_congestion_controller s) InvalidCongestionController.
Definition parse_log_level (s : string) : result ConfigError LevelFilter := map_err ParseLogLevel (parse_level s).

(** [File::open] with what [serde_json::from_reader] makes of the content. *)
Context (open_file : string -> result io_error bytes) (from_reader : bytes -> result JsonError RawConfig).

Definition from_file (path : string) : result ConfigError RawConfig :=
  file ← map_err (Io path) (open_file path);
  map_err ParseConfigJson (from_reader file).

(** The required options, with a configuration file or without. *)
Definition parse_required (m : Matches) : result ConfigError RawConfig :=
  let port_arg := parse_int 16 <$> opt_str m "port" in
  let token_arg := opt_strs m "token" in
  let certificate_arg := opt_str m "certificate" in
  let private_key_arg := opt_str m "private-key" in
  match opt_str m "config" with
  | Some path =>
      raw ← from_file path;
      p ← transpose port_arg;
      p ← ok_or (or_else p (port raw)) (MissingOption "port");
      t ← (if negb (bool_decide (token_arg = [])) then Ok token_arg
           else if bool_decide (token raw = []) then Err (MissingOption "token")
           else Ok (token raw));
      c ← ok_or (or_else certificate_arg (certificate raw)) (MissingOption "certificate");
      k ← ok_or (or_else private_key_arg (private_key raw)) (MissingOption "private key");
      Ok (set_required p t c k raw)
  | None =>
      p ← ok_or port_arg (MissingOption "port");
      p ← p;
      t ← (if negb (bool_decide (token_arg = [])) then Ok token_arg else Err (MissingOption "token"));
      c ← ok_or certificate_arg (MissingOption "certificate");
      k ← ok_or private_key_arg (MissingOption "private key");
      Ok (set_required p t c k default_raw)
  end.

(** [RawConfig::parse] *)
Definition raw_parse (args : list string) : result ConfigError RawConfig :=
  m ← map_err ParseArgument (opts_parse options (drop 1 args));
  if opt_present m "help" then Err (Help (usage options "tuic-server"))
  else if opt_present m "version" then Err (Version "0.8.1")
  else if negb (bool_decide (free m = [])) then Err (UnexpectedArguments (String.concat ", " (free m)))
  else
    raw ← parse_required m;
    raw ← set_parsed parse_addr set_ip (opt_str m "ip") raw;
    raw ← set_parsed parse_controller set_congestion_controller (opt_str m "congestion-controller") raw;
    raw ← set_parsed (parse_int 32) set_max_idle_time (opt_str m "max-idle-time") raw;
    raw ← set_parsed (parse_int 64) set_authentication_timeout (opt_str m "authentication-timeout") raw;
    raw ← set_parsed (parse_int 64) set_max_size (opt_str m "max-udp-relay-packet-size") raw;
    let alpn_args := opt_strs m "alpn" in
    let raw := if negb (bool_decide (alpn_args = [])) then set_alpn alpn_args raw else raw in
    set_parsed parse_log_level set_log_level (opt_str m "log-level") raw.

(** ** The settings of the server *)

(** What the program asks of rustls and quinn. *)
Record ServerSettings := MkServerSettings {
  ss_certs : list bytes;
  ss_key : bytes;
  ss_alpn : list string;
  ss_max_early_data_size : Z;
  ss_controller : CongestionController;
  ss_max_idle_timeout : option Z }.

Record Config := MkConfig {
  server_config : ServerSettings;
  listen_addr : SocketAddr;
  tokens : gset bytes;
  (** in milliseconds *)
  auth_timeout : Z;
  max_pkt_size : Z;
  cfg_log_level : LevelFilter }.

Context (pem_items : bytes -> list PemItem) (check_cert : list bytes -> bytes -> result RustlsError unit)
  (hash : string -> bytes).

(** [Config::parse] *)
Definition config_parse (args : list string) : outcome (result ConfigError Config) :=
  attempt (raw_parse args) (fun raw =>
  unwrapping (certificate raw) (fun cert_path =>
  attempt (map_err (Io cert_path) (load_certificates open_file pem_items cert_path)) (fun certs =>
  unwrapping (private_key raw) (fun priv_key_path =>
  attempt (map_err (Io priv_key_path) (load_private_key open_file pem_items priv_key_path)) (fun priv_key =>
  attempt (map_err Rustls (check_cert certs priv_key)) (fun _ =>
  let settings :=
    MkServerSettings certs priv_key (alpn raw) (2 ^ 32 - 1) (congestion_controller raw)
      (Some (max_idle_time raw)) in
  unwrapping (port raw) (fun port =>
  let listen_addr := SocketAddr_from (ip raw) port in
  let token := list_to_set (hash <$> token raw) in
  let authentication_timeout := Duration_from_secs (authentication_timeout raw) in
  Done (Ok (MkConfig settings listen_addr token authentication_timeout (max_udp_relay_packet_size raw)
    (log_level raw)))))))))).

(** ** Lemmas *)

(** Where the values come from when nothing is given on the command line. *)
Definition base_config (m : Matches) (base : RawConfig) : Prop :=
  match opt_str m "config" with
  | Some path => from_file path = Ok base
  | None => base = default_raw
  end.

(** The required options of a configuration that was accepted. *)
Definition required_from (m : Matches) (base raw : RawConfig) : Prop :=
  over (fun s => Some <$> parse_int 16 s) (opt_str m "port") (port base) = Ok (port raw)
  /\ token raw = (if decide (opt_strs m "token" = []) then token base else opt_strs m "token")
  /\ certificate raw = or_else (opt_str m "certificate") (certificate base)
  /\ private_key raw = or_else (opt_str m "private-key") (private_key base)
  /\ is_Some (port raw) /\ token raw <> [] /\ is_Some (certificate raw) /\ is_Some (private_key raw).

Lemma server_required_spec m raw :
  parse_required m = Ok raw ->
  exists base p t c k, base_config m base /\ raw = set_required p t c k base /\ required_from m base raw.
Proof.
  unfold parse_required, base_config, required_from. intros E. destruct (opt_str m "config") as [path|].
  - result_inv; bool_to_prop; subst.
    + exists a, a1, (opt_strs m "token"), a3, a4. apply bool_decide_eq_false in Heqb.
      rewrite decide_False by done. split_and!; simpl; eauto. by eapply required_over.
    + exists a, a1, (token a), a3, a4. apply bool_decide_eq_true in Heqb. apply bool_decide_eq_false in Heqb0.
      rewrite decide_True by done. split_and!; simpl; eauto. by eapply required_over.
  - result_inv; bool_to_prop; subst. exists default_raw, a0, (opt_strs m "token"), a2, a3.
    apply bool_decide_eq_false in Heqb. rewrite decide_False by done. split_and!; simpl; eauto.
    + destruct (opt_str m "port") as [s|]; simpl in *; [|done]. injection E0 as ->. done.
    + by rewrite E3.
    + by rewrite E4.
Qed.

(** The fields that have a default. *)
Definition optional_from (m : Matches) (base raw : RawConfig) : Prop :=
  over parse_addr (opt_str m "ip") (ip base) = Ok (ip raw)
  /\ over parse_controller (opt_str m "congestion-controller") (congestion_controller base)
     = Ok (congestion_controller raw)
  /\ over (parse_int 32) (opt_str m "max-idle-time") (max_idle_time base) = Ok (max_idle_time raw)
  /\ over (parse_int 64) (opt_str m "authentication-timeout") (authentication_timeout base)
     = Ok (authentication_timeout raw)
  /\ over (parse_int 64) (opt_str m "max-udp-relay-packet-size") (max_udp_relay_packet_size base)
     = Ok (max_udp_relay_packet_size raw)
  /\ alpn raw = (if decide (opt_strs m "alpn" = []) then alpn base else opt_strs m "alpn")
  /\ over parse_log_level (opt_str m "log-level") (log_level base) = Ok (log_level raw).

Lemma server_raw_parse_spec args raw :
  raw_parse args = Ok raw ->
  exists m base, opts_parse options (drop 1 args) = Ok m
    /\ opt_present m "help" = false /\ opt_present m "version" = false /\ free m = []
    /\ base_config m base /\ required_from m base raw /\ optional_from m base raw.
Proof.
  intros E. unfold raw_parse in E. result_inv. rename a into m. apply negb_false_iff, bool_decide_eq_true in Heqb1.
  destruct (server_required_spec _ _ E1) as (base & p & t & c & k & Hb & Hraw & Hreq).
  apply (set_parsed_set ip) in E2 as (x1 & H1 & ->); [|by intros []].
  apply (set_parsed_set congestion_controller) in E3 as (x2 & H2 & ->); [|by intros []].
  apply (set_parsed_set max_idle_time) in E4 as (x3 & H3 & ->); [|by intros []].
  apply (set_parsed_set authentication_timeout) in E5 as (x4 & H4 & ->); [|by intros []].
  apply (set_parsed_set max_udp_relay_packet_size) in E6 as (x5 & H5 & ->); [|by intros []].
  apply (set_parsed_set log_level) in E as (x6 & H6 & ->); [|by intros []].
  exists m, base. do 4 (split; [done|]). split; [done|]. unfold required_from, optional_from in *. subst a0.
  destruct (decide (opt_strs m "alpn" = [])) as [Ha|Ha].
  - rewrite bool_decide_eq_true_2 in * by done. by split.
  - rewrite bool_decide_eq_false_2 in * by done. by split.
Qed.

(** The accepted raw configuration, with the sources of its values: the command line
    gives at most one token and at most one ALPN protocol. *)
Definition server_sources (args : list string) (raw : RawConfig) : Prop :=
  exists m base, opts_parse options (drop 1 args) = Ok m
    /\ base_config m base /\ required_from m base raw /\ optional_from m base raw
    /\ (length (opt_strs m "token") <= 1)%nat /\ (length (opt_strs m "alpn") <= 1)%nat.

Lemma server_raw_sources args raw : raw_parse args = Ok raw -> server_sources args raw.
Proof.
  intros E. destruct (server_raw_parse_spec _ _ E) as (m & base & Hm & _ & _ & _ & Hb & Hr & Ho).
  exists m, base. split_and!; try done; apply (optopt_once options (drop 1 args) m "" _ Hm);
    by apply (bool_decide_unpack _).
Qed.

(** What an accepted configuration takes from the raw one. *)
Definition config_from (raw : RawConfig) (cfg : Config) : Prop :=
  exists p, port raw = Some p
  /\ listen_addr cfg = SocketAddr_from (ip raw) p
  /\ tokens cfg = list_to_set (hash <$> token raw) /\ tokens cfg <> ∅
  /\ auth_timeout cfg = authentication_timeout raw * 1000
  /\ max_pkt_size cfg = max_udp_relay_packet_size raw
  /\ cfg_log_level cfg = log_level raw
  /\ ss_max_idle_timeout (server_config cfg) = Some (max_idle_time raw)
  /\ ss_alpn (server_config cfg) = alpn raw.

(** [Config::parse] never panics: the options it unwraps are there whenever the raw
    configuration was accepted. *)
Lemma server_config_complete args :
  config_parse args <> Panic
  /\ forall cfg, config_parse args = Done (Ok cfg) ->
     exists raw, raw_parse args = Ok raw /\ server_sources args raw /\ config_from raw cfg.
Proof.
  unfold config_parse. destruct (raw_parse args) as [raw|e] eqn:E; simpl; [|by split].
  destruct (server_raw_parse_spec _ _ E) as (m & base & _ & _ & _ & _ & _ & Hr & _).
  destruct Hr as (_ & _ & _ & _ & [p Hp] & Ht & [c Hc] & [k Hk]). rewrite Hc. simpl.
  destruct (map_err (Io c) _) as [certs|e]; simpl; [|by split]. rewrite Hk. simpl.
  destruct (map_err (Io k) _) as [key|e]; simpl; [|by split].
  destruct (map_err Rustls _) as [[]|e]; simpl; [|by split]. rewrite Hp. simpl. split; [done|].
  intros cfg [= <-]. exists raw. split; [done|]. split; [by apply server_raw_sources|]. exists p. split_and!; try done. simpl.
  destruct (token raw) as [|t ts]; [done|]. simpl. set_solver.
Qed.

End config.

(** ** An example *)

Definition example_read (path : string) : result io_error bytes := Ok [].
Definition example_args : list string :=
  ["tuic-server"; "--port"; "443"; "--token"; "secret"; "--certificate"; "c.pem"; "--private-key"; "k.pem"]%string.
