(* ===== verification/ServerMain.v ===== *)
(** * The server program (server/src/server.rs, server/src/main.rs)

    [Server::init] and [Server::run] and the program around them, over the calls they
    make to the operating system, to quinn and to the runtime. The connections quinn
    accepts, until its endpoint ends, are an argument. *)

From S2P Require Import Prelude RustIo Protocol Async Quic ServerAuth ServerUdp ServerConn ServerTask ServerSafety.
From S2P Require Import ServerScenario ConfigLib ServerConfig.

Local Open Scope Z_scope.
Local Open Scope task_scope.

Section program.
Context `{G : Getopts} {LevelFilter ParseLevelError JsonError RustlsError : Type}.

(** What [eprintln!] prints. *)
Inductive failure :=
| ConfigFailure (e : ConfigError (ParseLevelError := ParseLevelError) (JsonError := JsonError)
                       (RustlsError := RustlsError))
| IoFailure (e : io_error).

Inductive os_op :=
| Println (text : string)
| Eprintln (e : failure)
| InitLogger (level : LevelFilter)
| UdpBind (addr : SocketAddr)
| SocketNewV6
| SetOnlyV6 (b : bool)
| SocketBind (addr : SocketAddr)
| EndpointNew (config : ServerSettings)
| SpawnHandle (conn : nat) (token : gset bytes) (auth_timeout max_pkt_size : Z)
| ProcessExit (code : Z).

Definition os_resp (o : os_op) : Type :=
  match o with
  | UdpBind _ | SocketNewV6 | SetOnlyV6 _ | SocketBind _ | EndpointNew _ => result io_error unit
  | Println _ | Eprintln _ | InitLogger _ | SpawnHandle _ _ _ _ | ProcessExit _ => unit
  end.

Definition os (o : os_op) : prog os_resp (os_resp o) := call o.

(** ** server.rs *)

Record Server := MkServer {
  sv_listen_addr : SocketAddr;
  sv_token : gset bytes;
  sv_authentication_timeout : Z;
  sv_max_pkt_size : Z }.

Definition listen_socket (listen_addr : SocketAddr) : prog os_resp (result io_error unit) :=
  match listen_addr with
  | V4 _ => os (UdpBind listen_addr)
  | V6 _ =>
      _ <-? os SocketNewV6;;
      _ <-? os (SetOnlyV6 false);;
      os (SocketBind listen_addr)
  end.

Definition server_init (config : ServerSettings) (listen_addr : SocketAddr) (token : gset bytes)
    (auth_timeout max_pkt_size : Z) : prog os_resp (result io_error Server) :=
  _ <-? listen_socket listen_addr;;
  _ <-? os (EndpointNew config);;
  mret (Ok (MkServer listen_addr token auth_timeout max_pkt_size)).

Fixpoint server_run (server : Server) (incoming : list nat) : prog os_resp unit :=
  match incoming with
  | [] => mret tt
  | conn :: incoming =>
      _ ← os (SpawnHandle conn (sv_token server) (sv_authentication_timeout server) (sv_max_pkt_size server));
      server_run server incoming
  end.

(** ** main.rs *)

Context (level_info : LevelFilter) (parse_level : string -> result ParseLevelError LevelFilter)
  (open_file : string -> result io_error bytes)
  (from_reader : bytes -> result JsonError (RawConfig (LevelFilter := LevelFilter)))
  (pem_items : bytes -> list PemItem) (check_cert : list bytes -> bytes -> result RustlsError unit)
  (hash : string -> bytes).

Abbreviation parse_config :=
  (config_parse level_info parse_level open_file from_reader pem_items check_cert hash).

Definition main (args : list string) (incoming : list nat) : prog os_resp unit :=
  config ← or_panic (parse_config args);
  match config with
  | Err (Help help) => os (Println help)
  | Err (Version version) => os (Println version)
  | Err err => os (Eprintln (ConfigFailure err))
  | Ok cfg =>
      _ ← os (InitLogger (cfg_log_level cfg));
      server ← server_init (server_config cfg) (listen_addr cfg) (tokens cfg) (auth_timeout cfg) (max_pkt_size cfg);
      match server with
      | Err err => os (Eprintln (IoFailure err))
      | Ok server =>
          _ ← server_run server incoming;
          os (ProcessExit 1)
      end
  end.

(** ** Runs *)

(** The connections handled, with the parameters they get, and the addresses bound. *)
Definition handled (tr : list (event os_resp)) : list (nat * gset bytes * Z * Z) :=
  omap (fun e => match ev_op e with SpawnHandle c t a m => Some (c, t, a, m) | _ => None end) tr.
Definition bound (tr : list (event os_resp)) : list SocketAddr :=
  omap (fun e => match ev_op e with UdpBind a | SocketBind a => Some a | _ => None end) tr.

Lemma handled_app tr tr' : handled (tr ++ tr') = handled tr ++ handled tr'.
Proof. apply omap_app. Qed.
Lemma bound_app tr tr' : bound (tr ++ tr') = bound tr ++ bound tr'.
Proof. apply omap_app. Qed.

(** The errors the calls returned. *)
Definition event_error (e : event os_resp) : option io_error :=
  match e with
  | Event o r =>
      match o return os_resp o -> option io_error with
      | UdpBind _ | SocketNewV6 | SetOnlyV6 _ | SocketBind _ | EndpointNew _ =>
          fun r => match r with Ok _ => None | Err e => Some e end
      | Println _ | Eprintln _ | InitLogger _ | SpawnHandle _ _ _ _ | ProcessExit _ => fun _ => None
      end r
  end.
Definition errors (tr : list (event os_resp)) : list io_error := omap event_error tr.

(** A run that serves nothing says why: it prints the help text or the version that
    was asked for, or the configuration's error, or the error of a call that failed. *)
Definition reported (args : list string) (tr : list (event os_resp)) : Prop :=
  match parse_config args with
  | Done (Err (Help text)) | Done (Err (Version text)) => ev_op <$> tr = [Println text]
  | Done (Err e) => ev_op <$> tr = [Eprintln (ConfigFailure e)]
  | Done (Ok _) => exists e, errors tr = [e] /\ ev_op <$> last tr = Some (Eprintln (IoFailure e))
  | Panic => False
  end.

(** The first event is not one that is looked for. *)
Ltac skip_event := match goal with |- ?f (_ :: ?l) = ?r => change (f l = r) end.

Lemma server_run_trace (env : environment os_resp) server incoming past :
  exists tr, perform env past (server_run server incoming) = (Done tt, past ++ tr)
  /\ bound tr = []
  /\ handled tr = (fun c => (c, sv_token server, sv_authentication_timeout server, sv_max_pkt_size server)) <$> incoming.
Proof.
  revert past. induction incoming as [|c incoming IH]; intros past; [exists []; by rewrite app_nil_r|].
  cbn [server_run]. cbn. edestruct IH as (tr & E & Hb & Hh). rewrite E.
  eexists. rewrite <- app_assoc. split; [reflexivity|]. cbn. unfold handled, bound in *. rewrite Hb, Hh. done.
Qed.

(** The server that [init] makes has the parameters it was given. *)
Lemma server_init_trace (env : environment os_resp) config addr token timeout size past r tr :
  perform env past (server_init config addr token timeout size) = (r, tr) ->
  exists d, tr = past ++ d /\ handled d = [] /\ bound d `prefix_of` [addr]
  /\ match r with
     | Done (Ok server) => server = MkServer addr token timeout size /\ bound d = [addr]
     | Done (Err e) => errors d = [e]
     | Panic => False
     end.
Proof.
  intros E. unfold server_init in E. destruct addr as [a|a]; simpl in E;
    repeat (match type of E with context [match ?x with _ => _ end] => destruct x eqn:? end; simpl in E);
    injection E as <- <-; rewrite <- ?app_assoc; (eexists; split; [reflexivity|]);
    unfold handled, bound, errors; cbn; split_and!; try done; apply prefix_nil.
Qed.

(** ** Properties *)

(** C12: The server program never panics on its way to serving. A connection is handled
    only when the configuration was accepted and its listening address was bound, and
    then every accepted connection is handled, in order, with the configured tokens (by
    their hashes; at least one), packet size and authentication timeout, of which every
    value comes from the command line, else from the file, else from the defaults;
    otherwise the program has printed what stopped it and handles nothing. In
    no interleaving of such a connection does a task act for a client that did not
    present the hash of a configured token. *)
Theorem server_serves_configuration (env : environment os_resp) args incoming r tr :
  perform env [] (main args incoming) = (r, tr) ->
  r = Done tt /\
  (handled tr = [] /\ reported args tr \/
   exists raw cfg, parse_config args = Done (Ok cfg)
   /\ server_sources (RustlsError := RustlsError) level_info parse_level open_file from_reader args raw /\ config_from hash raw cfg
   /\ bound tr = [listen_addr cfg]
   /\ handled tr = (fun c => (c, tokens cfg, auth_timeout cfg, max_pkt_size cfg)) <$> incoming
   /\ forall σ tid o k, reachable (tokens cfg) σ -> tasks σ !! tid = Some (Vis o k) -> relay_op o = true ->
      exists secret stream rest, secret ∈ token raw /\ stream ∈ uni_accepted (shared σ)
      /\ Command.read_from stream = (Ok (Authenticate (hash secret)), rest)).
Proof.
  intros E. unfold main in E.
  destruct (server_config_complete level_info parse_level open_file from_reader pem_items check_cert hash args)
    as [Hp Hc].
  destruct (parse_config args) as [[cfg|e]|] eqn:Ec; [| |done]; cbn [or_panic mbind prog_bind] in E.
  2: { destruct e; cbn in E; injection E as <- <-; (split; [apply done_tt|left; unfold reported; by rewrite Ec]). }
  destruct (Hc cfg eq_refl) as (raw & _ & Hs & Hf). cbn [os call mbind prog_bind perform] in E.
  rewrite perform_bind in E. destruct (perform env _ (server_init _ _ _ _ _)) as [r1 tr1] eqn:Ei.
  destruct (server_init_trace _ _ _ _ _ _ _ _ _ Ei) as (d & -> & Hh & Hb & Hr).
  destruct r1 as [[server|e]|]; [| |done].
  - destruct Hr as [-> Hb']. rewrite perform_bind in E.
    edestruct server_run_trace as (d' & Ed & Hb'' & Hh'). rewrite Ed in E. cbn in E. injection E as <- <-.
    split; [apply done_tt|]. right. exists raw, cfg. split_and!; try done.
    + skip_event. rewrite !bound_app, Hb', Hb''. done.
    + skip_event. rewrite !handled_app, Hh, Hh'. by rewrite app_nil_r.
    + intros σ tid o k Hreach Ht Ho.
      destruct (relaying_authenticated _ _ _ _ _ Hreach Ht Ho) as (_ & stream & digest & rest & Hin & Hread & Hd).
      destruct Hf as (p & _ & _ & Htok & _). rewrite Htok in Hd. apply elem_of_list_to_set, list_elem_of_fmap in Hd.
      destruct Hd as (secret & -> & Hsec). by exists secret, stream, rest.
  - cbn in E. injection E as <- <-. split; [apply done_tt|]. left. split; [skip_event; by rewrite !handled_app, Hh|].
    unfold reported. rewrite Ec. exists e. split; [skip_event; unfold errors in *; by rewrite omap_app, Hr|].
    by rewrite last_cons, last_snoc.
Qed.

End program.

(** ** Witness *)

(** Two connections accepted by a server started with a token on the command line;
    one of them reaches the state of [packet_pending]. *)
Definition example_env : environment (os_resp (G := long_options) (LevelFilter := nat) (ParseLevelError := unit)
    (JsonError := unit) (RustlsError := unit)) := fun _ o =>
  match o with
  | UdpBind _ | SocketNewV6 | SetOnlyV6 _ | SocketBind _ | EndpointNew _ => Ok tt
  | Println _ | Eprintln _ | InitLogger _ | SpawnHandle _ _ _ _ | ProcessExit _ => tt
  end.

Definition example_pem (file : bytes) : list PemItem := [X509Certificate [1]; PKCS8Key [2]].
Definition example_hash (secret : string) : bytes := sample_digest.
Abbreviation example_main := (main (G := long_options) (ParseLevelError := unit) (JsonError := unit) (RustlsError := unit)
  3%nat (fun _ => Err tt) example_read (fun _ => Err tt) example_pem (fun _ _ => Ok tt) example_hash).

Lemma constant_hash {L} (raw : RawConfig (LevelFilter := L)) cfg :
  config_from example_hash raw cfg -> tokens cfg = {[sample_digest]}.
Proof.
  intros (p & _ & _ & Ht & Hne & _). rewrite Ht in *. apply set_eq. intros d. rewrite elem_of_list_to_set, elem_of_singleton.
  destruct (token raw) as [|t l]; [done|]. rewrite list_elem_of_fmap. split; [by intros (? & -> & _)|].
  intros ->. exists t. split; [done|]. left.
Qed.

Lemma server_serves_configuration_witness :
  let tr := (perform example_env [] (example_main example_args [1%nat; 2%nat])).2 in
  (exists cfg, bound tr = [cfg] /\ (handled tr).*1.*1.*1 = [1%nat; 2%nat])
  /\ exists stream rest, stream ∈ uni_accepted (shared packet_pending)
     /\ Command.read_from stream = (Ok (Authenticate sample_digest), rest).
Proof.
  destruct (perform example_env [] (example_main example_args [1%nat; 2%nat])) as [r tr] eqn:E. cbn [snd].
  destruct (server_serves_configuration (G := long_options) (ParseLevelError := unit) (JsonError := unit)
    (RustlsError := unit) 3%nat (fun _ => Err tt) example_read (fun _ => Err tt)
    example_pem (fun _ _ => Ok tt) example_hash example_env example_args _ _ _ E) as [_ [[Hh _]|H]].
  { apply (f_equal (fun x => length (handled x.2))) in E. cbn [snd] in E. rewrite Hh in E. by vm_compute in E. }
  destruct H as (raw & cfg & _ & _ & Hf & Hb & Hh & Ha). split; [exists (listen_addr cfg); split; [exact Hb|rewrite Hh; reflexivity]|].
  assert (tokens cfg = {[sample_digest]}) as Ht by (by eapply constant_hash).
  rewrite Ht in Ha. destruct packet_pending_relaying as (o & k & Et & Ho).
  destruct (Ha _ _ o k packet_pending_reachable Et Ho) as (secret & stream & rest & _ & Hs & Hr).
  exists stream, rest. split; [exact Hs|exact Hr].
Defined.
