(* ===== verification/ClientConfig.v ===== *)
(** * The configuration of the client (client/src/config.rs, certificate.rs)

    As [ServerConfig], for the client: the options of the relay and of the local
    socks5 server. *)

From S2P Require Import Prelude RustIo ConfigLib ClientConn.

Local Open Scope Z_scope.

(** [ServerAddr] of client/src/relay/mod.rs *)
Inductive ServerAddr :=
| ServerSocketAddr (addr : SocketAddr) (name : string)
| ServerDomainAddr (domain : string) (port : Z).

Definition parse_udp_relay_mode (s : string) : option UdpRelayMode :=
  if eq_ignore_ascii_case s "native" then Some Native
  else if eq_ignore_ascii_case s "quic" then Some Quic
  else None.

(** ** The module [default] *)

Module Default.

Definition certificates : list string := [].
Definition udp_relay_mode : UdpRelayMode := Native.
Definition congestion_controller : CongestionController := Cubic.
Definition heartbeat_interval : Z := 10000.
Definition alpn : list string := [].
Definition disable_sni : bool := false.
Definition reduce_rtt : bool := false.
Definition request_timeout : Z := 8000.
Definition max_udp_relay_packet_size : Z := 1500.
Definition local_ip : IpAddr := IpV4 Ipv4_LOCALHOST.

End Default.

(** The authentication of the local socks5 server. *)
Inductive Socks5Auth :=
| NoAuth
| Password (username password : string).

Section config.
Context `{G : Getopts} {LevelFilter ParseLevelError JsonError WebpkiError : Type}.

Inductive ConfigError :=
| Help (text : string)
| Version (text : string)
| Io (path : string) (e : io_error)
| ParseConfigJson (e : JsonError)
| ParseArgument (e : Fail)
| UnexpectedArguments (args : string)
| MissingOption (name : string)
| ParseInt (e : ParseIntError)
| ParseAddr (e : AddrParseError)
| InvalidCongestionController
| InvalidUdpRelayMode
| Certificate (e : WebpkiError)
| NativeCertificate (e : io_error)
| LocalAuthentication
| ParseLogLevel (e : ParseLevelError).

(** ** certificate.rs *)

(** The content of a file, the certificates [rustls_pemfile] finds in it, the check
    of a certificate by [RootCertStore::add], the roots of the platform. *)
Context (read : string -> result io_error bytes) (pem_certs : bytes -> list bytes)
  (add : bytes -> result WebpkiError unit) (native_certs : result io_error (list bytes)).

Fixpoint add_certs (certs : list bytes) (store : list bytes) : result ConfigError (list bytes) :=
  match certs with
  | [] => Ok store
  | cert :: certs =>
      _ ← map_err Certificate (add cert);
      add_certs certs (store ++ [cert])
  end.

Fixpoint add_files (decode : bytes -> list bytes) (files : list string) (store : list bytes) :
    result ConfigError (list bytes) :=
  match files with
  | [] => Ok store
  | file :: files =>
      content ← map_err (Io file) (read file);
      store ← add_certs (decode content) store;
      add_files decode files store
  end.

Definition load_certificates (files : list string) : result ConfigError (list bytes) :=
  store ← add_files pem_certs files [];
  store ← (if bool_decide (store = []) then add_files (fun der => [der]) files store else Ok store);
  native ← map_err NativeCertificate native_certs;
  add_certs native store.

(** ** Raw configuration *)

Record RawRelayConfig := MkRawRelay {
  server : option string;
  port : option Z;
  token : option string;
  ip : option IpAddr;
  certificates : list string;
  udp_relay_mode : UdpRelayMode;
  congestion_controller : CongestionController;
  heartbeat_interval : Z;
  alpn : list string;
  disable_sni : bool;
  reduce_rtt : bool;
  request_timeout : Z;
  max_udp_relay_packet_size : Z }.

Record RawLocalConfig := MkRawLocal {
  local_port : option Z;
  local_ip : IpAddr;
  username : option string;
  password : option string }.

Record RawConfig := MkRaw {
  relay : RawRelayConfig;
  local : RawLocalConfig;
  log_level : LevelFilter }.

Context (level_info : LevelFilter) (parse_level : string -> result ParseLevelError LevelFilter).

(** The [Default] implementations; the default level is [LevelFilter::Info]. *)
Definition default_relay : RawRelayConfig :=
  MkRawRelay None None None None Default.certificates Default.udp_relay_mode Default.congestion_controller
    Default.heartbeat_interval Default.alpn Default.disable_sni Default.reduce_rtt Default.request_timeout
    Default.max_udp_relay_packet_size.
Definition default_local : RawLocalConfig := MkRawLocal None Default.local_ip None None.
Definition default_raw : RawConfig := MkRaw default_relay default_local level_info.

(** Assignments to the fields of [raw]. *)
Definition on_relay (f : RawRelayConfig -> RawRelayConfig) (r : RawConfig) := MkRaw (f (relay r)) (local r) (log_level r).
Definition on_local (f : RawLocalConfig -> RawLocalConfig) (r : RawConfig) := MkRaw (relay r) (f (local r)) (log_level r).

Definition set_relay_required (s : string) (p : Z) (t : string) := on_relay (fun r =>
  MkRawRelay (Some s) (Some p) (Some t) (ip r) (certificates r) (udp_relay_mode r) (congestion_controller r)
    (heartbeat_interval r) (alpn r) (disable_sni r) (reduce_rtt r) (request_timeout r) (max_udp_relay_packet_size r)).
Definition set_local_port (p : Z) := on_local (fun l => MkRawLocal (Some p) (local_ip l) (username l) (password l)).
Definition set_server_ip (x : option IpAddr) := on_relay (fun r =>
  MkRawRelay (server r) (port r) (token r) x (certificates r) (udp_relay_mode r) (congestion_controller r)
    (heartbeat_interval r) (alpn r) (disable_sni r) (reduce_rtt r) (request_timeout r) (max_udp_relay_packet_size r)).
Definition set_certificates (x : list string) := on_relay (fun r =>
  MkRawRelay (server r) (port r) (token r) (ip r) x (udp_relay_mode r) (congestion_controller r)
    (heartbeat_interval r) (alpn r) (disable_sni r) (reduce_rtt r) (request_timeout r) (max_udp_relay_packet_size r)).
Definition set_mode (x : UdpRelayMode) := on_relay (fun r =>
  MkRawRelay (server r) (port r) (token r) (ip r) (certificates r) x (congestion_controller r)
    (heartbeat_interval r) (alpn r) (disable_sni r) (reduce_rtt r) (request_timeout r) (max_udp_relay_packet_size r)).
Definition set_controller (x : CongestionController) := on_relay (fun r =>
  MkRawRelay (server r) (port r) (token r) (ip r) (certificates r) (udp_relay_mode r) x
    (heartbeat_interval r) (alpn r) (disable_sni r) (reduce_rtt r) (request_timeout r) (max_udp_relay_packet_size r)).
Definition set_heartbeat (x : Z) := on_relay (fun r =>
  MkRawRelay (server r) (port r) (token r) (ip r) (certificates r) (udp_relay_mode r) (congestion_controller r)
    x (alpn r) (disable_sni r) (reduce_rtt r) (request_timeout r) (max_udp_relay_packet_size r)).
Definition set_alpn (x : list string) := on_relay (fun r =>
  MkRawRelay (server r) (port r) (token r) (ip r) (certificates r) (udp_relay_mode r) (congestion_controller r)
    (heartbeat_interval r) x (disable_sni r) (reduce_rtt r) (request_timeout r) (max_udp_relay_packet_size r)).
Definition or_flags (sni rtt : bool) := on_relay (fun r =>
  MkRawRelay (server r) (port r) (token r) (ip r) (certificates r) (udp_relay_mode r) (congestion_controller r)
    (heartbeat_interval r) (alpn r) (disable_sni r || sni) (reduce_rtt r || rtt) (request_timeout r)
    (max_udp_relay_packet_size r)).
Definition set_timeout (x : Z) := on_relay (fun r =>
  MkRawRelay (server r) (port r) (token r) (ip r) (certificates r) (udp_relay_mode r) (congestion_controller r)
    (heartbeat_interval r) (alpn r) (disable_sni r) (reduce_rtt r) x (max_udp_relay_packet_size r)).
Definition set_max_size (x : Z) := on_relay (fun r =>
  MkRawRelay (server r) (port r) (token r) (ip r) (certificates r) (udp_relay_mode r) (congestion_controller r)
    (heartbeat_interval r) (alpn r) (disable_sni r) (reduce_rtt r) (request_timeout r) x).
Definition set_local_ip (x : IpAddr) := on_local (fun l => MkRawLocal (local_port l) x (username l) (password l)).
Definition set_credentials (u p : option string) := on_local (fun l =>
  MkRawLocal (local_port l) (local_ip l) (or_else u (username l)) (or_else p (password l))).
Definition set_log_level (x : LevelFilter) (r : RawConfig) := MkRaw (relay r) (local r) x.

Definition options : list Opt :=
  [ OptOpt "c" "config"; OptOpt "" "server"; OptOpt "" "server-port"; OptOpt "" "token"; OptOpt "" "server-ip";
    OptOpt "" "certificate"; OptOpt "" "udp-relay-mode"; OptOpt "" "congestion-controller";
    OptOpt "" "heartbeat-interval"; OptOpt "" "alpn"; OptFlag "" "disable-sni"; OptFlag "" "reduce-rtt";
    OptOpt "" "request-timeout"; OptOpt "" "max-udp-relay-packet-size"; OptOpt "" "local-port";
    OptOpt "" "local-ip"; OptOpt "" "local-username"; OptOpt "" "local-password"; OptOpt "" "log-level";
    OptFlag "v" "version"; OptFlag "h" "help" ].

Definition parse_int (w : Z) (s : string) : result ConfigError Z := map_err ParseInt (parse_uint w s).
Definition parse_addr (s : string) : result ConfigError IpAddr := map_err ParseAddr (parse_ip s).
Definition parse_controller (s : string) : result ConfigError CongestionController :=
  ok_or (parse_congestion_controller s) InvalidCongestionController.
Definition parse_mode (s : string) : result ConfigError UdpRelayMode :=
  ok_or (parse_udp_relay_mode s) InvalidUdpRelayMode.
Definition parse_log_level (s : string) : result ConfigError LevelFilter := map_err ParseLogLevel (parse_level s).

(** What [serde_json::from_reader] makes of the content of the file. *)
Context (from_reader : bytes -> result JsonError RawConfig).

Definition from_file (path : string) : result ConfigError RawConfig :=
  file ← map_err (Io path) (read path);
  map_err ParseConfigJson (from_reader file).

(** The required options, with a configuration file or without. *)
Definition parse_required (m : Matches) : result ConfigError RawConfig :=
  let server_arg := opt_str m "server" in
  let server_port_arg := parse_int 16 <$> opt_str m "server-port" in
  let token_arg := opt_str m "token" in
  let local_port_arg := parse_int 16 <$> opt_str m "local-port" in
  match opt_str m "config" with
  | Some path =>
      raw ← from_file path;
      s ← ok_or (or_else server_arg (server (relay raw))) (MissingOption "server address");
      p ← transpose server_port_arg;
      p ← ok_or (or_else p (port (relay raw))) (MissingOption "server port");
      t ← ok_or (or_else token_arg (token (relay raw))) (MissingOption "token");
      l ← transpose local_port_arg;
      l ← ok_or (or_else l (local_port (local raw))) (MissingOption "local port");
      Ok (set_local_port l (set_relay_required s p t raw))
  | None =>
      s ← ok_or server_arg (MissingOption "server address");
      p ← ok_or server_port_arg (MissingOption "server port");
      p ← p;
      t ← ok_or token_arg (MissingOption "token");
      l ← ok_or local_port_arg (MissingOption "local port");
      l ← l;
      Ok (set_local_port l (set_relay_required s p t default_raw))
  end.

(** [RawConfig::parse] *)
Definition raw_parse (args : list string) : result ConfigError RawConfig :=
  m ← map_err ParseArgument (opts_parse options (drop 1 args));
  if opt_present m "help" then Err (Help (usage options "tuic-client"))
  else if opt_present m "version" then Err (Version "0.8.1")
  else if negb (bool_decide (free m = [])) then Err (UnexpectedArguments (String.concat ", " (free m)))
  else
    raw ← parse_required m;
    raw ← set_parsed (fun s => Some <$> parse_addr s) set_server_ip (opt_str m "server-ip") raw;
    let certificate_args := opt_strs m "certificate" in
    let raw := if negb (bool_decide (certificate_args = [])) then set_certificates certificate_args raw else raw in
    raw ← set_parsed parse_mode set_mode (opt_str m "udp-relay-mode") raw;
    raw ← set_parsed parse_controller set_controller (opt_str m "congestion-controller") raw;
    raw ← set_parsed (parse_int 64) set_heartbeat (opt_str m "heartbeat-interval") raw;
    let alpn_args := opt_strs m "alpn" in
    let raw := if negb (bool_decide (alpn_args = [])) then set_alpn alpn_args raw else raw in
    let raw := or_flags (opt_present m "disable-sni") (opt_present m "reduce-rtt") raw in
    raw ← set_parsed (parse_int 64) set_timeout (opt_str m "request-timeout") raw;
    raw ← set_parsed (parse_int 64) set_max_size (opt_str m "max-udp-relay-packet-size") raw;
    raw ← set_parsed parse_addr set_local_ip (opt_str m "local-ip") raw;
    let raw := set_credentials (opt_str m "local-username") (opt_str m "local-password") raw in
    set_parsed parse_log_level set_log_level (opt_str m "log-level") raw.

(** ** The settings of the client *)

Record ClientSettings := MkClientSettings {
  cs_roots : list bytes;
  cs_alpn : list string;
  cs_enable_early_data : bool;
  cs_enable_sni : bool;
  cs_controller : CongestionController;
  cs_max_idle_timeout : option Z }.

Record Config := MkConfig {
  client_config : ClientSettings;
  server_addr : ServerAddr;
  token_digest : bytes;
  cfg_udp_relay_mode : UdpRelayMode;
  cfg_heartbeat_interval : Z;
  cfg_reduce_rtt : bool;
  cfg_request_timeout : Z;
  cfg_max_udp_relay_packet_size : Z;
  local_addr : SocketAddr;
  socks5_auth : Socks5Auth;
  cfg_log_level : LevelFilter }.

Context (hash : string -> bytes).

(** [Config::parse] *)
Definition config_parse (args : list string) : outcome (result ConfigError Config) :=
  attempt (raw_parse args) (fun raw =>
  attempt (load_certificates (certificates (relay raw))) (fun certs =>
  let settings :=
    MkClientSettings certs (alpn (relay raw)) true (negb (disable_sni (relay raw)))
      (congestion_controller (relay raw)) None in
  unwrapping (server (relay raw)) (fun name =>
  unwrapping (port (relay raw)) (fun port =>
  let server_addr :=
    match ip (relay raw) with
    | Some ip => ServerSocketAddr (SocketAddr_from ip port) name
    | None => ServerDomainAddr name port
    end in
  unwrapping (token (relay raw)) (fun token =>
  unwrapping (local_port (local raw)) (fun local_port =>
  let local_addr := SocketAddr_from (local_ip (local raw)) local_port in
  attempt match username (local raw), password (local raw) with
          | None, None => Ok NoAuth
          | Some username, Some password => Ok (Password username password)
          | _, _ => Err LocalAuthentication
          end (fun socks5_auth =>
  Done (Ok (MkConfig settings server_addr (hash token) (udp_relay_mode (relay raw))
    (heartbeat_interval (relay raw)) (reduce_rtt (relay raw)) (request_timeout (relay raw))
    (max_udp_relay_packet_size (relay raw)) local_addr socks5_auth (log_level raw)))))))))).

(** ** Lemmas *)

(** Where the values come from when nothing is given on the command line. *)
Definition base_config (m : Matches) (base : RawConfig) : Prop :=
  match opt_str m "config" with
  | Some path => from_file path = Ok base
  | None => base = default_raw
  end.

(** The required options of a configuration that was accepted. *)
Definition required_from (m : Matches) (base raw : RawConfig) : Prop :=
  server (relay raw) = or_else (opt_str m "server") (server (relay base))
  /\ over (fun s => Some <$> parse_int 16 s) (opt_str m "server-port") (port (relay base)) = Ok (port (relay raw))
  /\ token (relay raw) = or_else (opt_str m "token") (token (relay base))
  /\ over (fun s => Some <$> parse_int 16 s) (opt_str m "local-port") (local_port (local base))
     = Ok (local_port (local raw))
  /\ is_Some (server (relay raw)) /\ is_Some (port (relay raw)) /\ is_Some (token (relay raw))
  /\ is_Some (local_port (local raw)).

(** The options of the relay that have a default. *)
Definition relay_from (m : Matches) (base raw : RawRelayConfig) : Prop :=
  over (fun s => Some <$> parse_addr s) (opt_str m "server-ip") (ip base) = Ok (ip raw)
  /\ certificates raw = (if decide (opt_strs m "certificate" = []) then certificates base else opt_strs m "certificate")
  /\ over parse_mode (opt_str m "udp-relay-mode") (udp_relay_mode base) = Ok (udp_relay_mode raw)
  /\ over parse_controller (opt_str m "congestion-controller") (congestion_controller base)
     = Ok (congestion_controller raw)
  /\ over (parse_int 64) (opt_str m "heartbeat-interval") (heartbeat_interval base) = Ok (heartbeat_interval raw)
  /\ alpn raw = (if decide (opt_strs m "alpn" = []) then alpn base else opt_strs m "alpn")
  /\ disable_sni raw = disable_sni base || opt_present m "disable-sni"
  /\ reduce_rtt raw = reduce_rtt base || opt_present m "reduce-rtt"
  /\ over (parse_int 64) (opt_str m "request-timeout") (request_timeout base) = Ok (request_timeout raw)
  /\ over (parse_int 64) (opt_str m "max-udp-relay-packet-size") (max_udp_relay_packet_size base)
     = Ok (max_udp_relay_packet_size raw).

(** The options of the local server and of the log. *)
Definition local_from (m : Matches) (base raw : RawConfig) : Prop :=
  over parse_addr (opt_str m "local-ip") (local_ip (local base)) = Ok (local_ip (local raw))
  /\ username (local raw) = or_else (opt_str m "local-username") (username (local base))
  /\ password (local raw) = or_else (opt_str m "local-password") (password (local base))
  /\ over parse_log_level (opt_str m "log-level") (log_level base) = Ok (log_level raw).

Lemma client_required_spec m raw :
  parse_required m = Ok raw ->
  exists base s p t l, base_config m base /\ raw = set_local_port l (set_relay_required s p t base)
    /\ required_from m base raw.
Proof.
  unfold parse_required, base_config, required_from. intros E. destruct (opt_str m "config") as [path|].
  - result_inv; subst. eexists _, _, _, _, _. split; [done|]. split; [done|].
    split_and!; simpl; eauto using required_over.
  - result_inv; subst. eexists _, _, _, _, _. split; [done|]. split; [done|].
    split_and!; simpl; eauto using required_given; unfold or_else; case_match; congruence.
Qed.

Lemma client_raw_parse_spec args raw :
  raw_parse args = Ok raw ->
  exists m base, opts_parse options (drop 1 args) = Ok m
    /\ opt_present m "help" = false /\ opt_present m "version" = false /\ free m = []
    /\ base_config m base /\ required_from m base raw /\ relay_from m (relay base) (relay raw)
    /\ local_from m base raw.
Proof.
  clear pem_certs add native_certs hash. intros E. unfold raw_parse in E. result_inv. rename a into m. apply negb_false_iff, bool_decide_eq_true in Heqb1.
  destruct (client_required_spec _ _ E1) as (base & s & p & t & l & Hb & Hraw & Hreq).
  apply (set_parsed_set (fun r => ip (relay r))) in E2 as (x1 & H1 & ->); [|by intros [[] ? ?]].
  apply (set_parsed_set (fun r => udp_relay_mode (relay r))) in E3 as (x2 & H2 & ->); [|by intros [[] ? ?]].
  apply (set_parsed_set (fun r => congestion_controller (relay r))) in E4 as (x3 & H3 & ->); [|by intros [[] ? ?]].
  apply (set_parsed_set (fun r => heartbeat_interval (relay r))) in E5 as (x4 & H4 & ->); [|by intros [[] ? ?]].
  apply (set_parsed_set (fun r => request_timeout (relay r))) in E6 as (x5 & H5 & ->); [|by intros [[] ? ?]].
  apply (set_parsed_set (fun r => max_udp_relay_packet_size (relay r))) in E7 as (x6 & H6 & ->); [|by intros [[] ? ?]].
  apply (set_parsed_set (fun r => local_ip (local r))) in E8 as (x7 & H7 & ->); [|by intros [? [] ?]].
  apply (set_parsed_set log_level) in E as (x8 & H8 & ->); [|by intros []].
  exists m, base. do 5 (split; [done|]). unfold required_from, relay_from, local_from in *. subst a0.
  destruct (decide (opt_strs m "certificate" = [])) as [Hc|Hc], (decide (opt_strs m "alpn" = [])) as [Ha|Ha];
    [ rewrite !bool_decide_eq_true_2 in * by done
    | rewrite (bool_decide_eq_true_2 _ Hc), (bool_decide_eq_false_2 _ Ha) in *
    | rewrite (bool_decide_eq_false_2 _ Hc), (bool_decide_eq_true_2 _ Ha) in *
    | rewrite (bool_decide_eq_false_2 _ Hc), (bool_decide_eq_false_2 _ Ha) in * ];
    by split_and!; try tauto.
Qed.

(** ** Properties *)

(** The accepted raw configuration, with the sources of its values: the command line
    gives at most one certificate and at most one ALPN protocol. *)
Definition client_sources (args : list string) (raw : RawConfig) : Prop :=
  exists m base, opts_parse options (drop 1 args) = Ok m
    /\ base_config m base /\ required_from m base raw /\ relay_from m (relay base) (relay raw)
    /\ local_from m base raw
    /\ (length (opt_strs m "certificate") <= 1)%nat /\ (length (opt_strs m "alpn") <= 1)%nat.

Lemma client_raw_sources args raw : raw_parse args = Ok raw -> client_sources args raw.
Proof.
  intros E. destruct (client_raw_parse_spec _ _ E) as (m & base & Hm & _ & _ & _ & Hb & Hr & Ho & Hl).
  exists m, base. split_and!; try done; apply (optopt_once options (drop 1 args) m "" _ Hm);
    by apply (bool_decide_unpack _).
Qed.

(** How the socks5 server authenticates, from the credentials of the configuration. *)
Definition credentials (auth : Socks5Auth) : option string * option string :=
  match auth with
  | NoAuth => (None, None)
  | Password u p => (Some u, Some p)
  end.

(** What an accepted configuration takes from the raw one: the client connects to the
    configured server (at the given address, or by its name when there is none), with
    the hash of the configured token, and its socks5 server asks for a password exactly
    when both a user name and a password are configured. *)
Definition config_from (raw : RawConfig) (cfg : Config) : Prop :=
  exists name p t lp, (server (relay raw), port (relay raw), token (relay raw)) = (Some name, Some p, Some t)
  /\ server_addr cfg = match ip (relay raw) with
                       | Some ip => ServerSocketAddr (SocketAddr_from ip p) name
                       | None => ServerDomainAddr name p
                       end
  /\ token_digest cfg = hash t
  /\ local_port (local raw) = Some lp /\ local_addr cfg = SocketAddr_from (local_ip (local raw)) lp
  /\ credentials (socks5_auth cfg) = (username (local raw), password (local raw))
  /\ cfg_udp_relay_mode cfg = udp_relay_mode (relay raw)
  /\ cfg_heartbeat_interval cfg = heartbeat_interval (relay raw)
  /\ cfg_reduce_rtt cfg = reduce_rtt (relay raw)
  /\ cfg_request_timeout cfg = request_timeout (relay raw)
  /\ cfg_max_udp_relay_packet_size cfg = max_udp_relay_packet_size (relay raw)
  /\ cfg_log_level cfg = log_level raw
  /\ cs_alpn (client_config cfg) = alpn (relay raw)
  /\ cs_enable_sni (client_config cfg) = negb (disable_sni (relay raw)).

(** [Config::parse] never panics: the options it unwraps are there whenever the
    raw configuration was accepted. A user name without a password, or the other way
    round, is refused. *)
Lemma client_config_complete args :
  config_parse args <> Panic
  /\ (forall cfg, config_parse args = Done (Ok cfg) ->
     exists raw, raw_parse args = Ok raw /\ client_sources args raw /\ config_from raw cfg)
  /\ forall raw certs, raw_parse args = Ok raw -> load_certificates (certificates (relay raw)) = Ok certs ->
     ~ (username (local raw) = None <-> password (local raw) = None) ->
     config_parse args = Done (Err LocalAuthentication).
Proof.
  unfold config_parse. destruct (raw_parse args) as [raw|e] eqn:E; simpl; [|by split_and!].
  destruct (client_raw_parse_spec _ _ E) as (m & base & _ & _ & _ & _ & _ & Hr & _).
  destruct Hr as (_ & _ & _ & _ & [s Hs] & [p Hp] & [t Ht] & [l Hl]).
  destruct (load_certificates _) as [certs|e] eqn:Ec; simpl;
    [|split_and!; [done..|intros ? ? [= <-]; by rewrite Ec]].
  rewrite Hs. simpl. rewrite Hp. simpl. rewrite Ht. simpl. rewrite Hl. simpl. split_and!.
  - by destruct (username (local raw)), (password (local raw)).
  - intros cfg Hc. exists raw. split; [done|]. split; [by apply client_raw_sources|]. exists s, p, t, l.
    destruct (username (local raw)) as [u|] eqn:Eu, (password (local raw)) as [w|] eqn:Ew; simplify_eq/=;
      rewrite ?Hs, ?Hp, ?Ht, ?Eu, ?Ew; by split_and!.
  - intros raw' certs' [= <-] _ Hne. destruct (username (local raw)), (password (local raw)); try done; by destruct Hne.
Qed.

End config.

(** ** An example *)

Definition example_read (path : string) : result io_error bytes := Ok [].
Definition example_args : list string :=
  ["tuic-client"; "--server"; "example.com"; "--server-port"; "443"; "--token"; "secret"; "--local-port"; "1080";
   "--udp-relay-mode"; "QUIC"; "--disable-sni"]%string.
