(* ===== verification/ClientConnect.v ===== *)
(** * Establishing the client's connection (client/src/relay/connection.rs:
      [Connection::connect], [connect_addr], [Connection::new], [ConnectionConfig])

    The calls to the resolver, to quinn and to the runtime are operations of a
    program; the theorem holds against every environment that answers them. *)

From S2P Require Import Prelude RustIo Protocol Async Quic ServerAuth ClientConn ConfigLib ClientConfig.

Local Open Scope Z_scope.
Local Open Scope task_scope.

Record ConnectionConfig := MkConnectionConfig {
  quinn_config : ClientSettings;
  cc_server_addr : ServerAddr;
  cc_token_digest : bytes;
  cc_udp_relay_mode : UdpRelayMode;
  cc_heartbeat_interval : Z;
  cc_reduce_rtt : bool;
  cc_max_udp_relay_packet_size : Z }.

Definition ConnectionConfig_new := MkConnectionConfig.

(** ** Calls *)

Inductive dial_op :=
| Lookup (domain : string) (port : Z)
| EndpointClient (bind : SocketAddr)
| ConnectWith (config : ClientSettings) (addr : SocketAddr) (name : string)
| Into0Rtt (connecting : nat)
| AwaitHandshake (connecting : nat)
| SpawnAuthentication (digest : bytes)
| SpawnHeartbeat (interval : Z).

(** [connect_with] fails with an error of quinn, here its text; [into_0rtt] yields the
    connection, or gives the handshake back. *)
Definition dial_resp (o : dial_op) : Type :=
  match o with
  | Lookup _ _ => result io_error (list SocketAddr)
  | EndpointClient _ => result io_error unit
  | ConnectWith _ _ _ => result string nat
  | Into0Rtt _ => option nat
  | AwaitHandshake _ => result io_error nat
  | SpawnAuthentication _ | SpawnHeartbeat _ => unit
  end.

Abbreviation dtask A := (prog dial_resp (result io_error A)).

Definition dial (o : dial_op) : prog dial_resp (dial_resp o) := call o.

(** The local address the endpoint is bound to. *)
Definition bind_addr (addr : SocketAddr) : SocketAddr :=
  match addr with
  | V4 _ => SocketAddr_from (IpV4 Ipv4_UNSPECIFIED) 0
  | V6 _ => SocketAddr_from (IpV6 Ipv6_UNSPECIFIED) 0
  end.

(** A new connection: quinn's, and the state its clones share. *)
Definition Established : Type := nat * CliConn.

(** [Connection::new]: the authentication and the heartbeat start at once. *)
Definition connection_new (connection : nat) (config : ConnectionConfig) : prog dial_resp Established :=
  let conn := cli_new (cc_udp_relay_mode config) (cc_max_udp_relay_packet_size config) None
                (MkCliNet [] [] []) ∅ in
  _ ← dial (SpawnAuthentication (cc_token_digest config));
  _ ← dial (SpawnHeartbeat (cc_heartbeat_interval config));
  mret (connection, conn).

(** [Connection::connect_addr] *)
Definition connect_addr (config : ConnectionConfig) (addr : SocketAddr) (name : string) : dtask Established :=
  _ <-? dial (EndpointClient (bind_addr addr));;
  conn <-? err_into (IoError Other) (dial (ConnectWith (quinn_config config) addr name));;
  connection <-?
    (if cc_reduce_rtt config then
       early ← dial (Into0Rtt conn);
       match early : option nat with
       | Some conn => mret (Ok conn)
       | None => dial (AwaitHandshake conn)
       end
     else dial (AwaitHandshake conn) : dtask nat);;
  conn ← connection_new connection config;
  mret (Ok conn).

(** The loop of [Connection::connect], with the last error. *)
Fixpoint connect_loop (config : ConnectionConfig) (name : string) (addrs : list SocketAddr)
    (last_err : option io_error) : dtask Established :=
  match addrs with
  | [] => mret (Err (default (IoError Other "Unable to connect to the server") last_err))
  | addr :: addrs =>
      r ← connect_addr config addr name;
      match r with
      | Ok new_conn => mret (Ok new_conn)
      | Err err => connect_loop config name addrs (Some err)
      end
  end.

(** [Connection::connect] *)
Definition connect (config : ConnectionConfig) : dtask Established :=
  match cc_server_addr config with
  | ServerSocketAddr addr name => connect_loop config name [addr] None
  | ServerDomainAddr domain port =>
      addrs <-? dial (Lookup domain port);;
      connect_loop config domain addrs None
  end.

(** ** Runs *)

Section runs.
Context (env : environment dial_resp) (config : ConnectionConfig).

(** What a run asked of the network, in order: the names and ports looked up, the local
    addresses bound (and whether that succeeded), and the addresses dialled with which
    configuration and under which name. *)
Inductive contact :=
| ContactLookup (domain : string) (port : Z)
| ContactBind (bind : SocketAddr) (ok : bool)
| ContactDial (config : ClientSettings) (addr : SocketAddr) (name : string).

Definition contact_of (e : event dial_resp) : option contact :=
  match e with
  | Event (Lookup domain port) _ => Some (ContactLookup domain port)
  | Event (EndpointClient bind) r => Some (ContactBind bind (is_ok r))
  | Event (ConnectWith cfg addr name) _ => Some (ContactDial cfg addr name)
  | _ => None
  end.

Definition contacts (tr : list (event dial_resp)) : list contact := omap contact_of tr.

(** The tasks started, in order. *)
Definition started (tr : list (event dial_resp)) : list (bytes + Z) :=
  omap (fun e => match ev_op e with
                 | SpawnAuthentication d => Some (inl d)
                 | SpawnHeartbeat i => Some (inr i)
                 | _ => None
                 end) tr.
Definition early (tr : list (event dial_resp)) : list nat :=
  omap (fun e => match ev_op e with Into0Rtt c => Some c | _ => None end) tr.

(** What [Connection::new] starts. *)
Definition new_tasks : list (bytes + Z) := [inl (cc_token_digest config); inr (cc_heartbeat_interval config)].

(** The state of a connection made with the configuration. *)
Definition configured (c : CliConn) : Prop :=
  ClientConn.udp_relay_mode c = cc_udp_relay_mode config
  /\ default_max_udp_relay_packet_size c = cc_max_udp_relay_packet_size config
  /\ stream_reg c = StreamRegister.new /\ cli_sessions c = ∅.

(** An attempt at [addr]: a local address of the same family, and when that was bound
    ([ok]) the address itself. *)
Definition attempt (name : string) (addr : SocketAddr) (ok : bool) : list contact :=
  ContactBind (bind_addr addr) ok :: if ok then [ContactDial (quinn_config config) addr name] else [].

Definition attempts (name : string) (addrs : list SocketAddr) (oks : list bool) : list contact :=
  concat (zip_with (attempt name) addrs oks).

(** quinn's connection [q] is the one that was dialled at [addr]: its handshake finished,
    or it could be used before that (0-RTT). *)
Definition answered (name : string) (addr : SocketAddr) (q : nat) (tr : list (event dial_resp)) : Prop :=
  exists conn, Event (resp := dial_resp) (ConnectWith (quinn_config config) addr name) (Ok conn) ∈ tr
  /\ (Event (resp := dial_resp) (AwaitHandshake conn) (Ok q) ∈ tr
      \/ cc_reduce_rtt config = true /\ Event (resp := dial_resp) (Into0Rtt conn) (Some q) ∈ tr).

Lemma answered_app name addr q tr tr' : answered name addr q tr' -> answered name addr q (tr ++ tr').
Proof. intros (conn & H1 & H2). exists conn. rewrite !elem_of_app. tauto. Qed.

(** An attempt succeeded or failed, after what [tr] records. *)
Definition attempted (addr : SocketAddr) (name : string) (r : outcome (result io_error Established))
    (tr : list (event dial_resp)) : Prop :=
  (cc_reduce_rtt config = false -> early tr = [])
  /\ match r with
     | Done (Ok (q, c)) =>
         contacts tr = attempt name addr true /\ answered name addr q tr /\ started tr = new_tasks /\ configured c
     | Done (Err _) => (exists ok, contacts tr = attempt name addr ok) /\ started tr = []
     | Panic => False
     end.

Lemma connect_addr_run past addr name r tr :
  perform env past (connect_addr config addr name) = (r, tr) ->
  exists tr', tr = past ++ tr' /\ attempted addr name r tr'.
Proof.
  intros E. unfold connect_addr in E. simpl in E.
  destruct (cc_reduce_rtt config) eqn:Er; simpl in E;
    repeat (match type of E with context [env ?past ?o] => destruct (env past o) end; simpl in E);
    injection E as <- <-; rewrite <- ?app_assoc; (eexists; split; [reflexivity|]); unfold attempted, configured;
    rewrite ?Er; cbn; split_and!; try done;
    first [by exists true|by exists false|
      eexists; (split; [right; left|]); rewrite ?Er;
      first [left; do 2 right; left|left; do 3 right; left|right; split; [done|]; do 2 right; left]].
Qed.

(** The loop tries the addresses in order until one answers. *)
Lemma connect_loop_run past name addrs le r tr :
  perform env past (connect_loop config name addrs le) = (r, tr) ->
  exists tr' oks, tr = past ++ tr' /\ (cc_reduce_rtt config = false -> early tr' = [])
  /\ match r with
     | Done (Ok (q, c)) =>
         (exists pre a post, addrs = pre ++ a :: post /\ length oks = length pre /\ answered name a q tr'
            /\ contacts tr' = attempts name pre oks ++ attempt name a true)
         /\ started tr' = new_tasks /\ configured c
     | Done (Err e) =>
         length oks = length addrs /\ contacts tr' = attempts name addrs oks /\ started tr' = []
         /\ (addrs = [] -> e = default (IoError Other "Unable to connect to the server") le)
     | Panic => False
     end.
Proof.
  revert past le. induction addrs as [|addr addrs IH]; intros past le E; cbn [connect_loop] in E.
  - injection E as <- <-. exists [], []. by rewrite app_nil_r.
  - rewrite perform_bind in E. destruct (perform env past (connect_addr config addr name)) as [r1 tr1] eqn:E1.
    destruct (connect_addr_run _ _ _ _ _ E1) as (d & -> & He & Hr). destruct r1 as [[[q c]|e]|]; [| |done].
    + injection E as <- <-. destruct Hr as (Hd & Hq & Hs & Hc). exists d, []. split_and!; try done.
      by exists [], addr, addrs.
    + destruct (IH _ _ E) as (d' & oks & -> & He' & Hr'). destruct Hr as [[ok Hd] Hs].
      exists (d ++ d'), (ok :: oks). rewrite app_assoc. split; [done|].
      unfold contacts, early, started in *. rewrite !omap_app, Hd, Hs.
      split; [intros Hz; by rewrite (He Hz), (He' Hz)|]. destruct r as [[[q c]|e']|]; [| |done].
      * destruct Hr' as ((pre & a & post & -> & Hl & Hq & Hla) & Hs' & Hc). split_and!; [|by rewrite Hs'|done].
        exists (addr :: pre), a, post. rewrite Hla. cbn. rewrite Hl. split_and!; [done|done|by apply answered_app|].
        unfold attempts. cbn. by rewrite <- !app_assoc.
      * destruct Hr' as (Hl & Hc & Hs' & _). cbn. rewrite Hl, Hc, Hs'. by split_and!.
Qed.

(** The lookup of the server's address: of the configured name and port, or none. *)
Definition resolution : list contact :=
  match cc_server_addr config with
  | ServerSocketAddr _ _ => []
  | ServerDomainAddr domain port => [ContactLookup domain port]
  end.

(** The addresses to try: the configured one, or what the lookup of the configured
    name and port found. *)
Definition candidates (tr : list (event dial_resp)) : option (list SocketAddr) :=
  match cc_server_addr config with
  | ServerSocketAddr addr _ => Some [addr]
  | ServerDomainAddr domain port =>
      match tr with
      | Event (Lookup domain' port') (Ok addrs) :: _ =>
          if decide (domain' = domain /\ port' = port) then Some addrs else None
      | _ => None
      end
  end.

(** The name the certificate is checked against. *)
Definition server_name : string :=
  match cc_server_addr config with
  | ServerSocketAddr _ name => name
  | ServerDomainAddr domain _ => domain
  end.

(** What a run of [Connection::connect] with the result [r] may have done. *)
Definition connect_spec (r : outcome (result io_error Established)) (tr : list (event dial_resp)) : Prop :=
  (cc_reduce_rtt config = false -> early tr = [])
  /\ match r with
     | Done (Ok (q, c)) =>
         (exists addrs pre a post oks, candidates tr = Some addrs /\ addrs = pre ++ a :: post
            /\ length oks = length pre /\ answered server_name a q tr
            /\ contacts tr = resolution ++ attempts server_name pre oks ++ attempt server_name a true)
         /\ started tr = new_tasks /\ configured c
     | Done (Err e) =>
         ((candidates tr = None /\ contacts tr = resolution)
          \/ exists addrs oks, candidates tr = Some addrs /\ length oks = length addrs
             /\ contacts tr = resolution ++ attempts server_name addrs oks
             /\ (addrs = [] -> e = IoError Other "Unable to connect to the server"))
         /\ started tr = []
     | Panic => False
     end.

(** The loop, after a lookup or none. *)
Lemma loop_spec past addrs r tr :
  contacts past = resolution -> started past = [] -> early past = [] ->
  (forall d, candidates (past ++ d) = Some addrs) ->
  perform env past (connect_loop config server_name addrs None) = (r, tr) -> connect_spec r tr.
Proof.
  intros Hb0 Hs0 He0 Hc0 E.
  destruct (connect_loop_run _ _ _ _ _ _ E) as (d & oks & -> & He & Hr). unfold connect_spec.
  unfold contacts, started, early in *. rewrite Hc0, !omap_app, Hb0, Hs0, He0. split; [done|].
  destruct r as [[[q c]|e]|]; [| |done].
  - destruct Hr as ((pre & a & post & Ht & Hl & Hq & Hd) & Hs & Hc). split_and!; [|done|done].
    exists addrs, pre, a, post, oks. rewrite Hd. by split_and!; try apply answered_app.
  - destruct Hr as (Hl & Hd & Hs & Hn). split; [|done]. right. exists addrs, oks. by rewrite Hd.
Qed.

Lemma connection_runs r tr :
  perform env [] (connect config) = (r, tr) -> connect_spec r tr.
Proof.
  intros E. unfold connect in E.
  destruct (cc_server_addr config) as [addr name|domain port] eqn:Ea.
  - apply (loop_spec [] [addr]); [|done..| |]; unfold candidates, server_name, resolution; by rewrite Ea.
  - cbn in E. destruct (env [] (Lookup domain port)) as [addrs|e] eqn:El.
    + apply (loop_spec [Event (Lookup domain port) (Ok addrs)] addrs); [|done..| |];
        unfold candidates, server_name, resolution; rewrite Ea; [done| |done].
      intros d. cbn. by rewrite decide_True.
    + injection E as <- <-. split; [done|]. split; [|done]. left. unfold candidates, resolution. by rewrite Ea.
Qed.

(** In any case the run made the lookup, then attempts at the first of the addresses it
    found. *)
Lemma connect_spec_contacts r tr :
  connect_spec r tr ->
  exists tried oks, contacts tr = resolution ++ attempts server_name tried oks /\ length oks = length tried
  /\ tried `prefix_of` default [] (candidates tr).
Proof.
  intros [_ H]. destruct r as [[[q c]|e]|]; [| |done].
  - destruct H as ((addrs & pre & a & post & oks & -> & -> & Hl & _ & Hc) & _). exists (pre ++ [a]), (oks ++ [true]).
    rewrite Hc, !length_app, Hl. split_and!; [|done|exists post; cbn; by rewrite <- app_assoc].
    unfold attempts. rewrite zip_with_app by done. by rewrite concat_app.
  - destruct H as ([[-> Hc]|(addrs & oks & -> & Hl & Hc & _)] & _).
    + exists [], []. by rewrite Hc, app_nil_r.
    + by exists addrs, oks.
Qed.

(** C17: [Connection::connect] never panics, and this is all it asks of the network: it
    looks up exactly the configured name and port (nothing when an address is
    configured), then tries the addresses of the server in order (the configured one,
    or those that lookup found), binding for each a local address of its own family
    and, when that succeeded, dialling it with the configured settings under the
    configured name, until one answers: the connection is the last one dialled, it
    has the configured mode and packet size, and exactly the authentication with the
    configured token and the heartbeat were started. Otherwise the lookup failed or
    all addresses were tried, and nothing was started. The handshake is never skipped
    unless 0-RTT is configured. *)
Theorem client_connects r tr :
  perform env [] (connect config) = (r, tr) -> connect_spec r tr.
Proof. apply connection_runs. Qed.

End runs.

(** ** Witness *)

(** A lookup with two addresses, of which the second answers, with 0-RTT. *)
Definition example_addr (b : Z) : SocketAddr := V4 (MkSocketAddrV4 (MkIpv4 10 0 0 b) 443).

Definition example_env : environment dial_resp := fun past o =>
  match o with
  | Lookup _ _ => Ok [example_addr 1; example_addr 2]
  | EndpointClient _ => Ok tt
  | ConnectWith _ a _ => if decide (a = example_addr 2) then Ok 5%nat else Err "unreachable"%string
  | Into0Rtt _ => None
  | AwaitHandshake c => Ok c
  | SpawnAuthentication _ | SpawnHeartbeat _ => tt
  end.

Definition example_config : ConnectionConfig :=
  MkConnectionConfig (MkClientSettings [] [] true true Cubic None) (ServerDomainAddr "example.com" 443) [1] Native
    10000 true 1500.

Definition example_run := perform example_env [] (connect example_config).

Lemma client_connects_witness :
  let dialling b := [ContactBind (bind_addr (example_addr b)) true;
                     ContactDial (quinn_config example_config) (example_addr b) "example.com"] in
  contacts example_run.2 = ContactLookup "example.com" 443 :: dialling 1 ++ dialling 2
  /\ started example_run.2 = new_tasks example_config.
Proof.
  assert (exists q c tr, example_run = (Done (Ok (q, c)), tr)) as (q & c & tr & E) by (do 3 eexists; by vm_compute).
  destruct (client_connects example_env example_config _ _ E) as (_ & _ & Hs & _).
  rewrite E. split; [|exact Hs]. vm_compute in E. injection E as _ _ <-. by vm_compute.
Defined.
