(* ===== verification/ClientMain.v ===== *)
(** * The client program (client/src/main.rs, client/src/relay/mod.rs,
      client/src/socks5/mod.rs)

    [relay::init], [Socks5::init] and [Socks5::run] and the program around them, over
    the calls they make to the operating system and to the runtime. The relay and the
    socks5 server run in one [select!]; in which order they are polled, and what the
    listener accepts meanwhile, is an argument. *)

From S2P Require Import Prelude RustIo Protocol Async Quic ServerAuth ClientConn ClientTask ClientHandlers ClientManage.
From S2P Require Import Socks5 ConfigLib ClientConfig ClientConnect.

Local Open Scope Z_scope.
Local Open Scope task_scope.

(** ** relay/mod.rs *)

(** What the tasks of the relay start with: the configuration of its connections, the
    mutex with the state of the three tasks, the two ends of the channel for
    incoming connections, the time a request may wait. *)
Record Relay := MkRelay {
  rl_config : ConnectionConfig;
  rl_state : Mgr;
  rl_incoming_tx : UdpRelayMode;
  rl_incoming_rx : UdpRelayMode;
  rl_timeout : Z }.

Definition relay_init (quinn_config : ClientSettings) (server_addr : ServerAddr) (token_digest : bytes)
    (heartbeat_interval : Z) (reduce_rtt : bool) (udp_relay_mode : UdpRelayMode) (req_timeout : Z)
    (max_udp_relay_packet_size : Z) : Relay :=
  let config := ConnectionConfig_new quinn_config server_addr token_digest udp_relay_mode heartbeat_interval
                  reduce_rtt max_udp_relay_packet_size in
  let '(incoming_tx, incoming_rx) :=
    match udp_relay_mode with
    | Native => (Native, Native)
    | Quic => (Quic, Quic)
    end in
  MkRelay config mgr_init incoming_tx incoming_rx req_timeout.

Section program.
Context `{G : Getopts} {LevelFilter ParseLevelError JsonError WebpkiError : Type}.

(** What [eprintln!] prints. *)
Inductive failure :=
| ConfigFailure (e : ConfigError (ParseLevelError := ParseLevelError) (JsonError := JsonError)
                       (WebpkiError := WebpkiError))
| IoFailure (e : io_error).

Inductive os_op :=
| Println (text : string)
| Eprintln (e : failure)
| InitLogger (level : LevelFilter)
| TcpBind (addr : SocketAddr)
| SocketNewV6
| SetOnlyV6 (b : bool)
| SocketBind (addr : SocketAddr)
| SocketListen (backlog : Z)
| FromStd
| LocalAddr
| SpawnRelay (relay : Relay)
| SpawnConnection (conn : nat) (auth : Socks5Auth)
| ProcessExit (code : Z).

Definition os_resp (o : os_op) : Type :=
  match o with
  | TcpBind _ | SocketNewV6 | SetOnlyV6 _ | SocketBind _ | SocketListen _ | FromStd => result io_error unit
  | LocalAddr => result io_error SocketAddr
  | Println _ | Eprintln _ | InitLogger _ | SpawnRelay _ | SpawnConnection _ _ | ProcessExit _ => unit
  end.

Definition os (o : os_op) : prog os_resp (os_resp o) := call o.

(** ** socks5/mod.rs *)

Definition is_ipv4 (addr : SocketAddr) : bool :=
  match addr with
  | V4 _ => true
  | V6 _ => false
  end.

(** [Socks5::init]: the server keeps how it authenticates. *)
Definition socks5_init (local_addr : SocketAddr) (auth : Socks5Auth) : prog os_resp (result io_error Socks5Auth) :=
  _ <-? (if is_ipv4 local_addr then os (TcpBind local_addr)
         else
           _ <-? os SocketNewV6;;
           _ <-? os (SetOnlyV6 false);;
           _ <-? os (SocketBind local_addr);;
           _ <-? os (SocketListen 128);;
           os FromStd : prog os_resp (result io_error unit));;
  mret (Ok auth).

(** The loop of [Socks5::run], over what [accept] returns. *)
Fixpoint accept_loop (auth : Socks5Auth) (accepted : list (result io_error nat)) : prog os_resp unit :=
  match accepted with
  | [] => mret tt
  | Ok conn :: accepted =>
      _ ← os (SpawnConnection conn auth);
      accept_loop auth accepted
  | Err _ :: accepted => accept_loop auth accepted
  end.

(** The beginning of [Socks5::run], in its first poll; [false] when it returns. *)
Definition socks5_start (running : bool) : prog os_resp bool :=
  if running then mret true
  else
    addr ← os LocalAddr;
    match addr : result io_error SocketAddr with
    | Ok _ => mret true
    | Err _ => mret false
    end.

(** ** main.rs *)

(** One poll of a branch of the [select!], with the connections accepted in it. *)
Inductive poll :=
| PollRelay
| PollSocks5 (accepted : list (result io_error nat)).

(** The [select!]: a branch starts with its first poll; [Socks5::run] returns when it
    cannot tell its address. After the last poll a task of the relay has ended. *)
Fixpoint select (relay : Relay) (auth : Socks5Auth) (relay_on socks5_on : bool) (polls : list poll) : prog os_resp unit :=
  match polls with
  | [] => mret tt
  | PollRelay :: polls =>
      _ ← (if relay_on then mret tt else os (SpawnRelay relay) : prog os_resp unit);
      select relay auth true socks5_on polls
  | PollSocks5 accepted :: polls =>
      started ← socks5_start socks5_on;
      if started : bool then
        _ ← accept_loop auth accepted;
        select relay auth relay_on true polls
      else mret tt
  end.

Context (read : string -> result io_error bytes) (pem_certs : bytes -> list bytes)
  (add : bytes -> result WebpkiError unit) (native_certs : result io_error (list bytes))
  (level_info : LevelFilter) (parse_level : string -> result ParseLevelError LevelFilter)
  (from_reader : bytes -> result JsonError (RawConfig (LevelFilter := LevelFilter)))
  (hash : string -> bytes).

Abbreviation parse_config :=
  (config_parse read pem_certs add native_certs level_info parse_level from_reader hash).

Definition main (args : list string) (polls : list poll) : prog os_resp unit :=
  config ← or_panic (parse_config args);
  match config with
  | Err (Help help) => os (Println help)
  | Err (Version version) => os (Println version)
  | Err err => os (Eprintln (ConfigFailure err))
  | Ok cfg =>
      _ ← os (InitLogger (cfg_log_level cfg));
      let relay := relay_init (client_config cfg) (server_addr cfg) (token_digest cfg) (cfg_heartbeat_interval cfg)
                     (cfg_reduce_rtt cfg) (cfg_udp_relay_mode cfg) (cfg_request_timeout cfg)
                     (cfg_max_udp_relay_packet_size cfg) in
      socks5 ← socks5_init (local_addr cfg) (socks5_auth cfg);
      match socks5 with
      | Err err => os (Eprintln (IoFailure err))
      | Ok socks5 =>
          _ ← select relay socks5 false false polls;
          os (ProcessExit 1)
      end
  end.

(** ** Runs *)

(** The addresses bound, the relays started, the connections served with how they
    authenticate. *)
Definition bound (tr : list (event os_resp)) : list SocketAddr :=
  omap (fun e => match ev_op e with TcpBind a | SocketBind a => Some a | _ => None end) tr.
Definition relays (tr : list (event os_resp)) : list Relay :=
  omap (fun e => match ev_op e with SpawnRelay rl => Some rl | _ => None end) tr.
Definition served (tr : list (event os_resp)) : list (nat * Socks5Auth) :=
  omap (fun e => match ev_op e with SpawnConnection c a => Some (c, a) | _ => None end) tr.

(** The errors the calls of [Socks5::init] returned. *)
Definition event_error (e : event os_resp) : option io_error :=
  match e with
  | Event o r =>
      match o return os_resp o -> option io_error with
      | TcpBind _ | SocketNewV6 | SetOnlyV6 _ | SocketBind _ | SocketListen _ | FromStd =>
          fun r => match r with Ok _ => None | Err e => Some e end
      | _ => fun _ => None
      end r
  end.
Definition errors (tr : list (event os_resp)) : list io_error := omap event_error tr.

(** The socks5 server could not tell its own address. *)
Definition local_failed (tr : list (event os_resp)) : Prop := exists e, Event LocalAddr (Err e) ∈ tr.

Ltac unfold_runs := unfold bound, relays, served, errors in *.

(** The connections that [accept] returned. *)
Definition oks (accepted : list (result io_error nat)) : list nat :=
  omap (fun a => match a with Ok c => Some c | Err _ => None end) accepted.
Definition all_accepted (polls : list poll) : list nat :=
  p ← polls; match p with PollRelay => [] | PollSocks5 accepted => oks accepted end.

Lemma accept_loop_trace (env : environment os_resp) auth accepted past :
  exists d, perform env past (accept_loop auth accepted) = (Done tt, past ++ d)
  /\ bound d = [] /\ relays d = [] /\ served d = (., auth) <$> oks accepted.
Proof.
  revert past. induction accepted as [|[c|e] accepted IH]; intros past; [exists []; by rewrite app_nil_r| |apply IH].
  cbn [accept_loop]. cbn. edestruct IH as (d & E & Hb & Hr & Hs). rewrite E.
  eexists. rewrite <- app_assoc. split; [reflexivity|]. unfold_runs. cbn. by rewrite Hb, Hr, Hs.
Qed.

(** What a run of the [select!] does. *)
Definition select_spec (relay : Relay) (auth : Socks5Auth) (relay_on socks5_on : bool) (polls : list poll)
    (d : list (event os_resp)) : Prop :=
  bound d = [] /\ relays d `prefix_of` (if relay_on then [] else [relay])
  /\ ((served d = (., auth) <$> all_accepted polls /\ (relay_on = false -> PollRelay ∈ polls -> relays d = [relay]))
      \/ (served d = [] /\ socks5_on = false /\ local_failed d)).

Lemma select_trace (env : environment os_resp) relay auth relay_on socks5_on polls past :
  exists d, perform env past (select relay auth relay_on socks5_on polls) = (Done tt, past ++ d)
  /\ select_spec relay auth relay_on socks5_on polls d.
Proof.
  revert past relay_on socks5_on. induction polls as [|[|accepted] polls IH]; intros past relay_on socks5_on.
  - exists []. rewrite app_nil_r. split; [done|]. split_and!; [done|apply prefix_nil|]. left. split; [done|]. set_solver.
  - cbn [select]. destruct relay_on; cbn [os call mbind prog_bind perform].
    + destruct (IH past true socks5_on) as (d & E & Hb & Hr & Ho). exists d. split; [exact E|].
      split_and!; [done..|]. destruct Ho as [[Hs _]|Ho]; [left; by split|by right].
    + match goal with |- context [perform env ?q _] => destruct (IH q true socks5_on) as (d & E & Hb & Hr & Ho) end. rewrite E. eexists. rewrite <- app_assoc.
      split; [reflexivity|]. apply prefix_nil_inv in Hr. unfold select_spec. unfold_runs. cbn. rewrite Hb, Hr.
      split_and!; [done..|]. destruct Ho as [[Hs _]|(Hs & Hf & e & He)]; [by left; split|].
      right. split_and!; [done..|]. exists e. by right.
  - cbn [select]. rewrite perform_bind.
    assert (exists d ok, perform env past (socks5_start socks5_on) = (Done ok, past ++ d)
      /\ bound d = [] /\ relays d = [] /\ served d = [] /\ (ok = false -> socks5_on = false /\ local_failed d))
      as (d0 & ok & E0 & Hb0 & Hr0 & Hs0 & Hok).
    { destruct socks5_on; cbn; [exists [], true; by rewrite app_nil_r|].
      destruct (env past LocalAddr) as [a|e] eqn:El; eexists _, _; (split; [reflexivity|]); split_and!; try done.
      intros _. split; [done|]. exists e. by left. }
    rewrite E0. destruct ok.
    + rewrite perform_bind. destruct (accept_loop_trace env auth accepted (past ++ d0)) as (d1 & E1 & Hb1 & Hr1 & Hs1).
      rewrite E1. destruct (IH ((past ++ d0) ++ d1) relay_on true) as (d2 & E2 & Hb2 & Hr2 & [[Hs2 Hp]|(_ & [=] & _)]).
      rewrite E2. exists (d0 ++ d1 ++ d2). split; [by rewrite <- !app_assoc|].
      unfold select_spec. unfold_runs. rewrite !omap_app, Hb0, Hb1, Hb2, Hr0, Hr1, Hs0, Hs1, Hs2. split_and!; [done..|].
      left. split; [by rewrite <- fmap_app|]. intros Ho Hin. apply Hp; [done|]. by apply elem_of_cons in Hin as [[=]|].
    + destruct (Hok eq_refl) as [-> Hf]. exists d0. split; [done|]. split_and!; [done| |by right].
      rewrite Hr0. apply prefix_nil.
Qed.

(** The socks5 server that [init] makes authenticates as it was told. *)
Lemma socks5_init_trace (env : environment os_resp) addr auth past r tr :
  perform env past (socks5_init addr auth) = (r, tr) ->
  exists d, tr = past ++ d /\ relays d = [] /\ served d = []
  /\ match r with
     | Done (Ok auth') => auth' = auth /\ bound d = [addr]
     | Done (Err e) => errors d = [e]
     | Panic => False
     end.
Proof.
  intros E. unfold socks5_init in E. destruct addr as [a|a]; simpl in E;
    repeat (match type of E with context [match ?x with _ => _ end] => destruct x eqn:? end; simpl in E);
    injection E as <- <-; rewrite <- ?app_assoc; (eexists; split; [reflexivity|]);
    unfold_runs; cbn; split_and!; done.
Qed.

(** A run that serves nothing says why. *)
Definition reported (args : list string) (tr : list (event os_resp)) : Prop :=
  match parse_config args with
  | Done (Err (Help text)) | Done (Err (Version text)) => ev_op <$> tr = [Println text]
  | Done (Err e) => ev_op <$> tr = [Eprintln (ConfigFailure e)]
  | Done (Ok _) => exists e, errors tr = [e] /\ ev_op <$> last tr = Some (Eprintln (IoFailure e))
  | Panic => False
  end.

(** The relay a configuration asks for. *)
Definition relay_of (cfg : Config (LevelFilter := LevelFilter)) : Relay :=
  relay_init (client_config cfg) (server_addr cfg) (token_digest cfg) (cfg_heartbeat_interval cfg)
    (cfg_reduce_rtt cfg) (cfg_udp_relay_mode cfg) (cfg_request_timeout cfg) (cfg_max_udp_relay_packet_size cfg).

(** What the connections of a relay do, in terms of the raw configuration: whatever the
    network answers, a connection looks up exactly the configured server name and
    port, or nothing when an IP address is configured; it dials, in order, only that
    address with the configured port, or addresses that this lookup found, under the
    configured name; and it starts nothing but the authentication with the hash of the
    configured token and the heartbeat. *)
Definition relay_from_raw (raw : RawConfig (LevelFilter := LevelFilter)) (rl : Relay) : Prop :=
  rl_timeout rl = request_timeout (relay raw) /\ rl_state rl = mgr_init
  /\ rl_incoming_tx rl = udp_relay_mode (relay raw) /\ rl_incoming_rx rl = udp_relay_mode (relay raw)
  /\ exists name p secret, server (relay raw) = Some name /\ port (relay raw) = Some p
  /\ token (relay raw) = Some secret
  /\ forall (env : environment dial_resp) r tr, perform env [] (connect (rl_config rl)) = (r, tr) ->
     connect_spec (rl_config rl) r tr
     /\ started tr `prefix_of` [inl (hash secret); inr (heartbeat_interval (relay raw))]
     /\ exists tried oks, length oks = length tried
        /\ match ip (relay raw) with
           | Some i =>
               contacts tr = attempts (rl_config rl) name tried oks /\ tried `prefix_of` [SocketAddr_from i p]
           | None =>
               contacts tr = ContactLookup name p :: attempts (rl_config rl) name tried oks
               /\ (tried = [] \/ exists found tr', tr = Event (Lookup name p) (Ok found) :: tr' /\ tried `prefix_of` found)
           end.

(** The addresses a connection tries come from the lookup of the configured name. *)
Lemma candidates_looked_up config tr domain port tried :
  cc_server_addr config = ServerDomainAddr domain port -> tried `prefix_of` default [] (candidates config tr) ->
  tried = [] \/ exists found tr', tr = Event (Lookup domain port) (Ok found) :: tr' /\ tried `prefix_of` found.
Proof.
  intros Ea. unfold candidates. rewrite Ea. intros H.
  destruct tr as [|[[d q| | | | | |] v] tr]; try (left; by apply prefix_nil_inv).
  destruct v as [found|e]; [|left; by apply prefix_nil_inv].
  case_decide as Hd; [|left; by apply prefix_nil_inv]. destruct Hd as [-> ->]. right. by exists found, tr.
Qed.

Lemma connection_from_raw config raw name p r tr :
  cc_server_addr config = match ip (relay (LevelFilter := LevelFilter) raw) with
                          | Some ip => ServerSocketAddr (SocketAddr_from ip p) name
                          | None => ServerDomainAddr name p
                          end ->
  connect_spec config r tr ->
  exists tried oks, length oks = length tried
  /\ match ip (relay raw) with
     | Some i => contacts tr = attempts config name tried oks /\ tried `prefix_of` [SocketAddr_from i p]
     | None =>
         contacts tr = ContactLookup name p :: attempts config name tried oks
         /\ (tried = [] \/ exists found tr', tr = Event (Lookup name p) (Ok found) :: tr' /\ tried `prefix_of` found)
     end.
Proof.
  intros Ea Hc. destruct (connect_spec_contacts _ _ _ Hc) as (tried & oks & Hn & Hl & Hp). exists tried, oks.
  split; [done|]. rewrite Hn. unfold resolution, server_name in *.
  destruct (ip (relay raw)) as [i|]; rewrite Ea; (split; [done|]).
  - unfold candidates in Hp. by rewrite Ea in Hp.
  - by apply (candidates_looked_up config).
Qed.

Lemma relay_of_raw raw cfg : config_from hash raw cfg -> relay_from_raw raw (relay_of cfg).
Proof.
  intros (name & p & secret & lp & [= Hs Hp Ht] & Ha & Hd & _ & _ & _ & Hm & Hh & Hrtt & Hto & Hsz & _).
  assert (cc_server_addr (rl_config (relay_of cfg)) = server_addr cfg
    /\ cc_token_digest (rl_config (relay_of cfg)) = token_digest cfg
    /\ cc_heartbeat_interval (rl_config (relay_of cfg)) = cfg_heartbeat_interval cfg) as (Ea & Ed & Eh).
  { unfold relay_of, relay_init. by destruct (cfg_udp_relay_mode cfg). }
  unfold relay_from_raw. split_and!;
    [unfold relay_of, relay_init; rewrite <- ?Hm, ?Hto; by destruct (cfg_udp_relay_mode cfg)..|].
  exists name, p, secret. split_and!; [done..|]. intros env r tr E. pose proof (connection_runs _ _ _ _ E) as Hc.
  split; [exact Hc|]. split.
  - destruct Hc as [_ Hc]. destruct r as [[[q c]|e]|]; [| |done].
    + destruct Hc as (_ & -> & _). unfold new_tasks. by rewrite Ed, Eh, Hd, Hh.
    + destruct Hc as [_ ->]. apply prefix_nil.
  - eapply connection_from_raw; [|done]. by rewrite Ea.
Qed.

(** Only one of user name and password is configured. *)
Definition half_credentials (args : list string) : Prop :=
  exists raw certs,
    raw_parse (WebpkiError := WebpkiError) read level_info parse_level from_reader args = Ok raw
    /\ load_certificates (G := G) (ParseLevelError := ParseLevelError) (JsonError := JsonError) read pem_certs add
         native_certs (certificates (relay raw)) = Ok certs
    /\ ~ (username (local raw) = None <-> password (local raw) = None).

(** ** Properties *)

(** C13: The client program never panics on its way to serving. When the configuration
    was accepted and its local address bound, every connection the listener accepted
    is served, in order, asking for the configured user name and password or for none,
    and the relay is started once, as soon as it is polled, with the configured
    timeout and mode: its connections look up exactly the configured server name and
    port (or nothing when its IP address is configured), dial only that address or
    what this lookup found, under the configured name, and start nothing but the
    authentication with the hash of the configured token and the heartbeat. The one
    exception is a socks5 server
    that cannot tell its own address: it serves nothing and the program ends. Every
    value comes from the command line, else from the file, else from the defaults.
    In any other case the program prints what stopped it and starts nothing; a user
    name without a password, or the other way round, is such a case. *)
Theorem client_serves_configuration (env : environment os_resp) args polls r tr :
  perform env [] (main args polls) = (r, tr) ->
  r = Done tt
  /\ (served tr = [] /\ relays tr = [] /\ reported args tr
      \/ exists raw cfg, parse_config args = Done (Ok cfg)
         /\ client_sources (WebpkiError := WebpkiError) read level_info parse_level from_reader args raw
         /\ config_from hash raw cfg
         /\ bound tr = [local_addr cfg]
         /\ (served tr = (., socks5_auth cfg) <$> all_accepted polls /\ (PollRelay ∈ polls -> relays tr = [relay_of cfg])
             \/ served tr = [] /\ local_failed tr)
         /\ relays tr `prefix_of` [relay_of cfg] /\ relay_from_raw raw (relay_of cfg))
  /\ (half_credentials args -> reported args tr /\ served tr = [] /\ relays tr = []).
Proof.
  intros E. unfold main in E.
  destruct (client_config_complete read pem_certs add native_certs level_info parse_level from_reader hash args)
    as (Hp & Hc & Ha).
  destruct (parse_config args) as [[cfg|e]|] eqn:Ec; [| |done]; cbn [or_panic mbind prog_bind] in E.
  2: { assert (r = Done tt /\ served tr = [] /\ relays tr = [] /\ reported args tr) as (-> & Hs & Hr & Hrep).
       { unfold reported. rewrite Ec. destruct e; cbn in E; injection E as <- <-; split_and!; try done; apply done_tt. }
       split; [done|]. split; [by left|]. by intros _. }
  destruct (Hc cfg eq_refl) as (raw & _ & Hs & Hf). clear Hc.
  assert (~ half_credentials args) as Hno by (intros (? & ? & H1 & H2 & H3); by specialize (Ha _ _ H1 H2 H3)).
  cbn [os call mbind prog_bind perform] in E.
  rewrite perform_bind in E. destruct (perform env _ (socks5_init _ _)) as [r1 tr1] eqn:Ei.
  destruct (socks5_init_trace _ _ _ _ _ _ Ei) as (d & -> & Hrel & Hser & Hr).
  destruct r1 as [[auth|e]|]; [| |done].
  - destruct Hr as [-> Hb]. rewrite perform_bind in E.
    match type of E with context [perform env ?q (select ?rl ?a _ _ _)] =>
      destruct (select_trace env rl a false false polls q) as (d' & Ed & Hb' & Hr' & Ho); rewrite Ed in E end.
    cbn in E. injection E as <- <-. split; [apply done_tt|]. split; [|done].
    right. exists raw, cfg. split; [done|]. split; [done|]. split; [done|].
    unfold_runs. cbn. rewrite !omap_app, Hb, Hb', Hrel, Hser. cbn. rewrite !app_nil_r. split; [done|].
    split; [|split; [done|by apply relay_of_raw]].
    destruct Ho as [[Hs' Hp']|(Hs' & _ & e & He)]; [left; split; auto|right]. split; [done|]. exists e. set_solver.
  - cbn in E. injection E as <- <-. split; [apply done_tt|]. split; [|done].
    left. unfold_runs. cbn. rewrite !omap_app, Hser, Hrel. split_and!; [done..|].
    unfold reported. unfold_runs. rewrite Ec. exists e. cbn. rewrite !omap_app, Hr.
    split; [done|]. by rewrite last_cons, last_snoc.
Qed.

End program.

(** ** Witness *)

Definition example_env : environment (os_resp (G := long_options) (LevelFilter := nat) (ParseLevelError := unit)
    (JsonError := unit) (WebpkiError := unit)) := fun _ o =>
  match o with
  | TcpBind _ | SocketNewV6 | SetOnlyV6 _ | SocketBind _ | SocketListen _ | FromStd => Ok tt
  | LocalAddr => Ok (V4 (MkSocketAddrV4 Ipv4_LOCALHOST 1080))
  | Println _ | Eprintln _ | InitLogger _ | SpawnRelay _ | SpawnConnection _ _ | ProcessExit _ => tt
  end.

Definition example_polls : list poll :=
  [PollSocks5 [Ok 1%nat]; PollRelay; PollSocks5 [Err (IoError Other "too many open files"); Ok 2%nat]].

Abbreviation example_main := (main (G := long_options) (ParseLevelError := unit) (JsonError := unit)
  (WebpkiError := unit) example_read (fun _ => []) (fun _ => Ok tt) (Ok []) 3%nat (fun _ => Err tt) (fun _ => Err tt)
  (fun _ => [])).

Abbreviation example_raw := (raw_parse (G := long_options) (ParseLevelError := unit) (JsonError := unit)
  (WebpkiError := unit) example_read 3%nat (fun _ => Err tt) (fun _ => Err tt)
  (example_args ++ ["--local-username"; "user"]%string)).

Lemma example_half :
  half_credentials (G := long_options) (ParseLevelError := unit) (JsonError := unit) (WebpkiError := unit)
    example_read (fun _ => []) (fun _ => Ok tt) (Ok []) 3%nat (fun _ => Err tt) (fun _ => Err tt)
    (example_args ++ ["--local-username"; "user"]%string).
Proof.
  assert (match example_raw with
          | Ok raw => (certificates (relay raw), username (local raw), password (local raw)) = ([], Some "user"%string, None)
          | Err _ => False
          end) as H by (vm_compute; reflexivity).
  destruct example_raw as [raw|e] eqn:E; [|done]. injection H as Hc Hu Hp. exists raw, [].
  split; [exact E|]. rewrite Hc, Hu, Hp. split; [reflexivity|]. by intros [_ H]; discriminate (H eq_refl).
Qed.

(** A client with a name and no password serves nothing; one with neither serves all. *)
Lemma client_serves_configuration_witness :
  let run args := (perform example_env [] (example_main args example_polls)).2 in
  (exists auth, served (run example_args) = [(1%nat, auth); (2%nat, auth)] /\ length (relays (run example_args)) = 1%nat)
  /\ served (run (example_args ++ ["--local-username"; "user"]%string)) = [].
Proof.
  cbv zeta. split.
  - destruct (perform example_env [] (example_main example_args example_polls)) as [r tr] eqn:E. cbn [snd].
    destruct (client_serves_configuration (G := long_options) (ParseLevelError := unit) (JsonError := unit)
      (WebpkiError := unit) example_read (fun _ => []) (fun _ => Ok tt) (Ok []) 3%nat (fun _ => Err tt)
      (fun _ => Err tt) (fun _ => []) example_env example_args example_polls r tr E) as (_ & [(H & _)|H] & _);
      apply (f_equal (fun x => length (served x.2))) in E; cbn [snd] in E.
    { rewrite H in E. by vm_compute in E. }
    destruct H as (raw & cfg & _ & _ & _ & _ & [[Hs Hr]|[Hs _]] & _).
    + exists (socks5_auth cfg). rewrite Hs, Hr; [by split|]. right. left.
    + rewrite Hs in E. by vm_compute in E.
  - destruct (perform example_env [] (example_main _ example_polls)) as [r tr] eqn:E. cbn [snd].
    apply (client_serves_configuration (G := long_options) (ParseLevelError := unit) (JsonError := unit)
      (WebpkiError := unit) example_read (fun _ => []) (fun _ => Ok tt) (Ok []) 3%nat (fun _ => Err tt)
      (fun _ => Err tt) (fun _ => []) example_env _ example_polls r tr E).
    exact example_half.
Defined.
